(** * Family-Tree-Website: relationship integrity, date validation, mutation
      orchestrator and layered layout, embedded from the TypeScript sources.

    Source files embedded here:
    - [types.ts]        the data model;
    - [validation.ts]   getDescendantIds, getAncestorIds, wouldCreateCycle,
                        parseDateInput, formatPartialDate,
                        comparePartialDates, validateBirthDeath;
    - [persistence.ts]  validateFamilyData, computeHash, timestamp and the
                        name of the exported file;
    - [PersonModal.tsx] the cells of the modal, its derived lists, the toggle
                        handlers and buildPerson;
    - [App.tsx]         mutate, handleSavePerson, handleDeletePerson, the
                        handlers that open the modal, handleImport;
    - [TreeCanvas.tsx]  assignGenerations, avgX, resolveOverlaps, centerGroup,
                        computeLayout;
    - [Sidebar.tsx]     the sorted list of persons;
    - [vite.config.ts]  the name of a snapshot file.

    Conventions.  A JS [string] is a [string]; a JS [Set<string>] is a
    duplicate-free list in insertion order; a JS [Map] is an association list
    in insertion order; an optional field is an [option]; a JS [number] that
    holds a count or a year is a [nat] or a [Z], and a coordinate is a binary64
    [float].  A [while] loop is a function with a step budget that returns
    [None] when the budget runs out, together with a proof that the budget
    given by the caller is never exhausted. *)

From Stdlib Require Import List String Ascii Bool Arith ZArith Lia.
From Stdlib Require Import Permutation Sorted.
From Stdlib Require Import Floats Uint63.
From Stdlib Require Import DecimalString DecimalZ DecimalPos.
Import ListNotations.

Set Warnings "-register-all,-inexact-float".

(** [String] also exports a [length]; [length] here is the one of lists. *)
Abbreviation length := Datatypes.length.
Open Scope list_scope.

(* ================================================================== *)
(** * JavaScript containers *)
(* ================================================================== *)

(** Arrays.  [findIndex] answers [None] where JS answers [-1]. *)
Module JSArray.

Definition includes (l : list string) (x : string) : bool :=
  existsb (String.eqb x) l.

Fixpoint findIndex {A : Type} (f : A -> bool) (l : list A) : option nat :=
  match l with
  | [] => None
  | x :: l' => if f x then Some 0 else option_map S (findIndex f l')
  end.

(** [l[i] = x] for an index inside the array.  Every index the sources write
    at comes from [findIndex] on the same array (see [findIndex_lt]), so the
    case [i >= length l], where JS would extend the array, never arises. *)
Fixpoint setAt {A : Type} (i : nat) (x : A) (l : list A) : list A :=
  match l, i with
  | [], _ => []
  | _ :: l', O => x :: l'
  | y :: l', S i' => y :: setAt i' x l'
  end.

Definition push {A : Type} (l : list A) (x : A) : list A := l ++ [x].

End JSArray.

(** [Set<string>]: [has], [add] (a no-op on a member) and [delete]. *)
Module JSSet.

Definition t := list string.

Definition empty : t := [].

Definition has (s : t) (x : string) : bool := existsb (String.eqb x) s.

Definition add (s : t) (x : string) : t := if has s x then s else s ++ [x].

Definition delete (s : t) (x : string) : t :=
  filter (fun y => negb (String.eqb y x)) s.

End JSSet.

(* ================================================================== *)
(** * types.ts *)
(* ================================================================== *)

Record PartialDate := mkPartialDate {
  year : option Z;
  date : option string  (* YYYY-MM-DD *)
}.

Record Person := mkPerson {
  id : string;
  firstName : string;
  lastName : option string;
  birth : option PartialDate;
  death : option PartialDate;
  photoDataUrl : option string;
  parentIds : list string;
  siblingIds : list string;
  notes : option string
}.

Record FamilyData := mkFamilyData {
  version : Z;
  updatedAt : string;
  people : list Person
}.

(* ================================================================== *)
(** * validation.ts: graph traversals *)
(* ================================================================== *)

(** The body of the [for (const p of people)] loop of [getDescendantIds], for
    one popped [current].  [queue] is a JS array used as a stack ([push] and
    [pop] act on its end); the list holds it top first. *)
Definition scanChildren (current : string) (people : list Person)
    (st : JSSet.t * list string) : JSSet.t * list string :=
  fold_left
    (fun (acc : JSSet.t * list string) (p : Person) =>
       let (descendants, queue) := acc in
       if JSArray.includes (parentIds p) current
          && negb (JSSet.has descendants (id p))
       then (JSSet.add descendants (id p), id p :: queue)
       else (descendants, queue))
    people st.

(** [while (queue.length > 0) { const current = queue.pop()!; ... }] *)
Fixpoint descendantsLoop (fuel : nat) (people : list Person)
    (descendants : JSSet.t) (queue : list string) : option JSSet.t :=
  match queue with
  | [] => Some descendants
  | current :: queue' =>
      match fuel with
      | O => None
      | S fuel' =>
          let (d, q) := scanChildren current people (descendants, queue') in
          descendantsLoop fuel' people d q
      end
  end.

(** One round per popped id, and an id is pushed at most once per person
    record: [1 + people.length] rounds are enough ([descendantsLoop_total]). *)
Definition descendantsFuel (people : list Person) : nat := S (length people).

Definition getDescendantIds (personId : string) (people : list Person) : JSSet.t :=
  match descendantsLoop (descendantsFuel people) people JSSet.empty [personId] with
  | Some descendants => descendants
  | None => JSSet.empty
  end.

(** The body of [for (const pid of person.parentIds)] in [getAncestorIds]. *)
Definition scanParents (pids : list string) (st : JSSet.t * list string)
    : JSSet.t * list string :=
  fold_left
    (fun (acc : JSSet.t * list string) (pid : string) =>
       let (ancestors, queue) := acc in
       if negb (JSSet.has ancestors pid)
       then (JSSet.add ancestors pid, pid :: queue)
       else (ancestors, queue))
    pids st.

Fixpoint ancestorsLoop (fuel : nat) (people : list Person)
    (ancestors : JSSet.t) (queue : list string) : option JSSet.t :=
  match queue with
  | [] => Some ancestors
  | current :: queue' =>
      match fuel with
      | O => None
      | S fuel' =>
          match find (fun p => String.eqb (id p) current) people with
          | Some person =>
              let (a, q) := scanParents (parentIds person) (ancestors, queue') in
              ancestorsLoop fuel' people a q
          | None => ancestorsLoop fuel' people ancestors queue'
          end
      end
  end.

(** Every pushed id is an entry of some [parentIds] list, pushed once. *)
Definition allParentIds (people : list Person) : list string :=
  flat_map parentIds people.

Definition ancestorsFuel (people : list Person) : nat :=
  S (length (allParentIds people)).

Definition getAncestorIds (personId : string) (people : list Person) : JSSet.t :=
  match ancestorsLoop (ancestorsFuel people) people JSSet.empty [personId] with
  | Some ancestors => ancestors
  | None => JSSet.empty
  end.

Definition wouldCreateCycle (personId candidateParentId : string)
    (people : list Person) : bool :=
  if String.eqb personId candidateParentId then true
  else
    let descendants := getDescendantIds personId people in
    JSSet.has descendants candidateParentId.

(* ================================================================== *)
(** * validation.ts: partial dates *)
(* ================================================================== *)

(** Truthiness of an optional string field: defined and not empty. *)
Definition truthyString (s : option string) : option string :=
  match s with
  | Some s' => if String.eqb s' EmptyString then None else Some s'
  | None => None
  end.

(** [number | null]; the three numbers returned are [-1], [0] and [1]. *)
Definition comparePartialDates (a b : option PartialDate) : option Z :=
  match a, b with
  | Some a, Some b =>
      match truthyString (date a), truthyString (date b) with
      | Some da, Some db =>
          if String.ltb da db then Some (-1)%Z
          else if String.ltb db da then Some 1%Z
          else Some 0%Z
      | _, _ =>
          match year a, year b with
          | Some ya, Some yb =>
              if (ya <? yb)%Z then Some (-1)%Z
              else if (yb <? ya)%Z then Some 1%Z
              else Some 0%Z
          | _, _ => None
          end
      end
  | _, _ => None
  end.

Definition birthDeathMessage : string :=
  "Birth date must be before or equal to death date".

Definition validateBirthDeath (birth death : option PartialDate) : option string :=
  match comparePartialDates birth death with
  | Some cmp => if (0 <? cmp)%Z then Some birthDeathMessage else None
  | None => None
  end.

(* ================================================================== *)
(** * persistence.ts *)
(* ================================================================== *)

(** What [JSON.parse] returns ([unknown] in the source).  Numbers of the
    documents considered are integers; an object lists its properties in
    order, each key once. *)
Inductive JSON :=
| JNull
| JBool (b : bool)
| JNumber (n : Z)
| JString (s : string)
| JArray (items : list JSON)
| JObject (fields : list (string * JSON)).

Module JSObject.

(** A property read; [None] is [undefined]. *)
Fixpoint get (k : string) (o : list (string * JSON)) : option JSON :=
  match o with
  | [] => None
  | (k', v) :: o' => if String.eqb k' k then Some v else get k o'
  end.

(** A property write: in place when the key exists, appended otherwise. *)
Fixpoint set (k : string) (v : JSON) (o : list (string * JSON))
    : list (string * JSON) :=
  match o with
  | [] => [(k, v)]
  | (k', v') :: o' =>
      if String.eqb k' k then (k', v) :: o' else (k', v') :: set k v o'
  end.

End JSObject.

(** The checks of one iteration of [for (const p of d.people)].  [None] is
    [return false]; [Some p'] is the person after the in-place migration.
    An array passes [typeof p === 'object'] but has no [id] property, so it
    fails the next check like every other non-object. *)
Definition validatePersonShape (p : JSON) : option JSON :=
  match p with
  | JObject person =>
      match JSObject.get "id" person with
      | Some (JString _) =>
          match JSObject.get "firstName" person with
          | Some (JString _) =>
              match JSObject.get "parentIds" person with
              | Some (JArray _) =>
                  match JSObject.get "siblingIds" person with
                  | Some (JArray _) => Some p
                  | _ => Some (JObject (JSObject.set "siblingIds" (JArray []) person))
                  end
              | _ => None
              end
          | _ => None
          end
      | _ => None
      end
  | _ => None
  end.

Fixpoint validatePeopleShape (ps : list JSON) : option (list JSON) :=
  match ps with
  | [] => Some []
  | p :: ps' =>
      match validatePersonShape p with
      | Some p' => option_map (cons p') (validatePeopleShape ps')
      | None => None
      end
  end.

(** [validateFamilyData(obj): obj is FamilyData].  [None] is [false]; [Some d]
    is [true] together with the object as the migration left it (on [false]
    the caller drops the object, so its state does not matter). *)
Definition validateFamilyData (obj : JSON) : option JSON :=
  match obj with
  | JObject d =>
      match JSObject.get "version" d with
      | Some (JNumber 1%Z) =>
          match JSObject.get "updatedAt" d with
          | Some (JString _) =>
              match JSObject.get "people" d with
              | Some (JArray ps) =>
                  match validatePeopleShape ps with
                  | Some ps' => Some (JObject (JSObject.set "people" (JArray ps') d))
                  | None => None
                  end
              | _ => None
              end
          | _ => None
          end
      | _ => None
      end
  | _ => None
  end.

(** The typed reading of a validated document: what the fields hold when the
    document is used at type [FamilyData].  The type guard checks none of the
    optional fields nor the elements of the id arrays, so a document whose
    fields have other types has no typed reading ([None]). *)
Module Decode.

Definition optString (v : option JSON) : option (option string) :=
  match v with
  | None | Some JNull => Some None
  | Some (JString s) => Some (Some s)
  | _ => None
  end.

Definition optNumber (v : option JSON) : option (option Z) :=
  match v with
  | None | Some JNull => Some None
  | Some (JNumber n) => Some (Some n)
  | _ => None
  end.

Fixpoint strings (l : list JSON) : option (list string) :=
  match l with
  | [] => Some []
  | JString s :: l' => option_map (cons s) (strings l')
  | _ => None
  end.

Definition stringArray (v : option JSON) : option (list string) :=
  match v with
  | Some (JArray l) => strings l
  | _ => None
  end.

Definition partialDate (v : option JSON) : option (option PartialDate) :=
  match v with
  | None | Some JNull => Some None
  | Some (JObject o) =>
      match optNumber (JSObject.get "year" o), optString (JSObject.get "date" o) with
      | Some y, Some d => Some (Some (mkPartialDate y d))
      | _, _ => None
      end
  | _ => None
  end.

Definition person (v : JSON) : option Person :=
  match v with
  | JObject o =>
      match JSObject.get "id" o, JSObject.get "firstName" o,
            optString (JSObject.get "lastName" o),
            partialDate (JSObject.get "birth" o),
            partialDate (JSObject.get "death" o),
            optString (JSObject.get "photoDataUrl" o),
            stringArray (JSObject.get "parentIds" o),
            stringArray (JSObject.get "siblingIds" o),
            optString (JSObject.get "notes" o) with
      | Some (JString i), Some (JString fn), Some ln, Some b, Some d,
        Some ph, Some ps, Some ss, Some n =>
          Some (mkPerson i fn ln b d ph ps ss n)
      | _, _, _, _, _, _, _, _, _ => None
      end
  | _ => None
  end.

Fixpoint persons (l : list JSON) : option (list Person) :=
  match l with
  | [] => Some []
  | v :: l' =>
      match person v, persons l' with
      | Some p, Some ps => Some (p :: ps)
      | _, _ => None
      end
  end.

Definition familyData (v : JSON) : option FamilyData :=
  match v with
  | JObject d =>
      match JSObject.get "version" d, JSObject.get "updatedAt" d,
            JSObject.get "people" d with
      | Some (JNumber ver), Some (JString u), Some (JArray ps) =>
          option_map (mkFamilyData ver u) (persons ps)
      | _, _, _ => None
      end
  | _ => None
  end.

End Decode.

(* ================================================================== *)
(** * PersonModal.tsx: the form state *)
(* ================================================================== *)

Record ModalContext := mkModalContext {
  linkAsParentOf : option string;
  presetParentIds : option (list string);
  linkAsSiblingOf : option string
}.

Definition handleParentToggle (i : string) (prev : list string) : list string :=
  if JSArray.includes prev i
  then filter (fun pid => negb (String.eqb pid i)) prev
  else if 2 <=? length prev then prev
  else prev ++ [i].

Definition handleSiblingToggle (i : string) (prev : list string) : list string :=
  if JSArray.includes prev i
  then filter (fun sid => negb (String.eqb sid i)) prev
  else prev ++ [i].

Definition handleRemoveExplicitSibling (i : string) (prev : list string)
    : list string :=
  filter (fun sid => negb (String.eqb sid i)) prev.

(** [useState(person?.parentIds ?? context?.presetParentIds ?? [])] *)
Definition initialParentIds (person : option Person)
    (context : option ModalContext) : list string :=
  match person with
  | Some p => parentIds p
  | None =>
      match context with
      | Some c => match presetParentIds c with Some l => l | None => [] end
      | None => []
      end
  end.

(** [useState(person?.siblingIds ?? [])] *)
Definition initialSiblingIds (person : option Person) : list string :=
  match person with
  | Some p => siblingIds p
  | None => []
  end.

(** The two state cells of the modal that hold ids.  The text inputs (names,
    dates, notes, photo) are not kept: [buildPerson] turns them into the
    remaining fields of the saved person, see [builtBy]. *)
Record FormState := mkFormState {
  formParentIds : list string;
  formSiblingIds : list string
}.

Definition mountForm (person : option Person) (context : option ModalContext)
    : FormState :=
  mkFormState (initialParentIds person context) (initialSiblingIds person).

(** [buildPerson] when it reports no error: [id], [parentIds] and
    [siblingIds] are copied from [personId] and the state cells. *)
Definition builtBy (personId : string) (f : FormState) (saved : Person) : Prop :=
  id saved = personId /\
  parentIds saved = formParentIds f /\
  siblingIds saved = formSiblingIds f.

(* ================================================================== *)
(** * App.tsx: the mutation orchestrator *)
(* ================================================================== *)

Definition withParentIds (p : Person) (l : list string) : Person :=
  mkPerson (id p) (firstName p) (lastName p) (birth p) (death p)
           (photoDataUrl p) l (siblingIds p) (notes p).

Definition withSiblingIds (p : Person) (l : list string) : Person :=
  mkPerson (id p) (firstName p) (lastName p) (birth p) (death p)
           (photoDataUrl p) (parentIds p) l (notes p).

(** [(p) => p.id === i] *)
Definition hasId (i : string) (p : Person) : bool := String.eqb (id p) i.

(** [ctx?.field] used as a condition: the field is set and not empty. *)
Definition ctxLink (field : ModalContext -> option string)
    (ctx : option ModalContext) : option string :=
  match ctx with
  | Some c => truthyString (field c)
  | None => None
  end.

(** [mutate]: the update function, then the new time stamp.  The snapshot
    write that precedes it is fire-and-forget I/O and changes no state. *)
Definition mutate (fn : FamilyData -> FamilyData) (now : string)
    (prev : FamilyData) : FamilyData :=
  let next := fn prev in
  mkFamilyData (version next) now (people next).

(** [newPeople[idx] = person] or [newPeople.push(person)] *)
Definition upsertPerson (person : Person) (newPeople : list Person)
    : list Person :=
  match JSArray.findIndex (hasId (id person)) newPeople with
  | Some idx => JSArray.setAt idx person newPeople
  | None => JSArray.push newPeople person
  end.

(** [newPeople[i] = f(newPeople[i])] for an index returned by [findIndex]. *)
Definition updateAt (i : nat) (f : Person -> Person) (l : list Person)
    : list Person :=
  match nth_error l i with
  | Some x => JSArray.setAt i (f x) l
  | None => l
  end.

(** "Create New Parent" flow: link new person as parent of target. *)
Definition linkParent (person : Person) (ctx : option ModalContext)
    (newPeople : list Person) : list Person :=
  match ctxLink linkAsParentOf ctx with
  | Some targetId =>
      match JSArray.findIndex (hasId targetId) newPeople with
      | Some targetIdx =>
          updateAt targetIdx
            (fun target =>
               if negb (JSArray.includes (parentIds target) (id person))
                  && (length (parentIds target) <? 2)
               then withParentIds target (parentIds target ++ [id person])
               else target)
            newPeople
      | None => newPeople
      end
  | None => newPeople
  end.

(** [{...x, siblingIds: [...x.siblingIds, i]}] unless [i] is listed. *)
Definition addSibling (i : string) (x : Person) : Person :=
  if negb (JSArray.includes (siblingIds x) i)
  then withSiblingIds x (siblingIds x ++ [i])
  else x.

(** "Add Sibling" flow: link new person as sibling of target, and back. *)
Definition linkSibling (person : Person) (ctx : option ModalContext)
    (newPeople : list Person) : list Person :=
  match ctxLink linkAsSiblingOf ctx with
  | Some targetId =>
      let newPeople :=
        match JSArray.findIndex (hasId targetId) newPeople with
        | Some targetIdx => updateAt targetIdx (addSibling (id person)) newPeople
        | None => newPeople
        end in
      match JSArray.findIndex (hasId (id person)) newPeople with
      | Some personIdx => updateAt personIdx (addSibling targetId) newPeople
      | None => newPeople
      end
  | None => newPeople
  end.

(** First loop of the sync: [for (const sibId of current.siblingIds)]. *)
Definition addReverseLinks (person : Person) (current : Person)
    (newPeople : list Person) : list Person :=
  fold_left
    (fun np sibId =>
       match JSArray.findIndex (hasId sibId) np with
       | Some sibIdx => updateAt sibIdx (addSibling (id person)) np
       | None => np
       end)
    (siblingIds current) newPeople.

(** One iteration of the second loop, [for (const other of newPeople)], at
    position [i]: the array iterator reads [newPeople[i]] when it gets there. *)
Definition removeStaleLinkAt (person : Person) (current : Person)
    (np : list Person) (i : nat) : list Person :=
  match nth_error np i with
  | Some other =>
      if String.eqb (id other) (id person) then np
      else if JSArray.includes (siblingIds other) (id person)
              && negb (JSArray.includes (siblingIds current) (id other))
      then
        match JSArray.findIndex (hasId (id other)) np with
        | Some otherIdx =>
            updateAt otherIdx
              (fun o => withSiblingIds o
                 (filter (fun sid => negb (String.eqb sid (id person)))
                         (siblingIds o)))
              np
        | None => np
        end
      else np
  | None => np
  end.

Definition removeStaleLinks (person : Person) (current : Person)
    (newPeople : list Person) : list Person :=
  fold_left (removeStaleLinkAt person current)
            (seq 0 (length newPeople)) newPeople.

(** Sync bidirectional siblingIds. *)
Definition syncSiblings (person : Person) (newPeople : list Person)
    : list Person :=
  match JSArray.findIndex (hasId (id person)) newPeople with
  | Some personIdx =>
      match nth_error newPeople personIdx with
      | Some current =>
          removeStaleLinks person current
            (addReverseLinks person current newPeople)
      | None => newPeople
      end
  | None => newPeople
  end.

(** The function [handleSavePerson] hands to [mutate]. *)
Definition savePerson (person : Person) (ctx : option ModalContext)
    (prev : FamilyData) : FamilyData :=
  let newPeople := upsertPerson person (people prev) in
  let newPeople := linkParent person ctx newPeople in
  let newPeople := linkSibling person ctx newPeople in
  let newPeople := syncSiblings person newPeople in
  mkFamilyData (version prev) (updatedAt prev) newPeople.

Definition handleSavePerson (person : Person) (ctx : option ModalContext)
    (now : string) (prev : FamilyData) : FamilyData :=
  mutate (savePerson person ctx) now prev.

(** The function [handleDeletePerson] hands to [mutate]. *)
Definition deletePerson (i : string) (prev : FamilyData) : FamilyData :=
  let newPeople :=
    map (fun p =>
           mkPerson (id p) (firstName p) (lastName p) (birth p) (death p)
             (photoDataUrl p)
             (filter (fun pid => negb (String.eqb pid i)) (parentIds p))
             (filter (fun sid => negb (String.eqb sid i)) (siblingIds p))
             (notes p))
        (filter (fun p => negb (String.eqb (id p) i)) (people prev)) in
  mkFamilyData (version prev) (updatedAt prev) newPeople.

Definition handleDeletePerson (i : string) (now : string) (prev : FamilyData)
    : FamilyData :=
  mutate (deletePerson i) now prev.

(* ================================================================== *)
(** * App.tsx: the component state and its event handlers *)
(* ================================================================== *)

Inductive ModalMode := ModeAdd | ModeEdit.

(** The [useState] cells of [App], and the id cells of [PersonModal] while it
    is mounted ([form]). *)
Record AppState := mkAppState {
  data : FamilyData;
  baselineHash : string;
  selectedId : option string;
  modalMode : option ModalMode;
  editPersonId : option string;
  modalContext : option ModalContext;
  form : option FormState
}.

Definition setCells (s : AppState) (d : FamilyData)
    (mode : option ModalMode) (edit : option string)
    (ctx : option ModalContext) : AppState :=
  mkAppState d (baselineHash s) (selectedId s) mode edit ctx (form s).

(** [setModalMode(null); setEditPersonId(null); setModalContext(undefined)] *)
Definition closeModal (s : AppState) : AppState :=
  setCells s (data s) None None None.

Definition openAddModal (s : AppState) : AppState :=
  setCells s (data s) (Some ModeAdd) None None.

Definition openEditModal (i : string) (s : AppState) : AppState :=
  setCells s (data s) (Some ModeEdit) (Some i) None.

Definition handleCreateParent (forPersonId : string) (s : AppState) : AppState :=
  setCells s (data s) (Some ModeAdd) None
    (Some (mkModalContext (Some forPersonId) None None)).

Definition handleAddChild (ofPersonId : string) (s : AppState) : AppState :=
  setCells s (data s) (Some ModeAdd) None
    (Some (mkModalContext None (Some [ofPersonId]) None)).

(** [handleAddSibling] closes over [data.people] of the render in which the
    button was shown: [shown] is that list. *)
Definition handleAddSibling (shown : list Person) (ofPersonId : string)
    (s : AppState) : AppState :=
  match find (hasId ofPersonId) shown with
  | None => s
  | Some person =>
      setCells s (data s) (Some ModeAdd) None
        (Some (mkModalContext None
                 (if 0 <? length (parentIds person)
                  then Some (parentIds person) else None)
                 (Some ofPersonId)))
  end.

(** [handleModalSave]: [handleSavePerson(person, modalContext)]. *)
Definition handleModalSave (person : Person) (now : string) (s : AppState)
    : AppState :=
  closeModal
    (setCells s (handleSavePerson person (modalContext s) now (data s))
       (modalMode s) (editPersonId s) (modalContext s)).

Definition handleModalDelete (i : string) (now : string) (s : AppState)
    : AppState :=
  let s' := closeModal
      (setCells s (handleDeletePerson i now (data s))
         (modalMode s) (editPersonId s) (modalContext s)) in
  mkAppState (data s') (baselineHash s')
    (match selectedId s with
     | Some sel => if String.eqb sel i then None else Some sel
     | None => None
     end)
    (modalMode s') (editPersonId s') (modalContext s') (form s').

(** The [person] prop handed to the modal. *)
Definition editPerson (s : AppState) : option Person :=
  match modalMode s, truthyString (editPersonId s) with
  | Some ModeEdit, Some i => find (hasId i) (people (data s))
  | _, _ => None
  end.

(** [personId]: the id of the edited person, or else a fresh uuid. *)
Definition modalPersonId (s : AppState) (personId : string) : Prop :=
  match editPerson s with
  | Some p => personId = id p
  | None => True
  end.

Definition setForm (s : AppState) (f : option FormState) : AppState :=
  mkAppState (data s) (baselineHash s) (selectedId s) (modalMode s)
    (editPersonId s) (modalContext s) f.

(** The modal's cells after the render that follows an event.  A closed modal
    has none.  An open one either was mounted by this render, and then holds
    the values of its [useState] initialisers, or it stayed mounted and keeps
    its cells; an event that closes and reopens the modal in one handler may
    do either, depending on how React batches the updates, so both are
    allowed. *)
Definition rendered (before : option FormState) (s : AppState)
    (after : option FormState) : Prop :=
  match modalMode s with
  | None => after = None
  | Some _ =>
      after = Some (mountForm (editPerson s) (modalContext s)) \/
      (exists f, before = Some f /\ after = Some f)
  end.

Definition updateForm (g : FormState -> FormState) (s : AppState) : AppState :=
  setForm s (option_map g (form s)).

Section Hash.

(** [JSON.stringify] at the type of [data.people]: a function of the host.
    A person is read as the values of its fields: the order in which an
    object lists its properties, which [JSON.stringify] follows, is not
    modelled.  What is stated of the hash is stated of lists whose objects
    are the same objects or copies made by spread, never of an object that
    [buildPerson] has built anew. *)
Variable JSON_stringify : list Person -> string.

(** Compute a simple hash string for dirty tracking. *)
Definition computeHash (d : FamilyData) : string := JSON_stringify (people d).

(** [const dirty = computeHash(data) !== baselineHash] *)
Definition dirty (s : AppState) : bool :=
  negb (String.eqb (computeHash (data s)) (baselineHash s)).

Definition emptyData (now : string) : FamilyData := mkFamilyData 1%Z now [].

Definition initialState (now now' : string) : AppState :=
  mkAppState (emptyData now) (computeHash (emptyData now')) None None None
    None None.

(** [handleImport] on a file that parsed to [obj] and validated to [d]. *)
Definition handleImport (d : FamilyData) (s : AppState) : AppState :=
  mkAppState d (computeHash d) None (modalMode s) (editPersonId s)
    (modalContext s) (form s).

Definition handleExport (s : AppState) : AppState :=
  mkAppState (data s) (computeHash (data s)) (selectedId s) (modalMode s)
    (editPersonId s) (modalContext s) (form s).

(** One user action, from one rendered state to the next.  [editStep]
    gathers the person edits, the three link flows and the delete. *)
Inductive editStep : AppState -> AppState -> Prop :=
| step_openAdd : forall s f,
    rendered (form s) (openAddModal s) f ->
    editStep s (setForm (openAddModal s) f)
| step_openEdit : forall s i f,
    rendered (form s) (openEditModal i s) f ->
    editStep s (setForm (openEditModal i s) f)
| step_close : forall s,
    editStep s (setForm (closeModal s) None)
| step_parentToggle : forall s i,
    editStep s (updateForm (fun f =>
      mkFormState (handleParentToggle i (formParentIds f)) (formSiblingIds f)) s)
| step_siblingToggle : forall s i,
    editStep s (updateForm (fun f =>
      mkFormState (formParentIds f) (handleSiblingToggle i (formSiblingIds f))) s)
| step_removeSibling : forall s i,
    editStep s (updateForm (fun f =>
      mkFormState (formParentIds f)
        (handleRemoveExplicitSibling i (formSiblingIds f))) s)
| step_save : forall s f personId saved now,
    form s = Some f -> modalPersonId s personId -> builtBy personId f saved ->
    editStep s (setForm (handleModalSave saved now s) None)
| step_createParent : forall s f personId saved now s' f',
    form s = Some f -> modalPersonId s personId -> builtBy personId f saved ->
    editPerson s <> None -> length (formParentIds f) < 2 ->
    s' = handleCreateParent personId (handleModalSave saved now s) ->
    rendered (form s) s' f' ->
    editStep s (setForm s' f')
| step_addChild : forall s f personId saved now s' f',
    form s = Some f -> modalPersonId s personId -> builtBy personId f saved ->
    editPerson s <> None ->
    s' = handleAddChild personId (handleModalSave saved now s) ->
    rendered (form s) s' f' ->
    editStep s (setForm s' f')
| step_addSibling : forall s f personId saved now s' f',
    form s = Some f -> modalPersonId s personId -> builtBy personId f saved ->
    editPerson s <> None ->
    s' = handleAddSibling (people (data s)) personId
           (handleModalSave saved now s) ->
    rendered (form s) s' f' ->
    editStep s (setForm s' f')
| step_delete : forall s personId now,
    form s <> None -> modalPersonId s personId -> editPerson s <> None ->
    editStep s (setForm (handleModalDelete personId now s) None).

(** Every action: the edits, the export, and the JSON import.  The shape
    check of [validateFamilyData] is the only gate the code puts on an
    imported document; [importable] is what else is known of the documents
    the user picks ([fun _ => True] when nothing is). *)
Inductive appStep (importable : FamilyData -> Prop) : AppState -> AppState -> Prop :=
| step_edit : forall s s', editStep s s' -> appStep importable s s'
| step_import : forall s obj obj' d,
    validateFamilyData obj = Some obj' ->
    Decode.familyData obj' = Some d ->
    importable d ->
    appStep importable s (handleImport d s)
| step_export : forall s, appStep importable s (handleExport s).

Inductive reachable (step : AppState -> AppState -> Prop) (s0 : AppState)
    : AppState -> Prop :=
| reach_start : reachable step s0 s0
| reach_step : forall s s', reachable step s0 s -> step s s' ->
    reachable step s0 s'.

End Hash.

(* ================================================================== *)
(** * JavaScript numbers and maps used by the layout *)
(* ================================================================== *)

(** Coordinates are JS numbers: IEEE 754 binary64, as [float]. *)
Module JSNumber.

Definition ofNat (n : nat) : float :=
  PrimFloat.of_uint63 (Uint63.of_Z (Z.of_nat n)).

Definition isNaN (v : float) : bool := negb (PrimFloat.eqb v v).

Definition isNegZero (v : float) : bool :=
  match PrimFloat.classify v with NZero => true | _ => false end.

Definition isPosZero (v : float) : bool :=
  match PrimFloat.classify v with PZero => true | _ => false end.

(** One argument of [Math.min], as ECMAScript words it: a NaN makes the
    result NaN, [-0] counts as smaller than [+0]. *)
Definition minStep (lowest number : float) : float :=
  if isNaN lowest || isNaN number then PrimFloat.nan
  else if isNegZero number && isPosZero lowest then number
  else if PrimFloat.ltb number lowest then number
  else lowest.

Definition maxStep (highest number : float) : float :=
  if isNaN highest || isNaN number then PrimFloat.nan
  else if isPosZero number && isNegZero highest then number
  else if PrimFloat.ltb highest number then number
  else highest.

(** [Math.min(...xs)] and [Math.max(...xs)] *)
Definition min (xs : list float) : float :=
  fold_left minStep xs PrimFloat.infinity.

Definition max (xs : list float) : float :=
  fold_left maxStep xs PrimFloat.neg_infinity.

End JSNumber.

(** [Array.prototype.sort(cmp)]: the sort is stable, and [cmp(a, b) > 0]
    puts [a] after [b]; for a comparator that orders its arguments
    consistently the result is the one of a stable insertion sort. *)
Module JSSort.

Section Sort.
Context {A : Type} (cmp : A -> A -> float).

Fixpoint insert (a : A) (l : list A) : list A :=
  match l with
  | [] => [a]
  | b :: l' => if PrimFloat.ltb 0 (cmp a b) then b :: insert a l' else a :: l
  end.

Definition sort (l : list A) : list A := fold_right insert [] l.

End Sort.

End JSSort.

(** [Map<K, V>] in insertion order; [set] on a present key keeps its place. *)
Module JSMap.

Section Map.
Context {K V : Type} (keq : K -> K -> bool).

Definition t := list (K * V).

Fixpoint get (m : list (K * V)) (k : K) : option V :=
  match m with
  | [] => None
  | (k', v) :: m' => if keq k' k then Some v else get m' k
  end.

Definition has (m : list (K * V)) (k : K) : bool :=
  match get m k with Some _ => true | None => false end.

Fixpoint set (m : list (K * V)) (k : K) (v : V) : list (K * V) :=
  match m with
  | [] => [(k, v)]
  | (k', v') :: m' =>
      if keq k' k then (k', v) :: m' else (k', v') :: set m' k v
  end.

Definition keys (m : list (K * V)) : list K := map fst m.

End Map.

End JSMap.

(* ================================================================== *)
(** * TreeCanvas.tsx: the layout algorithm *)
(* ================================================================== *)

Definition NODE_W : float := 180%float.
Definition NODE_H : float := 80%float.
Definition GAP_H : float := 50%float.
Definition GAP_V : float := 140%float.

(** [new Set(people.map((p) => p.id))] *)
Definition makeIdSet (people : list Person) : JSSet.t :=
  fold_left (fun s p => JSSet.add s (id p)) people JSSet.empty.

(** [new Map(people.map((p) => [p.id, p]))] *)
Definition makePersonMap (people : list Person) : list (string * Person) :=
  fold_left (fun m p => JSMap.set String.eqb m (id p) p) people [].

(** [personMap.get(i)!.parentIds.filter((pid) => idSet.has(pid))].  The
    ids looked up are keys of [personMap] ([makePersonMap_get]); the
    [None] branch stands for the property read on [undefined] that the
    non-null assertion rules out. *)
Definition validParents (idSet : JSSet.t) (personMap : list (string * Person))
    (i : string) : list string :=
  match JSMap.get String.eqb personMap i with
  | Some person => filter (JSSet.has idSet) (parentIds person)
  | None => []
  end.

(** The memo [gen] and the [visiting] set, both mutated by [compute]. *)
Definition GenState : Type := list (string * nat) * JSSet.t.

(** [parents.map((pid) => compute(pid, visiting))], threading the state. *)
Fixpoint mapCompute (f : string -> GenState -> option (nat * GenState))
    (l : list string) (st : GenState) : option (list nat * GenState) :=
  match l with
  | [] => Some ([], st)
  | pid :: l' =>
      match f pid st with
      | None => None
      | Some (g, st') =>
          match mapCompute f l' st' with
          | None => None
          | Some (gs, st'') => Some (g :: gs, st'')
          end
      end
  end.

(** The inner function [compute] of [assignGenerations].  [fuel] bounds the
    depth of the recursion; [None] is a budget that ran out. *)
Fixpoint compute (idSet : JSSet.t) (personMap : list (string * Person))
    (fuel : nat) (i : string) (st : GenState) : option (nat * GenState) :=
  match fuel with
  | O => None
  | S fuel' =>
      let (gen, visiting) := st in
      match JSMap.get String.eqb gen i with
      | Some g => Some (g, st)
      | None =>
          if JSSet.has visiting i
          then Some (0, (JSMap.set String.eqb gen i 0, visiting)) (* cycle guard *)
          else
            let visiting := JSSet.add visiting i in
            let parents := validParents idSet personMap i in
            match mapCompute (compute idSet personMap fuel') parents
                             (gen, visiting) with
            | None => None
            | Some (gs, (gen, visiting)) =>
                let g := if 0 <? length parents then list_max gs + 1 else 0 in
                Some (g, (JSMap.set String.eqb gen i g, JSSet.delete visiting i))
            end
      end
  end.

(** The recursion nests at most once per person, plus the call that meets
    the memo or the guard ([compute_total]). *)
Definition generationsFuel (people : list Person) : nat := S (length people).

(** [for (const p of people) compute(p.id, new Set())] *)
Definition assignGenerations (people : list Person) : list (string * nat) :=
  let idSet := makeIdSet people in
  let personMap := makePersonMap people in
  fold_left
    (fun gen p =>
       match compute idSet personMap (generationsFuel people) (id p)
                     (gen, JSSet.empty) with
       | Some (_, (gen', _)) => gen'
       | None => gen
       end)
    people [].

(** [xPos.get(i)!] used as a number: [undefined] would read as NaN. *)
Definition getX (xPos : list (string * float)) (i : string) : float :=
  match JSMap.get String.eqb xPos i with
  | Some v => v
  | None => PrimFloat.nan
  end.

(** Average x position of a set of IDs. Returns 0 if none positioned yet. *)
Definition avgX (ids : list string) (xPos : list (string * float)) : float :=
  let valid := filter (JSMap.has String.eqb xPos) ids in
  if length valid =? 0 then 0%float
  else PrimFloat.div
         (fold_left (fun s i => PrimFloat.add s (getX xPos i)) valid 0%float)
         (JSNumber.ofNat (length valid)).

(** Ensure no two nodes in a group are closer than minDist. *)
Definition resolveOverlaps (group : list string) (xPos : list (string * float))
    : list (string * float) :=
  if length group <=? 1 then xPos
  else
    let sorted :=
      JSSort.sort (fun a b => PrimFloat.sub (getX xPos a) (getX xPos b)) group in
    let minDist := PrimFloat.add NODE_W GAP_H in
    match sorted with
    | [] => xPos
    | first :: rest =>
        snd (fold_left
               (fun (acc : string * list (string * float)) curr =>
                  let (prev, xPos) := acc in
                  let prevX := getX xPos prev in
                  let currX := getX xPos curr in
                  (curr,
                   if PrimFloat.ltb (PrimFloat.sub currX prevX) minDist
                   then JSMap.set String.eqb xPos curr (PrimFloat.add prevX minDist)
                   else xPos))
               rest (first, xPos))
    end.

(** Re-center a group so its midpoint is at 0. *)
Definition centerGroup (group : list string) (xPos : list (string * float))
    : list (string * float) :=
  if length group =? 0 then xPos
  else
    let xs := map (getX xPos) group in
    let mid := PrimFloat.div (PrimFloat.add (JSNumber.min xs) (JSNumber.max xs))
                             2%float in
    fold_left
      (fun xPos i => JSMap.set String.eqb xPos i (PrimFloat.sub (getX xPos i) mid))
      group xPos.

Module Edge.
Record t := mk { id : string; source : string; target : string; type : string }.
End Edge.

Module Position.
Record t := mk { x : float; y : float }.
End Position.

Record LayoutResult := mkLayoutResult {
  positions : list (string * Position.t);
  edges : list Edge.t
}.

(** Build children lookup. *)
Definition makeChildrenOf (idSet : JSSet.t) (people : list Person)
    : list (string * list string) :=
  fold_left
    (fun m p =>
       fold_left
         (fun m pid =>
            if JSSet.has idSet pid
            then JSMap.set String.eqb m pid
                   (match JSMap.get String.eqb m pid with
                    | Some l => l ++ [id p]
                    | None => [id p]
                    end)
            else m)
         (parentIds p) m)
    people [].

(** Group by generation: [for (const [id, g] of gens)]. *)
Definition groupByGeneration (gens : list (string * nat))
    : list (nat * list string) :=
  fold_left
    (fun groups (e : string * nat) =>
       let (i, g) := e in
       JSMap.set Nat.eqb groups g
         (match JSMap.get Nat.eqb groups g with
          | Some l => l ++ [i]
          | None => [i]
          end))
    gens [].

(** [[...groups.keys()].sort((a, b) => a - b)] *)
Definition sortedLayerKeys (groups : list (nat * list string)) : list nat :=
  JSSort.sort (fun a b => PrimFloat.sub (JSNumber.ofNat a) (JSNumber.ofNat b))
              (JSMap.keys groups).

(** [groups.get(key)!] *)
Definition getGroup (groups : list (nat * list string)) (key : nat)
    : list string :=
  match JSMap.get Nat.eqb groups key with
  | Some l => l
  | None => []
  end.

(** [`${p.firstName}${p.lastName ?? ''}`] *)
Definition displayKey (personMap : list (string * Person)) (i : string) : string :=
  match JSMap.get String.eqb personMap i with
  | Some p => (firstName p ++ match lastName p with Some l => l | None => EmptyString end)%string
  | None => EmptyString
  end.

Section Layout.

(** [String.prototype.localeCompare], the collation of the host: a number
    that is negative, zero or positive. *)
Variable localeCompare : string -> string -> float.

(** The comparator of pass 1. *)
Definition pass1Compare (idSet : JSSet.t) (personMap : list (string * Person))
    (xPos : list (string * float)) (a b : string) : float :=
  let xA := avgX (validParents idSet personMap a) xPos in
  let xB := avgX (validParents idSet personMap b) xPos in
  if negb (PrimFloat.eqb xA xB) then PrimFloat.sub xA xB
  else localeCompare (displayKey personMap a) (displayKey personMap b).

(** The state of the three passes: the layers, sorted in place by pass 1,
    and the x positions. *)
Definition LayoutState : Type := list (nat * list string) * list (string * float).

(** Pass 1 (top-down): initial ordering by parent positions. *)
Definition pass1Layer (idSet : JSSet.t) (personMap : list (string * Person))
    (st : LayoutState) (key : nat) : LayoutState :=
  let (groups, xPos) := st in
  let group := JSSort.sort (pass1Compare idSet personMap xPos) (getGroup groups key) in
  let groups := JSMap.set Nat.eqb groups key group in
  let xPos :=
    fold_left
      (fun xPos (e : nat * string) =>
         let (i, member) := e in
         JSMap.set String.eqb xPos member
           (PrimFloat.mul (JSNumber.ofNat i) (PrimFloat.add NODE_W GAP_H)))
      (combine (seq 0 (length group)) group) xPos in
  (groups, centerGroup group xPos).

(** Pass 2 (bottom-up): center each parent over its children. *)
Definition pass2Layer (childrenOf : list (string * list string))
    (groups : list (nat * list string)) (xPos : list (string * float))
    (key : nat) : list (string * float) :=
  let group := getGroup groups key in
  let xPos :=
    fold_left
      (fun xPos i =>
         let ch := filter (JSMap.has String.eqb xPos)
                     (match JSMap.get String.eqb childrenOf i with
                      | Some l => l
                      | None => []
                      end) in
         if 0 <? length ch
         then
           let childXs := map (getX xPos) ch in
           JSMap.set String.eqb xPos i
             (PrimFloat.div
                (PrimFloat.add (JSNumber.min childXs) (JSNumber.max childXs))
                2%float)
         else xPos)
      group xPos in
  resolveOverlaps group xPos.

(** [personMap.get(id)!.parentIds] *)
Definition parentIdsOf (personMap : list (string * Person)) (i : string)
    : list string :=
  match JSMap.get String.eqb personMap i with
  | Some person => parentIds person
  | None => []
  end.

(** Pass 3 (top-down): pull children toward their parents. *)
Definition pass3Layer (personMap : list (string * Person))
    (groups : list (nat * list string)) (xPos : list (string * float))
    (key : nat) : list (string * float) :=
  let group := getGroup groups key in
  let xPos :=
    fold_left
      (fun xPos i =>
         let validParents :=
           filter (JSMap.has String.eqb xPos) (parentIdsOf personMap i) in
         if 0 <? length validParents
         then
           let parentAvg := avgX validParents xPos in
           let curr := getX xPos i in
           JSMap.set String.eqb xPos i
             (PrimFloat.add (PrimFloat.mul curr 0.3%float)
                            (PrimFloat.mul parentAvg 0.7%float))
         else xPos)
      group xPos in
  resolveOverlaps group xPos.

(** The layers and x positions after pass 1, and after all three passes. *)
Definition layoutPass1 (people : list Person) : LayoutState :=
  let idSet := makeIdSet people in
  let personMap := makePersonMap people in
  let groups := groupByGeneration (assignGenerations people) in
  fold_left (pass1Layer idSet personMap) (sortedLayerKeys groups) (groups, []).

Definition layoutX (people : list Person) : list (string * float) :=
  let idSet := makeIdSet people in
  let personMap := makePersonMap people in
  let childrenOf := makeChildrenOf idSet people in
  let (groups, xPos) := layoutPass1 people in
  let layerKeys := sortedLayerKeys groups in
  let xPos := fold_left (pass2Layer childrenOf groups) (rev layerKeys) xPos in
  fold_left (pass3Layer personMap groups) layerKeys xPos.

Definition layoutEdges (people : list Person) : list Edge.t :=
  let idSet := makeIdSet people in
  flat_map
    (fun p =>
       map (fun pid =>
              Edge.mk ("e-" ++ pid ++ "-" ++ id p)%string pid (id p) "smoothstep")
           (filter (JSSet.has idSet) (parentIds p)))
    people.

Definition computeLayout (people : list Person) : LayoutResult :=
  if length people =? 0 then mkLayoutResult [] []
  else
    let gens := assignGenerations people in
    mkLayoutResult
      (map (fun (e : string * float) =>
              let (i, x) := e in
              (i, Position.mk x
                    (PrimFloat.mul
                       (JSNumber.ofNat
                          (match JSMap.get String.eqb gens i with
                           | Some g => g
                           | None => 0
                           end))
                       GAP_V)))
           (layoutX people))
      (layoutEdges people).

End Layout.

(* ================================================================== *)
(** * PersonModal.tsx: the derived lists *)
(* ================================================================== *)

(** [people.filter((p) => p.parentIds.includes(personId))] *)
Definition children (people : list Person) (personId : string) : list Person :=
  filter (fun p => JSArray.includes (parentIds p) personId) people.

(** All siblings: the explicit ones ([siblingIds]) merged with the derived
    ones (persons that share at least one parent). *)
Definition allSiblingIds (people : list Person) (personId : string)
    (parentIds' siblingIds' : list string) : JSSet.t :=
  let ids := fold_left JSSet.add siblingIds' JSSet.empty in
  if 0 <? length parentIds'
  then
    fold_left
      (fun ids p =>
         if negb (String.eqb (id p) personId)
            && existsb (fun pid => JSArray.includes parentIds' pid) (parentIds p)
         then JSSet.add ids (id p)
         else ids)
      people ids
  else ids.

Definition siblings (people : list Person) (personId : string)
    (parentIds' siblingIds' : list string) : list Person :=
  filter
    (fun p => JSSet.has (allSiblingIds people personId parentIds' siblingIds') (id p))
    people.

(** Available parents: exclude self and descendants. *)
Definition availableParents (people : list Person) (personId : string)
    : list Person :=
  filter
    (fun p =>
       if String.eqb (id p) personId then false
       else negb (wouldCreateCycle personId (id p) people))
    people.

(** Available people to link as explicit siblings: exclude self and
    already-linked. *)
Definition availableSiblings (people : list Person) (personId : string)
    (parentIds' siblingIds' : list string) : list Person :=
  filter
    (fun p =>
       negb (String.eqb (id p) personId)
       && negb (JSSet.has (allSiblingIds people personId parentIds' siblingIds')
                          (id p)))
    people.

(** Can add parents? (max 2) *)
Definition canAddNewParent (isEdit : bool) (parentIds' : list string) : bool :=
  isEdit && (length parentIds' <? 2).

(* ================================================================== *)
(** * validation.ts: date input *)
(* ================================================================== *)

(** Strings are read as sequences of code units below 256.  In this range
    the white space and line terminators of ECMAScript are the code units
    9 to 13, 32 and 160. *)
Module JSString.

Definition isWhiteSpace (c : ascii) : bool :=
  match nat_of_ascii c with
  | 9 | 10 | 11 | 12 | 13 | 32 | 160 => true
  | _ => false
  end.

Fixpoint trimStart (s : string) : string :=
  match s with
  | EmptyString => EmptyString
  | String c s' => if isWhiteSpace c then trimStart s' else s
  end.

Fixpoint trimEnd (s : string) : string :=
  match s with
  | EmptyString => EmptyString
  | String c s' =>
      match trimEnd s' with
      | EmptyString => if isWhiteSpace c then EmptyString else String c EmptyString
      | t => String c t
      end
  end.

(** [s.trim()] *)
Definition trim (s : string) : string := trimEnd (trimStart s).

(** [\d] *)
Definition isDigit (c : ascii) : bool :=
  (48 <=? nat_of_ascii c) && (nat_of_ascii c <=? 57).

Fixpoint allDigits (s : string) : bool :=
  match s with
  | EmptyString => true
  | String c s' => isDigit c && allDigits s'
  end.

(** [/^\d+$/.test(s)] *)
Definition isDigits (s : string) : bool :=
  negb (String.eqb s EmptyString) && allDigits s.

(** [/^\d{4}-\d{2}-\d{2}$/.test(s)] *)
Definition isFullDate (s : string) : bool :=
  match list_ascii_of_string s with
  | [y1; y2; y3; y4; h1; m1; m2; h2; d1; d2] =>
      isDigit y1 && isDigit y2 && isDigit y3 && isDigit y4
      && Ascii.eqb h1 "-" && isDigit m1 && isDigit m2
      && Ascii.eqb h2 "-" && isDigit d1 && isDigit d2
  | _ => false
  end.

(** [s.split('-')[0]]: what stands before the first hyphen. *)
Fixpoint beforeHyphen (s : string) : string :=
  match s with
  | EmptyString => EmptyString
  | String c s' => if Ascii.eqb c "-" then EmptyString else String c (beforeHyphen s')
  end.

(** [parseInt(s, 10)] on a string of decimal digits.  Numbers are exact
    integers: the value is the one JS computes as long as it is below
    2^53, that is for every string of up to 15 digits.  The [None] branch
    stands for NaN, which a string of digits never gives. *)
Definition parseInt (s : string) : Z :=
  match NilEmpty.uint_of_string s with
  | Some d => Z.of_uint d
  | None => 0%Z
  end.

(** [String(n)] of an integer. *)
Definition ofNumber (n : Z) : string := NilZero.string_of_int (Z.to_int n).

End JSString.

(** [{ value?: PartialDate; error?: string }] *)
Module DateInput.
Record t := mk { value : option PartialDate; error : option string }.
End DateInput.

(** The double quote character, as a string. *)
Definition doubleQuote : string :=
  String (Ascii false true false false false true false false) EmptyString.

Section DateHost.

(** [!isNaN(new Date(s).getTime())]: whether the host's [Date] accepts the
    string. *)
Variable Date_isValid : string -> bool.

(** Parse a user-entered date string into a PartialDate. *)
Definition parseDateInput (input : string) : DateInput.t :=
  let trimmed := JSString.trim input in
  if String.eqb trimmed EmptyString then DateInput.mk None None
  else if JSString.isDigits trimmed then
    DateInput.mk (Some (mkPartialDate (Some (JSString.parseInt trimmed)) None)) None
  else if JSString.isFullDate trimmed then
    let year := JSString.parseInt (JSString.beforeHyphen trimmed) in
    if negb (Date_isValid (trimmed ++ "T00:00:00")%string)
    then DateInput.mk None
           (Some (doubleQuote ++ trimmed ++ doubleQuote ++ " is not a valid date")%string)
    else DateInput.mk (Some (mkPartialDate (Some year) (Some trimmed))) None
  else
    DateInput.mk None
      (Some "Enter a year (e.g. 1950) or full date (e.g. 1950-03-15)"%string).

End DateHost.

(** Format a PartialDate back into the single-field display string. *)
Definition formatPartialDate (pd : option PartialDate) : string :=
  match pd with
  | None => EmptyString
  | Some pd =>
      match truthyString (date pd) with
      | Some d => d
      | None =>
          match year pd with
          | Some y => JSString.ofNumber y
          | None => EmptyString
          end
      end
  end.

(* ================================================================== *)
(** * PersonModal.tsx: the text cells and [buildPerson] *)
(* ================================================================== *)

(** The [useState] cells of the modal that hold text. *)
Module Cells.
Record t := mk {
  firstName : string;
  lastName : string;
  birthInput : string;
  deathInput : string;
  notes : string;
  photoDataUrl : string
}.
End Cells.

(** [x ?? ''] *)
Definition orEmpty (s : option string) : string :=
  match s with Some s' => s' | None => EmptyString end.

(** [s || undefined] *)
Definition orUndefined (s : string) : option string :=
  if String.eqb s EmptyString then None else Some s.

(** The initial values of the text cells. *)
Definition mountCells (person : option Person) : Cells.t :=
  Cells.mk
    (match person with Some p => firstName p | None => EmptyString end)
    (match person with Some p => orEmpty (lastName p) | None => EmptyString end)
    (formatPartialDate (match person with Some p => birth p | None => None end))
    (formatPartialDate (match person with Some p => death p | None => None end))
    (match person with Some p => orEmpty (notes p) | None => EmptyString end)
    (match person with Some p => orEmpty (photoDataUrl p) | None => EmptyString end).

Section BuildPerson.

Variable Date_isValid : string -> bool.

(** The error messages [buildPerson] collects, in order. *)
Definition buildErrors (cells : Cells.t) : list string :=
  let birthResult := parseDateInput Date_isValid (Cells.birthInput cells) in
  let deathResult := parseDateInput Date_isValid (Cells.deathInput cells) in
  (if String.eqb (JSString.trim (Cells.firstName cells)) EmptyString
   then ["First name is required"%string] else [])
  ++ (match DateInput.error birthResult with
      | Some e => if String.eqb e EmptyString then [] else [("Birth: " ++ e)%string]
      | None => []
      end)
  ++ (match DateInput.error deathResult with
      | Some e => if String.eqb e EmptyString then [] else [("Death: " ++ e)%string]
      | None => []
      end)
  ++ (match truthyString (DateInput.error birthResult),
            truthyString (DateInput.error deathResult) with
      | None, None =>
          match validateBirthDeath (DateInput.value birthResult)
                                   (DateInput.value deathResult) with
          | Some bdErr =>
              if String.eqb bdErr EmptyString then [] else [bdErr]
          | None => []
          end
      | _, _ => []
      end).

(** [buildPerson]: [inl errs] is [setErrors(errs); return null]. *)
Definition buildPerson (personId : string) (cells : Cells.t) (f : FormState)
    : list string + Person :=
  let errs := buildErrors cells in
  if 0 <? length errs then inl errs
  else
    inr (mkPerson personId
           (JSString.trim (Cells.firstName cells))
           (orUndefined (JSString.trim (Cells.lastName cells)))
           (DateInput.value (parseDateInput Date_isValid (Cells.birthInput cells)))
           (DateInput.value (parseDateInput Date_isValid (Cells.deathInput cells)))
           (orUndefined (Cells.photoDataUrl cells))
           (formParentIds f)
           (formSiblingIds f)
           (orUndefined (JSString.trim (Cells.notes cells)))).

End BuildPerson.

(* ================================================================== *)
(** * Sidebar.tsx: the list of persons *)
(* ================================================================== *)

Module Sidebar.

Section Host.

(** [String.prototype.toLowerCase] and [String.prototype.localeCompare]:
    functions of the host. *)
Variable toLowerCase : string -> string.
Variable localeCompare : string -> string -> float.

(** [`${a.firstName} ${a.lastName ?? ''}`.toLowerCase()] *)
Definition name (a : Person) : string :=
  toLowerCase (firstName a ++ " " ++ orEmpty (lastName a))%string.

(** The comparator handed to [sort]. *)
Definition compare (a b : Person) : float :=
  localeCompare (name a) (name b).

(** [[...people].sort(...)] *)
Definition sorted (people : list Person) : list Person :=
  JSSort.sort compare people.

(** [sorted.length === 0]: the message "No people added yet." is shown. *)
Definition emptyMessage (people : list Person) : bool :=
  length (sorted people) =? 0.

End Host.

End Sidebar.

(* ================================================================== *)
(** * vite.config.ts: the name of a snapshot file *)
(* ================================================================== *)

Module Snapshot.

(** What the getters of [const d = new Date()] return: [getFullYear],
    [getMonth] (0 to 11), [getDate], [getHours], [getMinutes],
    [getSeconds]. *)
Record LocalTime := mkLocalTime {
  fullYear : Z;
  month : Z;
  day : Z;
  hours : Z;
  minutes : Z;
  seconds : Z
}.

(** [s.padStart(2, '0')] *)
Definition padStart2 (s : string) : string :=
  match String.length s with
  | 0 => "00"
  | 1 => "0" ++ s
  | _ => s
  end%string.

(** [const pad = (n: number) => String(n).padStart(2, '0')] *)
Definition pad (n : Z) : string := padStart2 (JSString.ofNumber n).

Definition ts (d : LocalTime) : string :=
  (JSString.ofNumber (fullYear d) ++ "-" ++ pad (month d + 1) ++ "-"
   ++ pad (day d) ++ "_" ++ pad (hours d) ++ "-" ++ pad (minutes d) ++ "-"
   ++ pad (seconds d))%string.

Definition filename (d : LocalTime) : string :=
  ("family.snapshot." ++ ts d ++ ".json")%string.

End Snapshot.

(** persistence.ts: [timestamp()] builds the same string from the same
    getters, and [exportToFile] downloads [family-tree.<timestamp>.json]. *)
Definition timestamp (d : Snapshot.LocalTime) : string := Snapshot.ts d.

Definition exportFilename (d : Snapshot.LocalTime) : string :=
  ("family-tree." ++ timestamp d ++ ".json")%string.

(* ================================================================== *)
(** * The vocabulary of the statements *)
(* ================================================================== *)

(** ** Measures *)

(** The number of entries of [l] that the set [s] does not hold yet. *)
Definition unseen (s : JSSet.t) (l : list string) : nat :=
  length (filter (fun i => negb (JSSet.has s i)) l).

(** ** Partial dates *)

(** The two dates of the scenario: a bare year, and a full date. *)
Definition yearOnly (y : Z) : PartialDate := mkPartialDate (Some y) None.

Definition fullDate (y : Z) (d : string) : PartialDate :=
  mkPartialDate (Some y) (Some d).

(** ** Cascading delete *)

(** [l.filter((x) => x !== i)] *)
Definition without (i : string) (l : list string) : list string :=
  filter (fun x => negb (String.eqb x i)) l.

(** What the delete leaves of a person that stays: the two id lists lose
    [i], every other field is the same. *)
Definition strippedOf (i : string) (p p' : Person) : Prop :=
  id p' = id p /\ firstName p' = firstName p /\ lastName p' = lastName p /\
  birth p' = birth p /\ death p' = death p /\
  photoDataUrl p' = photoDataUrl p /\ notes p' = notes p /\
  parentIds p' = without i (parentIds p) /\
  siblingIds p' = without i (siblingIds p).

(** ** Updates by id *)

(** The update of [updateAt], found by id: every person with id [i] is
    replaced. *)
Definition modifyById (i : string) (f : Person -> Person) (l : list Person)
    : list Person :=
  map (fun p => if hasId i p then f p else p) l.

(** ** Sibling symmetry *)

(** [B] is in [A.siblingIds] if and only if [A] is in [B.siblingIds], for
    all persons [A] and [B] of the list. *)
Definition siblingSymmetric (l : list Person) : Prop :=
  forall A B, In A l -> In B l ->
    (In (id B) (siblingIds A) <-> In (id A) (siblingIds B)).

(** The ids of the persons of a graph are distinct (types.ts: ids unique
    within the set). *)
Definition uniqueIds (l : list Person) : Prop := NoDup (map id l).

(** A step of the save that changes, in the persons other than [pid], at most
    whether [pid] is listed as a sibling. *)
Definition othersKept (pid : string) (p q : Person) : Prop :=
  id q = id p /\
  (id p <> pid ->
   forall y, y <> pid -> (In y (siblingIds q) <-> In y (siblingIds p))).

(** [q] is [p] with [pid] listed as a sibling if the id of [p] is in [done]. *)
Definition linkedBack (pid : string) (done : list string) (p q : Person) : Prop :=
  id q = id p /\
  forall y, In y (siblingIds q) <->
            In y (siblingIds p) \/ (y = pid /\ In (id p) done).

(** What the second loop does to the person [other]. *)
Definition dropStale (person current other : Person) : Person :=
  if String.eqb (id other) (id person) then other
  else if JSArray.includes (siblingIds other) (id person)
          && negb (JSArray.includes (siblingIds current) (id other))
  then withSiblingIds other (without (id person) (siblingIds other))
  else other.

(** [r] is [p] after the sync of the person [pid], whose list is [cur]. *)
Definition synced (pid : string) (cur : list string) (p r : Person) : Prop :=
  id r = id p /\
  (id p = pid -> forall y, In y (siblingIds r) <-> In y (siblingIds p)
                                                   \/ (y = pid /\ In pid cur)) /\
  (id p <> pid -> forall y, In y (siblingIds r) <->
                            (y <> pid /\ In y (siblingIds p))
                            \/ (y = pid /\ In (id p) cur)).

(** A graph of two linked siblings, and a third person saved through the
    "Add Sibling" flow of the first. *)
Definition ann : Person :=
  mkPerson "ann" "Ann" None None None None [] ["bob"%string] None.

Definition bob : Person :=
  mkPerson "bob" "Bob" None None None None [] ["ann"%string] None.

Definition cyd : Person :=
  mkPerson "cyd" "Cyd" None None None None [] [] None.

Definition annAndBob : FamilyData := mkFamilyData 1 "2026-01-01" [ann; bob].

Definition siblingOfAnn : ModalContext :=
  mkModalContext None None (Some "ann"%string).

(** ** At most two parents *)

(** No person of the list has more than 2 entries in [parentIds]. *)
Definition parentBound (l : list Person) : Prop :=
  Forall (fun p => length (parentIds p) <= 2) l.

(** The bound on a state: on the graph, on the [parentIds] cell of the open
    modal, and on the parents a context presets. *)
Definition boundedState (s : AppState) : Prop :=
  parentBound (people (data s)) /\
  (forall f, form s = Some f -> length (formParentIds f) <= 2) /\
  (forall c l, modalContext s = Some c -> presetParentIds c = Some l ->
     length l <= 2).

(** A document that passes [validateFamilyData]: one person, three parents. *)
Definition threeParentsDocument : JSON :=
  JObject
    [("version"%string, JNumber 1);
     ("updatedAt"%string, JString "2026-01-01T00:00:00.000Z");
     ("people"%string,
      JArray
        [JObject
           [("id"%string, JString "kid");
            ("firstName"%string, JString "Kid");
            ("parentIds"%string,
             JArray [JString "p1"; JString "p2"; JString "p3"]);
            ("siblingIds"%string, JArray [])]])].

Definition threeParentsData : FamilyData :=
  mkFamilyData 1 "2026-01-01T00:00:00.000Z"
    [mkPerson "kid" "Kid" None None None None
       ["p1"; "p2"; "p3"]%string [] None].

(** A serialiser for the instances, and the state of a fresh page load. *)
Definition constantJSON : list Person -> string := fun _ => EmptyString.

Definition pageLoad (JSON_stringify : list Person -> string) : AppState :=
  initialState JSON_stringify "2026-01-01T00:00:00.000Z"
    "2026-01-01T00:00:00.000Z".

(** ** Generations *)

(** [a] is a parent of [b] that is present in the person list. *)
Definition parentEdge (people : list Person) (a b : string) : Prop :=
  exists p, In p people /\ id p = b /\ In a (parentIds p) /\ In a (map id people).

(** [a] is reached from [b] by one or more parent links. *)
Inductive ancestorOf (people : list Person) : string -> string -> Prop :=
| anc_parent : forall a b, parentEdge people a b -> ancestorOf people a b
| anc_more : forall a b c,
    parentEdge people a b -> ancestorOf people b c -> ancestorOf people a c.

(** Invariant 2 of the data model: no person is its own ancestor. *)
Definition acyclic (people : list Person) : Prop :=
  forall a, ~ ancestorOf people a a.

(** The parents of [p] that are present in the person list. *)
Definition presentParents (people : list Person) (p : Person) : list string :=
  filter (JSArray.includes (map id people)) (parentIds p).

(** The rule of the claim, for one person: generation 0 without present
    parents, else 1 plus the maximum generation among them. *)
Definition followsRule (people : list Person) (gens : list (string * nat))
    (p : Person) : Prop :=
  match presentParents people p with
  | [] => JSMap.get String.eqb gens (id p) = Some 0
  | pids =>
      exists gs,
        Forall2 (fun pid g => JSMap.get String.eqb gens pid = Some g) pids gs /\
        JSMap.get String.eqb gens (id p) = Some (1 + list_max gs)
  end.

Section Memo.

Variable people : list Person.

Let idSet := makeIdSet people.
Let personMap := makePersonMap people.
Let parentsOf := validParents idSet personMap.

(** The memo holds, for an id, the value the rule gives from the values the
    memo holds for its parents. *)
Definition ruleValue (gen : list (string * nat)) (k : string) (g : nat) : Prop :=
  exists gs,
    Forall2 (fun pid pg => JSMap.get String.eqb gen pid = Some pg) (parentsOf k) gs /\
    g = if 0 <? length (parentsOf k) then list_max gs + 1 else 0.

Definition memoRight (gen : list (string * nat)) : Prop :=
  forall k g, JSMap.get String.eqb gen k = Some g -> ruleValue gen k g.

(** [gen'] holds every entry of [gen]. *)
Definition memoExtends (gen gen' : list (string * nat)) : Prop :=
  forall k g, JSMap.get String.eqb gen k = Some g ->
              JSMap.get String.eqb gen' k = Some g.

(** One round of the loop of [assignGenerations]. *)
Definition generationsRound (gen : list (string * nat)) (p : Person)
    : list (string * nat) :=
  match compute idSet personMap (generationsFuel people) (id p)
                (gen, JSSet.empty) with
  | Some (_, (gen', _)) => gen'
  | None => gen
  end.

(** An id without present parents is never given another value than 0. *)
Definition rootsAtZero (gen : list (string * nat)) : Prop :=
  forall k g, JSMap.get String.eqb gen k = Some g -> parentsOf k = [] -> g = 0.

(** [gen'] has every key of [gen]. *)
Definition keysKept (gen gen' : list (string * nat)) : Prop :=
  forall k, JSMap.get String.eqb gen k <> None ->
            JSMap.get String.eqb gen' k <> None.

End Memo.

(** C8, refuted as stated.  Two persons that name each other as parent:
    [B] has the present parent [A], of generation 2, and is given generation
    1, not 3. *)
Definition cycleA : Person := mkPerson "A" "A" None None None None ["B"%string] [] None.

Definition cycleB : Person := mkPerson "B" "B" None None None None ["A"%string] [] None.

(** A linear lineage with a dangling reference: a root whose only parent id
    is missing, its child and its grandchild. *)
Definition lineG : Person :=
  mkPerson "G" "G" None None None None ["missing-id"%string] [] None.

Definition lineH : Person := mkPerson "H" "H" None None None None ["G"%string] [] None.

Definition lineI : Person := mkPerson "I" "I" None None None None ["H"%string] [] None.

(** ** The two-parent convergence scenario *)

(** A person of a layout scenario: an id, the two names, the parents. *)
Definition scenarioPerson (i first : string) (last : option string)
    (parents : list string) : Person :=
  mkPerson i first last None None None parents [] None.

(** [A] and [B] without parents, [C] with [parentIds = [A, B]]. *)
Definition convergence (fa : string) (la : option string) (fb : string)
    (lb : option string) (fc : string) (lc : option string) : list Person :=
  [scenarioPerson "A" fa la []; scenarioPerson "B" fb lb [];
   scenarioPerson "C" fc lc ["A"; "B"]%string].

(** The sort key of pass 1 built from the two names. *)
Definition nameKey (first : string) (last : option string) : string :=
  (first ++ match last with Some l => l | None => EmptyString end)%string.

(** The x-coordinate and the y-coordinate a layout gives to an id. *)
Definition xOf (L : LayoutResult) (i : string) : option float :=
  option_map Position.x (JSMap.get String.eqb (positions L) i).

Definition yOf (L : LayoutResult) (i : string) : option float :=
  option_map Position.y (JSMap.get String.eqb (positions L) i).

Definition midpoint (a b : float) : float :=
  PrimFloat.div (PrimFloat.add a b) 2%float.

(** [curr * 0.3 + parentAvg * 0.7], the pull of pass 3. *)
Definition pullToward (curr parentAvg : float) : float :=
  PrimFloat.add (PrimFloat.mul curr 0.3%float) (PrimFloat.mul parentAvg 0.7%float).

(** ** The order of binary64 numbers *)

Module FloatOrder.

Definition negZero (f : spec_float) : bool :=
  match f with S754_zero true => true | _ => false end.

Definition posZero (f : spec_float) : bool :=
  match f with S754_zero false => true | _ => false end.

Definition notNaN (f : spec_float) : Prop := f <> S754_nan.

Definition below (f1 f2 : spec_float) : bool :=
  SFltb f1 f2 || (negZero f1 && posZero f2).

(** [below] on two numbers, spelled out. *)
Definition belowProp (f1 f2 : spec_float) : Prop :=
  match f1, f2 with
  | S754_nan, _ | _, S754_nan => False
  | S754_infinity s1, S754_infinity s2 => s1 = true /\ s2 = false
  | S754_infinity s, _ => s = true
  | _, S754_infinity s => s = false
  | S754_finite s _ _, S754_zero _ => s = true
  | S754_zero _, S754_finite s _ _ => s = false
  | S754_zero s1, S754_zero s2 => s1 = true /\ s2 = false
  | S754_finite s1 m1 e1, S754_finite s2 m2 e2 =>
      match s1, s2 with
      | true, false => True
      | false, true => False
      | false, false => (e1 < e2 \/ (e1 = e2 /\ (m1 < m2)%positive))%Z
      | true, true => (e2 < e1 \/ (e1 = e2 /\ (m2 < m1)%positive))%Z
      end
  end.

End FloatOrder.

(** The same order on numbers. *)
Definition floatBelow (x y : float) : bool :=
  PrimFloat.ltb x y || (JSNumber.isNegZero x && JSNumber.isPosZero y).

(** ** Two orderings of the same persons *)

(** [childrenOf.get(i) ?? []] *)
Definition childrenList (childrenOf : list (string * list string)) (i : string)
    : list string :=
  match JSMap.get String.eqb childrenOf i with
  | Some l => l
  | None => []
  end.

(** The children of [i] read off the person list: the id of [p] once for
    each time [i] stands in [p.parentIds]. *)
Definition childrenIn (l : list Person) (i : string) : list string :=
  flat_map (fun p => map (fun _ => id p) (filter (String.eqb i) (parentIds p))) l.

(** The placement of one sorted layer by pass 1. *)
Definition placeLayer (group : list string) (xPos : list (string * float))
    : list (string * float) :=
  centerGroup group
    (fold_left
       (fun xPos (e : nat * string) =>
          let (i, member) := e in
          JSMap.set String.eqb xPos member
            (PrimFloat.mul (JSNumber.ofNat i) (PrimFloat.add NODE_W GAP_H)))
       (combine (seq 0 (length group)) group) xPos).

(** [cmp(a, b) > 0]: the sort puts [a] after [b]. *)
Definition sortsAfter {A : Type} (cmp : A -> A -> float) (a b : A) : bool :=
  PrimFloat.ltb 0 (cmp a b).

(** The comparator decides the order of the members of [l]: of two different
    members one sorts after the other, never both ways, and sorting after is
    transitive. *)
Definition decides {A : Type} (eqb : A -> A -> bool) (cmp : A -> A -> float)
    (l : list A) : bool :=
  forallb
    (fun a =>
       forallb
         (fun b =>
            (eqb a b || sortsAfter cmp a b || sortsAfter cmp b a)
            && negb (sortsAfter cmp a b && sortsAfter cmp b a)
            && forallb
                 (fun c =>
                    implb (sortsAfter cmp a b && sortsAfter cmp b c)
                          (sortsAfter cmp a c))
                 l)
         l)
    l.

(** The same, as a proposition. *)
Definition strictOrderOn {A : Type} (cmp : A -> A -> float) (l : list A) : Prop :=
  (forall a b, In a l -> In b l -> a <> b ->
     sortsAfter cmp a b = true \/ sortsAfter cmp b a = true) /\
  (forall a b, In a l -> In b l ->
     sortsAfter cmp a b = true -> sortsAfter cmp b a = false) /\
  (forall a b c, In a l -> In b l -> In c l ->
     sortsAfter cmp a b = true -> sortsAfter cmp b c = true ->
     sortsAfter cmp a c = true).

(** No member of the list sorts after a later one. *)
Definition sortedBy {A : Type} (cmp : A -> A -> float) (l : list A) : Prop :=
  StronglySorted (fun a b => sortsAfter cmp a b = false) l.

(** The keys of a memo are distinct and are ids of the list. *)
Definition keysWithin (ids : list string) (gen : list (string * nat)) : Prop :=
  NoDup (JSMap.keys gen) /\ forall k, In k (JSMap.keys gen) -> In k ids.

(** A generation map filled bottom-up: every entry is appended, with
    generation 0 or with the generation after one that is already there. *)
Inductive ladder : list (string * nat) -> Prop :=
| ladder_nil : ladder []
| ladder_snoc : forall gen (i : string) (g : nat),
    ladder gen ->
    g = 0 \/ (exists j : string, In (j, Nat.pred g) gen) ->
    ladder (gen ++ [(i, g)]).

(** The sorts of pass 1 on the layers [keys], from the state [st]: each
    meets a comparator that decides the order of the layer. *)
Fixpoint decisiveFrom (localeCompare : string -> string -> float)
    (idSet : JSSet.t) (personMap : list (string * Person)) (keys : list nat)
    (st : LayoutState) : bool :=
  match keys with
  | [] => true
  | key :: rest =>
      decides String.eqb (pass1Compare localeCompare idSet personMap (snd st))
              (getGroup (fst st) key)
      && decisiveFrom localeCompare idSet personMap rest
           (pass1Layer localeCompare idSet personMap st key)
  end.

(** Every sort of a layer by pass 1, in the run on [people], meets a
    comparator that decides the order of the layer: no two different
    persons of the layer tie. *)
Definition pass1Decisive (localeCompare : string -> string -> float)
    (people : list Person) : bool :=
  let groups := groupByGeneration (assignGenerations people) in
  decisiveFrom localeCompare (makeIdSet people) (makePersonMap people)
    (sortedLayerKeys groups) (groups, []).

Definition sam1 : Person := scenarioPerson "1" "Sam" None [].

Definition sam2 : Person := scenarioPerson "2" "Sam" None [].

(** A collation for the instances: the order of the code units. *)
Definition codeUnitCompare (a b : string) : float :=
  match String.compare a b with
  | Lt => (-1)%float
  | Eq => 0%float
  | Gt => 1%float
  end.

Definition family : list Person := convergence "Ann" None "Bob" None "Cyd" None.

(** ** Descendants and ancestors *)

(** [c] is the id of a record that lists [a] in its [parentIds]. *)
Definition childLink (people : list Person) (c a : string) : Prop :=
  exists p, In p people /\ id p = c /\ In a (parentIds p).

(** [d] is reached from [a] by one or more child links. *)
Inductive descendantOf (people : list Person) : string -> string -> Prop :=
| desc_child : forall d a, childLink people d a -> descendantOf people d a
| desc_more : forall d m a,
    childLink people d m -> descendantOf people m a -> descendantOf people d a.

(** [a] is listed in the [parentIds] of the record [people.find] returns
    for the id [c]. *)
Definition parentLink (people : list Person) (a c : string) : Prop :=
  exists p, find (fun q => String.eqb (id q) c) people = Some p /\
            In a (parentIds p).

(** [a] is reached from [c] by one or more parent links. *)
Inductive ancestorIdOf (people : list Person) : string -> string -> Prop :=
| ancid_parent : forall a c, parentLink people a c -> ancestorIdOf people a c
| ancid_more : forall a m c,
    parentLink people a m -> ancestorIdOf people m c -> ancestorIdOf people a c.

(** ** Saves and cycles *)

(** A step of the save that leaves the id and the parents of a record. *)
Definition sameParents (q q' : Person) : Prop :=
  id q' = id q /\ parentIds q' = parentIds q.

(** The [parentIds] cell after the checkboxes of [toggles] were clicked, one
    after the other. *)
Definition toggledParents (start : list string) (toggles : list string)
    : list string :=
  fold_left (fun l i => handleParentToggle i l) toggles start.

(** ** Text cells *)

(** No character of the string is white space. *)
Fixpoint noWhiteSpace (s : string) : bool :=
  match s with
  | EmptyString => true
  | String c s' => negb (JSString.isWhiteSpace c) && noWhiteSpace s'
  end.

(** The string does not start with white space. *)
Definition startsClean (s : string) : Prop :=
  match s with
  | EmptyString => True
  | String c _ => JSString.isWhiteSpace c = false
  end.

(** The digit a code unit stands for, and the number a string of digits
    writes, most significant digit first. *)
Definition digitValue (c : ascii) : Z := (Z.of_N (N_of_ascii c) - 48)%Z.

Fixpoint digitsValue (acc : Z) (s : string) : Z :=
  match s with
  | EmptyString => acc
  | String c s' => digitsValue (10 * acc + digitValue c) s'
  end.

Fixpoint uintValue (acc : Z) (d : Decimal.uint) : Z :=
  match d with
  | Decimal.Nil => acc
  | Decimal.D0 l => uintValue (10 * acc + 0) l
  | Decimal.D1 l => uintValue (10 * acc + 1) l
  | Decimal.D2 l => uintValue (10 * acc + 2) l
  | Decimal.D3 l => uintValue (10 * acc + 3) l
  | Decimal.D4 l => uintValue (10 * acc + 4) l
  | Decimal.D5 l => uintValue (10 * acc + 5) l
  | Decimal.D6 l => uintValue (10 * acc + 6) l
  | Decimal.D7 l => uintValue (10 * acc + 7) l
  | Decimal.D8 l => uintValue (10 * acc + 8) l
  | Decimal.D9 l => uintValue (10 * acc + 9) l
  end.

(** A link step as it acts on the sibling list of the person [pid]: the
    target [t] of the add-sibling flow is added, nothing else changes. *)
Definition ownLinked (pid : string) (t : option string) (p q : Person) : Prop :=
  id q = id p /\
  (id p = pid ->
   forall y, In y (siblingIds q) <-> In y (siblingIds p) \/ t = Some y).

(** What [handleDeletePerson] makes of a person that stays. *)
Definition stripped (i : string) (p : Person) : Person :=
  mkPerson (id p) (firstName p) (lastName p) (birth p) (death p)
           (photoDataUrl p) (without i (parentIds p)) (without i (siblingIds p))
           (notes p).

(** [q] is [p] up to the places where [pid] is listed, if [p] is not the
    person [pid] itself. *)
Definition sameStripped (pid : string) (p q : Person) : Prop :=
  id q = id p /\ (id p <> pid -> stripped pid q = stripped pid p).

(** What the migration of [validateFamilyData] makes of one entry of
    [people]: an object whose [siblingIds] is an array stays as it is; any
    other object gets [siblingIds: []]; no other property changes. *)
Definition migrated (p p' : JSON) : Prop :=
  exists o o',
    p = JObject o /\ p' = JObject o' /\
    (forall k, k <> "siblingIds"%string -> JSObject.get k o' = JSObject.get k o) /\
    match JSObject.get "siblingIds" o with
    | Some (JArray _) => o' = o
    | _ => JSObject.get "siblingIds" o' = Some (JArray [])
    end.

(** The person [i] shares a parent with the modal's [parentIds] cell. *)
Definition sharesParent (people : list Person) (parentIds' : list string)
    (i : string) : Prop :=
  exists p pid, In p people /\ id p = i /\
                In pid (parentIds p) /\ In pid parentIds'.

(** No id is listed twice in the [parentIds] or in the [siblingIds] of the
    person. *)
Definition linksDistinct (p : Person) : Prop :=
  NoDup (parentIds p) /\ NoDup (siblingIds p).

(** A step that keeps [linksDistinct]. *)
Definition keepsDistinct (p q : Person) : Prop :=
  linksDistinct p -> linksDistinct q.

(** The comparator is consistent on the members of [l]: sorting after goes
    one way only, and not sorting after is transitive (ties included). *)
Definition weakOrderOn {A : Type} (cmp : A -> A -> float) (l : list A) : Prop :=
  (forall a b, In a l -> In b l ->
     sortsAfter cmp a b = true -> sortsAfter cmp b a = false) /\
  (forall a b c, In a l -> In b l -> In c l ->
     sortsAfter cmp a b = false -> sortsAfter cmp b c = false ->
     sortsAfter cmp a c = false).

(** Three persons, two of them with the same name. *)
Definition sidebarPeople : list Person :=
  [scenarioPerson "1" "Sam" None []; scenarioPerson "2" "Ann" (Some "Lee"%string) [];
   scenarioPerson "3" "Sam" None []].

(** The ranges of the getters, for a year that is not negative. *)
Definition localTimeFields (d : Snapshot.LocalTime) : Prop :=
  (0 <= Snapshot.fullYear d)%Z /\
  (0 <= Snapshot.month d <= 11)%Z /\
  (1 <= Snapshot.day d <= 31)%Z /\
  (0 <= Snapshot.hours d <= 23)%Z /\
  (0 <= Snapshot.minutes d <= 59)%Z /\
  (0 <= Snapshot.seconds d <= 59)%Z.

(** [pad] on the numbers below 100, checked one by one. *)
Definition padTable : bool :=
  forallb
    (fun k =>
       (String.length (Snapshot.pad (Z.of_nat k)) =? 2)
       && (JSString.parseInt (Snapshot.pad (Z.of_nat k)) =? Z.of_nat k)%Z)
    (seq 0 100).

(** Two children and two parents whose ids hold a hyphen at different
    places. *)
Definition hyphenPeople : list Person :=
  [scenarioPerson "a-b" "Ann" None []; scenarioPerson "a" "Al" None [];
   scenarioPerson "c" "Cy" None ["a-b"%string];
   scenarioPerson "b-c" "Bo" None ["a"%string]].

(** The parents of the target of the create-parent flow after the save of
    the new person [i]: [i] is added unless it is listed or two parents are
    there. *)
Definition parentsAfterLink (i : string) (old : list string) : list string :=
  if negb (JSArray.includes old i) && (length old <? 2) then old ++ [i] else old.

(** The app with the graph of [A], [B] and their child [C] loaded, and a
    fourth person. *)
Definition familyLoaded : AppState :=
  mkAppState (mkFamilyData 1 "2026-01-01" family) "h" None (Some ModeEdit)
    (Some "C"%string) None None.

Definition dan : Person := scenarioPerson "D" "Dan" None [].

(** Two records with the id [ann], each linked with [bob], and the record
    [ann] as the edit modal saves it once [bob] is unchecked. *)
Definition twoAnns : FamilyData :=
  mkFamilyData 1 "2026-01-01" [ann; ann; bob].

Definition annAlone : Person :=
  mkPerson "ann" "Ann" None None None None [] [] None.

(** The first layer as pass 1 finds it (the ids of generation 0, in the
    order the generation map was filled), and as pass 1 sorts it. *)
Definition rootLayer (people : list Person) : list string :=
  getGroup (groupByGeneration (assignGenerations people)) 0.

Definition pass1Roots (localeCompare : string -> string -> float)
    (people : list Person) : list string :=
  JSSort.sort
    (pass1Compare localeCompare (makeIdSet people) (makePersonMap people) [])
    (rootLayer people).

(** In the scenario, whether pass 1 leaves [B] before [A].  The layer holds
    [B] before [A] exactly when [B] is the first person of the input; the
    sort moves the first of the two behind the other exactly when the
    collation puts its name after the other name. *)
Definition rootsSwapped (localeCompare : string -> string -> float)
    (fa : string) (la : option string) (fb : string) (lb : option string)
    (people : list Person) : bool :=
  match people with
  | p :: _ =>
      if String.eqb (id p) "B"
      then negb (PrimFloat.ltb 0 (localeCompare (nameKey fb lb) (nameKey fa la)))
      else PrimFloat.ltb 0 (localeCompare (nameKey fa la) (nameKey fb lb))
  | [] => false
  end.

(** A session from a fresh page load.  Mom, Dad and Aunt are added; Kid is
    added with Mom and Dad checked as parents and a click on the box of Aunt
    that the cap ignores; then, from the edit modal of Mom, the
    create-parent flow adds Gran, whom the save links as a parent of Mom. *)
Definition parentlessNamed (i first : string) : Person :=
  mkPerson i first None None None None [] [] None.

Definition kidOfMomAndDad : Person :=
  mkPerson "kid" "Kid" None None None None ["mom"; "dad"]%string [] None.

Definition toggleParent (i : string) (s : AppState) : AppState :=
  updateForm (fun f =>
    mkFormState (handleParentToggle i (formParentIds f)) (formSiblingIds f)) s.

Definition addPerson (p : Person) (now : string) (s : AppState) : AppState :=
  setForm
    (handleModalSave p now (setForm (openAddModal s) (Some (mountForm None None))))
    None.

Definition session1 (s0 : AppState) : AppState :=
  addPerson (parentlessNamed "aunt" "Aunt") "2026-01-03"
    (addPerson (parentlessNamed "dad" "Dad") "2026-01-03"
       (addPerson (parentlessNamed "mom" "Mom") "2026-01-02" s0)).

Definition session2 (s0 : AppState) : AppState :=
  toggleParent "aunt"
    (toggleParent "dad"
       (toggleParent "mom"
          (setForm (openAddModal (session1 s0)) (Some (mountForm None None))))).

Definition session3 (s0 : AppState) : AppState :=
  setForm (handleModalSave kidOfMomAndDad "2026-01-04" (session2 s0)) None.

Definition session4 (s0 : AppState) : AppState :=
  setForm (openEditModal "mom" (session3 s0))
    (Some (mkFormState [] [])).

Definition session5 (s0 : AppState) : AppState :=
  setForm
    (handleCreateParent "mom"
       (handleModalSave (parentlessNamed "mom" "Mom") "2026-01-05" (session4 s0)))
    (Some (mkFormState [] [])).

Definition session6 (s0 : AppState) : AppState :=
  setForm
    (handleModalSave (parentlessNamed "gran" "Gran") "2026-01-06" (session5 s0))
    None.

(** The parent links whose parent is in the list: one pair (parent, child)
    for each such entry of a [parentIds], person by person and entry by
    entry, an entry that is repeated as often as it is repeated. *)
Definition presentLinks (people : list Person) : list (string * string) :=
  flat_map (fun p => map (fun pid => (pid, id p)) (presentParents people p))
           people.

(** The edge of a link. *)
Definition edgeOfLink (l : string * string) : Edge.t :=
  Edge.mk ("e-" ++ fst l ++ "-" ++ snd l) (fst l) (snd l) "smoothstep".

(** A document of the older format: the first person has no [siblingIds],
    the second has one that is not an array, the third has an array.  And
    the document as the migration leaves it. *)
Definition legacyDocument : JSON :=
  JObject
    [("version"%string, JNumber 1);
     ("updatedAt"%string, JString "2025-06-01T00:00:00.000Z");
     ("people"%string,
      JArray
        [JObject
           [("id"%string, JString "a");
            ("firstName"%string, JString "Ann");
            ("parentIds"%string, JArray [])];
         JObject
           [("id"%string, JString "b");
            ("siblingIds"%string, JString "c");
            ("firstName"%string, JString "Bob");
            ("parentIds"%string, JArray [JString "a"])];
         JObject
           [("id"%string, JString "c");
            ("firstName"%string, JString "Cyd");
            ("parentIds"%string, JArray [JString "a"]);
            ("siblingIds"%string, JArray [JString "b"])]])].

Definition migratedDocument : JSON :=
  JObject
    [("version"%string, JNumber 1);
     ("updatedAt"%string, JString "2025-06-01T00:00:00.000Z");
     ("people"%string,
      JArray
        [JObject
           [("id"%string, JString "a");
            ("firstName"%string, JString "Ann");
            ("parentIds"%string, JArray []);
            ("siblingIds"%string, JArray [])];
         JObject
           [("id"%string, JString "b");
            ("siblingIds"%string, JArray []);
            ("firstName"%string, JString "Bob");
            ("parentIds"%string, JArray [JString "a"])];
         JObject
           [("id"%string, JString "c");
            ("firstName"%string, JString "Cyd");
            ("parentIds"%string, JArray [JString "a"]);
            ("siblingIds"%string, JArray [JString "b"])]])].

(** The edit modal of Ann, open on the graph of Ann and Bob with its cells
    as they were mounted, and the person the second save of the flow builds
    from these cells under a new id. *)
Definition editingAnn : AppState :=
  mkAppState annAndBob "h" None (Some ModeEdit) (Some "ann"%string) None
    (Some (mkFormState [] ["bob"%string])).

Definition newSibling : Person :=
  mkPerson "new-1" "Ann" None None None None [] ["bob"%string] None.

(* ================================================================== *)
(** * Facts about the containers *)
(* ================================================================== *)

Lemma includes_In : forall l x, JSArray.includes l x = true <-> In x l.
Proof.
  intros l x. unfold JSArray.includes. rewrite existsb_exists. split.
  - intros [y [Hy E]]. apply String.eqb_eq in E. now subst.
  - intros H. exists x. split; [assumption | apply String.eqb_refl].
Qed.

Lemma has_In : forall s x, JSSet.has s x = true <-> In x s.
Proof. exact includes_In. Qed.

Lemma has_false : forall s x, JSSet.has s x = false <-> ~ In x s.
Proof.
  intros s x. rewrite <- has_In. destruct (JSSet.has s x); split; congruence.
Qed.

Lemma add_In : forall s x y, In y (JSSet.add s x) <-> In y s \/ y = x.
Proof.
  intros s x y. unfold JSSet.add. destruct (JSSet.has s x) eqn:E.
  - apply has_In in E. split; [auto | intros [H | ->]; assumption].
  - rewrite in_app_iff. simpl. intuition congruence.
Qed.

Lemma add_NoDup : forall s x, NoDup s -> NoDup (JSSet.add s x).
Proof.
  intros s x H. unfold JSSet.add. destruct (JSSet.has s x) eqn:E; [assumption | ].
  apply has_false in E. apply NoDup_app; [assumption | repeat constructor; auto | ].
  intros y Hy [<- | []]. now apply E.
Qed.

Lemma unseen_add_le : forall s x l, unseen (JSSet.add s x) l <= unseen s l.
Proof.
  intros s x l. unfold unseen. induction l as [ | i l IH]; simpl; [lia | ].
  destruct (JSSet.has s i) eqn:E.
  - assert (E' : JSSet.has (JSSet.add s x) i = true)
      by (apply has_In, add_In; left; now apply has_In).
    rewrite E'. simpl. exact IH.
  - destruct (JSSet.has (JSSet.add s x) i); simpl; lia.
Qed.

Lemma unseen_add_lt : forall s x l,
  In x l -> JSSet.has s x = false -> unseen (JSSet.add s x) l < unseen s l.
Proof.
  intros s x l Hin Hx. unfold unseen. induction l as [ | i l IH]; [destruct Hin | ].
  simpl. destruct Hin as [-> | Hin].
  - rewrite Hx. assert (E : JSSet.has (JSSet.add s x) x = true)
      by (apply has_In, add_In; now right).
    rewrite E. simpl. pose proof (unseen_add_le s x l) as H. unfold unseen in H. lia.
  - specialize (IH Hin). destruct (JSSet.has s i) eqn:E.
    + assert (E' : JSSet.has (JSSet.add s x) i = true)
        by (apply has_In, add_In; left; now apply has_In).
      rewrite E'. simpl. exact IH.
    + destruct (JSSet.has (JSSet.add s x) i); simpl; lia.
Qed.

(* ================================================================== *)
(** * The traversals terminate *)
(* ================================================================== *)

(** A scan keeps [queue length + ids not yet seen] from growing, and keeps
    the set duplicate-free. *)
Lemma scanChildren_measure : forall current people ids d q d' q',
  incl (map id people) ids ->
  scanChildren current people (d, q) = (d', q') ->
  length q' + unseen d' ids <= length q + unseen d ids /\ (NoDup d -> NoDup d').
Proof.
  intros current people ids. unfold scanChildren.
  induction people as [ | p people IH]; intros d q d' q' Hincl H; simpl in H.
  - inversion H; subst. split; [lia | auto].
  - assert (Hp : In (id p) ids) by (apply Hincl; now left).
    assert (Hincl' : incl (map id people) ids)
      by (intros i Hi; apply Hincl; now right).
    destruct (JSArray.includes (parentIds p) current
              && negb (JSSet.has d (id p))) eqn:E.
    + apply andb_prop in E as [_ E]. apply negb_true_iff in E.
      apply IH in H; [ | assumption]. destruct H as [H1 H2].
      pose proof (unseen_add_lt d (id p) ids Hp E). simpl in H1. split; [lia | ].
      intros Hd. apply H2. now apply add_NoDup.
    + now apply IH in H.
Qed.

Lemma descendantsLoop_total : forall fuel people d q,
  length q + unseen d (map id people) <= fuel ->
  NoDup d ->
  exists s, descendantsLoop fuel people d q = Some s /\ NoDup s.
Proof.
  induction fuel as [ | fuel IH]; intros people d q Hm Hd.
  - destruct q; [ | simpl in Hm; lia]. exists d. now split.
  - destruct q as [ | current q]; [exists d; now split | ].
    simpl. destruct (scanChildren current people (d, q)) as [d' q'] eqn:E.
    apply scanChildren_measure with (ids := map id people) in E;
      [ | apply incl_refl].
    destruct E as [E1 E2]. apply IH; [simpl in Hm; lia | auto].
Qed.

(** More fuel than needed changes nothing. *)
Lemma descendantsLoop_more : forall fuel fuel' people d q s,
  descendantsLoop fuel people d q = Some s -> fuel <= fuel' ->
  descendantsLoop fuel' people d q = Some s.
Proof.
  induction fuel as [ | fuel IH]; intros fuel' people d q s H Hle.
  - destruct q; [ | discriminate]. destruct fuel'; exact H.
  - destruct fuel' as [ | fuel']; [lia | ].
    destruct q as [ | current q]; [exact H | ].
    simpl in *. destruct (scanChildren current people (d, q)) as [d' q'].
    apply IH with (fuel' := fuel') in H; [exact H | lia].
Qed.

Lemma unseen_le_length : forall s l, unseen s l <= length l.
Proof. intros s l. unfold unseen. apply filter_length_le. Qed.

Lemma scanParents_measure : forall pids ids a q a' q',
  incl pids ids ->
  scanParents pids (a, q) = (a', q') ->
  length q' + unseen a' ids <= length q + unseen a ids /\ (NoDup a -> NoDup a').
Proof.
  intros pids ids. unfold scanParents.
  induction pids as [ | pid pids IH]; intros a q a' q' Hincl H; simpl in H.
  - inversion H; subst. split; [lia | auto].
  - assert (Hp : In pid ids) by (apply Hincl; now left).
    assert (Hincl' : incl pids ids) by (intros i Hi; apply Hincl; now right).
    destruct (negb (JSSet.has a pid)) eqn:E.
    + apply negb_true_iff in E.
      apply IH in H; [ | assumption]. destruct H as [H1 H2].
      pose proof (unseen_add_lt a pid ids Hp E). simpl in H1. split; [lia | ].
      intros Ha. apply H2. now apply add_NoDup.
    + now apply IH in H.
Qed.

Lemma parentIds_incl_all : forall people person,
  In person people -> incl (parentIds person) (allParentIds people).
Proof.
  intros people person Hin i Hi. unfold allParentIds.
  apply in_flat_map. now exists person.
Qed.

Lemma ancestorsLoop_total : forall fuel people a q,
  length q + unseen a (allParentIds people) <= fuel ->
  NoDup a ->
  exists s, ancestorsLoop fuel people a q = Some s /\ NoDup s.
Proof.
  induction fuel as [ | fuel IH]; intros people a q Hm Ha.
  - destruct q; [ | simpl in Hm; lia]. exists a. now split.
  - destruct q as [ | current q]; [exists a; now split | ].
    simpl. destruct (find (fun p => String.eqb (id p) current) people)
      as [person | ] eqn:F.
    + apply find_some in F as [Hin _].
      destruct (scanParents (parentIds person) (a, q)) as [a' q'] eqn:E.
      apply scanParents_measure with (ids := allParentIds people) in E;
        [ | now apply parentIds_incl_all].
      destruct E as [E1 E2]. apply IH; [simpl in Hm; lia | auto].
    + apply IH; [simpl in Hm; lia | assumption].
Qed.

Lemma ancestorsLoop_more : forall fuel fuel' people a q s,
  ancestorsLoop fuel people a q = Some s -> fuel <= fuel' ->
  ancestorsLoop fuel' people a q = Some s.
Proof.
  induction fuel as [ | fuel IH]; intros fuel' people a q s H Hle.
  - destruct q; [ | discriminate]. destruct fuel'; exact H.
  - destruct fuel' as [ | fuel']; [lia | ].
    destruct q as [ | current q]; [exact H | ].
    simpl in *. destruct (find (fun p => String.eqb (id p) current) people).
    + destruct (scanParents (parentIds p) (a, q)) as [a' q'].
      apply IH with (fuel' := fuel') in H; [exact H | lia].
    + apply IH with (fuel' := fuel') in H; [exact H | lia].
Qed.

(** C9.  For every list of persons and every start id, cyclic or not, the
    worklist loops of [getDescendantIds] and [getAncestorIds] stop within the
    budget the functions give them ([1 + people.length] rounds, and one plus
    the number of [parentIds] entries), any larger budget gives the same
    result, and what they return is a set: a list without repetition. *)
Theorem traversals_terminate : forall (personId : string) (people : list Person),
  (exists s,
      descendantsLoop (descendantsFuel people) people JSSet.empty [personId] = Some s /\
      (forall fuel, descendantsFuel people <= fuel ->
         descendantsLoop fuel people JSSet.empty [personId] = Some s) /\
      getDescendantIds personId people = s /\ NoDup s) /\
  (exists s,
      ancestorsLoop (ancestorsFuel people) people JSSet.empty [personId] = Some s /\
      (forall fuel, ancestorsFuel people <= fuel ->
         ancestorsLoop fuel people JSSet.empty [personId] = Some s) /\
      getAncestorIds personId people = s /\ NoDup s).
Proof.
  intros personId people. split.
  - destruct (descendantsLoop_total (descendantsFuel people) people JSSet.empty
                [personId]) as [s [Hs Hnd]].
    + unfold descendantsFuel. simpl.
      pose proof (unseen_le_length JSSet.empty (map id people)) as H.
      rewrite length_map in H. lia.
    + constructor.
    + exists s. repeat split; [exact Hs | | | exact Hnd].
      * intros fuel Hle. now apply descendantsLoop_more with (1 := Hs).
      * unfold getDescendantIds. now rewrite Hs.
  - destruct (ancestorsLoop_total (ancestorsFuel people) people JSSet.empty
                [personId]) as [s [Hs Hnd]].
    + unfold ancestorsFuel. simpl.
      pose proof (unseen_le_length JSSet.empty (allParentIds people)). lia.
    + constructor.
    + exists s. repeat split; [exact Hs | | | exact Hnd].
      * intros fuel Hle. now apply ancestorsLoop_more with (1 := Hs).
      * unfold getAncestorIds. now rewrite Hs.
Qed.

(** C1.  [wouldCreateCycle(x, y, people)] is true exactly when [y] is [x]
    or [y] is in the set [getDescendantIds(x, people)] returns. *)
Theorem wouldCreateCycle_iff : forall (x y : string) (people : list Person),
  wouldCreateCycle x y people = true <->
  (y = x \/ In y (getDescendantIds x people)).
Proof.
  intros x y people. unfold wouldCreateCycle.
  destruct (String.eqb_spec x y) as [-> | Hne].
  - split; auto.
  - rewrite has_In. split; [auto | intros [-> | H]; [contradiction | exact H]].
Qed.

(* ================================================================== *)
(** * Birth and death dates *)
(* ================================================================== *)

(** C4, refuted as stated.  Birth [1950] (year only) against death
    [1949-01-01] (full date): [validateBirthDeath] does report an error,
    the message that blocks the save. *)
Lemma mixed_precision_1950_1949_rejected :
  validateBirthDeath (Some (yearOnly 1950)) (Some (fullDate 1949 "1949-01-01"))
  <> None.
Proof. vm_compute. discriminate. Qed.

(** C4, amended.  When one of the two dates has no full date, the dates are
    not compared as ISO strings; [comparePartialDates] falls back on the two
    years.  So a year-only birth against a death with a year [yd] (full date
    or not) is an error exactly when the birth year is larger, and likewise
    for a full-date birth against a year-only death; birth [1950] against
    death [1949-01-01] is rejected with the message, birth [1950] against
    death [1950-01-01] is accepted. *)
Theorem validateBirthDeath_mixed_precision :
  (forall (yb yd : Z) (d : option string),
     validateBirthDeath (Some (yearOnly yb)) (Some (mkPartialDate (Some yd) d))
     = if (yd <? yb)%Z then Some birthDeathMessage else None) /\
  (forall (yb yd : Z) (d : option string),
     validateBirthDeath (Some (mkPartialDate (Some yb) d)) (Some (yearOnly yd))
     = if (yd <? yb)%Z then Some birthDeathMessage else None) /\
  validateBirthDeath (Some (yearOnly 1950)) (Some (fullDate 1949 "1949-01-01"))
  = Some birthDeathMessage /\
  validateBirthDeath (Some (yearOnly 1950)) (Some (fullDate 1950 "1950-01-01"))
  = None.
Proof.
  assert (Hcmp : forall yb yd : Z,
    match (if (yb <? yd)%Z then Some (-1)%Z
           else if (yd <? yb)%Z then Some 1%Z else Some 0%Z) with
    | Some cmp => if (0 <? cmp)%Z then Some birthDeathMessage else None
    | None => None
    end = if (yd <? yb)%Z then Some birthDeathMessage else None).
  { intros yb yd. destruct (Z.ltb_spec yb yd) as [H | H].
    - destruct (Z.ltb_spec yd yb); [lia | reflexivity].
    - destruct (Z.ltb_spec yd yb); reflexivity. }
  repeat split.
  - intros yb yd d. unfold validateBirthDeath, comparePartialDates, yearOnly.
    simpl. apply Hcmp.
  - intros yb yd d. unfold validateBirthDeath, comparePartialDates, yearOnly.
    simpl. destruct (truthyString d); apply Hcmp.
Qed.

(* ================================================================== *)
(** * Cascading delete *)
(* ================================================================== *)

Lemma without_In : forall i l x, In x (without i l) <-> In x l /\ x <> i.
Proof.
  intros i l x. unfold without. rewrite filter_In, negb_true_iff.
  destruct (String.eqb_spec x i); intuition congruence.
Qed.

Lemma without_absent : forall i l, ~ In i l -> without i l = l.
Proof.
  intros i l H. unfold without. induction l as [ | x l IH]; [reflexivity | ].
  simpl. destruct (String.eqb_spec x i) as [-> | Hne].
  - exfalso. apply H. now left.
  - simpl. f_equal. apply IH. intros Hin. apply H. now right.
Qed.

(** C3.  After the delete of [X]: no person with id [X] is left, and no
    remaining [parentIds] or [siblingIds] list holds [X]; the persons that
    stay are the other persons of the old list, in the old order, each with
    [X] filtered out of its two id lists and every other field unchanged (no
    parent is put in the place of [X]); a person that did not refer to [X]
    stays as it was. *)
Theorem delete_cascade : forall (X now : string) (prev : FamilyData),
  let next := handleDeletePerson X now prev in
  (forall p, In p (people next) ->
     id p <> X /\ ~ In X (parentIds p) /\ ~ In X (siblingIds p)) /\
  Forall2 (strippedOf X)
    (filter (fun p => negb (String.eqb (id p) X)) (people prev))
    (people next) /\
  (forall p, In p (people prev) -> id p <> X ->
     ~ In X (parentIds p) -> ~ In X (siblingIds p) -> In p (people next)).
Proof.
  intros X now prev. simpl. repeat split.
  - apply in_map_iff in H as [q [<- Hq]]. simpl.
    apply filter_In in Hq as [_ Hq]. apply negb_true_iff in Hq.
    now apply String.eqb_neq in Hq.
  - apply in_map_iff in H as [q [<- Hq]]. simpl.
    fold (without X (parentIds q)). rewrite without_In. tauto.
  - apply in_map_iff in H as [q [<- Hq]]. simpl.
    fold (without X (siblingIds q)). rewrite without_In. tauto.
  - induction (filter (fun p => negb (String.eqb (id p) X)) (people prev))
      as [ | q l IH]; simpl; constructor; [ | exact IH].
    unfold strippedOf. simpl. repeat split; reflexivity.
  - intros p Hin Hid Hp Hs. apply in_map_iff. exists p. split.
    + fold (without X (parentIds p)) (without X (siblingIds p)).
      rewrite !without_absent by assumption. now destruct p.
    + apply filter_In. split; [assumption | ].
      apply negb_true_iff. now apply String.eqb_neq.
Qed.

(* ================================================================== *)
(** * The dirty flag *)
(* ================================================================== *)

(** C10.  [computeHash] reads [people] only: two [FamilyData] values with
    the same [people] have the same hash whatever their [version] and
    [updatedAt]; so the [dirty] flag of a state does not change when its data
    is replaced by data with the same [people], and in particular
    [mutate] with an update that returns its argument (only [updatedAt]
    changes) leaves [dirty] as it was. *)
Theorem computeHash_reads_only_people :
  forall (JSON_stringify : list Person -> string),
  (forall (v1 v2 : Z) (u1 u2 : string) (ps : list Person),
     computeHash JSON_stringify (mkFamilyData v1 u1 ps)
     = computeHash JSON_stringify (mkFamilyData v2 u2 ps)) /\
  (forall (s : AppState) (v : Z) (u : string),
     dirty JSON_stringify
       (setCells s (mkFamilyData v u (people (data s)))
          (modalMode s) (editPersonId s) (modalContext s))
     = dirty JSON_stringify s) /\
  (forall (s : AppState) (now : string),
     dirty JSON_stringify
       (setCells s (mutate (fun d => d) now (data s))
          (modalMode s) (editPersonId s) (modalContext s))
     = dirty JSON_stringify s).
Proof.
  intros JSON_stringify. repeat split.
Qed.

(* ================================================================== *)
(** * Array updates by index and by id *)
(* ================================================================== *)

Lemma hasId_true : forall i p, hasId i p = true <-> id p = i.
Proof. intros i p. unfold hasId. apply String.eqb_eq. Qed.

Lemma hasId_false : forall i p, hasId i p = false <-> id p <> i.
Proof. intros i p. unfold hasId. apply String.eqb_neq. Qed.

(** What [findIndex] answers: the first position that satisfies [f]. *)
Lemma findIndex_Some : forall (A : Type) (f : A -> bool) l i,
  JSArray.findIndex f l = Some i ->
  exists x, nth_error l i = Some x /\ f x = true.
Proof.
  intros A f. induction l as [ | x l IH]; intros i H; simpl in H; [discriminate | ].
  destruct (f x) eqn:E.
  - inversion H; subst. exists x. now split.
  - destruct (JSArray.findIndex f l) as [j | ]; [ | discriminate].
    inversion H; subst. simpl. now apply IH.
Qed.

Lemma findIndex_lt : forall (A : Type) (f : A -> bool) l i,
  JSArray.findIndex f l = Some i -> i < length l.
Proof.
  intros A f l i H. apply findIndex_Some in H as [x [H _]].
  apply nth_error_Some. congruence.
Qed.

Lemma findIndex_None : forall (A : Type) (f : A -> bool) l,
  JSArray.findIndex f l = None <-> forall x, In x l -> f x = false.
Proof.
  intros A f. induction l as [ | x l IH]; simpl.
  - split; [intros _ y [] | reflexivity].
  - destruct (f x) eqn:E.
    + split; [discriminate | ]. intros H. rewrite (H x) in E; [discriminate | now left].
    + destruct (JSArray.findIndex f l) as [j | ]; simpl.
      * split; [discriminate | ]. intros H.
        assert (H' : forall y, In y l -> f y = false) by (intros; apply H; now right).
        apply IH in H'. discriminate.
      * split; [ | reflexivity]. intros _ y [<- | Hy]; [assumption | ].
        now apply (proj1 IH).
Qed.

Lemma modifyById_absent : forall i f l,
  (forall p, In p l -> id p <> i) -> modifyById i f l = l.
Proof.
  intros i f l H. unfold modifyById. induction l as [ | p l IH]; [reflexivity | ].
  simpl. assert (E : hasId i p = false) by (apply hasId_false, H; now left).
  rewrite E. f_equal. apply IH. intros q Hq. apply H. now right.
Qed.

Lemma modifyById_ids : forall i f l,
  (forall p, id (f p) = id p) -> map id (modifyById i f l) = map id l.
Proof.
  intros i f l H. unfold modifyById. rewrite map_map. apply map_ext.
  intros p. destruct (hasId i p); [apply H | reflexivity].
Qed.

Lemma modifyById_middle : forall i f l1 x l2,
  NoDup (map id (l1 ++ x :: l2)) -> id x = i ->
  modifyById i f (l1 ++ x :: l2) = l1 ++ f x :: l2.
Proof.
  intros i f l1 x l2 Hnd Hx. unfold modifyById. rewrite map_app. simpl.
  rewrite map_app in Hnd. simpl in Hnd. apply NoDup_remove in Hnd as [_ Hnot].
  assert (E : hasId i x = true) by now apply hasId_true. rewrite E.
  fold (modifyById i f l1) (modifyById i f l2).
  rewrite !modifyById_absent; [reflexivity | | ];
    intros p Hp Hid; apply Hnot, in_or_app; [right | left];
    apply in_map_iff; exists p; split; congruence.
Qed.

(** On an array whose ids are distinct, the update at the index [findIndex]
    returns is the update by id. *)
Lemma update_found_by_id : forall i f l,
  NoDup (map id l) ->
  match JSArray.findIndex (hasId i) l with
  | Some idx => updateAt idx f l
  | None => l
  end = modifyById i f l.
Proof.
  intros i f l Hnd. destruct (JSArray.findIndex (hasId i) l) as [idx | ] eqn:E.
  - pose proof (findIndex_Some _ _ _ _ E) as [x [Hx Hf]].
    apply hasId_true in Hf. unfold updateAt. rewrite Hx.
    apply nth_error_split in Hx as [l1 [l2 [-> Hlen]]].
    rewrite modifyById_middle by assumption. subst idx. clear.
    induction l1 as [ | y l1 IH]; simpl; [reflexivity | now rewrite IH].
  - symmetry. apply modifyById_absent. intros p Hp.
    apply hasId_false. now apply (proj1 (findIndex_None _ _ _) E).
Qed.

(* ================================================================== *)
(** * Sibling symmetry *)
(* ================================================================== *)

Lemma uniqueIds_eq : forall l A B,
  uniqueIds l -> In A l -> In B l -> id A = id B -> A = B.
Proof.
  unfold uniqueIds. induction l as [ | p l IH]; intros A B Hnd HA HB E; [destruct HA | ].
  simpl in Hnd. inversion Hnd as [ | ? ? Hnot Hnd']; subst.
  destruct HA as [-> | HA], HB as [-> | HB]; [reflexivity | | | now apply IH].
  - exfalso. apply Hnot. rewrite E. now apply in_map.
  - exfalso. apply Hnot. rewrite <- E. now apply in_map.
Qed.

Lemma othersKept_refl : forall pid p, othersKept pid p p.
Proof. intros pid p. split; [reflexivity | tauto]. Qed.

Lemma othersKept_trans : forall pid p q r,
  othersKept pid p q -> othersKept pid q r -> othersKept pid p r.
Proof.
  intros pid p q r [E1 H1] [E2 H2]. split; [congruence | ].
  intros Hp y Hy. rewrite H2 by congruence. now apply H1.
Qed.

Lemma Forall2_map_r : forall (R : Person -> Person -> Prop) h l,
  (forall p, In p l -> R p (h p)) -> Forall2 R l (map h l).
Proof.
  intros R h. induction l as [ | p l IH]; intros H; simpl; constructor.
  - apply H. now left.
  - apply IH. intros q Hq. apply H. now right.
Qed.

Lemma Forall2_trans_kept : forall pid l1 l2 l3,
  Forall2 (othersKept pid) l1 l2 -> Forall2 (othersKept pid) l2 l3 ->
  Forall2 (othersKept pid) l1 l3.
Proof.
  intros pid l1 l2 l3 H. revert l3.
  induction H as [ | p q l1 l2 Hpq _ IH]; intros l3 H3; inversion H3; subst;
    constructor; [now apply othersKept_trans with q | now apply IH].
Qed.

Lemma Forall2_ids : forall pid l l',
  Forall2 (othersKept pid) l l' -> map id l' = map id l.
Proof.
  intros pid l l' H. induction H as [ | p q l l' [E _] _ IH]; simpl; congruence.
Qed.

Lemma Forall2_In_r : forall (R : Person -> Person -> Prop) l l' q,
  Forall2 R l l' -> In q l' -> exists p, In p l /\ R p q.
Proof.
  intros R l l' q H. induction H as [ | p q' l l' Hpq _ IH]; intros Hq; [destruct Hq | ].
  destruct Hq as [-> | Hq].
  - exists p. split; [now left | assumption].
  - destruct (IH Hq) as [p' [Hp' HR]]. exists p'. split; [now right | assumption].
Qed.

Lemma addSibling_kept : forall pid p, othersKept pid p (addSibling pid p).
Proof.
  intros pid p. unfold addSibling.
  destruct (negb (JSArray.includes (siblingIds p) pid)); [ | apply othersKept_refl].
  split; [reflexivity | ]. intros _ y Hy. simpl. rewrite in_app_iff. simpl.
  intuition congruence.
Qed.

Lemma addSibling_In : forall i p y,
  In y (siblingIds (addSibling i p)) <-> In y (siblingIds p) \/ y = i.
Proof.
  intros i p y. unfold addSibling.
  destruct (JSArray.includes (siblingIds p) i) eqn:E; simpl.
  - apply includes_In in E. split; [auto | intros [H | ->]; assumption].
  - rewrite in_app_iff. simpl. intuition congruence.
Qed.

Lemma addSibling_id : forall i p, id (addSibling i p) = id p.
Proof.
  intros i p. unfold addSibling.
  now destruct (negb (JSArray.includes (siblingIds p) i)).
Qed.

Lemma modifyById_kept : forall pid i h l,
  (forall p, In p l -> id p = i -> othersKept pid p (h p)) ->
  Forall2 (othersKept pid) l (modifyById i h l).
Proof.
  intros pid i h l H. unfold modifyById. apply Forall2_map_r. intros p Hp.
  destruct (hasId i p) eqn:E; [ | apply othersKept_refl].
  apply H; [assumption | now apply hasId_true].
Qed.

(** ** The upsert *)

Lemma setAt_split : forall (A : Type) (l1 : list A) x y l2,
  JSArray.setAt (length l1) y (l1 ++ x :: l2) = l1 ++ y :: l2.
Proof.
  intros A. induction l1 as [ | z l1 IH]; intros x y l2; simpl;
    [reflexivity | now rewrite IH].
Qed.

(** After the upsert the ids are still distinct, the saved person is in the
    array, and the other persons are the other persons of the old array. *)
Lemma upsertPerson_spec : forall person l,
  uniqueIds l ->
  uniqueIds (upsertPerson person l) /\
  In person (upsertPerson person l) /\
  (forall q, id q <> id person -> (In q (upsertPerson person l) <-> In q l)).
Proof.
  intros person l Hnd. unfold upsertPerson, uniqueIds in *.
  destruct (JSArray.findIndex (hasId (id person)) l) as [idx | ] eqn:E.
  - pose proof (findIndex_Some _ _ _ _ E) as [x [Hx Hf]]. apply hasId_true in Hf.
    apply nth_error_split in Hx as [l1 [l2 [-> Hlen]]]. subst idx.
    rewrite setAt_split. split; [ | split].
    + rewrite map_app in *. simpl in *. now rewrite <- Hf.
    + apply in_or_app. right. now left.
    + intros q Hq. rewrite !in_app_iff. simpl. intuition congruence.
  - pose proof (proj1 (findIndex_None _ _ _) E) as Hnone. unfold JSArray.push.
    split; [ | split].
    + rewrite map_app. simpl. apply NoDup_app; [assumption | repeat constructor; auto | ].
      intros i Hi [<- | []]. apply in_map_iff in Hi as [q [Hq Hin]].
      apply Hnone in Hin. apply hasId_false in Hin. contradiction.
    + apply in_or_app. right. now left.
    + intros q Hq. rewrite in_app_iff. simpl. intuition congruence.
Qed.

(** ** The two link steps *)

Lemma Forall2_kept_refl : forall pid l, Forall2 (othersKept pid) l l.
Proof.
  intros pid l. induction l; constructor; [apply othersKept_refl | assumption].
Qed.

Lemma linkParent_kept : forall person ctx l,
  uniqueIds l -> Forall2 (othersKept (id person)) l (linkParent person ctx l).
Proof.
  intros person ctx l Hnd. unfold linkParent.
  destruct (ctxLink linkAsParentOf ctx) as [targetId | ];
    [ | apply Forall2_kept_refl].
  rewrite update_found_by_id by assumption. apply modifyById_kept.
  intros p _ _.
  destruct (negb (JSArray.includes (parentIds p) (id person))
            && (length (parentIds p) <? 2)); [ | apply othersKept_refl].
  split; [reflexivity | ]. intros _ y _. reflexivity.
Qed.

Lemma linkSibling_kept : forall person ctx l,
  uniqueIds l -> Forall2 (othersKept (id person)) l (linkSibling person ctx l).
Proof.
  intros person ctx l Hnd. unfold linkSibling.
  destruct (ctxLink linkAsSiblingOf ctx) as [targetId | ];
    [ | apply Forall2_kept_refl].
  rewrite (update_found_by_id targetId) by assumption.
  assert (H1 : Forall2 (othersKept (id person)) l
                 (modifyById targetId (addSibling (id person)) l)).
  { apply modifyById_kept. intros p _ _. apply addSibling_kept. }
  rewrite update_found_by_id
    by (unfold uniqueIds; rewrite (Forall2_ids _ _ _ H1); exact Hnd).
  apply Forall2_trans_kept with (1 := H1). apply modifyById_kept.
  intros p _ Hp. split; [apply addSibling_id | ]. intros Hne. contradiction.
Qed.

(** ** The sync: reverse links added *)

Lemma addReverseLinks_spec : forall person current l,
  uniqueIds l ->
  Forall2 (linkedBack (id person) (siblingIds current)) l
          (addReverseLinks person current l).
Proof.
  intros person current l Hnd. unfold addReverseLinks.
  set (pid := id person).
  assert (G : forall sibs done np,
    Forall2 (linkedBack pid done) l np ->
    Forall2 (linkedBack pid (done ++ sibs)) l
      (fold_left
         (fun np sibId =>
            match JSArray.findIndex (hasId sibId) np with
            | Some sibIdx => updateAt sibIdx (addSibling pid) np
            | None => np
            end) sibs np)).
  { induction sibs as [ | sibId sibs IH]; intros done np H.
    - simpl. now rewrite app_nil_r.
    - simpl. replace (done ++ sibId :: sibs) with ((done ++ [sibId]) ++ sibs)
        by (rewrite <- app_assoc; reflexivity).
      apply IH.
      assert (Hids : map id np = map id l).
      { clear - H. induction H as [ | p q l np [E _] _ IH']; simpl; congruence. }
      rewrite update_found_by_id by (unfold uniqueIds in Hnd; congruence).
      unfold modifyById. clear - H.
      induction H as [ | p q l np [E Hq] _ IH']; simpl; constructor; [ | exact IH'].
      unfold hasId. rewrite E.
      destruct (String.eqb_spec (id p) sibId) as [Heq | Hne].
      + split; [now rewrite addSibling_id | ].
        intros y. rewrite addSibling_In, Hq, in_app_iff. simpl.
        intuition congruence.
      + split; [assumption | ].
        intros y. rewrite Hq, in_app_iff. simpl. intuition congruence. }
  apply (G (siblingIds current) [] l).
  clear. induction l as [ | p l IH]; constructor; [ | exact IH].
  split; [reflexivity | ]. intros y. simpl. tauto.
Qed.

(** ** The sync: stale links removed *)

Lemma dropStale_id : forall person current other,
  id (dropStale person current other) = id other.
Proof.
  intros person current other. unfold dropStale.
  destruct (String.eqb (id other) (id person)); [reflexivity | ].
  now destruct (JSArray.includes (siblingIds other) (id person)
                && negb (JSArray.includes (siblingIds current) (id other))).
Qed.

(** The loop reads [newPeople[i]] while it rewrites the array, but with
    distinct ids iteration [i] writes at index [i] only, so the loop is a
    [map]. *)
Lemma removeStaleLinks_map : forall person current l,
  uniqueIds l ->
  removeStaleLinks person current l = map (dropStale person current) l.
Proof.
  intros person current l Hnd. unfold removeStaleLinks.
  set (g := dropStale person current).
  assert (G : forall l2 l1,
    uniqueIds (l1 ++ l2) ->
    fold_left (removeStaleLinkAt person current)
              (seq (length l1) (length l2)) (map g l1 ++ l2)
    = map g (l1 ++ l2)).
  { induction l2 as [ | x l2 IH]; intros l1 Hu.
    - simpl. now rewrite !app_nil_r.
    - simpl.
      assert (Hstep : removeStaleLinkAt person current (map g l1 ++ x :: l2)
                        (length l1) = map g (l1 ++ [x]) ++ l2).
      { unfold removeStaleLinkAt.
        rewrite nth_error_app2 by (rewrite length_map; lia).
        rewrite length_map, Nat.sub_diag. simpl.
        rewrite map_app. simpl. rewrite <- app_assoc. simpl.
        change (g x) with (dropStale person current x). unfold dropStale.
        destruct (String.eqb (id x) (id person)); [reflexivity | ].
        destruct (JSArray.includes (siblingIds x) (id person)
                  && negb (JSArray.includes (siblingIds current) (id x)));
          [ | reflexivity].
        assert (Hu' : uniqueIds (map g l1 ++ x :: l2)).
        { unfold uniqueIds in *. rewrite map_app, map_map in *.
          rewrite (map_ext (fun p => id (g p)) id)
            by (intros; apply dropStale_id).
          exact Hu. }
        rewrite update_found_by_id by exact Hu'.
        now apply modifyById_middle. }
      rewrite Hstep.
      replace (S (length l1)) with (length (l1 ++ [x]))
        by (rewrite length_app; simpl; lia).
      rewrite IH by (rewrite <- app_assoc; exact Hu).
      now rewrite <- app_assoc. }
  apply (G l []). exact Hnd.
Qed.

(** ** The sync as a whole *)

Lemma dropStale_spec : forall person current p q,
  linkedBack (id person) (siblingIds current) p q ->
  synced (id person) (siblingIds current) p (dropStale person current q).
Proof.
  intros person current p q [E H]. unfold synced, dropStale.
  rewrite E. destruct (String.eqb_spec (id p) (id person)) as [Heq | Hne].
  - split; [assumption | ]. split; [ | contradiction].
    intros _ y. rewrite H, Heq. tauto.
  - destruct (JSArray.includes (siblingIds q) (id person)
              && negb (JSArray.includes (siblingIds current) (id p))) eqn:C.
    + apply andb_prop in C as [C1 C2]. apply negb_true_iff in C2.
      assert (Hnot : ~ In (id p) (siblingIds current)).
      { intros Hin. apply includes_In in Hin. congruence. }
      split; [assumption | ]. split; [contradiction | ].
      intros _ y. simpl. rewrite without_In, H. intuition congruence.
    + split; [assumption | ]. split; [contradiction | ].
      intros _ y. rewrite H.
      apply andb_false_iff in C as [C | C].
      * assert (Hnot : ~ In (id person) (siblingIds q)).
        { intros Hin. apply includes_In in Hin. congruence. }
        rewrite H in Hnot.
        destruct (String.eqb_spec y (id person)) as [-> | Hy]; intuition congruence.
      * apply negb_false_iff, includes_In in C.
        destruct (String.eqb_spec y (id person)) as [-> | Hy]; intuition congruence.
Qed.

Lemma Forall2_map_after : forall (R R' : Person -> Person -> Prop) h l l',
  (forall p q, R p q -> R' p (h q)) -> Forall2 R l l' -> Forall2 R' l (map h l').
Proof.
  intros R R' h l l' Himp H.
  induction H as [ | p q l l' Hpq _ IH]; simpl; constructor; auto.
Qed.

Lemma linkedBack_ids : forall pid done l l',
  Forall2 (linkedBack pid done) l l' -> map id l' = map id l.
Proof.
  intros pid done l l' H.
  induction H as [ | p q l l' [E _] _ IH]; simpl; congruence.
Qed.

Lemma syncSiblings_spec : forall person l idx current,
  uniqueIds l ->
  JSArray.findIndex (hasId (id person)) l = Some idx ->
  nth_error l idx = Some current ->
  Forall2 (synced (id person) (siblingIds current)) l (syncSiblings person l).
Proof.
  intros person l idx current Hnd Hidx Hcur. unfold syncSiblings.
  rewrite Hidx, Hcur.
  pose proof (addReverseLinks_spec person current l Hnd) as H.
  rewrite removeStaleLinks_map.
  - apply Forall2_map_after with (2 := H). intros p q. apply dropStale_spec.
  - unfold uniqueIds in *. now rewrite (linkedBack_ids _ _ _ _ H).
Qed.

(** ** The save preserves symmetry *)

Lemma synced_ids : forall pid cur l l',
  Forall2 (synced pid cur) l l' -> map id l' = map id l.
Proof.
  intros pid cur l l' H.
  induction H as [ | p q l l' [E _] _ IH]; simpl; congruence.
Qed.

Lemma Forall2_In_l : forall (R : Person -> Person -> Prop) l l' p,
  Forall2 R l l' -> In p l -> exists q, In q l' /\ R p q.
Proof.
  intros R l l' p H. induction H as [ | p' q l l' Hpq _ IH]; intros Hp; [destruct Hp | ].
  destruct Hp as [-> | Hp].
  - exists q. split; [now left | assumption].
  - destruct (IH Hp) as [q' [Hq' HR]]. exists q'. split; [now right | assumption].
Qed.

Lemma savePerson_symmetric : forall person ctx prev,
  uniqueIds (people prev) -> siblingSymmetric (people prev) ->
  uniqueIds (people (savePerson person ctx prev)) /\
  siblingSymmetric (people (savePerson person ctx prev)).
Proof.
  intros person ctx prev Hnd Hsym. unfold savePerson. simpl.
  set (N0 := upsertPerson person (people prev)).
  set (N1 := linkParent person ctx N0).
  set (N2 := linkSibling person ctx N1).
  destruct (upsertPerson_spec person (people prev) Hnd) as [U0 [Hin0 Hold]].
  fold N0 in U0, Hin0, Hold.
  pose proof (linkParent_kept person ctx N0 U0) as K1. fold N1 in K1.
  assert (U1 : uniqueIds N1) by (unfold uniqueIds; now rewrite (Forall2_ids _ _ _ K1)).
  pose proof (linkSibling_kept person ctx N1 U1) as K2. fold N2 in K2.
  assert (U2 : uniqueIds N2) by (unfold uniqueIds; now rewrite (Forall2_ids _ _ _ K2)).
  pose proof (Forall2_trans_kept _ _ _ _ K1 K2) as K.
  (* the saved person is found in N2 *)
  destruct (JSArray.findIndex (hasId (id person)) N2) as [idx | ] eqn:Hidx.
  2:{ exfalso. pose proof (proj1 (findIndex_None _ _ _) Hidx) as Hnone.
      destruct (Forall2_In_l _ _ _ _ K Hin0) as [q [Hq [E _]]].
      apply Hnone in Hq. apply hasId_false in Hq. congruence. }
  destruct (findIndex_Some _ _ _ _ Hidx) as [current [Hcur Hcid]].
  apply hasId_true in Hcid.
  assert (Hcin : In current N2) by (now apply nth_error_In in Hcur).
  pose proof (syncSiblings_spec person N2 idx current U2 Hidx Hcur) as S.
  set (F := syncSiblings person N2) in *.
  set (cur := siblingIds current) in *.
  assert (UF : uniqueIds F) by (unfold uniqueIds; now rewrite (synced_ids _ _ _ _ S)).
  split; [exact UF | ].
  (* membership of the saved person's id, and of the other ids *)
  assert (Hpid : forall r, In r F -> id r <> (id person) ->
            (In (id person) (siblingIds r) <-> In (id r) cur)).
  { intros r Hr Hne. destruct (Forall2_In_r _ _ _ _ S Hr) as [p [Hp [E [_ H]]]].
    rewrite H by congruence. rewrite E. intuition congruence. }
  assert (Hself : forall r, In r F -> id r = (id person) ->
            forall y, In y (siblingIds r) <-> In y cur).
  { intros r Hr Heq y. destruct (Forall2_In_r _ _ _ _ S Hr) as [p [Hp [E [H _]]]].
    assert (p = current) by (apply (uniqueIds_eq N2); auto; congruence). subst p.
    rewrite H by congruence. fold cur. intuition congruence. }
  assert (Hother : forall r, In r F -> id r <> (id person) ->
            exists p0, In p0 (people prev) /\ id p0 = id r /\
              forall y, y <> (id person) -> (In y (siblingIds r) <-> In y (siblingIds p0))).
  { intros r Hr Hne. destruct (Forall2_In_r _ _ _ _ S Hr) as [p [Hp [E [_ H]]]].
    destruct (Forall2_In_r _ _ _ _ K Hp) as [p0 [Hp0 [E0 H0]]].
    exists p0. split; [apply Hold; [congruence | assumption] | ].
    split; [congruence | ]. intros y Hy.
    rewrite H by congruence. rewrite <- H0 by congruence. intuition congruence. }
  intros A B HA HB.
  destruct (String.eqb_spec (id A) (id B)) as [Heq | Hneq].
  { assert (A = B) by (now apply (uniqueIds_eq F)). subst. tauto. }
  destruct (String.eqb_spec (id A) (id person)) as [HAp | HAp];
    destruct (String.eqb_spec (id B) (id person)) as [HBp | HBp].
  - congruence.
  - rewrite (Hself A HA HAp), HAp. symmetry. now apply Hpid.
  - rewrite (Hself B HB HBp), HBp. now apply Hpid.
  - destruct (Hother A HA HAp) as [A0 [HA0 [EA HA']]].
    destruct (Hother B HB HBp) as [B0 [HB0 [EB HB']]].
    rewrite HA' by assumption. rewrite HB' by assumption.
    rewrite <- EA, <- EB. now apply Hsym.
Qed.

(** ** The delete preserves symmetry *)

Lemma uniqueIds_filter : forall f l, uniqueIds l -> uniqueIds (filter f l).
Proof.
  unfold uniqueIds. intros f. induction l as [ | p l IH]; intros H; [assumption | ].
  simpl in *. inversion H as [ | ? ? Hnot Hnd]; subst.
  destruct (f p); simpl; [ | now apply IH].
  constructor; [ | now apply IH].
  intros Hin. apply Hnot. apply in_map_iff in Hin as [q [Hq Hin]].
  apply filter_In in Hin as [Hin _]. apply in_map_iff. now exists q.
Qed.

Lemma deletePerson_symmetric : forall i prev,
  uniqueIds (people prev) -> siblingSymmetric (people prev) ->
  uniqueIds (people (deletePerson i prev)) /\
  siblingSymmetric (people (deletePerson i prev)).
Proof.
  intros i prev Hnd Hsym. unfold deletePerson. simpl. split.
  - unfold uniqueIds. rewrite map_map. simpl.
    now apply (uniqueIds_filter _ (people prev)).
  - intros A B HA HB.
    apply in_map_iff in HA as [A0 [<- HA]]. apply in_map_iff in HB as [B0 [<- HB]].
    apply filter_In in HA as [HA HAi]. apply filter_In in HB as [HB HBi].
    apply negb_true_iff, String.eqb_neq in HAi, HBi. simpl.
    fold (without i (siblingIds A0)) (without i (siblingIds B0)).
    rewrite !without_In. specialize (Hsym A0 B0 HA HB). tauto.
Qed.

(** C2, refuted as stated.  Symmetry alone is not preserved.  In the graph
    of two records with the id [ann] and of [bob], all three linked, the
    links are symmetric; the save of [ann] without siblings replaces the
    first record and takes [ann] out of the list of [bob], while the second
    record [ann] still lists [bob]. *)
Lemma duplicate_id_breaks_symmetry :
  ~ (forall (prev : FamilyData) (person : Person) (ctx : option ModalContext)
            (now : string),
       siblingSymmetric (people prev) ->
       siblingSymmetric (people (handleSavePerson person ctx now prev))).
Proof.
  intros H.
  specialize (H twoAnns annAlone None "2026-01-02"%string).
  assert (S : siblingSymmetric (people twoAnns)).
  { intros A B [<- | [<- | [<- | []]]] [<- | [<- | [<- | []]]]; simpl;
      intuition discriminate. }
  specialize (H S).
  assert (E : people (handleSavePerson annAlone None "2026-01-02" twoAnns)
              = [annAlone; ann;
                 mkPerson "bob" "Bob" None None None None [] [] None])
    by (vm_compute; reflexivity).
  rewrite E in H.
  destruct (H ann (mkPerson "bob" "Bob" None None None None [] [] None)) as [H1 _];
    [right; now left | do 2 right; now left | ].
  simpl in H1. apply H1. now left.
Qed.

(** C2, amended.  Take a graph whose ids are distinct and whose sibling
    links are symmetric.  Saving any person under any modal context (none,
    the create-and-link-as-parent flow, the create-and-link-as-sibling flow)
    and deleting any person each produce a graph whose sibling links are
    symmetric again, for all persons [A] and [B] of the new graph, and whose
    ids are still distinct, so the property carries through every sequence
    of such mutations. *)
Theorem sibling_symmetry_preserved : forall (prev : FamilyData),
  uniqueIds (people prev) -> siblingSymmetric (people prev) ->
  (forall (person : Person) (ctx : option ModalContext) (now : string),
     siblingSymmetric (people (handleSavePerson person ctx now prev)) /\
     uniqueIds (people (handleSavePerson person ctx now prev))) /\
  (forall (i now : string),
     siblingSymmetric (people (handleDeletePerson i now prev)) /\
     uniqueIds (people (handleDeletePerson i now prev))).
Proof.
  intros prev Hnd Hsym. split.
  - intros person ctx now. unfold handleSavePerson, mutate. simpl.
    destruct (savePerson_symmetric person ctx prev Hnd Hsym). now split.
  - intros i now. unfold handleDeletePerson, mutate. simpl.
    destruct (deletePerson_symmetric i prev Hnd Hsym). now split.
Qed.

Lemma sibling_symmetry_witness :
  uniqueIds (people annAndBob) /\
  siblingSymmetric (people annAndBob) /\
  siblingSymmetric
    (people (handleSavePerson cyd (Some siblingOfAnn) "2026-01-02" annAndBob)) /\
  siblingSymmetric (people (handleDeletePerson "bob" "2026-01-02" annAndBob)).
Proof.
  assert (U : uniqueIds (people annAndBob)).
  { unfold uniqueIds. simpl. repeat constructor; simpl; intuition discriminate. }
  assert (S : siblingSymmetric (people annAndBob)).
  { intros A B [<- | [<- | []]] [<- | [<- | []]]; simpl; intuition discriminate. }
  split; [exact U | ]. split; [exact S | ]. split.
  - exact (proj1 (proj1 (sibling_symmetry_preserved annAndBob U S)
                    cyd (Some siblingOfAnn) "2026-01-02"%string)).
  - exact (proj1 (proj2 (sibling_symmetry_preserved annAndBob U S)
                    "bob"%string "2026-01-02"%string)).
Defined.

(* ================================================================== *)
(** * At most two parents *)
(* ================================================================== *)

Lemma without_length : forall i l, length (without i l) <= length l.
Proof. intros i l. unfold without. apply filter_length_le. Qed.

Lemma handleParentToggle_bound : forall i prev,
  length prev <= 2 -> length (handleParentToggle i prev) <= 2.
Proof.
  intros i prev H. unfold handleParentToggle.
  destruct (JSArray.includes prev i).
  - pose proof (without_length i prev) as Hw. unfold without in Hw. lia.
  - destruct (Nat.leb_spec 2 (length prev)); [assumption | ].
    rewrite length_app. simpl. lia.
Qed.

Section Preserved.

Variable P : Person -> Prop.

Lemma setAt_Forall : forall i x l,
  Forall P l -> P x -> Forall P (JSArray.setAt i x l).
Proof.
  intros i x l H Hx. revert i. induction H as [ | y l Hy Hl IH]; intros i.
  - destruct i; simpl; constructor.
  - destruct i; simpl; constructor; auto.
Qed.

Lemma updateAt_Forall : forall i f l,
  Forall P l -> (forall x, P x -> P (f x)) -> Forall P (updateAt i f l).
Proof.
  intros i f l H Hf. unfold updateAt.
  destruct (nth_error l i) as [x | ] eqn:E; [ | assumption].
  apply setAt_Forall; [assumption | ].
  apply Hf. apply nth_error_In in E. rewrite Forall_forall in H. now apply H.
Qed.

Lemma updateFound_Forall : forall (g : Person -> bool) f l,
  Forall P l -> (forall x, P x -> P (f x)) ->
  Forall P (match JSArray.findIndex g l with
            | Some idx => updateAt idx f l
            | None => l
            end).
Proof.
  intros g f l H Hf. destruct (JSArray.findIndex g l);
    [now apply updateAt_Forall | assumption].
Qed.

End Preserved.

Lemma addSibling_parentIds : forall i x, parentIds (addSibling i x) = parentIds x.
Proof.
  intros i x. unfold addSibling.
  now destruct (negb (JSArray.includes (siblingIds x) i)).
Qed.

(** A save keeps the bound when the saved person respects it: the only
    parent the save itself adds is guarded by [parentIds.length < 2]. *)
Lemma savePerson_bound : forall person ctx prev,
  parentBound (people prev) -> length (parentIds person) <= 2 ->
  parentBound (people (savePerson person ctx prev)).
Proof.
  intros person ctx prev H Hp. unfold savePerson, parentBound in *. simpl.
  set (P := fun p => length (parentIds p) <= 2) in *.
  assert (Hsib : forall i x, P x -> P (addSibling i x))
    by (intros i x Hx; unfold P; now rewrite addSibling_parentIds).
  assert (H0 : Forall P (upsertPerson person (people prev))).
  { unfold upsertPerson.
    destruct (JSArray.findIndex (hasId (id person)) (people prev)).
    - now apply setAt_Forall.
    - unfold JSArray.push. apply Forall_app. split; [assumption | now constructor]. }
  assert (H1 : Forall P (linkParent person ctx (upsertPerson person (people prev)))).
  { unfold linkParent. destruct (ctxLink linkAsParentOf ctx); [ | assumption].
    apply updateFound_Forall; [assumption | ]. intros x Hx.
    destruct (negb (JSArray.includes (parentIds x) (id person))
              && (length (parentIds x) <? 2)) eqn:E; [ | assumption].
    apply andb_prop in E as [_ E]. apply Nat.ltb_lt in E.
    unfold P. simpl. rewrite length_app. simpl. lia. }
  set (N1 := linkParent person ctx (upsertPerson person (people prev))) in *.
  assert (H2 : Forall P (linkSibling person ctx N1)).
  { unfold linkSibling. destruct (ctxLink linkAsSiblingOf ctx); [ | assumption].
    apply updateFound_Forall; [ | apply Hsib].
    apply updateFound_Forall; [assumption | apply Hsib]. }
  set (N2 := linkSibling person ctx N1) in *.
  unfold syncSiblings. destruct (JSArray.findIndex (hasId (id person)) N2);
    [ | assumption].
  destruct (nth_error N2 n) as [current | ]; [ | assumption].
  assert (H3 : Forall P (addReverseLinks person current N2)).
  { unfold addReverseLinks. generalize (siblingIds current). intros sibs.
    revert H2. generalize N2. induction sibs as [ | sibId sibs IH]; intros l Hl;
      simpl; [assumption | ].
    apply IH. apply updateFound_Forall; [assumption | apply Hsib]. }
  unfold removeStaleLinks.
  generalize (seq 0 (length (addReverseLinks person current N2))).
  revert H3. generalize (addReverseLinks person current N2).
  intros l Hl idxs. revert l Hl. induction idxs as [ | i idxs IH]; intros l Hl;
    simpl; [assumption | ].
  apply IH. unfold removeStaleLinkAt.
  destruct (nth_error l i) as [other | ]; [ | assumption].
  destruct (String.eqb (id other) (id person)); [assumption | ].
  destruct (JSArray.includes (siblingIds other) (id person)
            && negb (JSArray.includes (siblingIds current) (id other)));
    [ | assumption].
  apply updateFound_Forall; [assumption | ]. intros x Hx. exact Hx.
Qed.

Lemma deletePerson_bound : forall i prev,
  parentBound (people prev) -> parentBound (people (deletePerson i prev)).
Proof.
  intros i prev H. unfold deletePerson, parentBound in *. simpl.
  apply Forall_forall. intros p Hp. apply in_map_iff in Hp as [q [<- Hq]].
  apply filter_In in Hq as [Hq _]. rewrite Forall_forall in H.
  specialize (H q Hq). simpl. fold (without i (parentIds q)).
  pose proof (without_length i (parentIds q)). lia.
Qed.

Lemma editPerson_In : forall s p, editPerson s = Some p -> In p (people (data s)).
Proof.
  intros s p H. unfold editPerson in H.
  destruct (modalMode s) as [[ | ] | ]; try discriminate.
  destruct (truthyString (editPersonId s)); [ | discriminate].
  now apply find_some in H as [H _].
Qed.

Lemma mountForm_bound : forall s,
  boundedState s ->
  length (formParentIds (mountForm (editPerson s) (modalContext s))) <= 2.
Proof.
  intros s [H1 [_ H3]]. unfold mountForm, initialParentIds. simpl.
  destruct (editPerson s) as [p | ] eqn:E.
  - apply editPerson_In in E. unfold parentBound in H1.
    rewrite Forall_forall in H1. now apply H1.
  - destruct (modalContext s) as [c | ] eqn:C; [ | simpl; lia].
    destruct (presetParentIds c) as [l | ] eqn:L; [ | simpl; lia].
    now apply (H3 c l).
Qed.

(** A render keeps the bound on the modal's cell, whichever way the modal
    got its cells. *)
Lemma rendered_bound : forall before s after,
  boundedState s ->
  (forall f, before = Some f -> length (formParentIds f) <= 2) ->
  rendered before s after ->
  boundedState (setForm s after).
Proof.
  intros before s after Hs Hb Hr. pose proof (mountForm_bound s Hs) as Hm.
  destruct Hs as [H1 [H2 H3]]. unfold boundedState. simpl.
  split; [assumption | ]. split; [ | assumption].
  intros f Hf. subst after. unfold rendered in Hr.
  destruct (modalMode s).
  - destruct Hr as [Hr | [g [Hg Hr]]]; inversion Hr; subst; [assumption | ].
    now apply Hb.
  - discriminate.
Qed.

Lemma handleModalSave_bound : forall saved now s,
  boundedState s -> length (parentIds saved) <= 2 ->
  boundedState (handleModalSave saved now s).
Proof.
  intros saved now s [H1 [H2 H3]] Hp. unfold boundedState. simpl.
  split; [now apply savePerson_bound | ]. split; [assumption | ].
  intros c l Hc. discriminate.
Qed.

(** Every edit, link flow and delete keeps the bound. *)
Lemma editStep_bound : forall s s',
  editStep s s' -> boundedState s -> boundedState s'.
Proof.
  intros s s' Hstep Hs. pose proof Hs as [B1 [B2 B3]].
  assert (Hsaved : forall f personId saved now,
            form s = Some f -> builtBy personId f saved ->
            boundedState (handleModalSave saved now s)).
  { intros f personId saved now Hf [_ [Hp _]].
    apply handleModalSave_bound; [assumption | ]. rewrite Hp. now apply B2. }
  destruct Hstep as
    [ s f Hr | s i f Hr | s | s i | s i | s i
    | s f personId saved now Hf Hid Hb
    | s f personId saved now s' f' Hf Hid Hb He Hlen Hs' Hr
    | s f personId saved now s' f' Hf Hid Hb He Hs' Hr
    | s f personId saved now s' f' Hf Hid Hb He Hs' Hr
    | s personId now Hf Hid He ].
  - apply rendered_bound with (before := form s); [ | assumption | assumption].
    split; [assumption | ]. split; [assumption | ]. intros c l Hc. discriminate.
  - apply rendered_bound with (before := form s); [ | assumption | assumption].
    split; [assumption | ]. split; [assumption | ]. intros c l Hc. discriminate.
  - split; [assumption | ]. split; [intros f Hf; discriminate | ].
    intros c l Hc. discriminate.
  - split; [assumption | ]. split; [ | assumption].
    simpl. intros f Hf. destruct (form s) as [g | ]; [ | discriminate].
    inversion Hf; subst. simpl. apply handleParentToggle_bound. now apply B2.
  - split; [assumption | ]. split; [ | assumption].
    simpl. intros f Hf. destruct (form s) as [g | ]; [ | discriminate].
    inversion Hf; subst. simpl. now apply B2.
  - split; [assumption | ]. split; [ | assumption].
    simpl. intros f Hf. destruct (form s) as [g | ]; [ | discriminate].
    inversion Hf; subst. simpl. now apply B2.
  - destruct (Hsaved f personId saved now Hf Hb) as [S1 [S2 S3]].
    split; [assumption | ]. split; [intros g Hg; discriminate | assumption].
  - subst s'. apply rendered_bound with (before := form s); [ | assumption | assumption].
    destruct (Hsaved f personId saved now Hf Hb) as [S1 [S2 S3]].
    split; [assumption | ]. split; [assumption | ].
    simpl. intros c l Hc Hl. inversion Hc; subst. discriminate.
  - subst s'. apply rendered_bound with (before := form s); [ | assumption | assumption].
    destruct (Hsaved f personId saved now Hf Hb) as [S1 [S2 S3]].
    split; [assumption | ]. split; [assumption | ].
    simpl. intros c l Hc Hl. inversion Hc; subst. inversion Hl; subst. simpl. lia.
  - subst s'. apply rendered_bound with (before := form s); [ | assumption | assumption].
    pose proof (Hsaved f personId saved now Hf Hb) as S.
    unfold handleAddSibling.
    destruct (find (hasId personId) (people (data s))) as [person | ] eqn:F;
      [ | assumption].
    destruct S as [S1 [S2 S3]].
    split; [assumption | ]. split; [assumption | ].
    simpl. intros c l Hc Hl. inversion Hc; subst. simpl in Hl.
    destruct (0 <? length (parentIds person)); [ | discriminate].
    inversion Hl; subst. apply find_some in F as [F _].
    unfold parentBound in B1. rewrite Forall_forall in B1. now apply B1.
  - split; [now apply deletePerson_bound | ].
    split; [intros f Hf'; discriminate | ]. intros c l Hc. discriminate.
Qed.

(** C7, refuted as stated.  [validateFamilyData] checks that [parentIds] is
    an array and nothing more, and [handleImport] adopts the document: from
    the initial state, one import reaches a graph whose person has three
    parents. *)
Lemma import_breaks_parent_bound :
  ~ (forall (JSON_stringify : list Person -> string) (s : AppState),
       reachable (appStep JSON_stringify (fun _ => True))
                 (pageLoad JSON_stringify) s ->
       parentBound (people (data s))).
Proof.
  intros H.
  specialize (H constantJSON
                (handleImport constantJSON threeParentsData (pageLoad constantJSON))).
  assert (R : reachable (appStep constantJSON (fun _ => True))
                (pageLoad constantJSON)
                (handleImport constantJSON threeParentsData (pageLoad constantJSON))).
  { apply reach_step with (s := pageLoad constantJSON); [apply reach_start | ].
    apply step_import with (obj := threeParentsDocument)
                           (obj' := threeParentsDocument);
      [reflexivity | reflexivity | exact I]. }
  specialize (H R). simpl in H. inversion H as [ | p l Hp _]; subst.
  simpl in Hp. lia.
Qed.

(** C7, amended.  Start from a state that respects the bound (the graph, the
    modal's [parentIds] cell and the preset parents of its context hold at
    most 2 entries per person; the initial state does).  Every state reached
    through person edits, the three link flows, deletes, exports, and
    imports of documents that themselves respect the bound, respects it: no
    person has more than 2 entries in [parentIds].  The import is not a
    check: it keeps the bound only because the document has it. *)
Theorem parent_bound_invariant :
  forall (JSON_stringify : list Person -> string) (s0 s : AppState),
  boundedState s0 ->
  reachable (appStep JSON_stringify (fun d => parentBound (people d))) s0 s ->
  boundedState s /\ parentBound (people (data s)).
Proof.
  intros JSON_stringify s0 s H0 R.
  assert (B : boundedState s).
  { induction R as [ | s s' _ IH Hstep]; [assumption | ].
    destruct Hstep as [s s' He | s obj obj' d _ _ Hd | s].
    - now apply editStep_bound with (1 := He).
    - destruct IH as [B1 [B2 B3]]. split; [exact Hd | now split].
    - exact IH. }
  split; [exact B | apply B].
Qed.

Lemma parent_bound_witness :
  boundedState (pageLoad constantJSON) /\
  map (fun p => (id p, parentIds p))
      (people (data (session6 (pageLoad constantJSON))))
  = [("mom", ["gran"]); ("dad", []); ("aunt", []); ("kid", ["mom"; "dad"]);
     ("gran", [])]%string /\
  parentBound (people (data (session6 (pageLoad constantJSON)))).
Proof.
  assert (B : boundedState (pageLoad constantJSON)).
  { split; [constructor | ]. split; simpl; intros; discriminate. }
  split; [exact B | ]. split; [vm_compute; reflexivity | ].
  apply (parent_bound_invariant constantJSON (pageLoad constantJSON)
           (session6 (pageLoad constantJSON)) B).
  set (s0 := pageLoad constantJSON).
  assert (R1 : reachable (appStep constantJSON (fun d => parentBound (people d)))
                 s0 (session1 s0)).
  { unfold session1, addPerson.
    eapply reach_step; [eapply reach_step; [eapply reach_step;
      [eapply reach_step; [eapply reach_step; [eapply reach_step;
        [apply reach_start | ] | ] | ] | ] | ] | ].
    - apply step_edit, step_openAdd with (f := Some (mountForm None None)).
      simpl. left. reflexivity.
    - apply step_edit.
      apply step_save with (f := mountForm None None) (personId := "mom"%string)
        (saved := parentlessNamed "mom" "Mom") (now := "2026-01-02"%string);
        [reflexivity | exact I | repeat split].
    - apply step_edit, step_openAdd with (f := Some (mountForm None None)).
      simpl. left. reflexivity.
    - apply step_edit.
      apply step_save with (f := mountForm None None) (personId := "dad"%string)
        (saved := parentlessNamed "dad" "Dad") (now := "2026-01-03"%string);
        [reflexivity | exact I | repeat split].
    - apply step_edit, step_openAdd with (f := Some (mountForm None None)).
      simpl. left. reflexivity.
    - apply step_edit.
      apply step_save with (f := mountForm None None) (personId := "aunt"%string)
        (saved := parentlessNamed "aunt" "Aunt") (now := "2026-01-03"%string);
        [reflexivity | exact I | repeat split]. }
  assert (R3 : reachable (appStep constantJSON (fun d => parentBound (people d)))
                 s0 (session3 s0)).
  { unfold session3, session2, toggleParent.
    eapply reach_step; [eapply reach_step; [eapply reach_step;
      [eapply reach_step; [eapply reach_step; [exact R1 | ] | ] | ] | ] | ].
    - apply step_edit, step_openAdd with (f := Some (mountForm None None)).
      simpl. left. reflexivity.
    - apply step_edit, step_parentToggle with (i := "mom"%string).
    - apply step_edit, step_parentToggle with (i := "dad"%string).
    - apply step_edit, step_parentToggle with (i := "aunt"%string).
    - apply step_edit.
      apply step_save with (f := mkFormState ["mom"; "dad"]%string [])
        (personId := "kid"%string) (saved := kidOfMomAndDad)
        (now := "2026-01-04"%string);
        [reflexivity | exact I | repeat split]. }
  unfold session6, session5, session4.
  eapply reach_step; [eapply reach_step; [eapply reach_step; [exact R3 | ] | ] | ].
  - apply step_edit, step_openEdit with (i := "mom"%string)
      (f := Some (mkFormState [] [])).
    simpl. left. reflexivity.
  - apply step_edit.
    apply step_createParent with (f := mkFormState [] []) (personId := "mom"%string)
      (saved := parentlessNamed "mom" "Mom") (now := "2026-01-05"%string)
      (s' := handleCreateParent "mom"
               (handleModalSave (parentlessNamed "mom" "Mom") "2026-01-05"
                  (session4 s0)));
      [reflexivity | reflexivity | repeat split | discriminate | simpl; lia
      | reflexivity | ].
    simpl. right. exists (mkFormState [] []). split; reflexivity.
  - apply step_edit.
    apply step_save with (f := mkFormState [] []) (personId := "gran"%string)
      (saved := parentlessNamed "gran" "Gran") (now := "2026-01-06"%string);
      [reflexivity | exact I | repeat split].
Defined.

(* ================================================================== *)
(** * Maps and the two lookups built from the person list *)
(* ================================================================== *)

Section StringMap.

Context {V : Type}.

Lemma get_set_same : forall (m : list (string * V)) k v,
  JSMap.get String.eqb (JSMap.set String.eqb m k v) k = Some v.
Proof.
  induction m as [ | [k' v'] m IH]; intros k v; simpl.
  - now rewrite String.eqb_refl.
  - destruct (String.eqb_spec k' k) as [-> | Hne]; simpl.
    + now rewrite String.eqb_refl.
    + destruct (String.eqb_spec k' k); [contradiction | apply IH].
Qed.

Lemma get_set_other : forall (m : list (string * V)) k v k',
  k' <> k ->
  JSMap.get String.eqb (JSMap.set String.eqb m k v) k' = JSMap.get String.eqb m k'.
Proof.
  induction m as [ | [k0 v0] m IH]; intros k v k' Hne; simpl.
  - destruct (String.eqb_spec k k'); [congruence | reflexivity].
  - destruct (String.eqb_spec k0 k) as [-> | Hk]; simpl.
    + destruct (String.eqb_spec k k'); [congruence | reflexivity].
    + destruct (String.eqb_spec k0 k'); [reflexivity | now apply IH].
Qed.

Lemma has_get : forall (m : list (string * V)) k,
  JSMap.has String.eqb m k = true <-> JSMap.get String.eqb m k <> None.
Proof.
  intros m k. unfold JSMap.has.
  destruct (JSMap.get String.eqb m k); split; congruence.
Qed.

End StringMap.

Lemma makeIdSet_In : forall people i,
  JSSet.has (makeIdSet people) i = true <-> In i (map id people).
Proof.
  intros people i. rewrite has_In. unfold makeIdSet.
  assert (G : forall l acc,
    In i (fold_left (fun s p => JSSet.add s (id p)) l acc)
    <-> In i acc \/ In i (map id l)).
  { induction l as [ | p l IH]; intros acc; simpl; [tauto | ].
    rewrite IH, add_In. intuition congruence. }
  rewrite G. simpl. tauto.
Qed.

Lemma makePersonMap_fold : forall l acc i p,
  JSMap.get String.eqb
    (fold_left (fun m q => JSMap.set String.eqb m (id q) q) l acc) i = Some p ->
  (In p l /\ id p = i) \/ JSMap.get String.eqb acc i = Some p.
Proof.
  induction l as [ | q l IH]; intros acc i p H; simpl in H; [now right | ].
  apply IH in H as [[H1 H2] | H]; [left; split; [now right | assumption] | ].
  destruct (String.eqb_spec i (id q)) as [-> | Hne].
  - rewrite get_set_same in H. inversion H; subst. left. split; [now left | reflexivity].
  - rewrite get_set_other in H by assumption. now right.
Qed.

(** A person the map returns for [i] is a person of the list with id [i]. *)
Lemma makePersonMap_get : forall people i p,
  JSMap.get String.eqb (makePersonMap people) i = Some p ->
  In p people /\ id p = i.
Proof.
  intros people i p H. apply makePersonMap_fold in H as [H | H];
    [assumption | discriminate].
Qed.

(** With distinct ids, the map returns each person for its id. *)
Lemma makePersonMap_In : forall people p,
  uniqueIds people -> In p people ->
  JSMap.get String.eqb (makePersonMap people) (id p) = Some p.
Proof.
  intros people p Hu Hin. unfold makePersonMap.
  assert (G : forall l acc,
    NoDup (map id l) ->
    (In p l \/ (JSMap.get String.eqb acc (id p) = Some p /\ ~ In (id p) (map id l))) ->
    JSMap.get String.eqb
      (fold_left (fun m q => JSMap.set String.eqb m (id q) q) l acc) (id p) = Some p).
  { induction l as [ | q l IH]; intros acc Hnd H; simpl.
    - destruct H as [[] | [H _]]. exact H.
    - simpl in Hnd. inversion Hnd as [ | ? ? Hnot Hnd']; subst.
      apply IH; [assumption | ].
      destruct H as [[-> | H] | [H Hn]].
      + right. split; [apply get_set_same | assumption].
      + now left.
      + right. simpl in Hn. split; [ | tauto].
        rewrite get_set_other; [assumption | ]. intros E. apply Hn. now left. }
  apply G; [exact Hu | now left].
Qed.

(* ================================================================== *)
(** * Generations on an acyclic graph *)
(* ================================================================== *)

Lemma ancestorOf_trans : forall people a b c,
  ancestorOf people a b -> ancestorOf people b c -> ancestorOf people a c.
Proof.
  intros people a b c H. revert c.
  induction H as [a b E | a b b' E _ IH]; intros c Hc.
  - now apply anc_more with b.
  - apply anc_more with b; [assumption | now apply IH].
Qed.

(** A numbering that grows along every parent link shows a graph acyclic. *)
Lemma ranked_acyclic : forall people (rank : string -> nat),
  (forall a b, parentEdge people a b -> rank a < rank b) -> acyclic people.
Proof.
  intros people rank Hr a H.
  assert (G : forall x y, ancestorOf people x y -> rank x < rank y).
  { intros x y Hxy. induction Hxy as [x y E | x y z E _ IH].
    - now apply Hr.
    - apply Hr in E. lia. }
  apply G in H. lia.
Qed.

Lemma validParents_present : forall people p,
  uniqueIds people -> In p people ->
  validParents (makeIdSet people) (makePersonMap people) (id p)
  = presentParents people p.
Proof.
  intros people p Hu Hin. unfold validParents, presentParents.
  rewrite makePersonMap_In by assumption. apply filter_ext. intros a.
  destruct (JSArray.includes (map id people) a) eqn:E.
  - apply makeIdSet_In. now apply includes_In.
  - destruct (JSSet.has (makeIdSet people) a) eqn:E'; [ | reflexivity].
    apply makeIdSet_In, includes_In in E'. congruence.
Qed.

Lemma validParents_edge : forall people a b,
  In a (validParents (makeIdSet people) (makePersonMap people) b) ->
  parentEdge people a b.
Proof.
  intros people a b H. unfold validParents in H.
  destruct (JSMap.get String.eqb (makePersonMap people) b) as [p | ] eqn:E;
    [ | destruct H].
  apply makePersonMap_get in E as [Hp Hid]. apply filter_In in H as [H1 H2].
  exists p. repeat split; try assumption. now apply makeIdSet_In.
Qed.

Lemma set_delete_added : forall s i,
  JSSet.has s i = false -> JSSet.delete (JSSet.add s i) i = s.
Proof.
  intros s i H. unfold JSSet.add. rewrite H. unfold JSSet.delete.
  rewrite filter_app. simpl. rewrite String.eqb_refl. simpl. rewrite app_nil_r.
  apply has_false in H. induction s as [ | x s IH]; [reflexivity | ].
  simpl. destruct (String.eqb_spec x i) as [-> | Hne].
  - exfalso. apply H. now left.
  - simpl. f_equal. apply IH. intros Hin. apply H. now right.
Qed.

Section Generations.

Variable people : list Person.

Let ids := map id people.
Let idSet := makeIdSet people.
Let personMap := makePersonMap people.
Let parentsOf := validParents idSet personMap.

Lemma memoExtends_refl : forall gen, memoExtends gen gen.
Proof. intros gen k g H. exact H. Qed.

Lemma memoExtends_trans : forall g1 g2 g3,
  memoExtends g1 g2 -> memoExtends g2 g3 -> memoExtends g1 g3.
Proof. intros g1 g2 g3 H1 H2 k g H. apply H2, H1, H. Qed.

Lemma ruleValue_extends : forall gen gen' k g,
  memoExtends gen gen' -> ruleValue people gen k g -> ruleValue people gen' k g.
Proof.
  intros gen gen' k g He [gs [H1 H2]]. exists gs. split; [ | assumption].
  clear H2. induction H1; constructor; auto.
Qed.

Lemma memoExtends_set : forall gen i g,
  JSMap.get String.eqb gen i = None ->
  memoExtends gen (JSMap.set String.eqb gen i g).
Proof.
  intros gen i g Hi k g' H. rewrite get_set_other; [assumption | ].
  intros ->. congruence.
Qed.

Hypothesis Hacyclic : acyclic people.

(** On an acyclic graph [compute] never meets the cycle guard and never
    overwrites the memo: it returns the value of the rule, leaves [visiting]
    as it found it, and adds to the memo only [i] and ancestors of [i]. *)
Lemma compute_acyclic : forall fuel i gen visiting,
  In i ids ->
  unseen visiting ids < fuel ->
  (forall v, In v visiting -> ancestorOf people i v) ->
  memoRight people gen ->
  exists g gen',
    compute idSet personMap fuel i (gen, visiting) = Some (g, (gen', visiting)) /\
    memoExtends gen gen' /\ memoRight people gen' /\
    JSMap.get String.eqb gen' i = Some g /\
    (forall k, JSMap.get String.eqb gen' k <> None ->
       JSMap.get String.eqb gen k <> None \/ k = i \/ ancestorOf people k i).
Proof.
  induction fuel as [ | fuel IH]; intros i gen visiting Hi Hfuel Hvis Hgen; [lia | ].
  simpl. destruct (JSMap.get String.eqb gen i) as [g | ] eqn:Hmemo.
  { exists g, gen. repeat split; auto using memoExtends_refl. }
  destruct (JSSet.has visiting i) eqn:Hguard.
  { exfalso. apply has_In in Hguard. exact (Hacyclic i (Hvis i Hguard)). }
  fold parentsOf.
  set (visiting' := JSSet.add visiting i).
  assert (Hfuel' : unseen visiting' ids < fuel).
  { pose proof (unseen_add_lt visiting i ids Hi Hguard). unfold visiting'. lia. }
  (* the loop over the parents *)
  assert (Hloop : forall ps gen0,
    (forall pid, In pid ps -> In pid (parentsOf i)) ->
    memoRight people gen0 ->
    exists gs gen1,
      mapCompute (compute idSet personMap fuel) ps (gen0, visiting')
        = Some (gs, (gen1, visiting')) /\
      memoExtends gen0 gen1 /\ memoRight people gen1 /\
      Forall2 (fun pid pg => JSMap.get String.eqb gen1 pid = Some pg) ps gs /\
      (forall k, JSMap.get String.eqb gen1 k <> None ->
         JSMap.get String.eqb gen0 k <> None \/ ancestorOf people k i)).
  { induction ps as [ | pid ps IHps]; intros gen0 Hps Hgen0.
    - exists [], gen0. simpl. repeat split; auto using memoExtends_refl.
    - assert (Hedge : parentEdge people pid i)
        by (apply validParents_edge, Hps; now left).
      assert (Hpid : In pid ids) by (destruct Hedge as [p [_ [_ [_ H]]]]; exact H).
      destruct (IH pid gen0 visiting' Hpid Hfuel') as [g [gen1 [E1 [X1 [R1 [G1 K1]]]]]];
        [ | assumption | ].
      { intros v Hv. apply add_In in Hv as [Hv | ->].
        - apply anc_more with i; [assumption | now apply Hvis].
        - now apply anc_parent. }
      destruct (IHps gen1) as [gs [gen2 [E2 [X2 [R2 [G2 K2]]]]]];
        [intros q Hq; apply Hps; now right | assumption | ].
      exists (g :: gs), gen2. simpl. rewrite E1, E2.
      repeat split; [now apply memoExtends_trans with gen1 | assumption | | ].
      + constructor; [now apply X2 | assumption].
      + intros k Hk. destruct (K2 k Hk) as [Hk1 | Hk1]; [ | now right].
        destruct (K1 k Hk1) as [Hk0 | [-> | Hk0]]; [now left | | ].
        * right. now apply anc_parent.
        * right. apply ancestorOf_trans with pid; [assumption | now apply anc_parent]. }
  destruct (Hloop (parentsOf i) gen) as [gs [gen1 [E1 [X1 [R1 [G1 K1]]]]]];
    [auto | assumption | ].
  rewrite E1.
  assert (Hfresh : JSMap.get String.eqb gen1 i = None).
  { destruct (JSMap.get String.eqb gen1 i) eqn:E; [ | reflexivity].
    destruct (K1 i) as [H | H]; [congruence | congruence | ].
    exfalso. exact (Hacyclic i H). }
  set (g := if 0 <? length (parentsOf i) then list_max gs + 1 else 0).
  exists g, (JSMap.set String.eqb gen1 i g).
  unfold visiting'. rewrite set_delete_added by assumption.
  pose proof (memoExtends_set gen1 i g Hfresh) as Xset.
  repeat split.
  - now apply memoExtends_trans with gen1.
  - intros k g' Hk. destruct (String.eqb_spec k i) as [-> | Hne].
    + rewrite get_set_same in Hk. inversion Hk; subst g'.
      apply ruleValue_extends with gen1; [assumption | ]. now exists gs.
    + rewrite get_set_other in Hk by assumption.
      apply ruleValue_extends with gen1; [assumption | now apply R1].
  - apply get_set_same.
  - intros k Hk. destruct (String.eqb_spec k i) as [-> | Hne]; [right; now left | ].
    rewrite get_set_other in Hk by assumption.
    destruct (K1 k Hk) as [H | H]; [now left | right; now right].
Qed.

(** The loop of [assignGenerations], from any memo that is right so far. *)
Lemma assignGenerations_fold : forall l gen,
  (forall p, In p l -> In (id p) ids) ->
  memoRight people gen ->
  memoExtends gen (fold_left (generationsRound people) l gen) /\
  memoRight people (fold_left (generationsRound people) l gen) /\
  (forall p, In p l ->
     JSMap.get String.eqb (fold_left (generationsRound people) l gen) (id p) <> None).
Proof.
  induction l as [ | p l IH]; intros gen Hl Hgen; simpl.
  - split; [apply memoExtends_refl | split; [assumption | intros p []]].
  - destruct (compute_acyclic (generationsFuel people) (id p) gen JSSet.empty)
      as [g [gen1 [E [X [R [G _]]]]]].
    + apply Hl. now left.
    + unfold generationsFuel. pose proof (unseen_le_length JSSet.empty ids) as H.
      unfold ids in H at 2. rewrite length_map in H. lia.
    + intros v [].
    + assumption.
    + assert (Rd : generationsRound people gen p = gen1)
        by (unfold generationsRound; fold idSet personMap; now rewrite E).
      rewrite Rd.
      destruct (IH gen1) as [X' [R' K']];
        [intros q Hq; apply Hl; now right | assumption | ].
      repeat split; [now apply memoExtends_trans with gen1 | assumption | ].
      intros q [<- | Hq]; [ | now apply K'].
      rewrite (X' _ _ G). discriminate.
Qed.

Lemma assignGenerations_right :
  memoRight people (assignGenerations people) /\
  (forall p, In p people ->
     JSMap.get String.eqb (assignGenerations people) (id p) <> None).
Proof.
  change (assignGenerations people) with (fold_left (generationsRound people) people []).
  destruct (assignGenerations_fold people []) as [_ [R K]].
  - intros p Hp. now apply in_map.
  - intros k g H. discriminate.
  - split; assumption.
Qed.

End Generations.

(** ** Any graph: the recursion stays within its budget *)

Section AnyGraph.

Variable people : list Person.

Let ids := map id people.
Let idSet := makeIdSet people.
Let personMap := makePersonMap people.
Let parentsOf := validParents idSet personMap.

Lemma keysKept_set : forall gen i g, keysKept gen (JSMap.set String.eqb gen i g).
Proof.
  intros gen i g k Hk. destruct (String.eqb_spec k i) as [-> | Hne].
  - rewrite get_set_same. discriminate.
  - now rewrite get_set_other.
Qed.

Lemma rootsAtZero_set : forall gen i g,
  rootsAtZero people gen -> (parentsOf i = [] -> g = 0) ->
  rootsAtZero people (JSMap.set String.eqb gen i g).
Proof.
  intros gen i g Hz Hg k g' Hk Hp. destruct (String.eqb_spec k i) as [-> | Hne].
  - rewrite get_set_same in Hk. inversion Hk; subst. now apply Hg.
  - rewrite get_set_other in Hk by assumption. now apply (Hz k).
Qed.

(** Cyclic or not: with a budget above the number of ids not being visited,
    [compute] returns, restores [visiting], keeps the keys of the memo and
    adds [i] to them. *)
Lemma compute_total : forall fuel i gen visiting,
  In i ids ->
  unseen visiting ids < fuel ->
  rootsAtZero people gen ->
  exists g gen',
    compute idSet personMap fuel i (gen, visiting) = Some (g, (gen', visiting)) /\
    rootsAtZero people gen' /\ keysKept gen gen' /\
    JSMap.get String.eqb gen' i <> None.
Proof.
  induction fuel as [ | fuel IH]; intros i gen visiting Hi Hfuel Hz; [lia | ].
  simpl. destruct (JSMap.get String.eqb gen i) as [g | ] eqn:Hmemo.
  { exists g, gen. repeat split; [assumption | intros k Hk; exact Hk | congruence]. }
  destruct (JSSet.has visiting i) eqn:Hguard.
  { exists 0, (JSMap.set String.eqb gen i 0). repeat split.
    - apply rootsAtZero_set; auto.
    - apply keysKept_set.
    - rewrite get_set_same. discriminate. }
  fold parentsOf.
  set (visiting' := JSSet.add visiting i).
  assert (Hfuel' : unseen visiting' ids < fuel).
  { pose proof (unseen_add_lt visiting i ids Hi Hguard). unfold visiting'. lia. }
  assert (Hloop : forall ps gen0,
    (forall pid, In pid ps -> In pid ids) ->
    rootsAtZero people gen0 ->
    exists gs gen1,
      mapCompute (compute idSet personMap fuel) ps (gen0, visiting')
        = Some (gs, (gen1, visiting')) /\
      rootsAtZero people gen1 /\ keysKept gen0 gen1).
  { induction ps as [ | pid ps IHps]; intros gen0 Hps Hz0.
    - exists [], gen0. simpl. repeat split; [assumption | intros k Hk; exact Hk].
    - destruct (IH pid gen0 visiting') as [g [gen1 [E1 [Z1 [K1 _]]]]];
        [apply Hps; now left | assumption | assumption | ].
      destruct (IHps gen1) as [gs [gen2 [E2 [Z2 K2]]]];
        [intros q Hq; apply Hps; now right | assumption | ].
      exists (g :: gs), gen2. simpl. rewrite E1, E2.
      repeat split; [assumption | intros k Hk; apply K2, K1, Hk]. }
  destruct (Hloop (parentsOf i) gen) as [gs [gen1 [E1 [Z1 K1]]]];
    [ | assumption | ].
  { intros pid Hpid. apply validParents_edge in Hpid.
    destruct Hpid as [p [_ [_ [_ H]]]]. exact H. }
  rewrite E1.
  exists (if 0 <? length (parentsOf i) then list_max gs + 1 else 0),
         (JSMap.set String.eqb gen1 i
            (if 0 <? length (parentsOf i) then list_max gs + 1 else 0)).
  unfold visiting'. rewrite set_delete_added by assumption.
  repeat split.
  - apply rootsAtZero_set; [assumption | ]. intros ->. reflexivity.
  - intros k Hk. apply keysKept_set, K1, Hk.
  - rewrite get_set_same. discriminate.
Qed.

Lemma generations_total : forall l gen,
  (forall p, In p l -> In (id p) ids) ->
  rootsAtZero people gen ->
  rootsAtZero people (fold_left (generationsRound people) l gen) /\
  keysKept gen (fold_left (generationsRound people) l gen) /\
  (forall p, In p l ->
     JSMap.get String.eqb (fold_left (generationsRound people) l gen) (id p)
     <> None).
Proof.
  induction l as [ | p l IH]; intros gen Hl Hz; simpl.
  - split; [assumption | split; [intros k Hk; exact Hk | intros p []]].
  - destruct (compute_total (generationsFuel people) (id p) gen JSSet.empty)
      as [g [gen1 [E [Z [K G]]]]].
    + apply Hl. now left.
    + unfold generationsFuel. pose proof (unseen_le_length JSSet.empty ids) as H.
      unfold ids in H at 2. rewrite length_map in H. lia.
    + assumption.
    + assert (R : generationsRound people gen p = gen1)
        by (unfold generationsRound; fold idSet personMap; now rewrite E).
      rewrite R. destruct (IH gen1) as [Z' [K' G']];
        [intros q Hq; apply Hl; now right | assumption | ].
      split; [assumption | ]. split; [intros k Hk; apply K', K, Hk | ].
      intros q [<- | Hq]; [now apply K' | now apply G'].
Qed.

End AnyGraph.

(** The budget [assignGenerations] gives [compute] is never exhausted. *)
Lemma assignGenerations_budget : forall people gen p,
  In p people -> rootsAtZero people gen ->
  compute (makeIdSet people) (makePersonMap people) (generationsFuel people)
          (id p) (gen, JSSet.empty) <> None.
Proof.
  intros people gen p Hp Hz.
  destruct (compute_total people (generationsFuel people) (id p) gen JSSet.empty)
    as [g [gen1 [E _]]]; [now apply in_map | | assumption | congruence].
  unfold generationsFuel.
  pose proof (unseen_le_length JSSet.empty (map id people)) as H.
  rewrite length_map in H. lia.
Qed.

Lemma generation_rule_fails_on_cycle :
  ~ followsRule [cycleA; cycleB] (assignGenerations [cycleA; cycleB]) cycleB.
Proof.
  unfold followsRule. vm_compute. intros [gs [H1 H2]].
  inversion H1 as [ | pid g ps gs' Hg Hrest]; subst.
  inversion Hrest; subst. inversion Hg; subst. simpl in H2. discriminate.
Qed.

(** C8, amended.  For a person list with distinct ids, [assignGenerations]
    gives generation 0 to every person none of whose parent ids is present
    in the list (a dangling reference counts as no parent), on every graph;
    and when the parent links are acyclic it gives every other person 1 plus
    the maximum generation among its present parents.  (On a cycle the guard
    of [compute] returns 0 for the person met again, and the rule does not
    hold along the cycle.) *)
Theorem assignGenerations_follows_rule : forall (people : list Person),
  uniqueIds people ->
  (forall p, In p people -> presentParents people p = [] ->
     JSMap.get String.eqb (assignGenerations people) (id p) = Some 0) /\
  (acyclic people ->
   forall p, In p people -> followsRule people (assignGenerations people) p).
Proof.
  intros people Hu. split.
  - intros p Hp Hnone.
    destruct (generations_total people people []) as [Z [_ G]].
    + intros q Hq. now apply in_map.
    + intros k g H. discriminate.
    + change (fold_left (generationsRound people) people [])
        with (assignGenerations people) in Z, G.
      specialize (G p Hp).
      destruct (JSMap.get String.eqb (assignGenerations people) (id p)) as [g | ] eqn:E;
        [ | congruence].
      f_equal. apply (Z (id p) g E).
      now rewrite validParents_present.
  - intros Ha p Hp. destruct (assignGenerations_right people Ha) as [R K].
    specialize (K p Hp).
    destruct (JSMap.get String.eqb (assignGenerations people) (id p)) as [g | ] eqn:E;
      [ | congruence].
    destruct (R (id p) g E) as [gs [H1 H2]].
    rewrite validParents_present in H1, H2 by assumption.
    unfold followsRule. rewrite E.
    destruct (presentParents people p) as [ | pid pids] eqn:P.
    + simpl in H2. now subst.
    + exists gs. split; [assumption | ]. simpl in H2. subst g. f_equal. lia.
Qed.

Lemma lineage_unique : uniqueIds [lineG; lineH; lineI].
Proof. unfold uniqueIds. simpl. repeat constructor; simpl; intuition discriminate. Qed.

Lemma lineage_acyclic : acyclic [lineG; lineH; lineI].
Proof.
  apply ranked_acyclic with (rank := fun i =>
    if String.eqb i "G"%string then 0
    else if String.eqb i "H"%string then 1 else 2).
  intros a b [p [Hp [Hb [Ha Hin]]]]. subst b.
  destruct Hp as [<- | [<- | [<- | []]]]; simpl in Ha;
    destruct Ha as [<- | []]; simpl; try lia.
  simpl in Hin. intuition discriminate.
Qed.

Lemma assignGenerations_rule_witness :
  JSMap.get String.eqb (assignGenerations [lineG; lineH; lineI]) (id lineG) = Some 0 /\
  followsRule [lineG; lineH; lineI] (assignGenerations [lineG; lineH; lineI]) lineI.
Proof.
  split.
  - apply (proj1 (assignGenerations_follows_rule [lineG; lineH; lineI]
                    lineage_unique) lineG); [now left | reflexivity].
  - apply (proj2 (assignGenerations_follows_rule [lineG; lineH; lineI]
                    lineage_unique) lineage_acyclic lineI).
    right. right. now left.
Defined.

(* ================================================================== *)
(** * Scenario: two-parent convergence *)
(* ================================================================== *)

Lemma sort_pair : forall (A : Type) (cmp : A -> A -> float) a b,
  JSSort.sort cmp [a; b]
  = if PrimFloat.ltb 0 (cmp a b) then [b; a] else [a; b].
Proof. reflexivity. Qed.

(** The six orders of three elements. *)
Lemma permutation_of_three : forall (A : Type) (a b c : A) (l : list A),
  Permutation l [a; b; c] ->
  l = [a; b; c] \/ l = [a; c; b] \/ l = [b; a; c] \/
  l = [b; c; a] \/ l = [c; a; b] \/ l = [c; b; a].
Proof.
  intros A a b c l H.
  destruct (Permutation_vs_cons_inv H) as [l1 [l2 ->]].
  apply Permutation_sym, Permutation_cons_app_inv, Permutation_length_2_inv in H.
  destruct l1 as [ | x [ | y [ | z l1]]]; simpl in H |- *;
    destruct H as [H | H]; try discriminate H.
  - inversion H; subst. auto.
  - inversion H; subst. auto.
  - destruct l2 as [ | y [ | ]]; inversion H; subst. auto.
  - destruct l2 as [ | y [ | ]]; inversion H; subst. auto 6.
  - destruct l2; inversion H; subst. auto 6.
  - destruct l2; inversion H; subst. auto 7.
Qed.
(** Pass 1 on a graph whose layers are the two roots, [A] before [B], and
    the child [C]: the only comparison the sort asks for is the one of the
    two roots. *)
Lemma pass1_roots_AB : forall (localeCompare : string -> string -> float) people,
  groupByGeneration (assignGenerations people)
  = [(0, ["A"; "B"]%string); (1, ["C"%string])] ->
  layoutPass1 localeCompare people =
  if PrimFloat.ltb 0 (pass1Compare localeCompare (makeIdSet people)
                        (makePersonMap people) [] "A" "B")
  then ([(0, ["B"; "A"]%string); (1, ["C"%string])],
        [("B"%string, (-115)%float); ("A"%string, 115%float); ("C"%string, 0%float)])
  else ([(0, ["A"; "B"]%string); (1, ["C"%string])],
        [("A"%string, (-115)%float); ("B"%string, 115%float); ("C"%string, 0%float)]).
Proof.
  intros localeCompare people G. unfold layoutPass1. rewrite G.
  replace (sortedLayerKeys [(0, ["A"; "B"]%string); (1, ["C"%string])])
    with [0; 1] by (vm_compute; reflexivity).
  cbn [fold_left]. unfold pass1Layer at 2.
  replace (getGroup [(0, ["A"; "B"]%string); (1, ["C"%string])] 0)
    with ["A"; "B"]%string by reflexivity.
  rewrite sort_pair.
  destruct (PrimFloat.ltb 0 _); vm_compute; reflexivity.
Qed.

(** The same with [B] before [A] in the first layer. *)
Lemma pass1_roots_BA : forall (localeCompare : string -> string -> float) people,
  groupByGeneration (assignGenerations people)
  = [(0, ["B"; "A"]%string); (1, ["C"%string])] ->
  layoutPass1 localeCompare people =
  if PrimFloat.ltb 0 (pass1Compare localeCompare (makeIdSet people)
                        (makePersonMap people) [] "B" "A")
  then ([(0, ["A"; "B"]%string); (1, ["C"%string])],
        [("A"%string, (-115)%float); ("B"%string, 115%float); ("C"%string, 0%float)])
  else ([(0, ["B"; "A"]%string); (1, ["C"%string])],
        [("B"%string, (-115)%float); ("A"%string, 115%float); ("C"%string, 0%float)]).
Proof.
  intros localeCompare people G. unfold layoutPass1. rewrite G.
  replace (sortedLayerKeys [(0, ["B"; "A"]%string); (1, ["C"%string])])
    with [0; 1] by (vm_compute; reflexivity).
  cbn [fold_left]. unfold pass1Layer at 2.
  replace (getGroup [(0, ["B"; "A"]%string); (1, ["C"%string])] 0)
    with ["B"; "A"]%string by reflexivity.
  rewrite sort_pair.
  destruct (PrimFloat.ltb 0 _); vm_compute; reflexivity.
Qed.

(** The layout of the scenario in any input order: the generation of [C],
    and the positions by the order pass 1 gives [A] and [B]. *)
Lemma convergence_any_order :
  forall (localeCompare : string -> string -> float) fa la fb lb fc lc people,
  Permutation people (convergence fa la fb lb fc lc) ->
  JSMap.get String.eqb (assignGenerations people) "C"%string = Some 1 /\
  exists flipped : bool,
    computeLayout localeCompare people =
    mkLayoutResult
      (if flipped
       then [("B"%string, Position.mk 0 0); ("A"%string, Position.mk 230 0);
             ("C"%string, Position.mk 80.5 140)]
       else [("A"%string, Position.mk 0 0); ("B"%string, Position.mk 230 0);
             ("C"%string, Position.mk 80.5 140)])
      [Edge.mk "e-A-C" "A" "C" "smoothstep"; Edge.mk "e-B-C" "B" "C" "smoothstep"].
Proof.
  intros localeCompare fa la fb lb fc lc people H. unfold convergence in H.
  destruct (permutation_of_three _ _ _ _ _ H)
    as [-> | [-> | [-> | [-> | [-> | ->]]]]];
    (split; [vm_compute; reflexivity | ]);
    unfold computeLayout, layoutX;
    first [ rewrite pass1_roots_AB by (vm_compute; reflexivity)
          | rewrite pass1_roots_BA by (vm_compute; reflexivity) ];
    match goal with
    | |- context [PrimFloat.ltb 0 ?c] => destruct (PrimFloat.ltb 0 c)
    end;
    first [ exists true; vm_compute; reflexivity
          | exists false; vm_compute; reflexivity ].
Qed.

(** The same, with the order in which pass 1 leaves the two roots. *)
Lemma convergence_pass1 :
  forall (localeCompare : string -> string -> float) fa la fb lb fc lc people,
  Permutation people (convergence fa la fb lb fc lc) ->
  pass1Roots localeCompare people
  = (if rootsSwapped localeCompare fa la fb lb people
     then ["B"; "A"] else ["A"; "B"])%string /\
  computeLayout localeCompare people =
  mkLayoutResult
    (if rootsSwapped localeCompare fa la fb lb people
     then [("B"%string, Position.mk 0 0); ("A"%string, Position.mk 230 0);
           ("C"%string, Position.mk 80.5 140)]
     else [("A"%string, Position.mk 0 0); ("B"%string, Position.mk 230 0);
           ("C"%string, Position.mk 80.5 140)])
    [Edge.mk "e-A-C" "A" "C" "smoothstep"; Edge.mk "e-B-C" "B" "C" "smoothstep"].
Proof.
  intros localeCompare fa la fb lb fc lc people H. unfold convergence in H.
  destruct (permutation_of_three _ _ _ _ _ H)
    as [-> | [-> | [-> | [-> | [-> | ->]]]]];
    unfold pass1Roots, rootLayer, rootsSwapped, computeLayout, layoutX;
    first [ rewrite pass1_roots_AB by (vm_compute; reflexivity);
            replace (getGroup (groupByGeneration (assignGenerations _)) 0)
              with ["A"; "B"]%string by (vm_compute; reflexivity)
          | rewrite pass1_roots_BA by (vm_compute; reflexivity);
            replace (getGroup (groupByGeneration (assignGenerations _)) 0)
              with ["B"; "A"]%string by (vm_compute; reflexivity) ];
    rewrite sort_pair;
    try change (pass1Compare localeCompare _ _ [] "A" "B")
          with (localeCompare (nameKey fa la) (nameKey fb lb));
    try change (pass1Compare localeCompare _ _ [] "B" "A")
          with (localeCompare (nameKey fb lb) (nameKey fa la));
    cbn [id scenarioPerson String.eqb Ascii.eqb Bool.eqb];
    destruct (PrimFloat.ltb 0 (localeCompare (nameKey fa la) (nameKey fb lb)));
    destruct (PrimFloat.ltb 0 (localeCompare (nameKey fb lb) (nameKey fa la)));
    cbn [negb];
    (split; [reflexivity | vm_compute; reflexivity]).
Qed.

(** C5, refuted as stated.  In the scenario (names [A], [B], [C]), whatever
    the collation, the x-coordinate of [C] is not the midpoint of the final
    x-coordinates of [A] and [B]: these are 0 and 230, with midpoint 115,
    and [C] is at 80.5. *)
Lemma convergence_child_off_midpoint :
  ~ (exists (localeCompare : string -> string -> float) (xa xb xc : float),
       let L := computeLayout localeCompare
                  (convergence "A" None "B" None "C" None) in
       xOf L "A" = Some xa /\ xOf L "B" = Some xb /\ xOf L "C" = Some xc /\
       xc = midpoint xa xb).
Proof.
  intros [localeCompare [xa [xb [xc H]]]]. cbv zeta in H.
  destruct (convergence_any_order localeCompare "A" None "B" None "C" None _
              (Permutation_refl _)) as [_ [flipped E]].
  rewrite E in H. unfold xOf in H. simpl positions in H.
  destruct flipped; simpl in H; destruct H as [HA [HB [HC HM]]];
    injection HA as <-; injection HB as <-; injection HC as <-;
    apply (f_equal (fun v => PrimFloat.eqb v 115%float)) in HM;
    vm_compute in HM; discriminate.
Qed.

(** C5, amended.  In the scenario, for every choice of names, every
    collation and every order of the three persons in the input: [C] is
    given generation 1 (y = 140); [A] and [B] end at x = 0 and x = 230 in
    the order in which pass 1 sorted the first layer, the first of the
    sorted layer at 0 and the second at 230; both edges [A -> C] and
    [B -> C] are emitted; and the x-coordinate of [C] is not the midpoint
    115 of its parents but [0 * 0.3 + 115 * 0.7 = 80.5]: pass 3 pulls [C]
    from its own position 0 towards the midpoint with weights 0.3 and 0.7.
    The sorted layer is [B, A] or [A, B] as [rootsSwapped] says: the layer
    holds [B] before [A] exactly when [B] is the first person of the input,
    and the sort moves the first of the two behind the other exactly when
    the collation puts its name after the other name. *)
Theorem two_parent_convergence :
  forall (localeCompare : string -> string -> float) fa la fb lb fc lc people,
  Permutation people (convergence fa la fb lb fc lc) ->
  let L := computeLayout localeCompare people in
  JSMap.get String.eqb (assignGenerations people) "C"%string = Some 1 /\
  yOf L "C" = Some (PrimFloat.mul 1 GAP_V) /\
  pass1Roots localeCompare people
  = (if rootsSwapped localeCompare fa la fb lb people
     then ["B"; "A"] else ["A"; "B"])%string /\
  (exists xa xb,
     xOf L "A" = Some xa /\ xOf L "B" = Some xb /\
     ((pass1Roots localeCompare people = ["A"; "B"]%string /\
       xa = 0%float /\ xb = 230%float) \/
      (pass1Roots localeCompare people = ["B"; "A"]%string /\
       xa = 230%float /\ xb = 0%float)) /\
     midpoint xa xb = 115%float /\
     xOf L "C" = Some (pullToward 0 (midpoint xa xb)) /\
     pullToward 0 (midpoint xa xb) = 80.5%float) /\
  edges L = [Edge.mk "e-A-C" "A" "C" "smoothstep";
             Edge.mk "e-B-C" "B" "C" "smoothstep"].
Proof.
  intros localeCompare fa la fb lb fc lc people H L.
  destruct (convergence_any_order localeCompare fa la fb lb fc lc people H)
    as [G _].
  destruct (convergence_pass1 localeCompare fa la fb lb fc lc people H)
    as [R E].
  split; [exact G | ]. unfold L. rewrite E, R. unfold xOf, yOf.
  simpl positions. simpl edges.
  destruct (rootsSwapped localeCompare fa la fb lb people).
  - split; [reflexivity | ]. split; [reflexivity | ]. split; [ | reflexivity].
    exists 230%float, 0%float. repeat split; auto.
  - split; [reflexivity | ]. split; [reflexivity | ]. split; [ | reflexivity].
    exists 0%float, 230%float. repeat split; auto.
Qed.

(** The scenario entered child first, under the collation by code units:
    with the names Ann and Bob, [A] is left of [B]; with Zed and Bob, [B] is
    left of [A]. *)
Lemma two_parent_convergence_witness :
  (pass1Roots codeUnitCompare
     [scenarioPerson "C" "Cyd" None ["A"; "B"]%string;
      scenarioPerson "B" "Bob" None []; scenarioPerson "A" "Ann" None []]
   = ["A"; "B"]%string /\
   xOf (computeLayout codeUnitCompare
          [scenarioPerson "C" "Cyd" None ["A"; "B"]%string;
           scenarioPerson "B" "Bob" None []; scenarioPerson "A" "Ann" None []])
       "C"
   = Some 80.5%float) /\
  pass1Roots codeUnitCompare
    [scenarioPerson "C" "Cyd" None ["A"; "B"]%string;
     scenarioPerson "B" "Bob" None []; scenarioPerson "A" "Zed" None []]
  = ["B"; "A"]%string.
Proof.
  split.
  - destruct (two_parent_convergence codeUnitCompare "Ann" None "Bob" None "Cyd" None
                [scenarioPerson "C" "Cyd" None ["A"; "B"]%string;
                 scenarioPerson "B" "Bob" None []; scenarioPerson "A" "Ann" None []])
      as [_ [_ [R [[xa [xb [_ [_ [_ [_ [HC HV]]]]]]] _]]]].
    + unfold convergence. apply Permutation_rev.
    + split; [exact R | ]. rewrite HC, HV. reflexivity.
  - destruct (two_parent_convergence codeUnitCompare "Zed" None "Bob" None "Cyd" None
                [scenarioPerson "C" "Cyd" None ["A"; "B"]%string;
                 scenarioPerson "B" "Bob" None []; scenarioPerson "A" "Zed" None []])
      as [_ [_ [R _]]].
    + unfold convergence. apply Permutation_rev.
    + exact R.
Defined.

(* ================================================================== *)
(** * [Math.min] and [Math.max] do not depend on the order of their
      arguments *)
(* ================================================================== *)

(** The order [Math.min] and [Math.max] compare by: [<] on numbers, with
    [-0] below [+0]; first on the specification of binary64 values. *)
Module FloatOrderFacts.

Import FloatOrder.

(** The comparison of two finite values of one sign. *)
Lemma finite_compare_Lt : forall e1 m1 e2 m2,
  match Z.compare e1 e2 with
  | Lt => Lt | Gt => Gt | Eq => Pos.compare_cont Eq m1 m2
  end = Lt <-> (e1 < e2 \/ (e1 = e2 /\ (m1 < m2)%positive))%Z.
Proof.
  intros e1 m1 e2 m2. fold (Pos.compare m1 m2).
  destruct (Z.compare_spec e1 e2) as [-> | H | H].
  - rewrite Pos.compare_lt_iff. intuition lia.
  - intuition lia.
  - split; [discriminate | lia].
Qed.

Lemma finite_compare_Gt : forall e1 m1 e2 m2,
  match Z.compare e1 e2 with
  | Lt => Lt | Gt => Gt | Eq => Pos.compare_cont Eq m1 m2
  end = Gt <-> (e2 < e1 \/ (e1 = e2 /\ (m2 < m1)%positive))%Z.
Proof.
  intros e1 m1 e2 m2. fold (Pos.compare m1 m2).
  destruct (Z.compare_spec e1 e2) as [-> | H | H].
  - rewrite Pos.compare_gt_iff. intuition lia.
  - split; [discriminate | lia].
  - intuition lia.
Qed.

Lemma finite_compare_opp_Lt : forall e1 m1 e2 m2,
  match Z.compare e1 e2 with
  | Lt => Gt | Gt => Lt | Eq => CompOpp (Pos.compare_cont Eq m1 m2)
  end = Lt <-> (e2 < e1 \/ (e1 = e2 /\ (m2 < m1)%positive))%Z.
Proof.
  intros e1 m1 e2 m2. fold (Pos.compare m1 m2).
  destruct (Z.compare_spec e1 e2) as [-> | H | H].
  - rewrite <- Pos.compare_gt_iff.
    destruct (Pos.compare m1 m2); simpl; intuition (try discriminate; try lia).
  - split; [discriminate | lia].
  - intuition lia.
Qed.

Lemma below_spec : forall f1 f2, below f1 f2 = true <-> belowProp f1 f2.
Proof.
  intros f1 f2. unfold below, SFltb.
  destruct f1 as [s1 | s1 | | s1 m1 e1], f2 as [s2 | s2 | | s2 m2 e2];
    simpl; try (destruct s1); try (destruct s2); simpl;
    try (split; [discriminate | tauto]);
    try (split; [discriminate | intros [? ?]; discriminate]);
    try (split; [discriminate | discriminate]);
    try (split; [reflexivity | tauto]);
    try (split; [auto | reflexivity]);
    try tauto.
  - rewrite orb_false_r. rewrite <- finite_compare_opp_Lt.
    destruct (match Z.compare e1 e2 with
              | Lt => Gt | Gt => Lt | Eq => CompOpp (Pos.compare_cont Eq m1 m2)
              end); split; congruence.
  - rewrite orb_false_r. rewrite <- finite_compare_Lt.
    destruct (match Z.compare e1 e2 with
              | Lt => Lt | Gt => Gt | Eq => Pos.compare_cont Eq m1 m2
              end); split; congruence.
Qed.

Lemma below_trans : forall f1 f2 f3,
  below f1 f2 = true -> below f2 f3 = true -> below f1 f3 = true.
Proof.
  intros f1 f2 f3. rewrite !below_spec.
  destruct f1 as [s1 | s1 | | s1 m1 e1], f2 as [s2 | s2 | | s2 m2 e2],
           f3 as [s3 | s3 | | s3 m3 e3];
    simpl; try tauto;
    try (destruct s1); try (destruct s2); try (destruct s3); simpl;
    try tauto; try (intuition congruence); try (intuition lia).
Qed.

Lemma below_asym : forall f1 f2, below f1 f2 = true -> below f2 f1 = false.
Proof.
  intros f1 f2 H. destruct (below f2 f1) eqn:E; [ | reflexivity].
  exfalso. apply below_spec in H, E.
  destruct f1 as [s1 | s1 | | s1 m1 e1], f2 as [s2 | s2 | | s2 m2 e2];
    simpl in *; try tauto;
    try (destruct s1); try (destruct s2); simpl in *;
    try tauto; try (intuition congruence); try (intuition lia).
Qed.

Lemma below_total : forall f1 f2,
  notNaN f1 -> notNaN f2 ->
  below f1 f2 = false -> below f2 f1 = false -> f1 = f2.
Proof.
  intros f1 f2 N1 N2 H1 H2.
  assert (P1 : ~ belowProp f1 f2) by (rewrite <- below_spec; congruence).
  assert (P2 : ~ belowProp f2 f1) by (rewrite <- below_spec; congruence).
  clear H1 H2. unfold notNaN in *.
  destruct f1 as [s1 | s1 | | s1 m1 e1], f2 as [s2 | s2 | | s2 m2 e2];
    simpl in *; try congruence;
    try (destruct s1); try (destruct s2); simpl in *;
    try reflexivity; try tauto; try (exfalso; tauto).
  - assert (e1 = e2 /\ m1 = m2) as [-> ->] by lia. reflexivity.
  - assert (e1 = e2 /\ m1 = m2) as [-> ->] by lia. reflexivity.
Qed.

End FloatOrderFacts.

Lemma isNegZero_spec : forall x,
  JSNumber.isNegZero x = FloatOrder.negZero (Prim2SF x).
Proof.
  intros x. unfold JSNumber.isNegZero. rewrite FloatAxioms.classify_spec.
  unfold SF64classify, SFclassify.
  destruct (Prim2SF x) as [[ | ] | [ | ] | | [ | ] m e]; try reflexivity;
    match goal with |- context [if ?c then _ else _] => destruct c end;
    reflexivity.
Qed.

Lemma isPosZero_spec : forall x,
  JSNumber.isPosZero x = FloatOrder.posZero (Prim2SF x).
Proof.
  intros x. unfold JSNumber.isPosZero. rewrite FloatAxioms.classify_spec.
  unfold SF64classify, SFclassify.
  destruct (Prim2SF x) as [[ | ] | [ | ] | | [ | ] m e]; try reflexivity;
    match goal with |- context [if ?c then _ else _] => destruct c end;
    reflexivity.
Qed.

Lemma floatBelow_spec : forall x y,
  floatBelow x y = FloatOrder.below (Prim2SF x) (Prim2SF y).
Proof.
  intros x y. unfold floatBelow, FloatOrder.below.
  now rewrite FloatAxioms.ltb_spec, isNegZero_spec, isPosZero_spec.
Qed.

Lemma isNaN_spec : forall x,
  JSNumber.isNaN x = false <-> FloatOrder.notNaN (Prim2SF x).
Proof.
  intros x. unfold JSNumber.isNaN, FloatOrder.notNaN. rewrite FloatAxioms.eqb_spec.
  unfold SFeqb. destruct (Prim2SF x) as [[ | ] | [ | ] | | [ | ] m e]; simpl;
    try (split; [discriminate | reflexivity]);
    try (split; [discriminate | congruence]).
  - rewrite Z.compare_refl, Pos.compare_cont_refl. simpl.
    split; [discriminate | reflexivity].
  - rewrite Z.compare_refl, Pos.compare_cont_refl. simpl.
    split; [discriminate | reflexivity].
Qed.

Lemma floatBelow_trans : forall x y z,
  floatBelow x y = true -> floatBelow y z = true -> floatBelow x z = true.
Proof. intros x y z. rewrite !floatBelow_spec. apply FloatOrderFacts.below_trans. Qed.

Lemma floatBelow_asym : forall x y,
  floatBelow x y = true -> floatBelow y x = false.
Proof. intros x y. rewrite !floatBelow_spec. apply FloatOrderFacts.below_asym. Qed.

Lemma floatBelow_total : forall x y,
  JSNumber.isNaN x = false -> JSNumber.isNaN y = false ->
  floatBelow x y = false -> floatBelow y x = false -> x = y.
Proof.
  intros x y Hx Hy. rewrite !floatBelow_spec. intros H1 H2.
  apply Prim2SF_inj. apply FloatOrderFacts.below_total; try assumption;
    now apply isNaN_spec.
Qed.

Lemma minStep_below : forall a x,
  JSNumber.minStep a x =
  if JSNumber.isNaN a || JSNumber.isNaN x then PrimFloat.nan
  else if floatBelow x a then x else a.
Proof.
  intros a x. unfold JSNumber.minStep, floatBelow.
  destruct (JSNumber.isNaN a || JSNumber.isNaN x); [reflexivity | ].
  destruct (JSNumber.isNegZero x && JSNumber.isPosZero a);
    [now rewrite orb_true_r | now rewrite orb_false_r].
Qed.

Lemma maxStep_below : forall h x,
  JSNumber.maxStep h x =
  if JSNumber.isNaN h || JSNumber.isNaN x then PrimFloat.nan
  else if floatBelow h x then x else h.
Proof.
  intros h x. unfold JSNumber.maxStep, floatBelow.
  destruct (JSNumber.isNaN h || JSNumber.isNaN x); [reflexivity | ].
  rewrite (andb_comm (JSNumber.isNegZero h)).
  destruct (JSNumber.isPosZero x && JSNumber.isNegZero h);
    [now rewrite orb_true_r | now rewrite orb_false_r].
Qed.

Lemma isNaN_nan : JSNumber.isNaN PrimFloat.nan = true.
Proof. reflexivity. Qed.

(** Taking in [x] then [y] is taking in [y] then [x]. *)
Lemma minStep_swap : forall a x y,
  JSNumber.minStep (JSNumber.minStep a x) y
  = JSNumber.minStep (JSNumber.minStep a y) x.
Proof.
  intros a x y. rewrite !minStep_below.
  destruct (JSNumber.isNaN a) eqn:Na; simpl;
    [rewrite ?isNaN_nan; reflexivity | ].
  destruct (JSNumber.isNaN x) eqn:Nx, (JSNumber.isNaN y) eqn:Ny; simpl;
    rewrite ?isNaN_nan, ?orb_true_r; simpl; try reflexivity.
  destruct (floatBelow x a) eqn:Hxa, (floatBelow y a) eqn:Hya;
    rewrite ?Na, ?Nx, ?Ny; simpl; rewrite ?Hxa, ?Hya.
  - destruct (floatBelow y x) eqn:Hyx.
    + now rewrite (floatBelow_asym _ _ Hyx).
    + destruct (floatBelow x y) eqn:Hxy; [reflexivity | ].
      now apply floatBelow_total.
  - destruct (floatBelow y x) eqn:Hyx; [ | reflexivity].
    rewrite (floatBelow_trans _ _ _ Hyx Hxa) in Hya. discriminate.
  - destruct (floatBelow x y) eqn:Hxy; [ | reflexivity].
    rewrite (floatBelow_trans _ _ _ Hxy Hya) in Hxa. discriminate.
  - reflexivity.
Qed.

Lemma maxStep_swap : forall h x y,
  JSNumber.maxStep (JSNumber.maxStep h x) y
  = JSNumber.maxStep (JSNumber.maxStep h y) x.
Proof.
  intros h x y. rewrite !maxStep_below.
  destruct (JSNumber.isNaN h) eqn:Nh; simpl;
    [rewrite ?isNaN_nan; reflexivity | ].
  destruct (JSNumber.isNaN x) eqn:Nx, (JSNumber.isNaN y) eqn:Ny; simpl;
    rewrite ?isNaN_nan, ?orb_true_r; simpl; try reflexivity.
  destruct (floatBelow h x) eqn:Hhx, (floatBelow h y) eqn:Hhy;
    rewrite ?Nh, ?Nx, ?Ny; simpl; rewrite ?Hhx, ?Hhy.
  - destruct (floatBelow x y) eqn:Hxy.
    + now rewrite (floatBelow_asym _ _ Hxy).
    + destruct (floatBelow y x) eqn:Hyx; [reflexivity | ].
      symmetry. now apply floatBelow_total.
  - destruct (floatBelow x y) eqn:Hxy; [ | reflexivity].
    rewrite (floatBelow_trans _ _ _ Hhx Hxy) in Hhy. discriminate.
  - destruct (floatBelow y x) eqn:Hyx; [ | reflexivity].
    rewrite (floatBelow_trans _ _ _ Hhy Hyx) in Hhx. discriminate.
  - reflexivity.
Qed.

Lemma fold_left_permutation : forall (A B : Type) (f : A -> B -> A),
  (forall a x y, f (f a x) y = f (f a y) x) ->
  forall l l', Permutation l l' ->
  forall a, fold_left f l a = fold_left f l' a.
Proof.
  intros A B f Hf l l' H.
  induction H as [ | x l l' _ IH | x y l | l l' l'' _ IH1 _ IH2]; intros a; simpl.
  - reflexivity.
  - apply IH.
  - now rewrite Hf.
  - now rewrite IH1.
Qed.

(** [Math.min(...xs)] and [Math.max(...xs)] of the same numbers in another
    order are the same numbers. *)
Lemma min_permutation : forall xs ys,
  Permutation xs ys -> JSNumber.min xs = JSNumber.min ys.
Proof.
  intros xs ys H. unfold JSNumber.min.
  now apply fold_left_permutation; [apply minStep_swap | ].
Qed.

Lemma max_permutation : forall xs ys,
  Permutation xs ys -> JSNumber.max xs = JSNumber.max ys.
Proof.
  intros xs ys H. unfold JSNumber.max.
  now apply fold_left_permutation; [apply maxStep_swap | ].
Qed.

(* ================================================================== *)
(** * Two orderings of the same persons *)
(* ================================================================== *)

Lemma uniqueIds_permutation : forall l1 l2,
  Permutation l1 l2 -> uniqueIds l1 -> uniqueIds l2.
Proof.
  unfold uniqueIds. intros l1 l2 H. apply Permutation_NoDup.
  now apply Permutation_map.
Qed.

Lemma makeIdSet_permutation : forall l1 l2 i,
  Permutation l1 l2 ->
  JSSet.has (makeIdSet l1) i = JSSet.has (makeIdSet l2) i.
Proof.
  intros l1 l2 i H.
  assert (E : In i (map id l1) <-> In i (map id l2)).
  { split; apply Permutation_in; [ | symmetry]; now apply Permutation_map. }
  rewrite <- !makeIdSet_In in E.
  destruct (JSSet.has (makeIdSet l1) i), (JSSet.has (makeIdSet l2) i);
    intuition congruence.
Qed.

Lemma makePersonMap_permutation : forall l1 l2 i,
  Permutation l1 l2 -> uniqueIds l1 ->
  JSMap.get String.eqb (makePersonMap l1) i
  = JSMap.get String.eqb (makePersonMap l2) i.
Proof.
  assert (G : forall l1 l2 i p,
    Permutation l1 l2 -> uniqueIds l2 ->
    JSMap.get String.eqb (makePersonMap l1) i = Some p ->
    JSMap.get String.eqb (makePersonMap l2) i = Some p).
  { intros l1 l2 i p H U2 E. apply makePersonMap_get in E as [Hin <-].
    apply makePersonMap_In; [assumption | now apply Permutation_in with l1]. }
  intros l1 l2 i H U1.
  pose proof (uniqueIds_permutation l1 l2 H U1) as U2.
  destruct (JSMap.get String.eqb (makePersonMap l1) i) as [p | ] eqn:E1.
  - symmetry. now apply (G l1 l2).
  - destruct (JSMap.get String.eqb (makePersonMap l2) i) as [q | ] eqn:E2;
      [ | reflexivity].
    apply (G l2 l1) in E2; [congruence | now symmetry | assumption].
Qed.

Lemma validParents_permutation : forall l1 l2 i,
  Permutation l1 l2 -> uniqueIds l1 ->
  validParents (makeIdSet l1) (makePersonMap l1) i
  = validParents (makeIdSet l2) (makePersonMap l2) i.
Proof.
  intros l1 l2 i H U. unfold validParents.
  rewrite (makePersonMap_permutation l1 l2 i H U).
  destruct (JSMap.get String.eqb (makePersonMap l2) i); [ | reflexivity].
  apply filter_ext. intros a. now apply makeIdSet_permutation.
Qed.

Lemma parentEdge_permutation : forall l1 l2 a b,
  Permutation l1 l2 -> parentEdge l1 a b -> parentEdge l2 a b.
Proof.
  intros l1 l2 a b H [p [Hp [Hb [Ha Hin]]]]. exists p.
  repeat split; try assumption.
  - now apply Permutation_in with l1.
  - apply Permutation_in with (map id l1); [now apply Permutation_map | assumption].
Qed.

Lemma acyclic_permutation : forall l1 l2,
  Permutation l1 l2 -> acyclic l1 -> acyclic l2.
Proof.
  intros l1 l2 H A a Ha. apply (A a).
  assert (G : forall x y, ancestorOf l2 x y -> ancestorOf l1 x y).
  { intros x y Hxy. induction Hxy as [x y E | x y z E _ IH].
    - apply anc_parent. apply parentEdge_permutation with l2; [now symmetry | assumption].
    - apply anc_more with y; [ | assumption].
      apply parentEdge_permutation with l2; [now symmetry | assumption]. }
  now apply G.
Qed.

(** ** Generations *)

Lemma Forall2_same_values : forall (gen1 gen2 : list (string * nat)) pids gs1 gs2,
  Forall2 (fun pid g => JSMap.get String.eqb gen1 pid = Some g) pids gs1 ->
  Forall2 (fun pid g => JSMap.get String.eqb gen2 pid = Some g) pids gs2 ->
  (forall pid g, In g gs1 -> JSMap.get String.eqb gen1 pid = Some g ->
     JSMap.get String.eqb gen2 pid <> None ->
     JSMap.get String.eqb gen2 pid = Some g) ->
  gs1 = gs2.
Proof.
  intros gen1 gen2 pids gs1 gs2 H1. revert gs2.
  induction H1 as [ | pid g pids gs1 Hg _ IH]; intros gs2 H2 Hsame;
    inversion H2 as [ | pid' g2 pids' gs2' Hg2 H2']; subst; [reflexivity | ].
  f_equal.
  - assert (E : JSMap.get String.eqb gen2 pid = Some g)
      by (apply Hsame; [now left | assumption | congruence]).
    congruence.
  - apply IH; [assumption | ]. intros q g' Hin. apply Hsame. now right.
Qed.

(** A memo that is right is determined by the parents: two right memos over
    the same parent lists agree wherever both are defined. *)
Lemma memoRight_unique : forall l1 l2 gen1 gen2,
  (forall k, validParents (makeIdSet l1) (makePersonMap l1) k
             = validParents (makeIdSet l2) (makePersonMap l2) k) ->
  memoRight l1 gen1 -> memoRight l2 gen2 ->
  forall n k g,
    g <= n ->
    JSMap.get String.eqb gen1 k = Some g ->
    JSMap.get String.eqb gen2 k <> None ->
    JSMap.get String.eqb gen2 k = Some g.
Proof.
  intros l1 l2 gen1 gen2 Hp R1 R2.
  induction n as [ | n IH]; intros k g Hle E1 E2.
  - destruct (JSMap.get String.eqb gen2 k) as [g2 | ] eqn:E; [ | congruence].
    destruct (R1 k g E1) as [gs1 [_ V1]]. destruct (R2 k g2 E) as [gs2 [_ V2]].
    rewrite <- Hp in V2.
    destruct (0 <? length (validParents (makeIdSet l1) (makePersonMap l1) k));
      [lia | congruence].
  - destruct (JSMap.get String.eqb gen2 k) as [g2 | ] eqn:E; [ | congruence].
    destruct (R1 k g E1) as [gs1 [F1 V1]]. destruct (R2 k g2 E) as [gs2 [F2 V2]].
    rewrite <- Hp in F2, V2.
    destruct (0 <? length (validParents (makeIdSet l1) (makePersonMap l1) k));
      [ | congruence].
    assert (Egs : gs1 = gs2).
    { apply Forall2_same_values with (1 := F1) (2 := F2).
      intros pid pg Hin Hg1 Hg2. apply IH; [ | assumption | assumption].
      assert (Hmax : list_max gs1 <= list_max gs1) by lia.
      apply list_max_le in Hmax. rewrite Forall_forall in Hmax.
      specialize (Hmax pg Hin). lia. }
    subst gs2. congruence.
Qed.

Lemma generations_permutation : forall l1 l2,
  Permutation l1 l2 -> uniqueIds l1 -> acyclic l1 ->
  forall p, In p l1 ->
    JSMap.get String.eqb (assignGenerations l1) (id p)
    = JSMap.get String.eqb (assignGenerations l2) (id p).
Proof.
  intros l1 l2 H U A p Hp.
  destruct (assignGenerations_right l1 A) as [R1 K1].
  destruct (assignGenerations_right l2 (acyclic_permutation l1 l2 H A)) as [R2 K2].
  specialize (K1 p Hp). specialize (K2 p (Permutation_in p H Hp)).
  destruct (JSMap.get String.eqb (assignGenerations l1) (id p)) as [g | ] eqn:E;
    [ | congruence].
  symmetry.
  apply (memoRight_unique l1 l2 (assignGenerations l1) (assignGenerations l2))
    with (n := g); auto.
  intros k. now apply validParents_permutation.
Qed.

(** ** The children lookup *)

Lemma childrenList_push : forall m pid x i,
  childrenList
    (JSMap.set String.eqb m pid
       (match JSMap.get String.eqb m pid with
        | Some l => l ++ [x]
        | None => [x]
        end)) i
  = childrenList m i ++ (if String.eqb i pid then [x] else []).
Proof.
  intros m pid x i. unfold childrenList.
  destruct (String.eqb_spec i pid) as [-> | Hne].
  - rewrite get_set_same. now destruct (JSMap.get String.eqb m pid).
  - rewrite get_set_other by assumption. now rewrite app_nil_r.
Qed.

Lemma makeChildrenOf_spec : forall idSet l i,
  childrenList (makeChildrenOf idSet l) i
  = if JSSet.has idSet i then childrenIn l i else [].
Proof.
  intros idSet l i. unfold makeChildrenOf.
  assert (Inner : forall p pids m,
    childrenList
      (fold_left
         (fun m pid =>
            if JSSet.has idSet pid
            then JSMap.set String.eqb m pid
                   (match JSMap.get String.eqb m pid with
                    | Some l => l ++ [id p]
                    | None => [id p]
                    end)
            else m) pids m) i
    = childrenList m i ++
      (if JSSet.has idSet i
       then map (fun _ => id p) (filter (String.eqb i) pids) else [])).
  { intros p. induction pids as [ | pid pids IH]; intros m; simpl.
    - destruct (JSSet.has idSet i); now rewrite app_nil_r.
    - rewrite IH. destruct (JSSet.has idSet pid) eqn:Hpid.
      + rewrite childrenList_push, <- app_assoc. f_equal.
        destruct (String.eqb_spec i pid) as [-> | Hne]; simpl.
        * now rewrite Hpid.
        * reflexivity.
      + f_equal. destruct (String.eqb_spec i pid) as [-> | Hne]; simpl.
        * now rewrite Hpid.
        * reflexivity. }
  assert (Outer : forall l m,
    childrenList
      (fold_left
         (fun m p =>
            fold_left
              (fun m pid =>
                 if JSSet.has idSet pid
                 then JSMap.set String.eqb m pid
                        (match JSMap.get String.eqb m pid with
                         | Some l => l ++ [id p]
                         | None => [id p]
                         end)
                 else m) (parentIds p) m) l m) i
    = childrenList m i ++ (if JSSet.has idSet i then childrenIn l i else [])).
  { clear l. induction l as [ | p l IH]; intros m; simpl.
    - destruct (JSSet.has idSet i); now rewrite app_nil_r.
    - rewrite IH, Inner, <- app_assoc. f_equal.
      destruct (JSSet.has idSet i); reflexivity. }
  rewrite Outer. reflexivity.
Qed.

Lemma childrenList_permutation : forall l1 l2 i,
  Permutation l1 l2 ->
  Permutation (childrenList (makeChildrenOf (makeIdSet l1) l1) i)
              (childrenList (makeChildrenOf (makeIdSet l2) l2) i).
Proof.
  intros l1 l2 i H. rewrite !makeChildrenOf_spec.
  rewrite (makeIdSet_permutation l1 l2 i H).
  destruct (JSSet.has (makeIdSet l2) i); [ | constructor].
  unfold childrenIn. now apply Permutation_flat_map.
Qed.

Lemma Permutation_filter : forall (A : Type) (f : A -> bool) l l',
  Permutation l l' -> Permutation (filter f l) (filter f l').
Proof.
  intros A f l l' H.
  induction H as [ | x l l' _ IH | x y l | l l' l'' _ IH1 _ IH2]; simpl.
  - constructor.
  - destruct (f x); [now constructor | assumption].
  - destruct (f x), (f y); try apply Permutation_refl. apply perm_swap.
  - now apply perm_trans with (filter f l').
Qed.

Lemma fold_left_ext : forall (A B : Type) (f g : A -> B -> A),
  (forall a b, f a b = g a b) ->
  forall l a, fold_left f l a = fold_left g l a.
Proof.
  intros A B f g H. induction l as [ | b l IH]; intros a; simpl;
    [reflexivity | now rewrite H, IH].
Qed.

(** ** Passes 2 and 3 *)

(** Pass 2 reads the children of a node through [Math.min] and [Math.max]
    only, so the order of the children does not matter. *)
Lemma pass2Layer_children : forall co1 co2 groups xPos key,
  (forall i, Permutation (childrenList co1 i) (childrenList co2 i)) ->
  pass2Layer co1 groups xPos key = pass2Layer co2 groups xPos key.
Proof.
  intros co1 co2 groups xPos key H. unfold pass2Layer. f_equal.
  apply fold_left_ext. intros xs i.
  fold (childrenList co1 i) (childrenList co2 i).
  pose proof (Permutation_filter _ (JSMap.has String.eqb xs) _ _ (H i)) as P.
  rewrite (Permutation_length P).
  destruct (0 <? length (filter (JSMap.has String.eqb xs) (childrenList co2 i)));
    [ | reflexivity].
  pose proof (Permutation_map (getX xs) P) as Q.
  now rewrite (min_permutation _ _ Q), (max_permutation _ _ Q).
Qed.

Lemma pass3Layer_persons : forall pm1 pm2 groups xPos key,
  (forall i, JSMap.get String.eqb pm1 i = JSMap.get String.eqb pm2 i) ->
  pass3Layer pm1 groups xPos key = pass3Layer pm2 groups xPos key.
Proof.
  intros pm1 pm2 groups xPos key H. unfold pass3Layer. f_equal.
  apply fold_left_ext. intros xs i. unfold parentIdsOf. now rewrite H.
Qed.

Lemma get_map_values : forall (V W : Type) (f : string -> V -> W)
    (m : list (string * V)) k,
  JSMap.get String.eqb (map (fun e : string * V => let (i, v) := e in (i, f i v)) m) k
  = option_map (f k) (JSMap.get String.eqb m k).
Proof.
  intros V W f. induction m as [ | [i v] m IH]; intros k; simpl; [reflexivity | ].
  destruct (String.eqb_spec i k) as [-> | Hne]; [reflexivity | apply IH].
Qed.

(** The x-coordinate [computeLayout] reports is the one of [layoutX]. *)
Lemma xOf_computeLayout : forall (localeCompare : string -> string -> float) l i,
  xOf (computeLayout localeCompare l) i
  = JSMap.get String.eqb (layoutX localeCompare l) i.
Proof.
  intros localeCompare l i. unfold xOf, computeLayout.
  destruct l as [ | p l]; [reflexivity | ].
  cbn [length Nat.eqb positions].
  rewrite get_map_values.
  now destruct (JSMap.get String.eqb (layoutX localeCompare (p :: l)) i).
Qed.

(** ** Pass 1, one layer at a time *)

Section NatMap.

Context {V : Type}.

Lemma get_set_same_nat : forall (m : list (nat * V)) k v,
  JSMap.get Nat.eqb (JSMap.set Nat.eqb m k v) k = Some v.
Proof.
  induction m as [ | [k' v'] m IH]; intros k v; simpl.
  - now rewrite Nat.eqb_refl.
  - destruct (Nat.eqb_spec k' k) as [-> | Hne]; simpl.
    + now rewrite Nat.eqb_refl.
    + destruct (Nat.eqb_spec k' k); [contradiction | apply IH].
Qed.

Lemma get_set_other_nat : forall (m : list (nat * V)) k v k',
  k' <> k ->
  JSMap.get Nat.eqb (JSMap.set Nat.eqb m k v) k' = JSMap.get Nat.eqb m k'.
Proof.
  induction m as [ | [k0 v0] m IH]; intros k v k' Hne; simpl.
  - destruct (Nat.eqb_spec k k'); [congruence | reflexivity].
  - destruct (Nat.eqb_spec k0 k) as [-> | Hk]; simpl.
    + destruct (Nat.eqb_spec k k'); [congruence | reflexivity].
    + destruct (Nat.eqb_spec k0 k'); [reflexivity | now apply IH].
Qed.

(** [set] adds a key at the end, or keeps the keys as they are. *)
Lemma keys_set_nat : forall (m : list (nat * V)) k v,
  JSMap.keys (JSMap.set Nat.eqb m k v)
  = if existsb (Nat.eqb k) (JSMap.keys m)
    then JSMap.keys m else JSMap.keys m ++ [k].
Proof.
  induction m as [ | [k' v'] m IH]; intros k v; simpl; [reflexivity | ].
  rewrite (Nat.eqb_sym k k').
  destruct (Nat.eqb_spec k' k) as [-> | Hne]; simpl; [reflexivity | ].
  unfold JSMap.keys in *. rewrite IH.
  now destruct (existsb (Nat.eqb k) (map fst m)).
Qed.

End NatMap.

Lemma existsb_eqb_In : forall k l, existsb (Nat.eqb k) l = true <-> In k l.
Proof.
  intros k l. rewrite existsb_exists. split.
  - intros [x [Hx E]]. apply Nat.eqb_eq in E. now subst.
  - intros H. exists k. split; [assumption | apply Nat.eqb_refl].
Qed.

Lemma groupByGeneration_keys : forall gens,
  NoDup (JSMap.keys (groupByGeneration gens)).
Proof.
  intros gens. unfold groupByGeneration.
  assert (G : forall l (m : list (nat * list string)),
    NoDup (JSMap.keys m) ->
    NoDup (JSMap.keys
      (fold_left
         (fun groups (e : string * nat) =>
            let (i, g) := e in
            JSMap.set Nat.eqb groups g
              (match JSMap.get Nat.eqb groups g with
               | Some l => l ++ [i]
               | None => [i]
               end)) l m))).
  { induction l as [ | [i g] l IH]; intros m Hm; simpl; [assumption | ].
    apply IH. rewrite keys_set_nat.
    destruct (existsb (Nat.eqb g) (JSMap.keys m)) eqn:E; [assumption | ].
    apply NoDup_app; [assumption | repeat constructor; auto | ].
    intros k Hk [<- | []]. apply existsb_eqb_In in Hk. congruence. }
  apply G. constructor.
Qed.

Lemma insert_permutation : forall (A : Type) (cmp : A -> A -> float) a l,
  Permutation (JSSort.insert cmp a l) (a :: l).
Proof.
  intros A cmp a. induction l as [ | b l IH]; simpl; [apply Permutation_refl | ].
  destruct (PrimFloat.ltb 0 (cmp a b)); [ | apply Permutation_refl].
  apply perm_trans with (b :: a :: l); [now constructor | apply perm_swap].
Qed.

(** The sort returns the elements it was given. *)
Lemma sort_permutation : forall (A : Type) (cmp : A -> A -> float) l,
  Permutation (JSSort.sort cmp l) l.
Proof.
  intros A cmp. induction l as [ | a l IH]; simpl; [constructor | ].
  apply perm_trans with (a :: JSSort.sort cmp l);
    [apply insert_permutation | now constructor].
Qed.

Section Pass1.

Variable localeCompare : string -> string -> float.
Variable idSet : JSSet.t.
Variable personMap : list (string * Person).

Let step := pass1Layer localeCompare idSet personMap.

Lemma pass1Layer_fst : forall groups xPos key,
  fst (step (groups, xPos) key)
  = JSMap.set Nat.eqb groups key
      (JSSort.sort (pass1Compare localeCompare idSet personMap xPos)
                   (getGroup groups key)).
Proof. reflexivity. Qed.

Lemma pass1Layer_snd : forall groups xPos key,
  snd (step (groups, xPos) key)
  = placeLayer (getGroup (fst (step (groups, xPos) key)) key) xPos.
Proof.
  intros groups xPos key. rewrite pass1Layer_fst. unfold getGroup at 1.
  rewrite get_set_same_nat. reflexivity.
Qed.

(** Later layers leave the layer of [key] alone, and no layer changes the
    keys. *)
Lemma pass1_other_layer : forall keys st key,
  ~ In key keys ->
  getGroup (fst (fold_left step keys st)) key = getGroup (fst st) key.
Proof.
  induction keys as [ | k keys IH]; intros [groups xPos] key Hnot;
    cbn [fold_left]; [reflexivity | ].
  rewrite IH by (intros H; apply Hnot; now right).
  rewrite pass1Layer_fst. cbn [fst]. unfold getGroup.
  rewrite get_set_other_nat; [reflexivity | ].
  intros ->. apply Hnot. now left.
Qed.

Lemma pass1_keys : forall keys st,
  (forall k, In k keys -> In k (JSMap.keys (fst st))) ->
  JSMap.keys (fst (fold_left step keys st)) = JSMap.keys (fst st).
Proof.
  induction keys as [ | k keys IH]; intros [groups xPos] Hin;
    cbn [fold_left]; [reflexivity | ].
  cbn [fst] in Hin.
  assert (E : JSMap.keys (fst (step (groups, xPos) k)) = JSMap.keys groups).
  { rewrite pass1Layer_fst, keys_set_nat.
    assert (H : existsb (Nat.eqb k) (JSMap.keys groups) = true)
      by (apply existsb_eqb_In, Hin; now left).
    now rewrite H. }
  rewrite IH; [exact E | ]. intros k' Hk'. rewrite E. apply Hin. now right.
Qed.

End Pass1.

(** ** A decisive comparator sorts every ordering into the same list *)

Lemma decides_spec : forall (A : Type) (eqb : A -> A -> bool)
    (cmp : A -> A -> float) (l : list A),
  (forall a b, eqb a b = true -> a = b) ->
  decides eqb cmp l = true -> strictOrderOn cmp l.
Proof.
  intros A eqb cmp l Heq H. unfold decides in H. rewrite forallb_forall in H.
  assert (P : forall a b, In a l -> In b l ->
    (eqb a b || sortsAfter cmp a b || sortsAfter cmp b a = true) /\
    negb (sortsAfter cmp a b && sortsAfter cmp b a) = true /\
    (forall c, In c l ->
       implb (sortsAfter cmp a b && sortsAfter cmp b c) (sortsAfter cmp a c)
       = true)).
  { intros a b Ha Hb. specialize (H a Ha). rewrite forallb_forall in H.
    specialize (H b Hb). apply andb_prop in H as [H H3].
    apply andb_prop in H as [H1 H2]. rewrite forallb_forall in H3. auto. }
  split; [ | split].
  - intros a b Ha Hb Hne. destruct (P a b Ha Hb) as [P1 _].
    apply orb_prop in P1 as [P1 | P1]; [ | now right].
    apply orb_prop in P1 as [P1 | P1]; [ | now left].
    exfalso. apply Hne. now apply Heq.
  - intros a b Ha Hb Hab. destruct (P a b Ha Hb) as [_ [P2 _]].
    rewrite Hab in P2. simpl in P2. now destruct (sortsAfter cmp b a).
  - intros a b c Ha Hb Hc Hab Hbc. destruct (P a b Ha Hb) as [_ [_ P3]].
    specialize (P3 c Hc). rewrite Hab, Hbc in P3. exact P3.
Qed.

Lemma strictOrderOn_permutation : forall (A : Type) (cmp : A -> A -> float) l l',
  Permutation l l' -> strictOrderOn cmp l -> strictOrderOn cmp l'.
Proof.
  intros A cmp l l' P [T [S R]].
  assert (I : forall a, In a l' -> In a l)
    by (intros a; apply Permutation_in; now symmetry).
  split; [ | split].
  - intros a b Ha Hb. apply T; auto.
  - intros a b Ha Hb. apply S; auto.
  - intros a b c Ha Hb Hc. apply R; auto.
Qed.

Lemma strictOrderOn_tail : forall (A : Type) (cmp : A -> A -> float) a l,
  strictOrderOn cmp (a :: l) -> strictOrderOn cmp l.
Proof.
  intros A cmp a l [T [S R]]. split; [ | split].
  - intros x y Hx Hy. apply T; now right.
  - intros x y Hx Hy. apply S; now right.
  - intros x y z Hx Hy Hz. apply R; now right.
Qed.

Lemma insert_sorted : forall (A : Type) (cmp : A -> A -> float) a l,
  (forall x y : A, {x = y} + {x <> y}) ->
  strictOrderOn cmp (a :: l) -> sortedBy cmp l ->
  sortedBy cmp (JSSort.insert cmp a l).
Proof.
  intros A cmp a l dec O. induction l as [ | b l IH]; intros Hs; simpl.
  - constructor; constructor.
  - fold (sortsAfter cmp a b).
    inversion Hs as [ | ? ? Hs' Hb]; subst.
    destruct O as [T [S R]].
    destruct (sortsAfter cmp a b) eqn:Hab.
    + constructor.
      * apply IH; [ | assumption].
        apply strictOrderOn_tail with b.
        apply strictOrderOn_permutation with (a :: b :: l);
          [apply perm_swap | now split].
      * rewrite Forall_forall in Hb |- *. intros z Hz.
        apply (Permutation_in _ (insert_permutation A cmp a l)) in Hz.
        destruct Hz as [<- | Hz]; [ | now apply Hb].
        apply S; [now left | right; now left | assumption].
    + constructor; [assumption | ].
      constructor; [assumption | ].
      rewrite Forall_forall in Hb |- *. intros z Hz.
      destruct (sortsAfter cmp a z) eqn:Haz; [ | reflexivity].
      exfalso. destruct (dec a b) as [<- | Hne].
      * specialize (Hb z Hz). congruence.
      * destruct (T a b) as [H | H]; [now left | right; now left | assumption | congruence | ].
        assert (Hbz : sortsAfter cmp b z = true).
        { apply R with a; [right; now left | now left | now do 2 right | assumption | assumption]. }
        specialize (Hb z Hz). congruence.
Qed.

Lemma sort_sorted : forall (A : Type) (cmp : A -> A -> float) l,
  (forall x y : A, {x = y} + {x <> y}) ->
  strictOrderOn cmp l -> sortedBy cmp (JSSort.sort cmp l).
Proof.
  intros A cmp l dec. induction l as [ | a l IH]; intros O; simpl.
  - constructor.
  - apply insert_sorted; [assumption | | ].
    + apply strictOrderOn_permutation with (a :: l); [ | assumption].
      constructor. symmetry. apply sort_permutation.
    + apply IH. now apply strictOrderOn_tail with a.
Qed.

Lemma sorted_unique : forall (A : Type) (cmp : A -> A -> float) l l',
  (forall x y : A, {x = y} + {x <> y}) ->
  strictOrderOn cmp l -> Permutation l l' ->
  sortedBy cmp l -> sortedBy cmp l' -> l = l'.
Proof.
  intros A cmp l l' dec. revert l'.
  induction l as [ | a l IH]; intros l' O P S S'.
  - apply Permutation_nil in P. now subst.
  - destruct l' as [ | a' l'];
      [symmetry in P; apply Permutation_nil in P; discriminate | ].
    inversion S as [ | ? ? Sl Ha]; subst.
    inversion S' as [ | ? ? Sl' Ha']; subst.
    assert (E : a = a').
    { destruct (dec a a') as [E | Hne]; [assumption | exfalso].
      destruct O as [T _].
      assert (Hin : In a' (a :: l))
        by (apply Permutation_in with (a' :: l'); [now symmetry | now left]).
      assert (Hin' : In a (a' :: l'))
        by (apply Permutation_in with (a :: l); [assumption | now left]).
      destruct Hin as [E | Hin]; [contradiction | ].
      destruct Hin' as [E | Hin']; [now apply Hne | ].
      rewrite Forall_forall in Ha, Ha'.
      specialize (Ha a' Hin). specialize (Ha' a Hin').
      destruct (T a a') as [H | H];
        [now left | now right | assumption | congruence | congruence]. }
    subst a'. f_equal. apply IH; try assumption.
    + now apply strictOrderOn_tail with a.
    + now apply Permutation_cons_inv with a.
Qed.

(** A decisive comparator sorts two orderings of the same elements into the
    same list. *)
Lemma sort_unique : forall (A : Type) (cmp : A -> A -> float) l l',
  (forall x y : A, {x = y} + {x <> y}) ->
  strictOrderOn cmp l -> Permutation l l' ->
  JSSort.sort cmp l = JSSort.sort cmp l'.
Proof.
  intros A cmp l l' dec O P.
  apply (sorted_unique A cmp); try assumption.
  - apply strictOrderOn_permutation with l; [ | assumption].
    symmetry. apply sort_permutation.
  - apply perm_trans with l; [apply sort_permutation | ].
    apply perm_trans with l'; [assumption | symmetry; apply sort_permutation].
  - now apply sort_sorted.
  - apply sort_sorted; [assumption | ].
    now apply strictOrderOn_permutation with l.
Qed.

Lemma sort_ext : forall (A : Type) (cmp cmp' : A -> A -> float) l,
  (forall a b, cmp a b = cmp' a b) -> JSSort.sort cmp l = JSSort.sort cmp' l.
Proof.
  intros A cmp cmp' l H. induction l as [ | a l IH]; simpl; [reflexivity | ].
  rewrite IH. generalize (JSSort.sort cmp' l). intros s.
  induction s as [ | b s IHs]; simpl; [reflexivity | ].
  now rewrite H, IHs.
Qed.

(** ** The generation map as a list *)

Lemma keys_set_string : forall (V : Type) (m : list (string * V)) k v,
  JSMap.keys (JSMap.set String.eqb m k v)
  = if existsb (String.eqb k) (JSMap.keys m)
    then JSMap.keys m else JSMap.keys m ++ [k].
Proof.
  intros V. induction m as [ | [k' v'] m IH]; intros k v; simpl; [reflexivity | ].
  rewrite (String.eqb_sym k k').
  destruct (String.eqb_spec k' k) as [-> | Hne]; simpl; [reflexivity | ].
  unfold JSMap.keys in *. rewrite IH.
  now destruct (existsb (String.eqb k) (map fst m)).
Qed.

Lemma get_None_keys : forall (V : Type) (m : list (string * V)) k,
  JSMap.get String.eqb m k = None <-> ~ In k (JSMap.keys m).
Proof.
  intros V. induction m as [ | [k' v'] m IH]; intros k; simpl.
  - split; [intros _ [] | reflexivity].
  - destruct (String.eqb_spec k' k) as [-> | Hne].
    + split; [discriminate | intros H; exfalso; apply H; now left].
    + rewrite IH. unfold JSMap.keys. intuition congruence.
Qed.

Lemma get_In_pair : forall (V : Type) (m : list (string * V)) k v,
  NoDup (JSMap.keys m) ->
  (In (k, v) m <-> JSMap.get String.eqb m k = Some v).
Proof.
  intros V. induction m as [ | [k' v'] m IH]; intros k v Hnd; simpl.
  - split; [intros [] | discriminate].
  - inversion Hnd as [ | ? ? Hnot Hnd']; subst.
    destruct (String.eqb_spec k' k) as [-> | Hne].
    + split.
      * intros [E | Hin]; [congruence | ].
        exfalso. apply Hnot. apply in_map with (f := fst) in Hin. exact Hin.
      * intros E. left. congruence.
    + rewrite <- IH by assumption. split.
      * intros [E | Hin]; [congruence | assumption].
      * intros Hin. now right.
Qed.

(** Two maps with the same lookups hold the same entries. *)
Lemma same_lookups_permutation : forall (V : Type) (m1 m2 : list (string * V)),
  NoDup (JSMap.keys m1) -> NoDup (JSMap.keys m2) ->
  (forall k, JSMap.get String.eqb m1 k = JSMap.get String.eqb m2 k) ->
  Permutation m1 m2.
Proof.
  intros V m1 m2 N1 N2 H. apply NoDup_Permutation.
  - now apply NoDup_map_inv with (f := fst).
  - now apply NoDup_map_inv with (f := fst).
  - intros [k v]. rewrite !get_In_pair by assumption. now rewrite H.
Qed.

Lemma keysWithin_set : forall ids gen k v,
  keysWithin ids gen -> In k ids ->
  keysWithin ids (JSMap.set String.eqb gen k v).
Proof.
  intros ids gen k v [N W] Hk. unfold keysWithin. rewrite keys_set_string.
  destruct (existsb (String.eqb k) (JSMap.keys gen)) eqn:E; [now split | ].
  split.
  - apply NoDup_app; [assumption | repeat constructor; auto | ].
    intros x Hx [<- | []].
    assert (T : existsb (String.eqb k) (JSMap.keys gen) = true)
      by (apply existsb_exists; exists k; split; [assumption | apply String.eqb_refl]).
    congruence.
  - intros x Hx. apply in_app_or in Hx as [Hx | [<- | []]]; auto.
Qed.

Section MemoKeys.

Variable people : list Person.

Let ids := map id people.
Let idSet := makeIdSet people.
Let personMap := makePersonMap people.

(** [compute] writes the memo only at ids of the list. *)
Lemma compute_keys : forall fuel i gen visiting g gen' visiting',
  In i ids -> keysWithin ids gen ->
  compute idSet personMap fuel i (gen, visiting) = Some (g, (gen', visiting')) ->
  keysWithin ids gen'.
Proof.
  induction fuel as [ | fuel IH]; intros i gen visiting g gen' visiting' Hi W E;
    [discriminate | ].
  simpl in E. destruct (JSMap.get String.eqb gen i) as [g0 | ].
  { inversion E; subst. assumption. }
  destruct (JSSet.has visiting i).
  { inversion E; subst. now apply keysWithin_set. }
  assert (Hloop : forall ps gen0 vis0 gs gen1 vis1,
    (forall pid, In pid ps -> In pid ids) -> keysWithin ids gen0 ->
    mapCompute (compute idSet personMap fuel) ps (gen0, vis0)
      = Some (gs, (gen1, vis1)) ->
    keysWithin ids gen1).
  { induction ps as [ | pid ps IHps]; intros gen0 vis0 gs gen1 vis1 Hps W0 E0;
      simpl in E0.
    - inversion E0; subst. assumption.
    - destruct (compute idSet personMap fuel pid (gen0, vis0))
        as [[g1 [gen2 vis2]] | ] eqn:E1; [ | discriminate].
      destruct (mapCompute (compute idSet personMap fuel) ps (gen2, vis2))
        as [[gs2 [gen3 vis3]] | ] eqn:E2; [ | discriminate].
      inversion E0; subst.
      apply IHps with (1 := fun q Hq => Hps q (or_intror Hq)) (3 := E2).
      apply IH with (3 := E1); [apply Hps; now left | assumption]. }
  destruct (mapCompute (compute idSet personMap fuel)
              (validParents idSet personMap i) (gen, JSSet.add visiting i))
    as [[gs [gen1 vis1]] | ] eqn:E1; [ | discriminate].
  inversion E; subst. apply keysWithin_set; [ | assumption].
  apply Hloop with (3 := E1); [ | assumption].
  intros pid Hpid. apply validParents_edge in Hpid.
  destruct Hpid as [p [_ [_ [_ H]]]]. exact H.
Qed.

Lemma assignGenerations_keys : keysWithin ids (assignGenerations people).
Proof.
  change (assignGenerations people)
    with (fold_left (generationsRound people) people []).
  assert (G : forall l gen,
    (forall p, In p l -> In (id p) ids) -> keysWithin ids gen ->
    keysWithin ids (fold_left (generationsRound people) l gen)).
  { induction l as [ | p l IH]; intros gen Hl W; simpl; [assumption | ].
    apply IH; [intros q Hq; apply Hl; now right | ].
    unfold generationsRound.
    destruct (compute (makeIdSet people) (makePersonMap people)
                (generationsFuel people) (id p) (gen, JSSet.empty))
      as [[g [gen' vis']] | ] eqn:E; [ | assumption].
    apply compute_keys with (3 := E); [apply Hl; now left | assumption]. }
  apply G.
  - intros p Hp. now apply in_map.
  - split; [constructor | intros k []].
Qed.

End MemoKeys.

(** On an acyclic graph the two generation maps hold the same entries. *)
Lemma generations_list_permutation : forall l1 l2,
  Permutation l1 l2 -> uniqueIds l1 -> acyclic l1 ->
  Permutation (assignGenerations l1) (assignGenerations l2).
Proof.
  intros l1 l2 H U A.
  destruct (assignGenerations_keys l1) as [N1 W1].
  destruct (assignGenerations_keys l2) as [N2 W2].
  apply same_lookups_permutation; try assumption.
  intros k. destruct (in_dec string_dec k (map id l1)) as [Hin | Hnot].
  - apply in_map_iff in Hin as [p [<- Hp]]. now apply generations_permutation.
  - assert (E1 : JSMap.get String.eqb (assignGenerations l1) k = None)
      by (apply get_None_keys; intros Hk; apply Hnot, W1, Hk).
    assert (E2 : JSMap.get String.eqb (assignGenerations l2) k = None).
    { apply get_None_keys. intros Hk. apply Hnot.
      apply Permutation_in with (map id l2);
        [symmetry; now apply Permutation_map | apply W2, Hk]. }
    congruence.
Qed.

(** ** The layers as a function of the generation map *)

Lemma getGroup_groupByGeneration : forall gens k,
  getGroup (groupByGeneration gens) k
  = map fst (filter (fun e : string * nat => Nat.eqb (snd e) k) gens).
Proof.
  intros gens k. unfold groupByGeneration.
  assert (G : forall l (m : list (nat * list string)),
    getGroup
      (fold_left
         (fun groups (e : string * nat) =>
            let (i, g) := e in
            JSMap.set Nat.eqb groups g
              (match JSMap.get Nat.eqb groups g with
               | Some l => l ++ [i]
               | None => [i]
               end)) l m) k
    = getGroup m k
      ++ map fst (filter (fun e : string * nat => Nat.eqb (snd e) k) l)).
  { induction l as [ | [i g] l IH]; intros m; simpl.
    - now rewrite app_nil_r.
    - rewrite IH. unfold getGroup at 1.
      destruct (Nat.eqb_spec g k) as [-> | Hne].
      + rewrite get_set_same_nat. simpl. unfold getGroup.
        destruct (JSMap.get Nat.eqb m k); simpl; [now rewrite <- app_assoc | reflexivity].
      + rewrite get_set_other_nat by congruence. reflexivity. }
  now rewrite G.
Qed.

Lemma groupByGeneration_keys_In : forall gens k,
  In k (JSMap.keys (groupByGeneration gens)) <-> In k (map snd gens).
Proof.
  intros gens k. unfold groupByGeneration.
  assert (G : forall l (m : list (nat * list string)),
    In k (JSMap.keys
      (fold_left
         (fun groups (e : string * nat) =>
            let (i, g) := e in
            JSMap.set Nat.eqb groups g
              (match JSMap.get Nat.eqb groups g with
               | Some l => l ++ [i]
               | None => [i]
               end)) l m))
    <-> In k (JSMap.keys m) \/ In k (map snd l)).
  { induction l as [ | [i g] l IH]; intros m; simpl; [tauto | ].
    rewrite IH, keys_set_nat.
    destruct (existsb (Nat.eqb g) (JSMap.keys m)) eqn:E.
    - apply existsb_eqb_In in E. split; [tauto | ].
      intros [H | [<- | H]]; auto.
    - rewrite in_app_iff. simpl. tauto. }
  rewrite G. simpl. tauto.
Qed.

Lemma groups_permutation : forall gens1 gens2,
  Permutation gens1 gens2 ->
  Permutation (JSMap.keys (groupByGeneration gens1))
              (JSMap.keys (groupByGeneration gens2)) /\
  forall k, Permutation (getGroup (groupByGeneration gens1) k)
                        (getGroup (groupByGeneration gens2) k).
Proof.
  intros gens1 gens2 P. split.
  - apply NoDup_Permutation; try apply groupByGeneration_keys.
    intros k. rewrite !groupByGeneration_keys_In.
    split; apply Permutation_in; [ | symmetry]; now apply Permutation_map.
  - intros k. rewrite !getGroup_groupByGeneration.
    now apply Permutation_map, Permutation_filter.
Qed.

(** ** The order in which the generation map is filled *)

Lemma set_absent : forall (V : Type) (m : list (string * V)) k v,
  JSMap.get String.eqb m k = None ->
  JSMap.set String.eqb m k v = m ++ [(k, v)].
Proof.
  intros V. induction m as [ | [k' v'] m IH]; intros k v H; simpl in *;
    [reflexivity | ].
  destruct (String.eqb k' k); [discriminate | ]. now rewrite IH.
Qed.

Lemma get_In : forall (V : Type) (m : list (string * V)) k v,
  JSMap.get String.eqb m k = Some v -> In (k, v) m.
Proof.
  intros V. induction m as [ | [k' v'] m IH]; intros k v H; simpl in *;
    [discriminate | ].
  destruct (String.eqb_spec k' k) as [-> | Hne].
  - left. congruence.
  - right. now apply IH.
Qed.

Lemma list_max_In : forall l, l <> [] -> In (list_max l) l.
Proof.
  induction l as [ | a l IH]; intros H; [contradiction | ].
  change (list_max (a :: l)) with (Nat.max a (list_max l)).
  destruct l as [ | b l].
  - left. simpl. lia.
  - destruct (Nat.max_spec a (list_max (b :: l))) as [[_ E] | [_ E]]; rewrite E.
    + right. apply IH. discriminate.
    + now left.
Qed.

Section Ladder.

Variable people : list Person.
Hypothesis Hacyclic : acyclic people.

Let ids := map id people.
Let idSet := makeIdSet people.
Let personMap := makePersonMap people.
Let parentsOf := validParents idSet personMap.

(** On an acyclic graph [compute] appends to the memo, a person after its
    parents. *)
Lemma compute_ladder : forall fuel i gen visiting g gen' visiting',
  In i ids ->
  unseen visiting ids < fuel ->
  (forall v, In v visiting -> ancestorOf people i v) ->
  memoRight people gen -> ladder gen ->
  compute idSet personMap fuel i (gen, visiting) = Some (g, (gen', visiting')) ->
  ladder gen'.
Proof.
  induction fuel as [ | fuel IH];
    intros i gen visiting g gen' visiting' Hi Hfuel Hvis Hgen L E; [lia | ].
  simpl in E. destruct (JSMap.get String.eqb gen i) as [g0 | ] eqn:Hmemo.
  { inversion E; subst. assumption. }
  destruct (JSSet.has visiting i) eqn:Hguard.
  { exfalso. apply has_In in Hguard. exact (Hacyclic i (Hvis i Hguard)). }
  fold parentsOf in E.
  set (visiting0 := JSSet.add visiting i) in E.
  assert (Hfuel' : unseen visiting0 ids < fuel).
  { pose proof (unseen_add_lt visiting i ids Hi Hguard). unfold visiting0. lia. }
  assert (Hloop : forall ps gen0 gs gen1 vis1,
    (forall pid, In pid ps -> In pid (parentsOf i)) ->
    memoRight people gen0 -> ladder gen0 ->
    mapCompute (compute idSet personMap fuel) ps (gen0, visiting0)
      = Some (gs, (gen1, vis1)) ->
    ladder gen1 /\ memoExtends gen0 gen1 /\
    Forall2 (fun pid pg => JSMap.get String.eqb gen1 pid = Some pg) ps gs /\
    (forall k, JSMap.get String.eqb gen1 k <> None ->
       JSMap.get String.eqb gen0 k <> None \/ ancestorOf people k i)).
  { induction ps as [ | pid ps IHps]; intros gen0 gs gen1 vis1 Hps Hgen0 L0 E0.
    - simpl in E0. inversion E0; subst.
      repeat split; [assumption | apply memoExtends_refl | constructor | auto].
    - assert (Hedge : parentEdge people pid i)
        by (apply validParents_edge, Hps; now left).
      assert (Hpid : In pid ids) by (destruct Hedge as [p [_ [_ [_ H]]]]; exact H).
      assert (Hvis' : forall v, In v visiting0 -> ancestorOf people pid v).
      { intros v Hv. apply add_In in Hv as [Hv | ->].
        - apply anc_more with i; [assumption | now apply Hvis].
        - now apply anc_parent. }
      destruct (compute_acyclic people Hacyclic fuel pid gen0 visiting0
                  Hpid Hfuel' Hvis' Hgen0)
        as [g1 [gen2 [E1 [X1 [R1 [G1 K1]]]]]].
      simpl in E0. fold ids idSet personMap in E1. rewrite E1 in E0.
      destruct (mapCompute (compute idSet personMap fuel) ps (gen2, visiting0))
        as [[gs2 [gen3 vis3]] | ] eqn:E2; [ | discriminate].
      inversion E0; subst.
      assert (L2 : ladder gen2)
        by (apply IH with (6 := E1); assumption).
      destruct (IHps gen2 gs2 gen1 vis1) as [L3 [X3 [F3 K3]]]; try assumption.
      { intros q Hq. apply Hps. now right. }
      split; [assumption | ]. split; [now apply memoExtends_trans with gen2 | ].
      split.
      + constructor; [now apply X3 | assumption].
      + intros k Hk. destruct (K3 k Hk) as [Hk1 | Hk1]; [ | now right].
        destruct (K1 k Hk1) as [Hk0 | [-> | Hk0]]; [now left | | ].
        * right. now apply anc_parent.
        * right. apply ancestorOf_trans with pid; [assumption | now apply anc_parent]. }
  destruct (mapCompute (compute idSet personMap fuel) (parentsOf i) (gen, visiting0))
    as [[gs [gen1 vis1]] | ] eqn:E1; [ | discriminate].
  destruct (Hloop (parentsOf i) gen gs gen1 vis1) as [L1 [X1 [F1 K1]]];
    try assumption; [auto | ].
  inversion E; subst.
  assert (Hfresh : JSMap.get String.eqb gen1 i = None).
  { destruct (JSMap.get String.eqb gen1 i) eqn:E0; [ | reflexivity].
    destruct (K1 i) as [H | H]; [congruence | congruence | ].
    exfalso. exact (Hacyclic i H). }
  rewrite set_absent by assumption. constructor; [assumption | ].
  destruct (parentsOf i) as [ | pid ps] eqn:Eps.
  - left. reflexivity.
  - right. inversion F1 as [ | ? pg ? gs' Hpid Hrest]; subst.
    assert (Hin : In (list_max (pg :: gs')) (pg :: gs'))
      by (apply list_max_In; discriminate).
    assert (Hex : exists q, JSMap.get String.eqb gen1 q = Some (list_max (pg :: gs'))).
    { clear - F1 Hin. generalize dependent (list_max (pg :: gs')). intros m Hin.
      induction F1 as [ | q v qs vs Hq _ IHF]; [destruct Hin | ].
      destruct Hin as [<- | Hin]; [now exists q | now apply IHF]. }
    destruct Hex as [q Hq]. exists q. apply get_In.
    replace (Nat.pred (if 0 <? length (pid :: ps)
                       then list_max (pg :: gs') + 1 else 0))
      with (list_max (pg :: gs')) by (simpl; lia).
    exact Hq.
Qed.

(** The generation map of an acyclic graph is filled bottom-up. *)
Lemma assignGenerations_ladder : ladder (assignGenerations people).
Proof.
  change (assignGenerations people)
    with (fold_left (generationsRound people) people []).
  assert (G : forall l gen,
    (forall p, In p l -> In (id p) ids) ->
    memoRight people gen -> ladder gen ->
    ladder (fold_left (generationsRound people) l gen)).
  { induction l as [ | p l IH]; intros gen Hl R L; simpl; [assumption | ].
    assert (Hfuel : unseen JSSet.empty ids < generationsFuel people).
    { unfold generationsFuel. pose proof (unseen_le_length JSSet.empty ids) as H.
      unfold ids in H at 2. rewrite length_map in H. lia. }
    destruct (compute_acyclic people Hacyclic (generationsFuel people) (id p) gen
                JSSet.empty)
      as [g [gen1 [E [X [R1 _]]]]];
      [apply Hl; now left | exact Hfuel | intros v [] | assumption | ].
    assert (Rd : generationsRound people gen p = gen1)
      by (unfold generationsRound; now rewrite E).
    rewrite Rd. apply IH; [intros q Hq; apply Hl; now right | assumption | ].
    apply compute_ladder with (6 := E); try assumption.
    - apply Hl. now left.
    - intros v [].  }
  apply G; [intros p Hp; now apply in_map | | constructor].
  intros k g H. discriminate.
Qed.

End Ladder.

(** The keys of the layers of a map filled bottom-up are 0, 1, 2, ... in
    this order. *)
Lemma ladder_layer_keys : forall gens,
  ladder gens ->
  JSMap.keys (groupByGeneration gens)
  = seq 0 (length (JSMap.keys (groupByGeneration gens))).
Proof.
  intros gens L. induction L as [ | gen i g L IH Hg]; [reflexivity | ].
  assert (Hstep : groupByGeneration (gen ++ [(i, g)])
              = JSMap.set Nat.eqb (groupByGeneration gen) g
                  (match JSMap.get Nat.eqb (groupByGeneration gen) g with
                   | Some l => l ++ [i]
                   | None => [i]
                   end)).
  { unfold groupByGeneration. now rewrite fold_left_app. }
  rewrite Hstep, keys_set_nat.
  destruct (existsb (Nat.eqb g) (JSMap.keys (groupByGeneration gen))) eqn:E;
    [exact IH | ].
  set (n := length (JSMap.keys (groupByGeneration gen))) in *.
  assert (Hn : g = n).
  { assert (Hge : ~ g < n).
    { intros Hlt. assert (T : existsb (Nat.eqb g) (JSMap.keys (groupByGeneration gen)) = true).
      { apply existsb_eqb_In. rewrite IH. apply in_seq. lia. }
      congruence. }
    destruct Hg as [-> | [j Hj]].
    - lia.
    - assert (Hp : In (Nat.pred g) (JSMap.keys (groupByGeneration gen))).
      { apply groupByGeneration_keys_In. apply in_map_iff. now exists (j, Nat.pred g). }
      rewrite IH in Hp. apply in_seq in Hp. lia. }
  rewrite length_app. simpl. fold n. rewrite IH at 1. subst g.
  replace (n + 1) with (S n) by lia. now rewrite seq_S.
Qed.

(** ** Pass 1 on two orderings *)

Lemma fold_left_ext_in : forall (A B : Type) (f g : A -> B -> A) l,
  (forall a b, In b l -> f a b = g a b) ->
  forall a, fold_left f l a = fold_left g l a.
Proof.
  intros A B f g. induction l as [ | b l IH]; intros H a; simpl; [reflexivity | ].
  rewrite H by now left. apply IH. intros a' b' Hb'. apply H. now right.
Qed.

Section TwoOrderings.

Variable localeCompare : string -> string -> float.
Variables l1 l2 : list Person.
Hypothesis Hperm : Permutation l1 l2.
Hypothesis Hunique : uniqueIds l1.

Let step1 := pass1Layer localeCompare (makeIdSet l1) (makePersonMap l1).
Let step2 := pass1Layer localeCompare (makeIdSet l2) (makePersonMap l2).

(** The comparator of pass 1 reads the person list through lookups only. *)
Lemma pass1Compare_permutation : forall xPos a b,
  pass1Compare localeCompare (makeIdSet l1) (makePersonMap l1) xPos a b
  = pass1Compare localeCompare (makeIdSet l2) (makePersonMap l2) xPos a b.
Proof.
  intros xPos a b. unfold pass1Compare, displayKey.
  rewrite !(validParents_permutation l1 l2) by assumption.
  now rewrite !(makePersonMap_permutation l1 l2) by assumption.
Qed.

(** Layer by layer: from the same positions and layers with the same
    members, decisive sorts leave the same positions and the same layers. *)
Lemma pass1_permutation : forall keys st1 st2,
  NoDup keys ->
  snd st1 = snd st2 ->
  (forall k, In k keys ->
     Permutation (getGroup (fst st1) k) (getGroup (fst st2) k)) ->
  decisiveFrom localeCompare (makeIdSet l1) (makePersonMap l1) keys st1 = true ->
  snd (fold_left step1 keys st1) = snd (fold_left step2 keys st2) /\
  forall k, In k keys ->
    getGroup (fst (fold_left step1 keys st1)) k
    = getGroup (fst (fold_left step2 keys st2)) k.
Proof.
  induction keys as [ | key keys IH]; intros [g1 x1] [g2 x2] Hnd Hx Hg Hd;
    cbn [fold_left].
  - split; [assumption | intros k []].
  - cbn [snd fst] in Hx, Hg. subst x2.
    inversion Hnd as [ | ? ? Hnot Hnd']; subst.
    cbn [decisiveFrom fst snd] in Hd. apply andb_prop in Hd as [Hd1 Hd2].
    assert (S : JSSort.sort
                  (pass1Compare localeCompare (makeIdSet l1) (makePersonMap l1) x1)
                  (getGroup g1 key)
                = JSSort.sort
                    (pass1Compare localeCompare (makeIdSet l2) (makePersonMap l2) x1)
                    (getGroup g2 key)).
    { rewrite <- (sort_ext _ _ _ _ (pass1Compare_permutation x1)).
      apply sort_unique; [exact string_dec | | apply Hg; now left].
      apply decides_spec with (2 := Hd1). intros a b. apply String.eqb_eq. }
    assert (F : forall k,
      getGroup (fst (step1 (g1, x1) key)) k
      = if Nat.eqb key k
        then JSSort.sort
               (pass1Compare localeCompare (makeIdSet l1) (makePersonMap l1) x1)
               (getGroup g1 key)
        else getGroup g1 k).
    { intros k. unfold step1. rewrite pass1Layer_fst. unfold getGroup at 1.
      destruct (Nat.eqb_spec key k) as [<- | Hne].
      - now rewrite get_set_same_nat.
      - rewrite get_set_other_nat by congruence. reflexivity. }
    assert (F' : forall k,
      getGroup (fst (step2 (g2, x1) key)) k
      = if Nat.eqb key k
        then JSSort.sort
               (pass1Compare localeCompare (makeIdSet l2) (makePersonMap l2) x1)
               (getGroup g2 key)
        else getGroup g2 k).
    { intros k. unfold step2. rewrite pass1Layer_fst. unfold getGroup at 1.
      destruct (Nat.eqb_spec key k) as [<- | Hne].
      - now rewrite get_set_same_nat.
      - rewrite get_set_other_nat by congruence. reflexivity. }
    destruct (IH (step1 (g1, x1) key) (step2 (g2, x1) key)) as [R1 R2].
    + assumption.
    + unfold step1, step2. rewrite !pass1Layer_snd.
      fold step1 step2. rewrite F, F'. rewrite Nat.eqb_refl. now rewrite S.
    + intros k Hk. rewrite F, F'.
      destruct (Nat.eqb_spec key k) as [<- | Hne]; [contradiction | ].
      apply Hg. now right.
    + exact Hd2.
    + split; [exact R1 | ]. intros k [<- | Hk]; [ | now apply R2].
      unfold step1, step2. rewrite !pass1_other_layer by assumption.
      fold step1 step2. rewrite F, F', Nat.eqb_refl. exact S.
Qed.

Hypothesis Hacyclic : acyclic l1.
Hypothesis Hdecisive : pass1Decisive localeCompare l1 = true.

Let groups1 := groupByGeneration (assignGenerations l1).
Let groups2 := groupByGeneration (assignGenerations l2).

Lemma sortedLayerKeys_permutation :
  sortedLayerKeys groups1 = sortedLayerKeys groups2.
Proof.
  unfold sortedLayerKeys. f_equal. unfold groups1, groups2.
  rewrite (ladder_layer_keys (assignGenerations l1))
    by now apply assignGenerations_ladder.
  rewrite (ladder_layer_keys (assignGenerations l2))
    by (apply assignGenerations_ladder; now apply acyclic_permutation with l1).
  f_equal. apply Permutation_length, groups_permutation.
  now apply generations_list_permutation.
Qed.

Lemma sortedLayerKeys_NoDup : forall gens,
  NoDup (sortedLayerKeys (groupByGeneration gens)).
Proof.
  intros gens. unfold sortedLayerKeys.
  apply Permutation_NoDup with (JSMap.keys (groupByGeneration gens));
    [symmetry; apply sort_permutation | apply groupByGeneration_keys].
Qed.

(** Pass 1 keeps the keys of the layers. *)
Lemma layoutPass1_keys : forall people,
  sortedLayerKeys (fst (layoutPass1 localeCompare people))
  = sortedLayerKeys (groupByGeneration (assignGenerations people)).
Proof.
  intros people. unfold layoutPass1.
  set (groups := groupByGeneration (assignGenerations people)).
  unfold sortedLayerKeys at 1. rewrite pass1_keys; [reflexivity | ].
  intros k Hk. cbn [fst]. unfold sortedLayerKeys in Hk.
  apply Permutation_in with (2 := Hk). apply sort_permutation.
Qed.

(** Pass 1 leaves the same positions and the same layers in both runs. *)
Lemma layoutPass1_permutation :
  snd (layoutPass1 localeCompare l1) = snd (layoutPass1 localeCompare l2) /\
  sortedLayerKeys (fst (layoutPass1 localeCompare l1))
  = sortedLayerKeys (fst (layoutPass1 localeCompare l2)) /\
  forall k, In k (sortedLayerKeys (fst (layoutPass1 localeCompare l1))) ->
    getGroup (fst (layoutPass1 localeCompare l1)) k
    = getGroup (fst (layoutPass1 localeCompare l2)) k.
Proof.
  rewrite !layoutPass1_keys. fold groups1 groups2.
  pose proof sortedLayerKeys_permutation as K.
  unfold layoutPass1. fold groups1 groups2 step1 step2. rewrite <- K.
  destruct (pass1_permutation (sortedLayerKeys groups1)
              (groups1, []) (groups2, [])) as [R1 R2].
  - apply sortedLayerKeys_NoDup.
  - reflexivity.
  - intros k _. apply groups_permutation.
    now apply generations_list_permutation.
  - exact Hdecisive.
  - split; [exact R1 | split; [reflexivity | exact R2]].
Qed.

(** Passes 2 and 3 then compute the same positions from either ordering. *)
Lemma layoutX_decisive : layoutX localeCompare l1 = layoutX localeCompare l2.
Proof.
  destruct layoutPass1_permutation as [X [K G]]. unfold layoutX.
  destruct (layoutPass1 localeCompare l1) as [g1 x1].
  destruct (layoutPass1 localeCompare l2) as [g2 x2].
  cbn [fst snd] in X, K, G. subst x2. rewrite <- K.
  assert (P2 : forall xs,
    fold_left (pass2Layer (makeChildrenOf (makeIdSet l1) l1) g1)
              (rev (sortedLayerKeys g1)) xs
    = fold_left (pass2Layer (makeChildrenOf (makeIdSet l2) l2) g2)
                (rev (sortedLayerKeys g1)) xs).
  { apply fold_left_ext_in. intros xs key Hkey. apply in_rev in Hkey.
    rewrite (pass2Layer_children _ (makeChildrenOf (makeIdSet l2) l2))
      by (intros i; now apply childrenList_permutation).
    unfold pass2Layer. now rewrite (G key Hkey). }
  rewrite P2. apply fold_left_ext_in. intros xs key Hkey.
  rewrite (pass3Layer_persons _ (makePersonMap l2))
    by (intros i; now apply makePersonMap_permutation).
  unfold pass3Layer. now rewrite (G key Hkey).
Qed.

End TwoOrderings.

(** ** Two persons with the same name *)

(** A collation answers 0 on two equal strings; then pass 1 leaves two
    parentless persons of the same name in the order of the input. *)
Lemma same_name_layout :
  forall (localeCompare : string -> string -> float),
  (forall s, localeCompare s s = 0%float) ->
  layoutX localeCompare [sam1; sam2]
  = [("1"%string, (-115)%float); ("2"%string, 115%float)] /\
  layoutX localeCompare [sam2; sam1]
  = [("2"%string, (-115)%float); ("1"%string, 115%float)].
Proof.
  intros localeCompare Hrefl. split.
  - assert (P : layoutPass1 localeCompare [sam1; sam2]
              = ([(0, ["1"; "2"]%string)],
                 [("1"%string, (-115)%float); ("2"%string, 115%float)])).
    { unfold layoutPass1.
      replace (groupByGeneration (assignGenerations [sam1; sam2]))
        with [(0, ["1"; "2"]%string)] by (vm_compute; reflexivity).
      replace (sortedLayerKeys [(0, ["1"; "2"]%string)]) with [0]
        by (vm_compute; reflexivity).
      cbn [fold_left]. unfold pass1Layer.
      replace (getGroup [(0, ["1"; "2"]%string)] 0) with ["1"; "2"]%string
        by reflexivity.
      rewrite sort_pair.
      replace (pass1Compare localeCompare (makeIdSet [sam1; sam2])
                 (makePersonMap [sam1; sam2]) [] "1" "2")
        with (localeCompare "Sam"%string "Sam"%string) by (vm_compute; reflexivity).
      rewrite Hrefl. vm_compute. reflexivity. }
    unfold layoutX. rewrite P. vm_compute. reflexivity.
  - assert (P : layoutPass1 localeCompare [sam2; sam1]
              = ([(0, ["2"; "1"]%string)],
                 [("2"%string, (-115)%float); ("1"%string, 115%float)])).
    { unfold layoutPass1.
      replace (groupByGeneration (assignGenerations [sam2; sam1]))
        with [(0, ["2"; "1"]%string)] by (vm_compute; reflexivity).
      replace (sortedLayerKeys [(0, ["2"; "1"]%string)]) with [0]
        by (vm_compute; reflexivity).
      cbn [fold_left]. unfold pass1Layer.
      replace (getGroup [(0, ["2"; "1"]%string)] 0) with ["2"; "1"]%string
        by reflexivity.
      rewrite sort_pair.
      replace (pass1Compare localeCompare (makeIdSet [sam2; sam1])
                 (makePersonMap [sam2; sam1]) [] "2" "1")
        with (localeCompare "Sam"%string "Sam"%string) by (vm_compute; reflexivity).
      rewrite Hrefl. vm_compute. reflexivity. }
    unfold layoutX. rewrite P. vm_compute. reflexivity.
Qed.

(** C6, refuted as stated.  Two parentless persons named [Sam], ids [1]
    and [2], given as [[1, 2]] and as [[2, 1]]: for every collation that
    answers 0 on equal strings, person [1] is at x = -115 in the first run
    and at x = 115 in the second. *)
Lemma layout_depends_on_input_order :
  ~ (exists (localeCompare : string -> string -> float),
       (forall s, localeCompare s s = 0%float) /\
       (forall p, In p [sam1; sam2] ->
          xOf (computeLayout localeCompare [sam1; sam2]) (id p)
          = xOf (computeLayout localeCompare [sam2; sam1]) (id p))).
Proof.
  intros [localeCompare [Hrefl H]].
  specialize (H sam1 (or_introl eq_refl)).
  rewrite !xOf_computeLayout in H.
  destruct (same_name_layout localeCompare Hrefl) as [E1 E2].
  rewrite E1, E2 in H.
  apply (f_equal (fun o => match o with
                           | Some v => PrimFloat.ltb v 0%float
                           | None => false
                           end)) in H.
  vm_compute in H. discriminate.
Qed.

(** The two persons named [Sam] tie in the sort of their layer. *)
Lemma same_name_not_decisive :
  forall (localeCompare : string -> string -> float),
  (forall s, localeCompare s s = 0%float) ->
  pass1Decisive localeCompare [sam1; sam2] = false.
Proof.
  intros localeCompare Hrefl. unfold pass1Decisive.
  replace (groupByGeneration (assignGenerations [sam1; sam2]))
    with [(0, ["1"; "2"]%string)] by (vm_compute; reflexivity).
  cbv zeta.
  replace (sortedLayerKeys [(0, ["1"; "2"]%string)]) with [0]
    by (vm_compute; reflexivity).
  cbn [decisiveFrom fst snd]. apply andb_false_iff. left.
  replace (getGroup [(0, ["1"; "2"]%string)] 0) with ["1"; "2"]%string
    by reflexivity.
  assert (E : forall a b, In a ["1"; "2"]%string -> In b ["1"; "2"]%string ->
    sortsAfter (pass1Compare localeCompare (makeIdSet [sam1; sam2])
                  (makePersonMap [sam1; sam2]) []) a b = false).
  { intros a b Ha Hb. unfold sortsAfter.
    replace (pass1Compare localeCompare (makeIdSet [sam1; sam2])
               (makePersonMap [sam1; sam2]) [] a b)
      with (localeCompare "Sam"%string "Sam"%string).
    - now rewrite Hrefl.
    - destruct Ha as [<- | [<- | []]]; destruct Hb as [<- | [<- | []]];
        vm_compute; reflexivity. }
  unfold decides. cbn [forallb].
  rewrite !E by (simpl; auto). reflexivity.
Qed.

(** With a cycle the generations depend on the ordering too. *)
Lemma cycle_generations_depend_on_order :
  JSMap.get String.eqb (assignGenerations [cycleA; cycleB]) "A"%string = Some 2 /\
  JSMap.get String.eqb (assignGenerations [cycleB; cycleA]) "A"%string = Some 1.
Proof. split; vm_compute; reflexivity. Qed.

(** C6, amended.  Let [l1] and [l2] hold the same persons, with distinct
    ids and acyclic parent links, in two orders.  Every person has the same
    generation in both runs.  If, in the run on [l1], every sort of a layer
    by pass 1 meets a comparator that decides the order of the layer (no
    two different persons of the layer tie, and the answers are those of a
    strict order), every person has the same x-coordinate in both runs.
    The sort of pass 1 orders a layer by the average x of the parents and
    then by name, and keeps persons that are equal in both in the order it
    received them, which is where the order of the input shows. *)
Theorem layout_order_independence :
  forall (localeCompare : string -> string -> float) (l1 l2 : list Person),
  Permutation l1 l2 -> uniqueIds l1 -> acyclic l1 ->
  (forall p, In p l1 ->
     JSMap.get String.eqb (assignGenerations l1) (id p)
     = JSMap.get String.eqb (assignGenerations l2) (id p)) /\
  (pass1Decisive localeCompare l1 = true ->
   forall p, In p l1 ->
     xOf (computeLayout localeCompare l1) (id p)
     = xOf (computeLayout localeCompare l2) (id p)).
Proof.
  intros localeCompare l1 l2 H U A. split.
  - intros p Hp. now apply generations_permutation.
  - intros D p Hp. rewrite !xOf_computeLayout.
    now rewrite (layoutX_decisive localeCompare l1 l2 H U A D).
Qed.

Lemma family_unique : uniqueIds family.
Proof. unfold uniqueIds. simpl. repeat constructor; simpl; intuition discriminate. Qed.

Lemma family_acyclic : acyclic family.
Proof.
  apply ranked_acyclic with (rank := fun i =>
    if String.eqb i "C"%string then 1 else 0).
  intros a b [p [Hp [Hb [Ha _]]]]. subst b.
  destruct Hp as [<- | [<- | [<- | []]]]; simpl in Ha.
  - destruct Ha.
  - destruct Ha.
  - destruct Ha as [<- | [<- | []]]; simpl; lia.
Qed.

Lemma layout_order_independence_witness :
  (forall p, In p family ->
     JSMap.get String.eqb (assignGenerations family) (id p)
     = JSMap.get String.eqb (assignGenerations (rev family)) (id p)) /\
  (forall p, In p family ->
     xOf (computeLayout codeUnitCompare family) (id p)
     = xOf (computeLayout codeUnitCompare (rev family)) (id p)).
Proof.
  split.
  - exact (proj1 (layout_order_independence codeUnitCompare family (rev family)
                    (Permutation_rev family) family_unique family_acyclic)).
  - apply (proj2 (layout_order_independence codeUnitCompare family (rev family)
                    (Permutation_rev family) family_unique family_acyclic)).
    vm_compute. reflexivity.
Defined.

(* ================================================================== *)
(** * The traversals return the descendants and the ancestors *)
(* ================================================================== *)

(** One scan adds the children of [current], and queues those that were not
    in the set. *)
Lemma scanChildren_spec : forall current people d q d' q',
  scanChildren current people (d, q) = (d', q') ->
  (forall y, In y d' <-> In y d \/ childLink people y current) /\
  (forall y, In y q' <-> In y q \/ (childLink people y current /\ ~ In y d)).
Proof.
  intros current people. unfold scanChildren, childLink.
  induction people as [ | p people IH]; intros d q d' q' H; simpl in H.
  - inversion H; subst. split; intros y; split; auto.
    + intros [Hy | [p [[] _]]]. exact Hy.
    + intros [Hy | [[p [[] _]] _]]. exact Hy.
  - destruct (JSArray.includes (parentIds p) current
              && negb (JSSet.has d (id p))) eqn:E.
    + apply andb_prop in E as [E1 E2]. apply includes_In in E1.
      apply negb_true_iff, has_false in E2.
      apply IH in H as [H1 H2]. split; intros y.
      * rewrite H1, add_In. split.
        -- intros [[Hy | ->] | [r [Hr Hy]]]; auto.
           ++ right. exists p. simpl. auto.
           ++ right. exists r. simpl. tauto.
        -- intros [Hy | [r [[<- | Hr] [Hid Hc]]]]; auto.
           right. now exists r.
      * rewrite H2, add_In. simpl. split.
        -- intros [[<- | Hy] | [[r [Hr [Hid Hc]]] Hn]].
           ++ right. split; [exists p; auto | assumption].
           ++ now left.
           ++ right. split; [exists r; auto | tauto].
        -- intros [Hy | [[r [[<- | Hr] [Hid Hc]]] Hn]]; auto.
           destruct (in_dec string_dec y (d ++ [id p])) as [Hin | Hnot].
           ++ apply in_app_or in Hin as [Hin | [<- | []]]; [contradiction | auto].
           ++ right. split; [now exists r | ].
              intros [Hd | ->]; apply Hnot, in_or_app; [now left | right; now left].
    + apply IH in H as [H1 H2].
      assert (Hp : forall y, id p = y -> In current (parentIds p) -> In y d).
      { intros y <- Hc. apply includes_In in Hc. rewrite Hc in E. simpl in E.
        apply negb_false_iff in E. now apply has_In. }
      split; intros y.
      * rewrite H1. split.
        -- intros [Hy | [r [Hr Hy]]]; auto. right. exists r. simpl. tauto.
        -- intros [Hy | [r [[<- | Hr] [Hid Hc]]]]; auto.
           right. now exists r.
      * rewrite H2. split.
        -- intros [Hy | [[r [Hr Hy]] Hn]]; auto.
           right. split; [exists r; simpl; tauto | assumption].
        -- intros [Hy | [[r [[<- | Hr] [Hid Hc]]] Hn]]; auto.
           ++ exfalso. apply Hn. now apply Hp.
           ++ right. split; [now exists r | assumption].
Qed.

(** A set closed under child links from [x] holds the descendants of [x];
    likewise for parent links and ancestors. *)
Lemma descendants_closed : forall people x (S : string -> Prop),
  (forall m, m = x \/ S m -> forall y, childLink people y m -> S y) ->
  forall y, descendantOf people y x -> S y.
Proof.
  intros people x S Hc y Hy.
  induction Hy as [y a Hl | y m a Hl _ IHm].
  - now apply (Hc a (or_introl eq_refl)).
  - apply (Hc m); [right; now apply IHm | assumption].
Qed.

Lemma ancestors_closed : forall people x (S : string -> Prop),
  (forall m, m = x \/ S m -> forall y, parentLink people y m -> S y) ->
  forall y, ancestorIdOf people y x -> S y.
Proof.
  intros people x S Hc y Hy.
  induction Hy as [y c Hl | y m c Hl _ IHm].
  - now apply (Hc c (or_introl eq_refl)).
  - apply (Hc m); [right; now apply IHm | assumption].
Qed.

(** The loop: what is in the set descends from [x]; when the queue is
    empty, the set is closed under child links. *)
Lemma descendantsLoop_spec : forall fuel people x d q s,
  descendantsLoop fuel people d q = Some s ->
  (forall y, In y q -> y = x \/ descendantOf people y x) ->
  (forall y, In y d -> descendantOf people y x) ->
  (forall m, m = x \/ In m d ->
     In m q \/ forall y, childLink people y m -> In y d) ->
  forall y, In y s <-> descendantOf people y x.
Proof.
  induction fuel as [ | fuel IH]; intros people x d q s H Hq Hd Hc.
  - destruct q; [ | discriminate]. simpl in H. inversion H; subst s.
    intros y. split; [apply Hd | ].
    intros Hy. apply (descendants_closed people x (fun z => In z d)); [ | exact Hy].
    intros m Hm. now destruct (Hc m Hm) as [[] | Hall].
  - destruct q as [ | current q].
    { simpl in H. inversion H; subst s.
      intros y. split; [apply Hd | ].
      intros Hy.
      apply (descendants_closed people x (fun z => In z d)); [ | exact Hy].
      intros m Hm. now destruct (Hc m Hm) as [[] | Hall]. }
    simpl in H.
    destruct (scanChildren current people (d, q)) as [d' q'] eqn:E.
    apply scanChildren_spec in E as [E1 E2].
    assert (Hcur : forall y, childLink people y current -> descendantOf people y x).
    { intros y Hl. destruct (Hq current (or_introl eq_refl)) as [-> | Hx].
      - now apply desc_child.
      - now apply desc_more with current. }
    apply IH with (1 := H).
    + intros y Hy. apply E2 in Hy as [Hy | [Hy _]].
      * apply Hq. now right.
      * right. now apply Hcur.
    + intros y Hy. apply E1 in Hy as [Hy | Hy]; [now apply Hd | now apply Hcur].
    + intros m Hm.
      assert (Hold : m = x \/ In m d -> In m q' \/
                     forall y, childLink people y m -> In y d').
      { intros Hm'. destruct (Hc m Hm') as [[<- | Hin] | Hall].
        - right. intros y Hl. apply E1. now right.
        - left. apply E2. now left.
        - right. intros y Hl. apply E1. left. now apply Hall. }
      destruct Hm as [-> | Hm]; [apply Hold; now left | ].
      destruct (in_dec string_dec m d) as [Hin | Hnot]; [apply Hold; now right | ].
      apply E1 in Hm as [Hm | Hm]; [contradiction | ].
      left. apply E2. right. now split.
Qed.

Lemma getDescendantIds_spec : forall x people y,
  In y (getDescendantIds x people) <-> descendantOf people y x.
Proof.
  intros x people y. unfold getDescendantIds.
  destruct (descendantsLoop_total (descendantsFuel people) people JSSet.empty [x])
    as [s [Hs _]].
  - unfold descendantsFuel. simpl.
    pose proof (unseen_le_length JSSet.empty (map id people)) as H.
    rewrite length_map in H. lia.
  - constructor.
  - rewrite Hs. apply descendantsLoop_spec with (1 := Hs).
    + intros z [<- | []]. now left.
    + intros z [].
    + intros m [-> | []]. left. now left.
Qed.

(** One scan of a [parentIds] list adds its entries, and queues those that
    were not in the set. *)
Lemma scanParents_spec : forall pids a q a' q',
  scanParents pids (a, q) = (a', q') ->
  (forall y, In y a' <-> In y a \/ In y pids) /\
  (forall y, In y q' <-> In y q \/ (In y pids /\ ~ In y a)).
Proof.
  unfold scanParents.
  induction pids as [ | pid pids IH]; intros a q a' q' H; simpl in H.
  - inversion H; subst. split; intros y; simpl; tauto.
  - destruct (negb (JSSet.has a pid)) eqn:E.
    + apply negb_true_iff, has_false in E.
      apply IH in H as [H1 H2]. split; intros y.
      * rewrite H1, add_In. simpl. intuition congruence.
      * rewrite H2, add_In. simpl. split.
        -- intros [[<- | Hy] | [Hy Hn]]; auto. right. tauto.
        -- intros [Hy | [[<- | Hy] Hn]]; auto.
           destruct (string_dec y pid) as [-> | Hne]; [auto | ].
           right. split; [assumption | intuition congruence].
    + apply negb_false_iff, has_In in E.
      apply IH in H as [H1 H2]. split; intros y.
      * rewrite H1. simpl. intuition congruence.
      * rewrite H2. simpl. intuition congruence.
Qed.

Lemma ancestorsLoop_spec : forall fuel people x a q s,
  ancestorsLoop fuel people a q = Some s ->
  (forall y, In y q -> y = x \/ ancestorIdOf people y x) ->
  (forall y, In y a -> ancestorIdOf people y x) ->
  (forall m, m = x \/ In m a ->
     In m q \/ forall y, parentLink people y m -> In y a) ->
  forall y, In y s <-> ancestorIdOf people y x.
Proof.
  assert (Hend : forall people x a,
    (forall y, In y a -> ancestorIdOf people y x) ->
    (forall m, m = x \/ In m a ->
       In m [] \/ forall y, parentLink people y m -> In y a) ->
    forall y, In y a <-> ancestorIdOf people y x).
  { intros people x a Ha Hc y. split; [apply Ha | ].
    intros Hy. apply (ancestors_closed people x (fun z => In z a)); [ | exact Hy].
    intros m Hm. now destruct (Hc m Hm) as [[] | Hall]. }
  induction fuel as [ | fuel IH]; intros people x a q s H Hq Ha Hc.
  - destruct q; [ | discriminate]. simpl in H. inversion H; subst s.
    now apply Hend.
  - destruct q as [ | current q].
    { simpl in H. inversion H; subst s. now apply Hend. }
    simpl in H.
    assert (Hcur : forall y, parentLink people y current -> ancestorIdOf people y x).
    { intros y Hl. destruct (Hq current (or_introl eq_refl)) as [-> | Hx].
      - now apply ancid_parent.
      - now apply ancid_more with current. }
    destruct (find (fun p => String.eqb (id p) current) people)
      as [person | ] eqn:F.
    + destruct (scanParents (parentIds person) (a, q)) as [a' q'] eqn:E.
      apply scanParents_spec in E as [E1 E2].
      assert (Hl : forall y, In y (parentIds person) <-> parentLink people y current).
      { intros y. unfold parentLink. rewrite F. split.
        - intros Hy. now exists person.
        - intros [p [Hp Hy]]. now inversion Hp; subst. }
      apply IH with (1 := H).
      * intros y Hy. apply E2 in Hy as [Hy | [Hy _]].
        -- apply Hq. now right.
        -- right. now apply Hcur, Hl.
      * intros y Hy. apply E1 in Hy as [Hy | Hy];
          [now apply Ha | now apply Hcur, Hl].
      * intros m Hm.
        assert (Hold : m = x \/ In m a -> In m q' \/
                       forall y, parentLink people y m -> In y a').
        { intros Hm'. destruct (Hc m Hm') as [[<- | Hin] | Hall].
          - right. intros y Hy. apply E1. right. now apply Hl.
          - left. apply E2. now left.
          - right. intros y Hy. apply E1. left. now apply Hall. }
        destruct Hm as [-> | Hm]; [apply Hold; now left | ].
        destruct (in_dec string_dec m a) as [Hin | Hnot]; [apply Hold; now right | ].
        apply E1 in Hm as [Hm | Hm]; [contradiction | ].
        left. apply E2. right. now split.
    + apply IH with (1 := H).
      * intros y Hy. apply Hq. now right.
      * assumption.
      * intros m Hm. destruct (Hc m Hm) as [[<- | Hin] | Hall]; auto.
        right. intros y [p [Hp _]]. congruence.
Qed.

Lemma getAncestorIds_spec : forall x people y,
  In y (getAncestorIds x people) <-> ancestorIdOf people y x.
Proof.
  intros x people y. unfold getAncestorIds.
  destruct (ancestorsLoop_total (ancestorsFuel people) people JSSet.empty [x])
    as [s [Hs _]].
  - unfold ancestorsFuel. simpl.
    pose proof (unseen_le_length JSSet.empty (allParentIds people)). lia.
  - constructor.
  - rewrite Hs. apply ancestorsLoop_spec with (1 := Hs).
    + intros z [<- | []]. now left.
    + intros z [].
    + intros m [-> | []]. left. now left.
Qed.

(** The ids returned are ids of records of the list. *)
Lemma descendantOf_record : forall people d a,
  descendantOf people d a -> In d (map id people).
Proof.
  intros people d a H.
  destruct H as [d a [p [Hp [<- _]]] | d m a [p [Hp [<- _]]] _]; now apply in_map.
Qed.

(** X1.  [getDescendantIds(x, people)] holds exactly the ids reached from
    [x] by one or more child links (a record is a child of every id in its
    [parentIds]), on cyclic graphs too; each of them is the id of a record
    of the list, and [x] itself is among them exactly when it lies on a
    cycle. *)
Theorem getDescendantIds_descendants : forall (x : string) (people : list Person),
  (forall y, In y (getDescendantIds x people) <-> descendantOf people y x) /\
  (forall y, In y (getDescendantIds x people) -> In y (map id people)) /\
  (In x (getDescendantIds x people) <-> descendantOf people x x).
Proof.
  intros x people. split; [ | split].
  - intros y. apply getDescendantIds_spec.
  - intros y Hy. apply getDescendantIds_spec in Hy.
    now apply descendantOf_record with x.
  - apply getDescendantIds_spec.
Qed.

Lemma getAncestorIds_missing : forall x people,
  find (fun p => String.eqb (id p) x) people = None ->
  getAncestorIds x people = [].
Proof.
  intros x people F. unfold getAncestorIds, ancestorsFuel. simpl. rewrite F.
  now destruct (length (allParentIds people)).
Qed.

(** X2.  [getAncestorIds(x, people)] holds exactly the ids reached from [x]
    by one or more parent links, where the parents of an id are the
    [parentIds] of the first record with that id; ids without a record are
    returned too, but not followed.  For an [x] without a record the result
    is empty. *)
Theorem getAncestorIds_ancestors : forall (x : string) (people : list Person),
  (forall y, In y (getAncestorIds x people) <-> ancestorIdOf people y x) /\
  (find (fun p => String.eqb (id p) x) people = None ->
   getAncestorIds x people = []).
Proof.
  intros x people. split.
  - intros y. apply getAncestorIds_spec.
  - apply getAncestorIds_missing.
Qed.

(** With distinct ids, a child link is a parent link read the other way. *)
Lemma find_unique : forall people p,
  uniqueIds people -> In p people ->
  find (fun q => String.eqb (id q) (id p)) people = Some p.
Proof.
  intros people p U Hp.
  destruct (find (fun q => String.eqb (id q) (id p)) people) as [q | ] eqn:F.
  - apply find_some in F as [Hq E]. apply String.eqb_eq in E.
    f_equal. now apply uniqueIds_eq with people.
  - apply find_none with (x := p) in F; [ | assumption].
    now rewrite String.eqb_refl in F.
Qed.

Lemma childLink_parentLink : forall people c a,
  uniqueIds people -> (childLink people c a <-> parentLink people a c).
Proof.
  intros people c a U. unfold childLink, parentLink. split.
  - intros [p [Hp [<- Ha]]]. exists p. split; [now apply find_unique | assumption].
  - intros [p [F Ha]]. apply find_some in F as [Hp E]. apply String.eqb_eq in E.
    now exists p.
Qed.

Lemma descendantOf_top : forall people d m a,
  descendantOf people d m -> childLink people m a -> descendantOf people d a.
Proof.
  intros people d m a H Hl. induction H as [d m Hd | d k m Hd _ IH].
  - apply desc_more with m; [assumption | now apply desc_child].
  - apply desc_more with k; [assumption | now apply IH].
Qed.

Lemma descendantOf_trans : forall people d m a,
  descendantOf people d m -> descendantOf people m a -> descendantOf people d a.
Proof.
  intros people d m a H1 H2. induction H1 as [d m Hd | d k m Hd _ IH].
  - now apply desc_more with m.
  - apply desc_more with k; [assumption | now apply IH].
Qed.

Lemma ancestorIdOf_bottom : forall people a m c,
  ancestorIdOf people a m -> parentLink people m c -> ancestorIdOf people a c.
Proof.
  intros people a m c H Hl. induction H as [a m Ha | a k m Ha _ IH].
  - apply ancid_more with m; [assumption | now apply ancid_parent].
  - apply ancid_more with k; [assumption | now apply IH].
Qed.

Lemma descendantOf_ancestorIdOf : forall people d a,
  uniqueIds people -> (descendantOf people d a <-> ancestorIdOf people a d).
Proof.
  intros people d a U. split.
  - intros H. induction H as [d a Hl | d m a Hl _ IH].
    + apply ancid_parent. now apply childLink_parentLink.
    + apply ancestorIdOf_bottom with m; [assumption | ].
      now apply childLink_parentLink.
  - intros H. induction H as [a d Hl | a m d Hl _ IH].
    + apply desc_child. now apply childLink_parentLink.
    + apply descendantOf_top with m; [assumption | ].
      now apply childLink_parentLink.
Qed.

(** X3.  On a list with distinct ids the two traversals are each other's
    converse: [y] is among the descendants of [x] exactly when [x] is among
    the ancestors of [y]. *)
Theorem descendants_ancestors_converse : forall (people : list Person),
  uniqueIds people ->
  forall x y,
    In y (getDescendantIds x people) <-> In x (getAncestorIds y people).
Proof.
  intros people U x y.
  rewrite getDescendantIds_spec, getAncestorIds_spec.
  now apply descendantOf_ancestorIdOf.
Qed.

Lemma descendants_ancestors_converse_witness :
  uniqueIds family /\
  (In "C"%string (getDescendantIds "A" family)
   <-> In "A"%string (getAncestorIds "C" family)).
Proof.
  split; [exact family_unique | ].
  apply (descendants_ancestors_converse family family_unique).
Defined.

(* ================================================================== *)
(** * Saves and cycles *)
(* ================================================================== *)

Section Pointwise.

Variable R : Person -> Person -> Prop.
Hypothesis R_refl : forall x, R x x.
Hypothesis R_trans : forall x y z, R x y -> R y z -> R x z.

Lemma Forall2_pointwise_refl : forall l, Forall2 R l l.
Proof. induction l; constructor; auto. Qed.

Lemma Forall2_pointwise_trans : forall l1 l2 l3,
  Forall2 R l1 l2 -> Forall2 R l2 l3 -> Forall2 R l1 l3.
Proof.
  intros l1 l2 l3 H. revert l3.
  induction H as [ | x y l1 l2 Hxy _ IH]; intros l3 H3; inversion H3; subst;
    constructor; eauto.
Qed.

Lemma setAt_pointwise : forall i x y l,
  nth_error l i = Some x -> R x y -> Forall2 R l (JSArray.setAt i y l).
Proof.
  induction i as [ | i IH]; intros x y [ | z l] H Hxy; simpl in *;
    try discriminate.
  - inversion H; subst. constructor; [assumption | apply Forall2_pointwise_refl].
  - constructor; [apply R_refl | now apply IH with x].
Qed.

Lemma updateAt_pointwise : forall i f l,
  (forall x, R x (f x)) -> Forall2 R l (updateAt i f l).
Proof.
  intros i f l Hf. unfold updateAt.
  destruct (nth_error l i) as [x | ] eqn:E; [ | apply Forall2_pointwise_refl].
  now apply setAt_pointwise with x.
Qed.

Lemma updateFound_pointwise : forall (g : Person -> bool) f l,
  (forall x, R x (f x)) ->
  Forall2 R l (match JSArray.findIndex g l with
               | Some idx => updateAt idx f l
               | None => l
               end).
Proof.
  intros g f l Hf. destruct (JSArray.findIndex g l);
    [now apply updateAt_pointwise | apply Forall2_pointwise_refl].
Qed.

End Pointwise.

Lemma sameParents_refl : forall x, sameParents x x.
Proof. intros x. now split. Qed.

Lemma sameParents_trans : forall x y z,
  sameParents x y -> sameParents y z -> sameParents x z.
Proof. intros x y z [H1 H2] [H3 H4]. split; congruence. Qed.

Lemma sameParents_addSibling : forall i x, sameParents x (addSibling i x).
Proof.
  intros i x. unfold addSibling.
  destruct (negb (JSArray.includes (siblingIds x) i)); now split.
Qed.

Lemma sameParents_withSiblingIds : forall x l, sameParents x (withSiblingIds x l).
Proof. intros x l. now split. Qed.

Lemma linkSibling_sameParents : forall person ctx l,
  Forall2 sameParents l (linkSibling person ctx l).
Proof.
  intros person ctx l. unfold linkSibling.
  destruct (ctxLink linkAsSiblingOf ctx) as [targetId | ];
    [ | apply Forall2_pointwise_refl, sameParents_refl].
  eapply Forall2_pointwise_trans; [exact sameParents_trans | | ].
  - apply updateFound_pointwise with (g := hasId targetId)
      (f := addSibling (id person));
      [exact sameParents_refl | apply sameParents_addSibling].
  - apply updateFound_pointwise;
      [exact sameParents_refl | apply sameParents_addSibling].
Qed.

Lemma addReverseLinks_sameParents : forall person current l,
  Forall2 sameParents l (addReverseLinks person current l).
Proof.
  intros person current l. unfold addReverseLinks.
  generalize (siblingIds current). intros sibs. revert l.
  induction sibs as [ | sibId sibs IH]; intros l; simpl.
  - apply Forall2_pointwise_refl, sameParents_refl.
  - eapply Forall2_pointwise_trans; [exact sameParents_trans | | apply IH].
    apply updateFound_pointwise;
      [exact sameParents_refl | apply sameParents_addSibling].
Qed.

Lemma removeStaleLinks_sameParents : forall person current l,
  Forall2 sameParents l (removeStaleLinks person current l).
Proof.
  intros person current l. unfold removeStaleLinks.
  generalize (seq 0 (length l)). intros idxs. revert l.
  induction idxs as [ | i idxs IH]; intros l; simpl.
  - apply Forall2_pointwise_refl, sameParents_refl.
  - eapply Forall2_pointwise_trans; [exact sameParents_trans | | apply IH].
    unfold removeStaleLinkAt.
    destruct (nth_error l i) as [other | ];
      [ | apply Forall2_pointwise_refl, sameParents_refl].
    destruct (String.eqb (id other) (id person));
      [apply Forall2_pointwise_refl, sameParents_refl | ].
    destruct (JSArray.includes (siblingIds other) (id person)
              && negb (JSArray.includes (siblingIds current) (id other)));
      [ | apply Forall2_pointwise_refl, sameParents_refl].
    apply updateFound_pointwise with (g := hasId (id other));
      [exact sameParents_refl | intros x; apply sameParents_withSiblingIds].
Qed.

Lemma syncSiblings_sameParents : forall person l,
  Forall2 sameParents l (syncSiblings person l).
Proof.
  intros person l. unfold syncSiblings.
  destruct (JSArray.findIndex (hasId (id person)) l) as [idx | ];
    [ | apply Forall2_pointwise_refl, sameParents_refl].
  destruct (nth_error l idx) as [current | ];
    [ | apply Forall2_pointwise_refl, sameParents_refl].
  eapply Forall2_pointwise_trans; [exact sameParents_trans | | ].
  - apply addReverseLinks_sameParents.
  - apply removeStaleLinks_sameParents.
Qed.

(** Without a parent link to add, the save changes the parents of no record
    but the saved one. *)
Lemma savePerson_sameParents : forall person ctx prev,
  ctxLink linkAsParentOf ctx = None ->
  Forall2 sameParents (upsertPerson person (people prev))
          (people (savePerson person ctx prev)).
Proof.
  intros person ctx prev Hctx. unfold savePerson. simpl.
  unfold linkParent at 1. rewrite Hctx.
  eapply Forall2_pointwise_trans; [exact sameParents_trans | | ].
  - apply linkSibling_sameParents.
  - apply syncSiblings_sameParents.
Qed.

(** The child links after the save: those of the saved person are its
    [parentIds], those of the other records are as before. *)
Lemma savePerson_childLink : forall person ctx prev c a,
  uniqueIds (people prev) ->
  ctxLink linkAsParentOf ctx = None ->
  (childLink (people (savePerson person ctx prev)) c a <->
   (c = id person /\ In a (parentIds person)) \/
   (c <> id person /\ childLink (people prev) c a)).
Proof.
  intros person ctx prev c a U Hctx.
  pose proof (savePerson_sameParents person ctx prev Hctx) as F.
  destruct (upsertPerson_spec person (people prev) U) as [U' [Hin Hothers]].
  assert (Hup : childLink (upsertPerson person (people prev)) c a <->
                (c = id person /\ In a (parentIds person)) \/
                (c <> id person /\ childLink (people prev) c a)).
  { split.
    - intros [q [Hq [Hc Ha]]]. destruct (string_dec c (id person)) as [E | Hne].
      + left. split; [assumption | ].
        assert (q = person) by (apply uniqueIds_eq with (1 := U'); congruence).
        now subst q.
      + right. split; [assumption | ]. exists q. split; [ | now split].
        apply Hothers; [congruence | assumption].
    - intros [[-> Ha] | [Hne [q [Hq [Hc Ha]]]]].
      + now exists person.
      + exists q. split; [ | now split]. apply Hothers; [congruence | assumption]. }
  rewrite <- Hup. unfold childLink. split.
  - intros [q' [Hq' [Hc Ha]]].
    destruct (Forall2_In_r _ _ _ _ F Hq') as [q [Hq [E1 E2]]].
    exists q. split; [assumption | ]. split; congruence.
  - intros [q [Hq [Hc Ha]]].
    destruct (Forall2_In_l _ _ _ _ F Hq) as [q' [Hq' [E1 E2]]].
    exists q'. split; [assumption | ]. split; congruence.
Qed.

(** Cycles of the two readings of the parent links are the same cycles. *)
Lemma parentEdge_childLink : forall people a b,
  parentEdge people a b <-> childLink people b a /\ In a (map id people).
Proof.
  intros people a b. unfold parentEdge, childLink. split.
  - intros [p [H1 [H2 [H3 H4]]]]. split; [now exists p | assumption].
  - intros [[p [H1 [H2 H3]]] H4]. now exists p.
Qed.

Lemma ancestorOf_descendantOf : forall people a b,
  ancestorOf people a b -> descendantOf people b a.
Proof.
  intros people a b H. induction H as [a b E | a b c E _ IH].
  - apply desc_child. now apply parentEdge_childLink in E.
  - apply descendantOf_top with b; [assumption | ].
    now apply parentEdge_childLink in E.
Qed.

Lemma descendantOf_ancestorOf : forall people d a,
  descendantOf people d a -> In a (map id people) -> ancestorOf people a d.
Proof.
  intros people d a H Ha. induction H as [d a Hl | d m a Hl Hm IH].
  - apply anc_parent. now apply parentEdge_childLink.
  - apply ancestorOf_trans with m; [now apply IH | ].
    apply anc_parent. apply parentEdge_childLink. split; [assumption | ].
    now apply descendantOf_record with a.
Qed.

Lemma acyclic_descendantOf : forall people,
  acyclic people <-> forall a, ~ descendantOf people a a.
Proof.
  intros people. split.
  - intros A a H. apply (A a). apply descendantOf_ancestorOf; [assumption | ].
    now apply descendantOf_record with a.
  - intros A a H. apply (A a). now apply ancestorOf_descendantOf.
Qed.

Lemma wouldCreateCycle_false : forall x y people,
  wouldCreateCycle x y people = false ->
  y <> x /\ ~ descendantOf people y x.
Proof.
  intros x y people H. unfold wouldCreateCycle in H.
  destruct (String.eqb_spec x y) as [-> | Hne]; [discriminate | ].
  split; [congruence | ]. intros D. apply getDescendantIds_spec in D.
  apply has_In in D. congruence.
Qed.

(** A chain of child links after the save either is a chain of before, or
    climbs to the saved person and later leaves one of its parents. *)
Lemma savePerson_descendantOf : forall person ctx prev d a,
  uniqueIds (people prev) ->
  ctxLink linkAsParentOf ctx = None ->
  descendantOf (people (savePerson person ctx prev)) d a ->
  descendantOf (people prev) d a \/
  ((d = id person \/ descendantOf (people prev) d (id person)) /\
   exists y, In y (parentIds person) /\
             (a = y \/ descendantOf (people prev) y a)).
Proof.
  intros person ctx prev d a U Hctx H.
  induction H as [d a Hl | d m a Hl _ IH];
    apply (savePerson_childLink person ctx prev) in Hl; try assumption.
  - destruct Hl as [[-> Ha] | [Hne Hl]].
    + right. split; [now left | ]. exists a. split; [assumption | now left].
    + left. now apply desc_child.
  - destruct Hl as [[-> Hm] | [Hne Hl]].
    + right. split; [now left | ].
      destruct IH as [IH | [_ [y [Hy Hya]]]].
      * exists m. split; [assumption | now right].
      * now exists y.
    + destruct IH as [IH | [Hm Hy]].
      * left. now apply desc_more with m.
      * right. split; [ | assumption]. right.
        destruct Hm as [-> | Hm]; [now apply desc_child | now apply desc_more with m].
Qed.

(** A save whose parents all pass the guard of [wouldCreateCycle] keeps the
    graph acyclic. *)
Lemma savePerson_acyclic : forall person ctx prev,
  uniqueIds (people prev) -> acyclic (people prev) ->
  ctxLink linkAsParentOf ctx = None ->
  (forall y, In y (parentIds person) ->
     wouldCreateCycle (id person) y (people prev) = false) ->
  acyclic (people (savePerson person ctx prev)).
Proof.
  intros person ctx prev U A Hctx Hguard.
  apply acyclic_descendantOf. intros a H.
  pose proof (proj1 (acyclic_descendantOf (people prev)) A) as A'.
  apply savePerson_descendantOf in H; try assumption.
  destruct H as [H | [Ha [y [Hy Hya]]]]; [exact (A' a H) | ].
  destruct (wouldCreateCycle_false _ _ _ (Hguard y Hy)) as [Hne Hnd].
  apply Hnd. destruct Ha as [Ea | Ha]; destruct Hya as [Ey | Hya].
  - congruence.
  - now rewrite <- Ea.
  - now rewrite <- Ey.
  - now apply descendantOf_trans with a.
Qed.

(** X4.  A save without a parent link to add ([linkAsParentOf] unset), on a
    graph with distinct ids and no cycle, of a person whose every parent id
    passes the guard ([wouldCreateCycle(person.id, parent, people)] is
    false), leaves a graph without cycle. *)
Theorem guarded_save_keeps_acyclic :
  forall (person : Person) (ctx : option ModalContext) (now : string)
         (prev : FamilyData),
  uniqueIds (people prev) -> acyclic (people prev) ->
  ctxLink linkAsParentOf ctx = None ->
  (forall y, In y (parentIds person) ->
     wouldCreateCycle (id person) y (people prev) = false) ->
  acyclic (people (handleSavePerson person ctx now prev)).
Proof.
  intros person ctx now prev U A Hctx Hguard.
  unfold handleSavePerson, mutate. simpl. now apply savePerson_acyclic.
Qed.

Lemma guarded_save_witness :
  acyclic
    (people
       (handleSavePerson (scenarioPerson "D" "Dan" None ["C"%string]) None
          "2026-01-02" (mkFamilyData 1 "2026-01-01" family))).
Proof.
  apply guarded_save_keeps_acyclic.
  - exact family_unique.
  - exact family_acyclic.
  - reflexivity.
  - intros y [<- | []]. vm_compute. reflexivity.
Defined.

(** ** The parents picked in the modal *)

Lemma handleParentToggle_In : forall i l y,
  In y (handleParentToggle i l) -> In y l \/ y = i.
Proof.
  intros i l y. unfold handleParentToggle.
  destruct (JSArray.includes l i).
  - intros H. apply filter_In in H as [H _]. now left.
  - destruct (2 <=? length l); [now left | ].
    intros H. apply in_app_or in H as [H | [<- | []]]; auto.
Qed.

Lemma toggledParents_In : forall toggles start y,
  In y (toggledParents start toggles) -> In y start \/ In y toggles.
Proof.
  unfold toggledParents.
  induction toggles as [ | i toggles IH]; intros start y H; simpl in *; [now left | ].
  apply IH in H as [H | H]; [ | right; now right].
  apply handleParentToggle_In in H as [H | ->]; [now left | right; now left].
Qed.

Lemma wouldCreateCycle_false_iff : forall x y people,
  wouldCreateCycle x y people = false <->
  y <> x /\ ~ descendantOf people y x.
Proof.
  intros x y people. split; [apply wouldCreateCycle_false | ].
  intros [Hne Hnd]. unfold wouldCreateCycle.
  destruct (String.eqb_spec x y) as [-> | _]; [contradiction | ].
  apply has_false. intros H. now apply Hnd, getDescendantIds_spec.
Qed.

(** What the list of checkboxes offers passes the guard. *)
Lemma availableParents_guard : forall people x i,
  In i (map id (availableParents people x)) ->
  wouldCreateCycle x i people = false.
Proof.
  intros people x i H. apply in_map_iff in H as [p [<- Hp]].
  unfold availableParents in Hp. apply filter_In in Hp as [_ Hp].
  destruct (String.eqb (id p) x); [discriminate | ].
  now apply negb_true_iff in Hp.
Qed.

(** On a graph without cycle the parents a record has pass the guard. *)
Lemma parents_pass_guard : forall people x y,
  acyclic people -> In x people -> In y (parentIds x) ->
  wouldCreateCycle (id x) y people = false.
Proof.
  intros people x y A Hx Hy.
  pose proof (proj1 (acyclic_descendantOf people) A) as A'.
  assert (Hl : childLink people (id x) y) by now exists x.
  apply wouldCreateCycle_false_iff. split.
  - intros ->. apply (A' (id x)). now apply desc_child.
  - intros D. apply (A' y). now apply descendantOf_top with (id x).
Qed.

(** X5.  Editing the parents of a person through the modal cannot close a
    cycle: on a graph with distinct ids and no cycle, when the [parentIds]
    cell starts from the parents of the edited person and every checkbox
    clicked is one of the list [availableParents] offers, the save of the
    person built from the cells leaves a graph without cycle. *)
Theorem edited_parents_keep_acyclic :
  forall (prev : FamilyData) (x : Person) (toggles sibs : list string)
         (saved : Person) (now : string),
  uniqueIds (people prev) -> acyclic (people prev) -> In x (people prev) ->
  Forall (fun i => In i (map id (availableParents (people prev) (id x)))) toggles ->
  builtBy (id x) (mkFormState (toggledParents (parentIds x) toggles) sibs) saved ->
  acyclic (people (handleSavePerson saved None now prev)).
Proof.
  intros prev x toggles sibs saved now U A Hx Ht [Hid [Hpar _]].
  unfold handleSavePerson, mutate. simpl.
  apply savePerson_acyclic; try assumption; [reflexivity | ].
  intros y Hy. rewrite Hid. rewrite Hpar in Hy. simpl in Hy.
  apply toggledParents_In in Hy as [Hy | Hy].
  - now apply parents_pass_guard.
  - rewrite Forall_forall in Ht. now apply availableParents_guard, Ht.
Qed.

Lemma edited_parents_witness :
  acyclic
    (people
       (handleSavePerson (scenarioPerson "C" "Cyd" None ["B"%string]) None
          "2026-01-02" (mkFamilyData 1 "2026-01-01" family))).
Proof.
  apply (edited_parents_keep_acyclic (mkFamilyData 1 "2026-01-01" family)
           (scenarioPerson "C" "Cyd" None ["A"; "B"]%string)
           ["A"%string] []).
  - exact family_unique.
  - exact family_acyclic.
  - simpl. auto.
  - constructor; [ | constructor]. vm_compute. auto.
  - repeat split.
Defined.

(** The guard does not cover the "Create New Parent" flow: the new person
    may pick a child of the target as its own parent, and the link the save
    then adds from the target closes a cycle. *)
Lemma create_parent_flow_unguarded :
  let prev := mkFamilyData 1 "2026-01-01"
                [scenarioPerson "X" "Xan" None [];
                 scenarioPerson "C" "Cyd" None ["X"%string]] in
  let new := scenarioPerson "N" "Nan" None ["C"%string] in
  let ctx := Some (mkModalContext (Some "X"%string) None None) in
  (forall y, In y (parentIds new) ->
     wouldCreateCycle (id new) y (people prev) = false) /\
  ~ acyclic (people (handleSavePerson new ctx "2026-01-02" prev)).
Proof.
  intros prev new ctx. split.
  - intros y [<- | []]. vm_compute. reflexivity.
  - intros A. apply (A "X"%string).
    assert (E : forall a b p,
      In p (people (handleSavePerson new ctx "2026-01-02" prev)) ->
      id p = b -> In a (parentIds p) ->
      In a (map id (people (handleSavePerson new ctx "2026-01-02" prev))) ->
      parentEdge (people (handleSavePerson new ctx "2026-01-02" prev)) a b).
    { intros a b p H1 H2 H3 H4. now exists p. }
    apply anc_more with "C"%string;
      [ | apply anc_more with "N"%string; [ | apply anc_parent]].
    + apply E with (scenarioPerson "C" "Cyd" None ["X"%string]);
        vm_compute; auto.
    + apply E with (scenarioPerson "N" "Nan" None ["C"%string]);
        vm_compute; auto.
    + apply E with (scenarioPerson "X" "Xan" None ["N"%string]);
        vm_compute; auto.
Qed.

(* ================================================================== *)
(** * The generation map covers the persons *)
(* ================================================================== *)

Lemma get_keys_In : forall (V : Type) (m : list (string * V)) k,
  JSMap.get String.eqb m k <> None <-> In k (JSMap.keys m).
Proof.
  intros V m k. pose proof (get_None_keys V m k) as H.
  destruct (JSMap.get String.eqb m k).
  - split; [intros _ | discriminate].
    destruct (in_dec string_dec k (JSMap.keys m)) as [Hin | Hnot]; [assumption | ].
    apply H in Hnot. discriminate.
  - split; [congruence | ]. intros Hin Hn. now apply H in Hin.
Qed.

Lemma assignGenerations_total : forall people p,
  In p people ->
  JSMap.get String.eqb (assignGenerations people) (id p) <> None.
Proof.
  intros people p Hp.
  destruct (generations_total people people []) as [_ [_ G]].
  - intros q Hq. now apply in_map.
  - intros k g H. discriminate.
  - now apply G.
Qed.

(** X6.  On every list of persons, with cycles, dangling parents or
    repeated ids, [assignGenerations] returns a map with one entry for each
    id of the list and no other entry, and the recursion of [compute] stays
    within its depth budget at each person of the loop. *)
Theorem assignGenerations_covers : forall (people : list Person),
  NoDup (JSMap.keys (assignGenerations people)) /\
  (forall k, In k (JSMap.keys (assignGenerations people))
             <-> In k (map id people)) /\
  (forall done p rest, people = done ++ p :: rest ->
     compute (makeIdSet people) (makePersonMap people) (generationsFuel people)
       (id p) (fold_left (generationsRound people) done [], JSSet.empty)
     <> None).
Proof.
  intros people. destruct (assignGenerations_keys people) as [N W].
  split; [exact N | ]. split.
  - intros k. split; [apply W | ].
    intros Hk. apply in_map_iff in Hk as [p [<- Hp]].
    now apply get_keys_In, assignGenerations_total.
  - intros done p rest E. apply assignGenerations_budget.
    + rewrite E. apply in_or_app. right. now left.
    + destruct (generations_total people done []) as [Z _]; [ | | exact Z].
      * intros q Hq. apply in_map. rewrite E. apply in_or_app. now left.
      * intros k g H. discriminate.
Qed.

(** X7.  On a graph with distinct ids and no cycle, every person is given a
    generation strictly greater than the generation of each of its parents
    that is present in the list: a parent is always on a row above its
    child. *)
Theorem parents_above_children : forall (people : list Person),
  uniqueIds people -> acyclic people ->
  forall p pid, In p people -> In pid (parentIds p) -> In pid (map id people) ->
  exists g gp,
    JSMap.get String.eqb (assignGenerations people) (id p) = Some g /\
    JSMap.get String.eqb (assignGenerations people) pid = Some gp /\
    gp < g.
Proof.
  intros people U A p pid Hp Hpid Hpresent.
  destruct (assignGenerations_right people A) as [R K].
  specialize (K p Hp).
  destruct (JSMap.get String.eqb (assignGenerations people) (id p)) as [g | ] eqn:E;
    [ | congruence].
  destruct (R (id p) g E) as [gs [H1 H2]].
  rewrite validParents_present in H1, H2 by assumption.
  assert (Hin : In pid (presentParents people p)).
  { unfold presentParents. apply filter_In. split; [assumption | ].
    now apply includes_In. }
  assert (Hex : exists gp,
    JSMap.get String.eqb (assignGenerations people) pid = Some gp /\ In gp gs).
  { clear - H1 Hin. induction H1 as [ | q v qs vs Hq _ IH]; [destruct Hin | ].
    destruct Hin as [<- | Hin].
    - exists v. split; [assumption | now left].
    - destruct (IH Hin) as [gp [G1 G2]]. exists gp. split; [assumption | now right]. }
  destruct Hex as [gp [G1 G2]]. exists g, gp. split; [reflexivity | ].
  split; [assumption | ].
  assert (Hle : gp <= list_max gs).
  { pose proof (proj1 (list_max_le gs (list_max gs)) (Nat.le_refl _)) as F.
    rewrite Forall_forall in F. now apply F. }
  destruct (presentParents people p) as [ | q qs]; [destruct Hin | ].
  simpl in H2. lia.
Qed.

Lemma parents_above_children_witness :
  exists g gp,
    JSMap.get String.eqb (assignGenerations family) "C"%string = Some g /\
    JSMap.get String.eqb (assignGenerations family) "A"%string = Some gp /\
    gp < g.
Proof.
  apply (parents_above_children family family_unique family_acyclic
           (scenarioPerson "C" "Cyd" None ["A"; "B"]%string) "A"%string).
  - simpl. auto.
  - simpl. auto.
  - simpl. auto.
Defined.

(* ================================================================== *)
(** * The layout places the persons, and nothing else *)
(* ================================================================== *)

(** ** What the passes keep *)

Section Passes.

(** A property of the position map that every write at an allowed key
    keeps. *)
Variable allowed : string -> Prop.
Variable P : list (string * float) -> Prop.
Hypothesis P_set : forall m k v,
  allowed k -> P m -> P (JSMap.set String.eqb m k v).

Lemma resolveOverlaps_keeps : forall group xPos,
  (forall i, In i group -> allowed i) -> P xPos ->
  P (resolveOverlaps group xPos).
Proof.
  intros group xPos Hg Hx. unfold resolveOverlaps.
  destruct (length group <=? 1); [assumption | ].
  set (sorted := JSSort.sort
                   (fun a b => PrimFloat.sub (getX xPos a) (getX xPos b)) group).
  assert (Hs : forall i, In i sorted -> allowed i).
  { intros i Hi. apply Hg. apply Permutation_in with (2 := Hi).
    apply sort_permutation. }
  destruct sorted as [ | first rest]; [assumption | ].
  assert (G : forall l (acc : string * list (string * float)),
    (forall i, In i l -> allowed i) -> P (snd acc) ->
    P (snd (fold_left
              (fun (acc : string * list (string * float)) curr =>
                 let (prev, xPos) := acc in
                 let prevX := getX xPos prev in
                 let currX := getX xPos curr in
                 (curr,
                  if PrimFloat.ltb (PrimFloat.sub currX prevX)
                                   (PrimFloat.add NODE_W GAP_H)
                  then JSMap.set String.eqb xPos curr
                         (PrimFloat.add prevX (PrimFloat.add NODE_W GAP_H))
                  else xPos))
              l acc))).
  { induction l as [ | curr l IH]; intros [prev xs] Hl Hacc; simpl; [assumption | ].
    apply IH; [intros i Hi; apply Hl; now right | ]. simpl in *.
    destruct (PrimFloat.ltb _ _); [ | assumption].
    apply P_set; [apply Hl; now left | assumption]. }
  apply G; [intros i Hi; apply Hs; now right | assumption].
Qed.

Lemma centerGroup_keeps : forall group xPos,
  (forall i, In i group -> allowed i) -> P xPos -> P (centerGroup group xPos).
Proof.
  intros group xPos Hg Hx. unfold centerGroup.
  destruct (length group =? 0); [assumption | ].
  generalize (PrimFloat.div
                (PrimFloat.add (JSNumber.min (map (getX xPos) group))
                               (JSNumber.max (map (getX xPos) group))) 2).
  intros mid. revert xPos Hx.
  induction group as [ | i group IH]; intros xPos Hx; simpl; [assumption | ].
  apply IH; [intros j Hj; apply Hg; now right | ].
  apply P_set; [apply Hg; now left | assumption].
Qed.

Lemma placeLayer_keeps : forall group xPos,
  (forall i, In i group -> allowed i) -> P xPos -> P (placeLayer group xPos).
Proof.
  intros group xPos Hg Hx. unfold placeLayer.
  apply centerGroup_keeps; [assumption | ].
  assert (G : forall (l : list (nat * string)) xs,
    (forall e, In e l -> allowed (snd e)) -> P xs ->
    P (fold_left
         (fun xPos (e : nat * string) =>
            let (i, member) := e in
            JSMap.set String.eqb xPos member
              (PrimFloat.mul (JSNumber.ofNat i) (PrimFloat.add NODE_W GAP_H)))
         l xs)).
  { induction l as [ | [i member] l IH]; intros xs Hl Hxs; simpl; [assumption | ].
    apply IH; [intros e He; apply Hl; now right | ].
    apply P_set; [exact (Hl (i, member) (or_introl eq_refl)) | assumption]. }
  apply G; [ | assumption].
  intros [i member] He. apply in_combine_r in He. now apply Hg.
Qed.

Lemma pass2Layer_keeps : forall childrenOf groups xPos key,
  (forall i, In i (getGroup groups key) -> allowed i) -> P xPos ->
  P (pass2Layer childrenOf groups xPos key).
Proof.
  intros childrenOf groups xPos key Hg Hx. unfold pass2Layer.
  apply resolveOverlaps_keeps; [assumption | ].
  revert xPos Hx. induction (getGroup groups key) as [ | i group IH];
    intros xPos Hx; simpl; [assumption | ].
  apply IH; [intros j Hj; apply Hg; now right | ].
  destruct (0 <? length _); [ | assumption].
  apply P_set; [apply Hg; now left | assumption].
Qed.

Lemma pass3Layer_keeps : forall personMap groups xPos key,
  (forall i, In i (getGroup groups key) -> allowed i) -> P xPos ->
  P (pass3Layer personMap groups xPos key).
Proof.
  intros personMap groups xPos key Hg Hx. unfold pass3Layer.
  apply resolveOverlaps_keeps; [assumption | ].
  revert xPos Hx. induction (getGroup groups key) as [ | i group IH];
    intros xPos Hx; simpl; [assumption | ].
  apply IH; [intros j Hj; apply Hg; now right | ].
  destruct (0 <? length _); [ | assumption].
  apply P_set; [apply Hg; now left | assumption].
Qed.

End Passes.
(** ** The members of the layers *)

Section Pass1Members.

Variable localeCompare : string -> string -> float.
Variable idSet : JSSet.t.
Variable personMap : list (string * Person).

(** Pass 1 permutes each layer. *)
Lemma pass1_members : forall keys st key,
  Permutation
    (getGroup (fst (fold_left (pass1Layer localeCompare idSet personMap) keys st)) key)
    (getGroup (fst st) key).
Proof.
  induction keys as [ | k keys IH]; intros [groups xPos] key;
    cbn [fold_left]; [apply Permutation_refl | ].
  eapply perm_trans; [apply IH | ].
  rewrite pass1Layer_fst. cbn [fst]. unfold getGroup at 1.
  destruct (Nat.eq_dec k key) as [-> | Hne].
  - rewrite get_set_same_nat. apply sort_permutation.
  - rewrite get_set_other_nat by congruence. apply Permutation_refl.
Qed.

Section Keeps.

Variable allowed : string -> Prop.
Variable P : list (string * float) -> Prop.
Hypothesis P_set : forall m k v,
  allowed k -> P m -> P (JSMap.set String.eqb m k v).

Lemma pass1_keeps : forall keys st,
  (forall key i, In i (getGroup (fst st) key) -> allowed i) ->
  P (snd st) ->
  P (snd (fold_left (pass1Layer localeCompare idSet personMap) keys st)).
Proof.
  induction keys as [ | k keys IH]; intros [groups xPos] Hg Hx;
    cbn [fold_left]; [assumption | ].
  assert (Hg' : forall key i,
    In i (getGroup (fst (pass1Layer localeCompare idSet personMap (groups, xPos) k))
                   key) ->
    allowed i).
  { intros key i Hi. apply (Hg key).
    apply Permutation_in with (2 := Hi).
    apply (pass1_members [k] (groups, xPos) key). }
  apply IH; [exact Hg' | ].
  rewrite pass1Layer_snd. apply placeLayer_keeps with (allowed := allowed);
    [assumption | apply Hg' | assumption].
Qed.

End Keeps.

(** Pass 1 gives a position to every member of every layer it visits, and
    no later write takes a position away. *)
Lemma set_positioned : forall (m : list (string * float)) k v i,
  JSMap.get String.eqb m i <> None ->
  JSMap.get String.eqb (JSMap.set String.eqb m k v) i <> None.
Proof.
  intros m k v i H. destruct (string_dec i k) as [-> | Hne].
  - rewrite get_set_same. discriminate.
  - now rewrite get_set_other.
Qed.

Lemma centerGroup_positioned : forall group xPos i,
  JSMap.get String.eqb xPos i <> None ->
  JSMap.get String.eqb (centerGroup group xPos) i <> None.
Proof.
  intros group xPos i H.
  apply centerGroup_keeps
    with (allowed := fun _ => True)
         (P := fun m => JSMap.get String.eqb m i <> None); auto.
  intros m k v _. apply set_positioned.
Qed.

Lemma placeLayer_places : forall group xPos i,
  In i group -> JSMap.get String.eqb (placeLayer group xPos) i <> None.
Proof.
  intros group xPos i Hi. unfold placeLayer. apply centerGroup_positioned.
  assert (G : forall (l : list (nat * string)) xs,
    In i (map snd l) \/ JSMap.get String.eqb xs i <> None ->
    JSMap.get String.eqb
      (fold_left
         (fun xPos (e : nat * string) =>
            let (n, member) := e in
            JSMap.set String.eqb xPos member
              (PrimFloat.mul (JSNumber.ofNat n) (PrimFloat.add NODE_W GAP_H)))
         l xs) i <> None).
  { induction l as [ | [n member] l IH]; intros xs H; simpl.
    - destruct H as [[] | H]. exact H.
    - apply IH. simpl in H. destruct H as [[<- | H] | H].
      + right. rewrite get_set_same. discriminate.
      + now left.
      + right. now apply set_positioned. }
  apply G. left.
  assert (E : map snd (combine (seq 0 (length group)) group) = group).
  { clear. generalize 0. induction group as [ | a group IH]; intros n; simpl;
      [reflexivity | now rewrite IH]. }
  now rewrite E.
Qed.

Lemma pass1_places : forall keys st key i,
  In key keys -> In i (getGroup (fst st) key) ->
  JSMap.get String.eqb
    (snd (fold_left (pass1Layer localeCompare idSet personMap) keys st)) i
  <> None.
Proof.
  induction keys as [ | k keys IH]; intros [groups xPos] key i Hkey Hi;
    cbn [fold_left]; [destruct Hkey | ].
  destruct Hkey as [-> | Hkey].
  - apply pass1_keeps
      with (allowed := fun _ => True)
           (P := fun m => JSMap.get String.eqb m i <> None); auto.
    + intros m k v _. apply set_positioned.
    + rewrite pass1Layer_snd. apply placeLayer_places.
      apply Permutation_in with (getGroup groups key); [ | assumption].
      symmetry. apply (pass1_members [key] (groups, xPos) key).
  - apply IH with key; [assumption | ].
    apply Permutation_in with (getGroup groups key); [ | assumption].
    symmetry. apply (pass1_members [k] (groups, xPos) key).
Qed.

End Pass1Members.

(** ** The whole layout *)

Lemma layoutX_keeps :
  forall (localeCompare : string -> string -> float) people
         (allowed : string -> Prop) (P : list (string * float) -> Prop),
  (forall m k v, allowed k -> P m -> P (JSMap.set String.eqb m k v)) ->
  (forall key i,
     In i (getGroup (groupByGeneration (assignGenerations people)) key) ->
     allowed i) ->
  P [] -> P (layoutX localeCompare people).
Proof.
  intros localeCompare people allowed P P_set Hg H0. unfold layoutX.
  pose proof (pass1_keeps localeCompare (makeIdSet people) (makePersonMap people)
                allowed P P_set
                (sortedLayerKeys (groupByGeneration (assignGenerations people)))
                (groupByGeneration (assignGenerations people), []) Hg H0) as H1.
  pose proof (fun key =>
    pass1_members localeCompare (makeIdSet people) (makePersonMap people)
      (sortedLayerKeys (groupByGeneration (assignGenerations people)))
      (groupByGeneration (assignGenerations people), []) key) as M.
  fold (layoutPass1 localeCompare people) in H1, M.
  destruct (layoutPass1 localeCompare people) as [groups xPos].
  cbn [fst snd] in H1, M.
  assert (Hg' : forall key i, In i (getGroup groups key) -> allowed i).
  { intros key i Hi. apply (Hg key). apply Permutation_in with (2 := Hi). apply M. }
  assert (F2 : forall keys xs, P xs ->
    P (fold_left (pass2Layer (makeChildrenOf (makeIdSet people) people) groups)
                 keys xs)).
  { induction keys as [ | key keys IH]; intros xs Hxs; simpl; [assumption | ].
    apply IH.
    apply pass2Layer_keeps with (allowed := allowed);
      [exact P_set | apply Hg' | assumption]. }
  assert (F3 : forall keys xs, P xs ->
    P (fold_left (pass3Layer (makePersonMap people) groups) keys xs)).
  { induction keys as [ | key keys IH]; intros xs Hxs; simpl; [assumption | ].
    apply IH.
    apply pass3Layer_keeps with (allowed := allowed);
      [exact P_set | apply Hg' | assumption]. }
  apply F3, F2, H1.
Qed.

(** The members of the layers are the ids of the persons. *)
Lemma layer_members : forall people i,
  In i (map id people) <->
  exists key,
    In key (sortedLayerKeys (groupByGeneration (assignGenerations people))) /\
    In i (getGroup (groupByGeneration (assignGenerations people)) key).
Proof.
  intros people i. destruct (assignGenerations_keys people) as [N W].
  split.
  - intros Hi. apply in_map_iff in Hi as [p [<- Hp]].
    pose proof (assignGenerations_total people p Hp) as T.
    destruct (JSMap.get String.eqb (assignGenerations people) (id p)) as [g | ] eqn:E;
      [ | congruence].
    apply get_In in E. exists g. split.
    + unfold sortedLayerKeys. apply Permutation_in with (1 := Permutation_sym (sort_permutation _ _ _)).
      apply groupByGeneration_keys_In. apply in_map_iff. now exists (id p, g).
    + rewrite getGroup_groupByGeneration. apply in_map_iff.
      exists (id p, g). split; [reflexivity | ]. apply filter_In.
      split; [assumption | apply Nat.eqb_refl].
  - intros [key [_ Hi]]. rewrite getGroup_groupByGeneration in Hi.
    apply in_map_iff in Hi as [[j g] [<- Hj]]. apply filter_In in Hj as [Hj _].
    apply W. apply in_map_iff. now exists (j, g).
Qed.

Lemma layoutX_keys : forall (localeCompare : string -> string -> float) people,
  NoDup (JSMap.keys (layoutX localeCompare people)) /\
  forall i, In i (JSMap.keys (layoutX localeCompare people))
            <-> In i (map id people).
Proof.
  intros localeCompare people. split; [ | intros i; split].
  - apply layoutX_keeps with (allowed := fun _ => True); auto; [ | constructor].
    intros m k v _ H. rewrite keys_set_string.
    destruct (existsb (String.eqb k) (JSMap.keys m)) eqn:E; [assumption | ].
    apply NoDup_app; [assumption | repeat constructor; auto | ].
    intros x Hx [<- | []].
    assert (T : existsb (String.eqb k) (JSMap.keys m) = true)
      by (apply existsb_exists; exists k; split; [assumption | apply String.eqb_refl]).
    congruence.
  - revert i.
    apply layoutX_keeps
      with (allowed := fun k => In k (map id people))
           (P := fun m => forall i, In i (JSMap.keys m) -> In i (map id people)).
    + intros m k v Hk H i. rewrite keys_set_string.
      destruct (existsb (String.eqb k) (JSMap.keys m)); [apply H | ].
      intros Hi. apply in_app_or in Hi as [Hi | [<- | []]]; auto.
    + intros key i Hi. apply layer_members.
      destruct (in_dec Nat.eq_dec key
                  (sortedLayerKeys (groupByGeneration (assignGenerations people))))
        as [Hk | Hk]; [now exists key | ].
      exfalso. unfold getGroup in Hi.
      destruct (JSMap.get Nat.eqb (groupByGeneration (assignGenerations people)) key)
        as [l | ] eqn:E; [ | destruct Hi].
      apply Hk. unfold sortedLayerKeys.
      apply Permutation_in with (1 := Permutation_sym (sort_permutation _ _ _)).
      clear - E. induction (groupByGeneration (assignGenerations people))
        as [ | [k v] m IH]; simpl in *; [discriminate | ].
      destruct (Nat.eqb_spec k key) as [-> | Hne]; [now left | right; now apply IH].
    + intros i [].
  - intros Hi. apply layer_members in Hi as [key [Hkey Hi]].
    apply get_keys_In. unfold layoutX.
    pose proof (pass1_places localeCompare (makeIdSet people) (makePersonMap people)
                  _ (groupByGeneration (assignGenerations people), []) key i
                  Hkey Hi) as H1.
    fold (layoutPass1 localeCompare people) in H1.
    destruct (layoutPass1 localeCompare people) as [groups xPos].
    cbn [snd] in H1.
    assert (F2 : forall keys xs, JSMap.get String.eqb xs i <> None ->
      JSMap.get String.eqb
        (fold_left (pass2Layer (makeChildrenOf (makeIdSet people) people) groups)
                   keys xs) i <> None).
    { induction keys as [ | k keys IH]; intros xs Hxs; simpl; [assumption | ].
      apply IH.
      apply pass2Layer_keeps
        with (allowed := fun _ => True)
             (P := fun m => JSMap.get String.eqb m i <> None); auto.
      intros m k' v _. apply set_positioned. }
    assert (F3 : forall keys xs, JSMap.get String.eqb xs i <> None ->
      JSMap.get String.eqb
        (fold_left (pass3Layer (makePersonMap people) groups) keys xs) i <> None).
    { induction keys as [ | k keys IH]; intros xs Hxs; simpl; [assumption | ].
      apply IH.
      apply pass3Layer_keeps
        with (allowed := fun _ => True)
             (P := fun m => JSMap.get String.eqb m i <> None); auto.
      intros m k' v _. apply set_positioned. }
    apply F3, F2, H1.
Qed.
Lemma keys_map_values : forall (V W : Type) (f : string -> V -> W)
    (m : list (string * V)),
  JSMap.keys (map (fun e : string * V => let (i, v) := e in (i, f i v)) m)
  = JSMap.keys m.
Proof.
  intros V W f m. unfold JSMap.keys. rewrite map_map.
  apply map_ext. now intros [i v].
Qed.

(** X8.  For every list of persons (cyclic or not) and every collation,
    [computeLayout] returns a position for every id of the list and for
    nothing else, each id once; the y-coordinate of a position is the
    generation of the id times [GAP_V].  So the fallback [{ x: 0, y: 0 }] of
    the canvas is never taken. *)
Theorem layout_places_every_person :
  forall (localeCompare : string -> string -> float) (people : list Person),
  NoDup (JSMap.keys (positions (computeLayout localeCompare people))) /\
  (forall i,
     JSMap.get String.eqb (positions (computeLayout localeCompare people)) i <> None
     <-> In i (map id people)) /\
  (forall i pos,
     JSMap.get String.eqb (positions (computeLayout localeCompare people)) i
     = Some pos ->
     exists g,
       JSMap.get String.eqb (assignGenerations people) i = Some g /\
       Position.y pos = PrimFloat.mul (JSNumber.ofNat g) GAP_V).
Proof.
  intros localeCompare people. unfold computeLayout.
  destruct people as [ | p0 people'] eqn:Ep.
  { simpl. split; [constructor | ]. split; [ | discriminate].
    intros i. split; [congruence | intros []]. }
  rewrite <- Ep. assert (L : (length people =? 0) = false) by now rewrite Ep.
  rewrite L. cbn [positions]. clear L Ep p0 people'.
  destruct (layoutX_keys localeCompare people) as [N K].
  split; [now rewrite keys_map_values | ]. split.
  - intros i. rewrite get_keys_In, keys_map_values. apply K.
  - intros i pos H. rewrite get_map_values in H.
    destruct (JSMap.get String.eqb (layoutX localeCompare people) i) as [x | ] eqn:E;
      [ | discriminate].
    simpl in H. inversion H; subst pos. clear H. cbn [Position.y].
    assert (Hi : In i (map id people)).
    { apply K. apply get_keys_In. congruence. }
    apply in_map_iff in Hi as [p [<- Hp]].
    pose proof (assignGenerations_total people p Hp) as T.
    destruct (JSMap.get String.eqb (assignGenerations people) (id p)) as [g | ];
      [ | congruence].
    now exists g.
Qed.

Lemma computeLayout_position_keys :
  forall (localeCompare : string -> string -> float) (people : list Person) i,
  JSMap.get String.eqb (positions (computeLayout localeCompare people)) i <> None
  <-> In i (map id people).
Proof.
  intros localeCompare people i. unfold computeLayout.
  destruct people as [ | p0 people'] eqn:Ep.
  { simpl. split; [congruence | intros []]. }
  rewrite <- Ep. assert (L : (length people =? 0) = false) by now rewrite Ep.
  rewrite L. cbn [positions].
  rewrite get_keys_In, keys_map_values. apply layoutX_keys.
Qed.

(** The edges are the present parent links. *)
Lemma layoutEdges_In : forall people e,
  In e (layoutEdges people) <->
  exists p pid,
    In p people /\ In pid (parentIds p) /\ In pid (map id people) /\
    e = Edge.mk ("e-" ++ pid ++ "-" ++ id p) pid (id p) "smoothstep".
Proof.
  intros people e. unfold layoutEdges. rewrite in_flat_map. split.
  - intros [p [Hp He]]. apply in_map_iff in He as [pid [<- Hpid]].
    apply filter_In in Hpid as [H1 H2]. exists p, pid.
    repeat split; try assumption. now apply makeIdSet_In.
  - intros [p [pid [Hp [H1 [H2 ->]]]]]. exists p. split; [assumption | ].
    apply in_map_iff. exists pid. split; [reflexivity | ].
    apply filter_In. split; [assumption | now apply makeIdSet_In].
Qed.

(** The edges, link by link. *)
Lemma layoutEdges_links : forall people,
  layoutEdges people = map edgeOfLink (presentLinks people).
Proof.
  intros people. unfold layoutEdges, presentLinks, presentParents.
  assert (F : forall l,
    filter (JSSet.has (makeIdSet people)) l
    = filter (JSArray.includes (map id people)) l).
  { intros l. apply filter_ext. intros pid.
    destruct (JSArray.includes (map id people) pid) eqn:E.
    - apply makeIdSet_In. now apply includes_In.
    - destruct (JSSet.has (makeIdSet people) pid) eqn:E'; [ | reflexivity].
      apply makeIdSet_In, includes_In in E'. congruence. }
  revert F. generalize (map id people) (makeIdSet people). intros ids idSet F.
  induction people as [ | p people IH]; [reflexivity | ].
  cbn [flat_map]. rewrite map_app, <- IH, F, !map_map. reflexivity.
Qed.

Lemma links_length : forall (g : Person -> list string) l,
  length (flat_map (fun p => map (fun pid => (pid, id p)) (g p)) l)
  = list_sum (map (fun p => length (g p)) l).
Proof.
  intros g. induction l as [ | p l IH]; [reflexivity | ].
  simpl. rewrite length_app, length_map, IH. reflexivity.
Qed.

(** X9.  The edges [computeLayout] returns are exactly the parent links
    whose parent is in the list: the list of edges is, person by person and
    entry by entry of its [parentIds], one edge [e-<parent>-<child>] from
    the parent to the child for each entry whose id is in the list (an entry
    written twice gives two edges), so there are as many edges as such
    entries; a dangling parent id gives no edge, and both ends of every edge
    have a position. *)
Theorem layout_edges_join_placed_persons :
  forall (localeCompare : string -> string -> float) (people : list Person),
  edges (computeLayout localeCompare people)
  = map edgeOfLink (presentLinks people) /\
  length (edges (computeLayout localeCompare people))
  = list_sum (map (fun p => length (presentParents people p)) people) /\
  (forall e,
     In e (edges (computeLayout localeCompare people)) <->
     exists p pid,
       In p people /\ In pid (parentIds p) /\ In pid (map id people) /\
       e = Edge.mk ("e-" ++ pid ++ "-" ++ id p) pid (id p) "smoothstep") /\
  (forall e,
     In e (edges (computeLayout localeCompare people)) ->
     JSMap.get String.eqb (positions (computeLayout localeCompare people))
       (Edge.source e) <> None /\
     JSMap.get String.eqb (positions (computeLayout localeCompare people))
       (Edge.target e) <> None).
Proof.
  intros localeCompare people.
  assert (L : edges (computeLayout localeCompare people) = layoutEdges people).
  { unfold computeLayout. destruct people as [ | p0 people']; reflexivity. }
  split; [rewrite L; apply layoutEdges_links | ]. split; [ | split].
  - rewrite L, layoutEdges_links, length_map. unfold presentLinks.
    apply links_length.
  - intros e. rewrite L. apply layoutEdges_In.
  - intros e He. rewrite L in He. apply layoutEdges_In in He.
    destruct He as [p [pid [Hp [H1 [H2 ->]]]]]. cbn [Edge.source Edge.target].
    split; apply computeLayout_position_keys; [assumption | now apply in_map].
Qed.

(* ================================================================== *)
(** * Date input *)
(* ================================================================== *)

(** ** [trim] *)

Lemma trimStart_startsClean : forall s, startsClean (JSString.trimStart s).
Proof.
  induction s as [ | c s IH]; simpl; [exact I | ].
  destruct (JSString.isWhiteSpace c) eqn:E; [exact IH | exact E].
Qed.

Lemma trimStart_fixed : forall s, startsClean s -> JSString.trimStart s = s.
Proof. intros [ | c s] H; simpl in *; [reflexivity | now rewrite H]. Qed.

Lemma trimEnd_startsClean : forall s,
  startsClean s -> startsClean (JSString.trimEnd s).
Proof.
  intros [ | c s] H; simpl in *; [exact I | ].
  destruct (JSString.trimEnd s); [now rewrite H | exact H].
Qed.

Lemma trimEnd_idempotent : forall s,
  JSString.trimEnd (JSString.trimEnd s) = JSString.trimEnd s.
Proof.
  induction s as [ | c s IH]; simpl; [reflexivity | ].
  destruct (JSString.trimEnd s) as [ | c' t] eqn:E.
  - destruct (JSString.isWhiteSpace c) eqn:W; simpl; [reflexivity | now rewrite W].
  - simpl in IH |- *. now rewrite IH.
Qed.

Lemma trim_idempotent : forall s, JSString.trim (JSString.trim s) = JSString.trim s.
Proof.
  intros s. unfold JSString.trim.
  rewrite (trimStart_fixed (JSString.trimEnd (JSString.trimStart s)))
    by apply trimEnd_startsClean, trimStart_startsClean.
  apply trimEnd_idempotent.
Qed.

Lemma trim_noWhiteSpace : forall s, noWhiteSpace s = true -> JSString.trim s = s.
Proof.
  intros s H. unfold JSString.trim.
  assert (E : JSString.trimStart s = s).
  { destruct s as [ | c s]; [reflexivity | ]. simpl in *.
    apply andb_prop in H as [H _]. apply negb_true_iff in H. now rewrite H. }
  rewrite E. clear E. induction s as [ | c s IH]; [reflexivity | ].
  simpl in *. apply andb_prop in H as [H1 H2]. apply negb_true_iff in H1.
  rewrite (IH H2). destruct s; [now rewrite H1 | reflexivity].
Qed.

(** ** Digits *)

Lemma isDigit_spec : forall c,
  JSString.isDigit c = true ->
  (c = "0" \/ c = "1" \/ c = "2" \/ c = "3" \/ c = "4" \/
   c = "5" \/ c = "6" \/ c = "7" \/ c = "8" \/ c = "9")%char.
Proof.
  intros c. destruct c as [[|] [|] [|] [|] [|] [|] [|] [|]];
    vm_compute; intros H; try discriminate; tauto.
Qed.

Lemma isDigit_noWhite : forall c,
  JSString.isDigit c = true -> JSString.isWhiteSpace c = false.
Proof.
  intros c H. apply isDigit_spec in H.
  repeat (destruct H as [-> | H]; [reflexivity | ]). now subst.
Qed.

Lemma allDigits_noWhiteSpace : forall s,
  JSString.allDigits s = true -> noWhiteSpace s = true.
Proof.
  induction s as [ | c s IH]; simpl; [reflexivity | ].
  intros H. apply andb_prop in H as [H1 H2].
  now rewrite (isDigit_noWhite c H1), IH.
Qed.

(** A string of digits is the decimal writing of the number [parseInt]
    reads. *)
Lemma allDigits_parse : forall s,
  JSString.allDigits s = true ->
  exists d, NilEmpty.uint_of_string s = Some d.
Proof.
  induction s as [ | c s IH]; simpl; [now exists Decimal.Nil | ].
  intros H. apply andb_prop in H as [H1 H2].
  destruct (IH H2) as [d Hd]. rewrite Hd. apply isDigit_spec in H1.
  repeat (destruct H1 as [-> | H1]; [simpl; eauto | ]). subst. simpl. eauto.
Qed.

Lemma parseInt_nonneg : forall s, (0 <= JSString.parseInt s)%Z.
Proof.
  intros s. unfold JSString.parseInt.
  destruct (NilEmpty.uint_of_string s); [ | lia].
  unfold Z.of_uint. apply N2Z.is_nonneg.
Qed.

Lemma string_of_uint_digits : forall d,
  JSString.allDigits (NilEmpty.string_of_uint d) = true.
Proof. induction d; simpl; auto. Qed.

(** [String(n)] of a number that is not negative is a string of digits that
    [parseInt] reads back. *)
Lemma ofNumber_digits : forall n,
  (0 <= n)%Z ->
  JSString.isDigits (JSString.ofNumber n) = true /\
  JSString.parseInt (JSString.ofNumber n) = n.
Proof.
  intros [ | p | p] Hn; [split; reflexivity | | lia].
  unfold JSString.ofNumber. simpl.
  pose proof (Unsigned.to_uint_nonnil p) as Hnil.
  assert (E : NilZero.string_of_uint (Pos.to_uint p)
              = NilEmpty.string_of_uint (Pos.to_uint p))
    by (destruct (Pos.to_uint p); [contradiction | reflexivity ..]).
  rewrite E. split.
  - unfold JSString.isDigits. rewrite string_of_uint_digits.
    destruct (Pos.to_uint p); [contradiction | reflexivity ..].
  - unfold JSString.parseInt. rewrite NilEmpty.usu.
    unfold Z.of_uint. now rewrite Unsigned.of_to.
Qed.

(** ** [parseDateInput] *)

Lemma isFullDate_shape : forall s,
  JSString.isFullDate s = true ->
  exists y1 y2 y3 y4 m1 m2 d1 d2,
    s = String y1 (String y2 (String y3 (String y4 (String "-"
          (String m1 (String m2 (String "-" (String d1 (String d2
          EmptyString))))))))) /\
    JSString.isDigit y1 = true /\ JSString.isDigit y2 = true /\
    JSString.isDigit y3 = true /\ JSString.isDigit y4 = true /\
    JSString.isDigit m1 = true /\ JSString.isDigit m2 = true /\
    JSString.isDigit d1 = true /\ JSString.isDigit d2 = true.
Proof.
  intros s H. unfold JSString.isFullDate in H.
  destruct s as [ | y1 [ | y2 [ | y3 [ | y4 [ | h1 [ | m1 [ | m2 [ | h2
    [ | d1 [ | d2 [ | c s]]]]]]]]]]]; simpl in H; try discriminate.
  apply andb_prop in H as [H Hd2]. apply andb_prop in H as [H Hd1].
  apply andb_prop in H as [H Hh2]. apply andb_prop in H as [H Hm2].
  apply andb_prop in H as [H Hm1]. apply andb_prop in H as [H Hh1].
  apply andb_prop in H as [H Hy4]. apply andb_prop in H as [H Hy3].
  apply andb_prop in H as [Hy1 Hy2].
  apply Ascii.eqb_eq in Hh1. apply Ascii.eqb_eq in Hh2. subst h1 h2.
  exists y1, y2, y3, y4, m1, m2, d1, d2. repeat split; assumption.
Qed.

Lemma isFullDate_noWhiteSpace : forall s,
  JSString.isFullDate s = true -> noWhiteSpace s = true.
Proof.
  intros s H. apply isFullDate_shape in H.
  destruct H as [y1 [y2 [y3 [y4 [m1 [m2 [d1 [d2 [-> H]]]]]]]]].
  destruct H as [H1 [H2 [H3 [H4 [H5 [H6 [H7 H8]]]]]]]. simpl.
  now rewrite !isDigit_noWhite by assumption.
Qed.

Lemma isFullDate_not_digits : forall s,
  JSString.isFullDate s = true ->
  JSString.isDigits s = false /\ String.eqb s EmptyString = false.
Proof.
  intros s H. apply isFullDate_shape in H.
  destruct H as [y1 [y2 [y3 [y4 [m1 [m2 [d1 [d2 [-> H]]]]]]]]].
  split; [ | reflexivity]. unfold JSString.isDigits. simpl.
  rewrite !andb_false_r. reflexivity.
Qed.

Section ParseFacts.

Variable Date_isValid : string -> bool.

(** The four outcomes, by the trimmed input. *)
Lemma parseDateInput_value : forall s v,
  DateInput.value (parseDateInput Date_isValid s) = Some v ->
  (JSString.isDigits (JSString.trim s) = true /\
   v = mkPartialDate (Some (JSString.parseInt (JSString.trim s))) None) \/
  (JSString.isFullDate (JSString.trim s) = true /\
   Date_isValid (JSString.trim s ++ "T00:00:00")%string = true /\
   v = mkPartialDate
         (Some (JSString.parseInt (JSString.beforeHyphen (JSString.trim s))))
         (Some (JSString.trim s))).
Proof.
  intros s v H. unfold parseDateInput in H.
  destruct (String.eqb (JSString.trim s) EmptyString); [discriminate | ].
  destruct (JSString.isDigits (JSString.trim s)) eqn:D.
  - left. simpl in H. inversion H. now split.
  - destruct (JSString.isFullDate (JSString.trim s)) eqn:F; [ | discriminate].
    destruct (Date_isValid (JSString.trim s ++ "T00:00:00")) eqn:V;
      simpl in H; [ | discriminate].
    right. inversion H. now repeat split.
Qed.

Lemma parseDateInput_digits : forall s,
  JSString.isDigits s = true ->
  parseDateInput Date_isValid s
  = DateInput.mk (Some (mkPartialDate (Some (JSString.parseInt s)) None)) None.
Proof.
  intros s H. unfold parseDateInput.
  assert (T : JSString.trim s = s).
  { apply trim_noWhiteSpace, allDigits_noWhiteSpace.
    unfold JSString.isDigits in H. now apply andb_prop in H as [_ H]. }
  rewrite T, H.
  unfold JSString.isDigits in H. apply andb_prop in H as [H _].
  apply negb_true_iff in H. now rewrite H.
Qed.

Lemma parseDateInput_fullDate : forall s,
  JSString.isFullDate s = true ->
  Date_isValid (s ++ "T00:00:00") = true ->
  parseDateInput Date_isValid s
  = DateInput.mk
      (Some (mkPartialDate (Some (JSString.parseInt (JSString.beforeHyphen s)))
                           (Some s)))
      None.
Proof.
  intros s F V. unfold parseDateInput.
  rewrite (trim_noWhiteSpace s (isFullDate_noWhiteSpace s F)).
  destruct (isFullDate_not_digits s F) as [D E]. now rewrite E, D, F, V.
Qed.

(** What was parsed, formatted and parsed again, is what was parsed. *)
Lemma parse_format_parse : forall s v,
  DateInput.value (parseDateInput Date_isValid s) = Some v ->
  parseDateInput Date_isValid (formatPartialDate (Some v))
  = DateInput.mk (Some v) None.
Proof.
  intros s v H. apply parseDateInput_value in H as [[D ->] | [F [V ->]]].
  - unfold formatPartialDate. simpl.
    destruct (ofNumber_digits (JSString.parseInt (JSString.trim s))
                (parseInt_nonneg _)) as [H1 H2].
    rewrite parseDateInput_digits by assumption. now rewrite H2.
  - unfold formatPartialDate. simpl.
    destruct (isFullDate_not_digits _ F) as [_ E]. rewrite E.
    now apply parseDateInput_fullDate.
Qed.

End ParseFacts.

(** X10.  A date field survives the round trip through the editor: when
    [parseDateInput] accepts an input of at most 15 characters after
    trimming (so that the year is read as an exact number), formatting the
    value with [formatPartialDate] and parsing the result gives the same
    value and no error.  A full date is shown as it was entered, a year in
    decimal without leading zeros. *)
Theorem date_round_trip :
  forall (Date_isValid : string -> bool) (s : string) (v : PartialDate),
  String.length (JSString.trim s) <= 15 ->
  DateInput.value (parseDateInput Date_isValid s) = Some v ->
  parseDateInput Date_isValid (formatPartialDate (Some v))
  = DateInput.mk (Some v) None /\
  (forall d, date v = Some d -> formatPartialDate (Some v) = JSString.trim s) /\
  (date v = None ->
   exists y, year v = Some y /\ formatPartialDate (Some v) = JSString.ofNumber y).
Proof.
  intros Date_isValid s v _ H. split; [now apply parse_format_parse with s | ].
  apply parseDateInput_value in H as [[D ->] | [F [V ->]]]; simpl.
  - split; [discriminate | ]. intros _. now eexists.
  - split; [ | discriminate]. intros d _. unfold formatPartialDate. simpl.
    destruct (isFullDate_not_digits _ F) as [_ E]. now rewrite E.
Qed.

Lemma date_round_trip_witness :
  parseDateInput (fun _ => true)
    (formatPartialDate (Some (mkPartialDate (Some 50%Z) None)))
  = DateInput.mk (Some (mkPartialDate (Some 50%Z) None)) None.
Proof.
  apply (date_round_trip (fun _ => true) " 0050 "%string
           (mkPartialDate (Some 50%Z) None)).
  - vm_compute. lia.
  - vm_compute. reflexivity.
Defined.

Lemma parseDateInput_blank :
  forall (Date_isValid : string -> bool) s,
  (DateInput.value (parseDateInput Date_isValid s) = None /\
   DateInput.error (parseDateInput Date_isValid s) = None)
  <-> JSString.trim s = EmptyString.
Proof.
  intros Date_isValid s. unfold parseDateInput.
  destruct (String.eqb_spec (JSString.trim s) EmptyString) as [E | Hne].
  - simpl. tauto.
  - destruct (JSString.isDigits (JSString.trim s)); simpl.
    + split; [intros [H _]; discriminate | contradiction].
    + destruct (JSString.isFullDate (JSString.trim s)); simpl.
      * destruct (Date_isValid _); simpl;
          (split; [intros [H1 H2]; discriminate | contradiction]).
      * split; [intros [_ H]; discriminate | contradiction].
Qed.

Lemma beforeHyphen_fullDate : forall s,
  JSString.isFullDate s = true ->
  JSString.beforeHyphen s = String.substring 0 4 s /\
  JSString.isDigits (JSString.beforeHyphen s) = true.
Proof.
  intros s H. apply isFullDate_shape in H.
  destruct H as [y1 [y2 [y3 [y4 [m1 [m2 [d1 [d2 [-> H]]]]]]]]].
  destruct H as [H1 [H2 [H3 [H4 _]]]].
  assert (N : forall c, JSString.isDigit c = true -> Ascii.eqb c "-" = false).
  { intros c Hc. apply isDigit_spec in Hc.
    repeat (destruct Hc as [-> | Hc]; [reflexivity | ]). now subst. }
  simpl. rewrite !N by assumption. split; [reflexivity | ].
  unfold JSString.isDigits. simpl. now rewrite H1, H2, H3, H4.
Qed.

(** X11.  What [parseDateInput] can answer: never a value together with an
    error; neither of them exactly when the input is blank; white space
    around the input is ignored; and a value always carries a year that is
    not negative, and either no date, or as its date the trimmed input, which
    then has the form [YYYY-MM-DD], is accepted by [Date], and starts with
    the four digits of the year. *)
Theorem parseDateInput_outcomes :
  forall (Date_isValid : string -> bool) (s : string),
  (DateInput.value (parseDateInput Date_isValid s) = None \/
   DateInput.error (parseDateInput Date_isValid s) = None) /\
  ((DateInput.value (parseDateInput Date_isValid s) = None /\
    DateInput.error (parseDateInput Date_isValid s) = None)
   <-> JSString.trim s = EmptyString) /\
  parseDateInput Date_isValid (JSString.trim s) = parseDateInput Date_isValid s /\
  (forall v, DateInput.value (parseDateInput Date_isValid s) = Some v ->
     exists y,
       year v = Some y /\ (0 <= y)%Z /\
       (date v = None \/
        (date v = Some (JSString.trim s) /\
         JSString.isFullDate (JSString.trim s) = true /\
         Date_isValid (JSString.trim s ++ "T00:00:00")%string = true /\
         y = JSString.parseInt (String.substring 0 4 (JSString.trim s))))).
Proof.
  intros Date_isValid s. split; [ | split; [ | split]].
  - unfold parseDateInput.
    destruct (String.eqb (JSString.trim s) EmptyString); [now left | ].
    destruct (JSString.isDigits (JSString.trim s)); [now right | ].
    destruct (JSString.isFullDate (JSString.trim s)); [ | now left].
    destruct (Date_isValid _); simpl; [now right | now left].
  - apply parseDateInput_blank.
  - unfold parseDateInput. now rewrite trim_idempotent.
  - intros v H. apply parseDateInput_value in H as [[D ->] | [F [V ->]]]; simpl.
    + eexists. split; [reflexivity | ]. split; [apply parseInt_nonneg | now left].
    + eexists. split; [reflexivity | ]. split; [apply parseInt_nonneg | ].
      right. repeat split; try assumption.
      now destruct (beforeHyphen_fullDate _ F) as [-> _].
Qed.

(* ================================================================== *)
(** * [buildPerson] *)
(* ================================================================== *)

Lemma orUndefined_nonempty : forall s, orUndefined s <> Some EmptyString.
Proof.
  intros s. unfold orUndefined.
  destruct (String.eqb_spec s EmptyString) as [-> | Hne]; [discriminate | ].
  intros H. inversion H. contradiction.
Qed.

Lemma orEmpty_orUndefined : forall s, orEmpty (orUndefined s) = s.
Proof.
  intros s. unfold orUndefined.
  destruct (String.eqb_spec s EmptyString) as [-> | Hne]; reflexivity.
Qed.

Lemma errorLine_none : forall (o : option string) (label : string),
  match o with
  | Some e => if String.eqb e EmptyString then [] else [(label ++ e)%string]
  | None => []
  end = [] ->
  truthyString o = None.
Proof.
  intros [e | ] label H; [ | reflexivity].
  unfold truthyString. destruct (String.eqb e EmptyString); [reflexivity | discriminate].
Qed.

Section BuildFacts.

Variable Date_isValid : string -> bool.

(** No error was collected: what each of the four checks found. *)
Lemma buildErrors_none : forall cells,
  buildErrors Date_isValid cells = [] ->
  String.eqb (JSString.trim (Cells.firstName cells)) EmptyString = false /\
  truthyString (DateInput.error
                  (parseDateInput Date_isValid (Cells.birthInput cells))) = None /\
  truthyString (DateInput.error
                  (parseDateInput Date_isValid (Cells.deathInput cells))) = None /\
  validateBirthDeath
    (DateInput.value (parseDateInput Date_isValid (Cells.birthInput cells)))
    (DateInput.value (parseDateInput Date_isValid (Cells.deathInput cells)))
  = None.
Proof.
  intros cells H. unfold buildErrors in H.
  apply app_eq_nil in H as [H1 H]. apply app_eq_nil in H as [H2 H].
  apply app_eq_nil in H as [H3 H4].
  apply errorLine_none in H2. apply errorLine_none in H3.
  rewrite H2, H3 in H4.
  repeat split; try assumption.
  - destruct (String.eqb _ _); [discriminate | reflexivity].
  - destruct (validateBirthDeath _ _) as [m | ] eqn:V; [ | reflexivity].
    unfold validateBirthDeath in V.
    destruct (comparePartialDates _ _) as [c | ]; [ | discriminate].
    destruct (0 <? c)%Z; [ | discriminate].
    inversion V; subst m. discriminate.
Qed.

Lemma buildPerson_inr : forall personId cells f p,
  buildPerson Date_isValid personId cells f = inr p ->
  buildErrors Date_isValid cells = [] /\
  p = mkPerson personId
        (JSString.trim (Cells.firstName cells))
        (orUndefined (JSString.trim (Cells.lastName cells)))
        (DateInput.value (parseDateInput Date_isValid (Cells.birthInput cells)))
        (DateInput.value (parseDateInput Date_isValid (Cells.deathInput cells)))
        (orUndefined (Cells.photoDataUrl cells))
        (formParentIds f) (formSiblingIds f)
        (orUndefined (JSString.trim (Cells.notes cells))).
Proof.
  intros personId cells f p H. unfold buildPerson in H.
  destruct (buildErrors Date_isValid cells) as [ | e errs]; [ | discriminate].
  simpl in H. inversion H. now split.
Qed.

End BuildFacts.

(** X12.  When [buildPerson] returns a person: its id is the modal's
    [personId] and its two id lists are the ones of the cells; the first
    name is not empty and carries no white space around it; no optional
    text field holds an empty string; and [validateBirthDeath] accepts its
    two dates.  When it returns no person, at least one message is shown. *)
Theorem buildPerson_result :
  forall (Date_isValid : string -> bool) (personId : string)
         (cells : Cells.t) (f : FormState),
  match buildPerson Date_isValid personId cells f with
  | inr p =>
      builtBy personId f p /\
      firstName p <> EmptyString /\
      JSString.trim (firstName p) = firstName p /\
      lastName p <> Some EmptyString /\
      notes p <> Some EmptyString /\
      photoDataUrl p <> Some EmptyString /\
      validateBirthDeath (birth p) (death p) = None
  | inl errs => errs <> [] /\ errs = buildErrors Date_isValid cells
  end.
Proof.
  intros Date_isValid personId cells f.
  destruct (buildPerson Date_isValid personId cells f) as [errs | p] eqn:E.
  - unfold buildPerson in E.
    destruct (buildErrors Date_isValid cells) as [ | e l]; [discriminate | ].
    simpl in E. inversion E. split; [discriminate | reflexivity].
  - apply buildPerson_inr in E as [Hn ->].
    apply buildErrors_none in Hn as [H1 [_ [_ H4]]]. simpl.
    split; [repeat split | ]. split.
    + intros H. rewrite H in H1. discriminate.
    + split; [apply trim_idempotent | ].
      repeat split; try apply orUndefined_nonempty. exact H4.
Qed.

(* ================================================================== *)
(** * The order of the two dates of a saved person *)
(* ================================================================== *)

Lemma of_uint_acc_value : forall d acc,
  Z.pos (Pos.of_uint_acc d acc) = uintValue (Z.pos acc) d.
Proof.
  induction d; intros acc; cbn [Pos.of_uint_acc uintValue];
    try reflexivity; rewrite IHd; f_equal; lia.
Qed.

Lemma of_uint_value : forall d, Z.of_uint d = uintValue 0 d.
Proof.
  unfold Z.of_uint.
  induction d; cbn [Pos.of_uint uintValue Z.of_N];
    try reflexivity; try exact IHd;
    rewrite of_uint_acc_value; reflexivity.
Qed.

Lemma uint_of_string_value : forall s,
  JSString.allDigits s = true ->
  exists d, NilEmpty.uint_of_string s = Some d /\
            forall acc, uintValue acc d = digitsValue acc s.
Proof.
  induction s as [ | c s IH]; intros H.
  - exists Decimal.Nil. split; reflexivity.
  - simpl in H. apply andb_prop in H as [Hc Hs].
    destruct (IH Hs) as [d [E V]].
    apply isDigit_spec in Hc.
    cbn [NilEmpty.uint_of_string]. rewrite E.
    repeat (destruct Hc as [-> | Hc];
            [eexists; split; [reflexivity | intros acc; simpl; apply V] | ]).
    subst c. eexists; split; [reflexivity | intros acc; simpl; apply V].
Qed.

Lemma parseInt_value : forall s,
  JSString.allDigits s = true -> JSString.parseInt s = digitsValue 0 s.
Proof.
  intros s H. destruct (uint_of_string_value s H) as [d [E V]].
  unfold JSString.parseInt. rewrite E, of_uint_value. apply V.
Qed.

Lemma isDigit_digitValue : forall c,
  JSString.isDigit c = true -> (0 <= digitValue c <= 9)%Z.
Proof.
  intros c H. apply isDigit_spec in H. unfold digitValue.
  repeat (destruct H as [-> | H]; [simpl; lia | ]). subst c. simpl. lia.
Qed.

Lemma ascii_compare_digitValue : forall a b,
  Ascii.compare a b = Z.compare (digitValue a) (digitValue b).
Proof.
  intros a b. unfold Ascii.compare, digitValue.
  rewrite <- N2Z.inj_compare.
  destruct (Z.compare_spec (Z.of_N (N_of_ascii a)) (Z.of_N (N_of_ascii b)));
    symmetry; [apply Z.compare_eq_iff | apply Z.compare_lt_iff
              | apply Z.compare_gt_iff]; lia.
Qed.

(** Two strings [YYYY-MM-DD] that are in order as strings have their years
    in order as numbers. *)
Lemma fullDate_years_ordered : forall a b,
  JSString.isFullDate a = true -> JSString.isFullDate b = true ->
  String.compare a b <> Gt ->
  (JSString.parseInt (JSString.beforeHyphen a)
   <= JSString.parseInt (JSString.beforeHyphen b))%Z.
Proof.
  intros a b Fa Fb H.
  destruct (beforeHyphen_fullDate a Fa) as [Ea Da].
  destruct (beforeHyphen_fullDate b Fb) as [Eb Db].
  unfold JSString.isDigits in Da, Db.
  apply andb_prop in Da as [_ Da]. apply andb_prop in Db as [_ Db].
  rewrite (parseInt_value _ Da), (parseInt_value _ Db), Ea, Eb.
  apply isFullDate_shape in Fa, Fb.
  destruct Fa as [y1 [y2 [y3 [y4 [m1 [m2 [d1 [d2 [-> Fa]]]]]]]]].
  destruct Fb as [z1 [z2 [z3 [z4 [n1 [n2 [e1 [e2 [-> Fb]]]]]]]]].
  destruct Fa as [Y1 [Y2 [Y3 [Y4 _]]]]. destruct Fb as [Z1 [Z2 [Z3 [Z4 _]]]].
  apply isDigit_digitValue in Y1, Y2, Y3, Y4, Z1, Z2, Z3, Z4.
  cbn [String.substring digitsValue].
  cbn [String.compare] in H.
  rewrite !ascii_compare_digitValue in H.
  destruct (Z.compare_spec (digitValue y1) (digitValue z1));
    [ | lia | contradiction].
  destruct (Z.compare_spec (digitValue y2) (digitValue z2));
    [ | lia | contradiction].
  destruct (Z.compare_spec (digitValue y3) (digitValue z3));
    [ | lia | contradiction].
  destruct (Z.compare_spec (digitValue y4) (digitValue z4));
    [ | lia | contradiction].
  lia.
Qed.

Lemma ltb_false_compare : forall a b,
  String.ltb b a = false -> String.compare a b <> Gt.
Proof.
  intros a b H G. unfold String.ltb in H.
  rewrite String.compare_antisym, G in H. discriminate.
Qed.

Lemma comparePartialDates_parsed :
  forall (Date_isValid : string -> bool) s1 s2 v1 v2,
  DateInput.value (parseDateInput Date_isValid s1) = Some v1 ->
  DateInput.value (parseDateInput Date_isValid s2) = Some v2 ->
  validateBirthDeath (Some v1) (Some v2) = None ->
  exists y1 y2, year v1 = Some y1 /\ year v2 = Some y2 /\ (y1 <= y2)%Z /\
    (forall d1 d2, date v1 = Some d1 -> date v2 = Some d2 ->
                   String.ltb d2 d1 = false).
Proof.
  intros Date_isValid s1 s2 v1 v2 P1 P2 V.
  assert (Y : forall a b : Z,
            (if (a <? b)%Z then Some (-1)%Z
             else if (b <? a)%Z then Some 1%Z else Some 0%Z) = Some 1%Z ->
            (b < a)%Z).
  { intros a b. destruct (Z.ltb_spec a b); [discriminate | ].
    destruct (Z.ltb_spec b a); [auto | discriminate]. }
  assert (W : forall o : option Z,
            match o with
            | Some cmp => if (0 <? cmp)%Z then Some birthDeathMessage else None
            | None => None
            end = None -> o <> Some 1%Z).
  { intros o Ho ->. discriminate. }
  unfold validateBirthDeath in V. apply W in V. clear W.
  apply parseDateInput_value in P1 as [[D1 ->] | [F1 [V1 ->]]];
  apply parseDateInput_value in P2 as [[D2 ->] | [F2 [V2 ->]]];
    cbn [comparePartialDates year date truthyString] in V.
  - do 2 eexists. split; [reflexivity | ]. split; [reflexivity | ].
    split; [ | intros; discriminate].
    destruct (Z.le_gt_cases (JSString.parseInt (JSString.trim s1))
                            (JSString.parseInt (JSString.trim s2))) as [L | G];
      [exact L | ].
    exfalso. apply V. destruct (Z.ltb_spec (JSString.parseInt (JSString.trim s1))
                                           (JSString.parseInt (JSString.trim s2)));
      [lia | ].
    destruct (Z.ltb_spec (JSString.parseInt (JSString.trim s2))
                         (JSString.parseInt (JSString.trim s1))); [reflexivity | lia].
  - do 2 eexists. split; [reflexivity | ]. split; [reflexivity | ].
    split; [ | intros; discriminate].
    destruct (Z.le_gt_cases (JSString.parseInt (JSString.trim s1))
               (JSString.parseInt (JSString.beforeHyphen (JSString.trim s2))))
      as [L | G]; [exact L | ].
    exfalso. apply V.
    destruct (Z.ltb_spec (JSString.parseInt (JSString.trim s1))
               (JSString.parseInt (JSString.beforeHyphen (JSString.trim s2))));
      [lia | ].
    destruct (Z.ltb_spec
               (JSString.parseInt (JSString.beforeHyphen (JSString.trim s2)))
               (JSString.parseInt (JSString.trim s1))); [reflexivity | lia].
  - assert (T : truthyString (Some (JSString.trim s1)) = Some (JSString.trim s1)).
    { unfold truthyString.
      destruct (String.eqb_spec (JSString.trim s1) EmptyString) as [E | _];
        [rewrite E in F1; discriminate | reflexivity]. }
    do 2 eexists. split; [reflexivity | ]. split; [reflexivity | ].
    split; [ | intros; discriminate].
    destruct (String.eqb (JSString.trim s1) EmptyString);
    (destruct (Z.le_gt_cases
               (JSString.parseInt (JSString.beforeHyphen (JSString.trim s1)))
               (JSString.parseInt (JSString.trim s2)))
      as [L | G]; [exact L | ];
    exfalso; apply V;
    destruct (Z.ltb_spec
               (JSString.parseInt (JSString.beforeHyphen (JSString.trim s1)))
               (JSString.parseInt (JSString.trim s2)));
      [lia | ];
    destruct (Z.ltb_spec
               (JSString.parseInt (JSString.trim s2))
               (JSString.parseInt (JSString.beforeHyphen (JSString.trim s1))));
      [reflexivity | lia]).
  - assert (T1 : String.eqb (JSString.trim s1) EmptyString = false).
    { destruct (String.eqb_spec (JSString.trim s1) EmptyString) as [E | _];
        [rewrite E in F1; discriminate | reflexivity]. }
    assert (T2 : String.eqb (JSString.trim s2) EmptyString = false).
    { destruct (String.eqb_spec (JSString.trim s2) EmptyString) as [E | _];
        [rewrite E in F2; discriminate | reflexivity]. }
    rewrite T1, T2 in V.
    assert (L : String.ltb (JSString.trim s2) (JSString.trim s1) = false).
    { destruct (String.ltb (JSString.trim s1) (JSString.trim s2)) eqn:A.
      - unfold String.ltb in *. rewrite String.compare_antisym.
        destruct (String.compare (JSString.trim s1) (JSString.trim s2));
          try discriminate. reflexivity.
      - destruct (String.ltb (JSString.trim s2) (JSString.trim s1));
          [now exfalso; apply V | reflexivity]. }
    do 2 eexists. split; [reflexivity | ]. split; [reflexivity | ]. split.
    + apply fullDate_years_ordered; try assumption.
      now apply ltb_false_compare.
    + intros d1 d2 E1 E2. inversion E1; inversion E2; subst. exact L.
Qed.

(** X13.  A person [buildPerson] returns is never born after dying: when it
    has both dates, both carry a year and the year of birth is at most the
    year of death, whatever the precision of the two inputs; and when both
    are full dates the death date does not precede the birth date as a
    string.  (Inputs of at most 15 characters, for which [parseInt] is
    exact.) *)
Theorem saved_birth_not_after_death :
  forall (Date_isValid : string -> bool) (personId : string)
         (cells : Cells.t) (f : FormState) (p : Person),
  String.length (JSString.trim (Cells.birthInput cells)) <= 15 ->
  String.length (JSString.trim (Cells.deathInput cells)) <= 15 ->
  buildPerson Date_isValid personId cells f = inr p ->
  forall b d, birth p = Some b -> death p = Some d ->
  exists yb yd,
    year b = Some yb /\ year d = Some yd /\ (yb <= yd)%Z /\
    (forall db dd, date b = Some db -> date d = Some dd ->
                   String.ltb dd db = false).
Proof.
  intros Date_isValid personId cells f p _ _ E b d Hb Hd.
  apply buildPerson_inr in E as [Hn ->]. simpl in Hb, Hd.
  apply buildErrors_none in Hn as [_ [_ [_ V]]].
  rewrite Hb, Hd in V.
  exact (comparePartialDates_parsed Date_isValid _ _ b d Hb Hd V).
Qed.

Lemma saved_birth_not_after_death_witness :
  exists yb yd,
    Some 1950%Z = Some yb /\ Some 2001%Z = Some yd /\ (yb <= yd)%Z /\
    (forall db dd, @None string = Some db -> Some "2001-02-03"%string = Some dd ->
                   String.ltb dd db = false).
Proof.
  apply (saved_birth_not_after_death (fun _ => true) "p"%string
           (Cells.mk "Ann" EmptyString " 1950" "2001-02-03" EmptyString EmptyString)
           (mkFormState [] [])
           (mkPerson "p" "Ann" None
              (Some (mkPartialDate (Some 1950%Z) None))
              (Some (mkPartialDate (Some 2001%Z) (Some "2001-02-03"%string)))
              None [] [] None)
           ltac:(vm_compute; lia) ltac:(vm_compute; lia) eq_refl
           (mkPartialDate (Some 1950%Z) None)
           (mkPartialDate (Some 2001%Z) (Some "2001-02-03"%string))
           eq_refl eq_refl).
Defined.

(* ================================================================== *)
(** * Opening a saved person again *)
(* ================================================================== *)

Lemma reparse_formatted : forall (Date_isValid : string -> bool) s,
  parseDateInput Date_isValid
    (formatPartialDate (DateInput.value (parseDateInput Date_isValid s)))
  = DateInput.mk (DateInput.value (parseDateInput Date_isValid s)) None.
Proof.
  intros Date_isValid s.
  destruct (DateInput.value (parseDateInput Date_isValid s)) as [v | ] eqn:E.
  - now apply parse_format_parse with (s := s).
  - reflexivity.
Qed.

Lemma buildPerson_remount :
  forall (Date_isValid : string -> bool) personId cells f p ctx,
  buildPerson Date_isValid personId cells f = inr p ->
  buildPerson Date_isValid (id p) (mountCells (Some p)) (mountForm (Some p) ctx)
  = inr p.
Proof.
  intros Date_isValid personId cells f p ctx E.
  apply buildPerson_inr in E as [Hn ->].
  apply buildErrors_none in Hn as [H1 [_ [_ H4]]].
  unfold buildPerson, buildErrors, mountCells, mountForm.
  cbn [Cells.firstName Cells.lastName Cells.birthInput Cells.deathInput
       Cells.notes Cells.photoDataUrl
       id firstName lastName birth death photoDataUrl parentIds siblingIds notes
       initialParentIds initialSiblingIds formParentIds formSiblingIds].
  rewrite !reparse_formatted, !orEmpty_orUndefined, !trim_idempotent.
  cbn [DateInput.value DateInput.error truthyString].
  rewrite H1, H4. reflexivity.
Qed.

(** X14.  Opening the edit modal on a person that [buildPerson] returned and
    saving without touching a cell returns that very person, with no error:
    the names, the notes and the photo come back as they were, and each date
    is formatted into its input cell and parsed back to itself.  (Inputs of
    at most 15 characters, for which [parseInt] and [String] are exact.) *)
Theorem edit_round_trip :
  forall (Date_isValid : string -> bool) (personId : string)
         (cells : Cells.t) (f : FormState) (p : Person)
         (ctx : option ModalContext),
  String.length (JSString.trim (Cells.birthInput cells)) <= 15 ->
  String.length (JSString.trim (Cells.deathInput cells)) <= 15 ->
  buildPerson Date_isValid personId cells f = inr p ->
  buildPerson Date_isValid (id p) (mountCells (Some p)) (mountForm (Some p) ctx)
  = inr p /\
  Cells.firstName (mountCells (Some p)) = JSString.trim (Cells.firstName cells) /\
  Cells.lastName (mountCells (Some p)) = JSString.trim (Cells.lastName cells) /\
  Cells.notes (mountCells (Some p)) = JSString.trim (Cells.notes cells) /\
  Cells.photoDataUrl (mountCells (Some p)) = Cells.photoDataUrl cells /\
  mountForm (Some p) ctx = f.
Proof.
  intros Date_isValid personId cells f p ctx _ _ E.
  split; [now apply buildPerson_remount with (1 := E) | ].
  apply buildPerson_inr in E as [_ ->].
  unfold mountCells, mountForm. simpl.
  rewrite !orEmpty_orUndefined. destruct f. repeat split.
Qed.

Lemma edit_round_trip_witness :
  let p := mkPerson "p" "Ann" (Some "Lee"%string)
             (Some (mkPartialDate (Some 50%Z) None))
             (Some (mkPartialDate (Some 2001%Z) (Some "2001-02-03"%string)))
             None ["m"%string] [] None in
  buildPerson (fun _ => true) "p" (mountCells (Some p)) (mountForm (Some p) None)
  = inr p.
Proof.
  intros p.
  apply (edit_round_trip (fun _ => true) "p"%string
           (Cells.mk " Ann " "Lee " "0050" " 2001-02-03" "  " EmptyString)
           (mkFormState ["m"%string] []) p None
           ltac:(vm_compute; lia) ltac:(vm_compute; lia) eq_refl).
Defined.

(* ================================================================== *)
(** * Saving a person that did not change *)
(* ================================================================== *)

Lemma setAt_same : forall (A : Type) (l : list A) i x,
  nth_error l i = Some x -> JSArray.setAt i x l = l.
Proof.
  intros A. induction l as [ | y l IH]; intros i x H; [now destruct i | ].
  destruct i as [ | i]; simpl in *.
  - now inversion H.
  - f_equal. now apply IH.
Qed.

Lemma findIndex_member : forall l p,
  uniqueIds l -> In p l ->
  exists idx, JSArray.findIndex (hasId (id p)) l = Some idx /\
              nth_error l idx = Some p.
Proof.
  intros l p Hnd Hin.
  destruct (JSArray.findIndex (hasId (id p)) l) as [idx | ] eqn:E.
  - exists idx. split; [reflexivity | ].
    destruct (findIndex_Some _ _ _ _ E) as [x [Hx Hf]].
    apply hasId_true in Hf.
    assert (x = p) by (apply (uniqueIds_eq l); auto; now apply nth_error_In with idx).
    now subst.
  - exfalso. apply (proj1 (findIndex_None _ _ _) E) in Hin.
    apply hasId_false in Hin. now apply Hin.
Qed.

Lemma upsertPerson_same : forall l p,
  uniqueIds l -> In p l -> upsertPerson p l = l.
Proof.
  intros l p Hnd Hin. unfold upsertPerson.
  destruct (findIndex_member l p Hnd Hin) as [idx [-> Hx]].
  now apply setAt_same.
Qed.

Lemma addReverseLinks_same : forall l p,
  uniqueIds l -> siblingSymmetric l -> In p l ->
  addReverseLinks p p l = l.
Proof.
  intros l p Hnd Hsym Hin. unfold addReverseLinks.
  assert (G : forall sibs, incl sibs (siblingIds p) ->
    fold_left
      (fun np sibId =>
         match JSArray.findIndex (hasId sibId) np with
         | Some sibIdx => updateAt sibIdx (addSibling (id p)) np
         | None => np
         end) sibs l = l).
  { induction sibs as [ | sibId sibs IH]; intros Hs; [reflexivity | ].
    simpl.
    assert (E : match JSArray.findIndex (hasId sibId) l with
                | Some sibIdx => updateAt sibIdx (addSibling (id p)) l
                | None => l
                end = l).
    { destruct (JSArray.findIndex (hasId sibId) l) as [idx | ] eqn:F;
        [ | reflexivity].
      destruct (findIndex_Some _ _ _ _ F) as [x [Hx Hf]].
      apply hasId_true in Hf. unfold updateAt. rewrite Hx.
      apply setAt_same. rewrite Hx. f_equal. unfold addSibling.
      assert (I : In (id p) (siblingIds x)).
      { apply (Hsym p x Hin (nth_error_In _ _ Hx)). rewrite Hf.
        apply Hs. now left. }
      apply includes_In in I. now rewrite I. }
    rewrite E. apply IH. intros y Hy. apply Hs. now right. }
  apply G, incl_refl.
Qed.

Lemma dropStale_same : forall l p q,
  siblingSymmetric l -> In p l -> In q l -> dropStale p p q = q.
Proof.
  intros l p q Hsym Hp Hq. unfold dropStale.
  destruct (String.eqb (id q) (id p)); [reflexivity | ].
  destruct (JSArray.includes (siblingIds q) (id p)) eqn:I; [ | reflexivity].
  apply includes_In in I. apply (Hsym q p Hq Hp) in I.
  apply includes_In in I. now rewrite I.
Qed.

Lemma syncSiblings_same : forall l p,
  uniqueIds l -> siblingSymmetric l -> In p l -> syncSiblings p l = l.
Proof.
  intros l p Hnd Hsym Hin. unfold syncSiblings.
  destruct (findIndex_member l p Hnd Hin) as [idx [-> ->]].
  rewrite addReverseLinks_same by assumption.
  rewrite removeStaleLinks_map by assumption.
  rewrite <- (map_id l) at 2. apply map_ext_in.
  intros q Hq. now apply dropStale_same with l.
Qed.

Lemma savePerson_same : forall prev p ctx,
  uniqueIds (people prev) -> siblingSymmetric (people prev) ->
  In p (people prev) ->
  ctxLink linkAsParentOf ctx = None -> ctxLink linkAsSiblingOf ctx = None ->
  people (savePerson p ctx prev) = people prev.
Proof.
  intros prev p ctx Hnd Hsym Hin C1 C2. unfold savePerson. simpl.
  rewrite upsertPerson_same by assumption.
  unfold linkParent, linkSibling. rewrite C1, C2.
  now apply syncSiblings_same.
Qed.

(** X15.  Saving from the edit modal a person that is in the graph as it
    is, in a graph with distinct ids and symmetric sibling links, changes
    no field of any person and no order, only the time stamp, and the modal
    is closed.  (The persons are compared field by field.  The object the
    modal hands over is a new one; the order of its properties, which the
    hash of the dirty flag follows, is no part of the statement.) *)
Theorem resave_unchanged_person :
  forall (s : AppState) (p : Person) (now : string),
  uniqueIds (people (data s)) -> siblingSymmetric (people (data s)) ->
  modalContext s = None -> In p (people (data s)) ->
  people (data (handleModalSave p now s)) = people (data s) /\
  version (data (handleModalSave p now s)) = version (data s) /\
  updatedAt (data (handleModalSave p now s)) = now /\
  modalMode (handleModalSave p now s) = None.
Proof.
  intros s p now Hnd Hsym Hctx Hin.
  assert (E : people (data (handleModalSave p now s)) = people (data s)).
  { unfold handleModalSave, closeModal, setCells, handleSavePerson, mutate.
    simpl. rewrite Hctx. now apply savePerson_same. }
  split; [exact E | ]. repeat split.
Qed.

Lemma resave_unchanged_witness :
  people (data (handleModalSave ann "2026-01-02"
                  (mkAppState annAndBob "h" None (Some ModeEdit)
                     (Some "ann"%string) None None)))
  = people annAndBob.
Proof.
  assert (U : uniqueIds (people annAndBob)).
  { unfold uniqueIds. simpl. repeat constructor; simpl; intuition discriminate. }
  assert (S : siblingSymmetric (people annAndBob)).
  { intros A B [<- | [<- | []]] [<- | [<- | []]]; simpl; intuition discriminate. }
  apply (resave_unchanged_person
           (mkAppState annAndBob "h" None (Some ModeEdit)
              (Some "ann"%string) None None)
           ann "2026-01-02"%string U S eq_refl).
  simpl. now left.
Defined.

(* ================================================================== *)
(** * The sibling links a save leaves *)
(* ================================================================== *)

Lemma ownLinked_In : forall pid t l l' p q,
  Forall2 (ownLinked pid t) l l' -> uniqueIds l ->
  In p l -> In q l' -> id p = pid -> id q = pid ->
  forall y, In y (siblingIds q) <-> In y (siblingIds p) \/ t = Some y.
Proof.
  intros pid t l l' p q H Hnd Hp Hq Ep Eq.
  destruct (Forall2_In_r _ _ _ _ H Hq) as [p' [Hp' [E Hl]]].
  assert (p' = p) by (apply (uniqueIds_eq l); auto; congruence). subst p'.
  now apply Hl.
Qed.

Lemma linkParent_own : forall person ctx l,
  uniqueIds l -> Forall2 (ownLinked (id person) None) l (linkParent person ctx l).
Proof.
  intros person ctx l Hnd.
  assert (R : forall p, ownLinked (id person) None p p).
  { intros p. split; [reflexivity | ]. intros _ y. intuition discriminate. }
  unfold linkParent. destruct (ctxLink linkAsParentOf ctx) as [targetId | ].
  - rewrite update_found_by_id by assumption. unfold modifyById.
    apply Forall2_map_r. intros p _.
    destruct (hasId targetId p); [ | apply R].
    destruct (negb (JSArray.includes (parentIds p) (id person))
              && (length (parentIds p) <? 2)); [ | apply R].
    split; [reflexivity | ]. intros _ y. simpl. intuition discriminate.
  - clear Hnd. induction l as [ | p l IH]; constructor; [apply R | exact IH].
Qed.

Lemma linkSibling_own : forall person ctx l,
  uniqueIds l ->
  Forall2 (ownLinked (id person) (ctxLink linkAsSiblingOf ctx)) l
          (linkSibling person ctx l).
Proof.
  intros person ctx l Hnd. unfold linkSibling.
  destruct (ctxLink linkAsSiblingOf ctx) as [targetId | ].
  - rewrite (update_found_by_id targetId) by assumption.
    rewrite update_found_by_id
      by (unfold uniqueIds; rewrite modifyById_ids;
          [exact Hnd | intros; apply addSibling_id]).
    unfold modifyById. rewrite map_map. apply Forall2_map_r. intros p _.
    destruct (hasId targetId p) eqn:T.
    + unfold hasId at 1. rewrite addSibling_id. fold (hasId (id person) p).
      destruct (hasId (id person) p) eqn:P.
      * split; [now rewrite !addSibling_id | ].
        intros _ y. rewrite !addSibling_In.
        apply hasId_true in T, P.
        assert (Et : targetId = id person) by congruence. subst targetId.
        split.
        -- intros [[H | H] | H]; [now left | right; congruence ..].
        -- intros [H | H]; [now do 2 left | right; congruence].
      * split; [now rewrite addSibling_id | ].
        intros E. apply hasId_false in P. contradiction.
    + destruct (hasId (id person) p) eqn:P.
      * split; [now rewrite addSibling_id | ].
        intros _ y. rewrite addSibling_In.
        split.
        -- intros [H | H]; [now left | right; congruence].
        -- intros [H | H]; [now left | right; congruence].
      * split; [reflexivity | ].
        intros E. apply hasId_false in P. contradiction.
  - clear. induction l as [ | p l IH]; constructor; [ | exact IH].
    split; [reflexivity | ]. intros _ y. intuition discriminate.
Qed.

Lemma ownLinked_ids : forall pid t l l',
  Forall2 (ownLinked pid t) l l' -> map id l' = map id l.
Proof.
  intros pid t l l' H.
  induction H as [ | p q l l' [E _] _ IH]; simpl; congruence.
Qed.

Lemma savePerson_sibling_links : forall person ctx prev,
  uniqueIds (people prev) ->
  exists cur,
    In cur (people (savePerson person ctx prev)) /\ id cur = id person /\
    (forall y, In y (siblingIds cur) <->
               In y (siblingIds person) \/ ctxLink linkAsSiblingOf ctx = Some y) /\
    (forall r, In r (people (savePerson person ctx prev)) -> id r <> id person ->
       (In (id person) (siblingIds r) <-> In (id r) (siblingIds cur)) /\
       exists p0, In p0 (people prev) /\ id p0 = id r /\
         forall y, y <> id person ->
                   (In y (siblingIds r) <-> In y (siblingIds p0))) /\
    (forall p0, In p0 (people prev) -> id p0 <> id person ->
       exists r, In r (people (savePerson person ctx prev)) /\ id r = id p0).
Proof.
  intros person ctx prev Hnd. unfold savePerson. simpl.
  set (N0 := upsertPerson person (people prev)).
  set (N1 := linkParent person ctx N0).
  set (N2 := linkSibling person ctx N1).
  destruct (upsertPerson_spec person (people prev) Hnd) as [U0 [Hin0 Hold]].
  fold N0 in U0, Hin0, Hold.
  pose proof (linkParent_kept person ctx N0 U0) as K1. fold N1 in K1.
  assert (U1 : uniqueIds N1) by (unfold uniqueIds; now rewrite (Forall2_ids _ _ _ K1)).
  pose proof (linkSibling_kept person ctx N1 U1) as K2. fold N2 in K2.
  assert (U2 : uniqueIds N2) by (unfold uniqueIds; now rewrite (Forall2_ids _ _ _ K2)).
  pose proof (Forall2_trans_kept _ _ _ _ K1 K2) as K.
  pose proof (linkParent_own person ctx N0 U0) as O1. fold N1 in O1.
  pose proof (linkSibling_own person ctx N1 U1) as O2. fold N2 in O2.
  destruct (JSArray.findIndex (hasId (id person)) N2) as [idx | ] eqn:Hidx.
  2:{ exfalso. pose proof (proj1 (findIndex_None _ _ _) Hidx) as Hnone.
      destruct (Forall2_In_l _ _ _ _ K Hin0) as [q [Hq [E _]]].
      apply Hnone in Hq. apply hasId_false in Hq. congruence. }
  destruct (findIndex_Some _ _ _ _ Hidx) as [current [Hcur Hcid]].
  apply hasId_true in Hcid.
  assert (Hcin : In current N2) by (now apply nth_error_In in Hcur).
  pose proof (syncSiblings_spec person N2 idx current U2 Hidx Hcur) as S.
  set (F := syncSiblings person N2) in *.
  (* the list of the saved person before the sync *)
  assert (Hown : forall y, In y (siblingIds current) <->
            In y (siblingIds person) \/ ctxLink linkAsSiblingOf ctx = Some y).
  { destruct (Forall2_In_r _ _ _ _ O2 Hcin) as [c1 [Hc1 [E1 L1]]].
    destruct (Forall2_In_r _ _ _ _ O1 Hc1) as [c0 [Hc0 [E0 L0]]].
    assert (c0 = person) by (apply (uniqueIds_eq N0); auto; congruence).
    subst c0. intros y. rewrite L1 by congruence. rewrite L0 by reflexivity.
    intuition discriminate. }
  destruct (Forall2_In_l _ _ _ _ S Hcin) as [cur [Hcur' [Ecur [Hself _]]]].
  assert (Hcurs : forall y, In y (siblingIds cur) <-> In y (siblingIds current)).
  { intros y. rewrite Hself by assumption. intuition congruence. }
  exists cur. split; [exact Hcur' | ]. split; [congruence | ].
  split; [intros y; rewrite Hcurs; apply Hown | ]. split.
  - intros r Hr Hne.
    destruct (Forall2_In_r _ _ _ _ S Hr) as [p [Hp [E [_ H]]]]. split.
    + rewrite H by congruence. rewrite Hcurs, E. intuition congruence.
    + destruct (Forall2_In_r _ _ _ _ K Hp) as [p0 [Hp0 [E0 H0]]].
      exists p0. split; [apply Hold; [congruence | assumption] | ].
      split; [congruence | ]. intros y Hy.
      rewrite H by congruence. rewrite <- H0 by congruence. intuition congruence.
  - intros p0 Hp0 Hne.
    assert (H0 : In p0 N0) by (apply Hold; assumption).
    destruct (Forall2_In_l _ _ _ _ K H0) as [p2 [Hp2 [E2 _]]].
    destruct (Forall2_In_l _ _ _ _ S Hp2) as [r [Hr [Er _]]].
    exists r. split; [assumption | congruence].
Qed.

(** X16.  The sibling links a save leaves, in a graph with distinct ids.
    The saved person lists the siblings it was saved with and, in the
    add-sibling flow, the person the flow started from.  Every other person
    lists the saved person exactly when the saved person lists it, so a
    sibling removed in the modal loses its link back; its links to third
    persons are as before; and no other person is dropped. *)
Theorem save_sets_sibling_links :
  forall (person : Person) (ctx : option ModalContext) (now : string)
         (prev : FamilyData),
  uniqueIds (people prev) ->
  exists cur,
    In cur (people (handleSavePerson person ctx now prev)) /\
    id cur = id person /\
    (forall y, In y (siblingIds cur) <->
               In y (siblingIds person) \/ ctxLink linkAsSiblingOf ctx = Some y) /\
    (forall r, In r (people (handleSavePerson person ctx now prev)) ->
       id r <> id person ->
       (In (id person) (siblingIds r) <-> In (id r) (siblingIds cur)) /\
       exists p0, In p0 (people prev) /\ id p0 = id r /\
         forall y, y <> id person ->
                   (In y (siblingIds r) <-> In y (siblingIds p0))) /\
    (forall p0, In p0 (people prev) -> id p0 <> id person ->
       exists r, In r (people (handleSavePerson person ctx now prev)) /\
                 id r = id p0).
Proof.
  intros person ctx now prev Hnd. unfold handleSavePerson, mutate. simpl.
  now apply savePerson_sibling_links.
Qed.

Lemma save_sets_sibling_links_witness :
  exists cur,
    In cur (people (handleSavePerson cyd (Some siblingOfAnn) "2026-01-02" annAndBob)) /\
    id cur = id cyd /\
    (forall y, In y (siblingIds cur) <->
               In y (siblingIds cyd) \/
               ctxLink linkAsSiblingOf (Some siblingOfAnn) = Some y) /\
    (forall r, In r (people (handleSavePerson cyd (Some siblingOfAnn)
                               "2026-01-02" annAndBob)) ->
       id r <> id cyd ->
       (In (id cyd) (siblingIds r) <-> In (id r) (siblingIds cur)) /\
       exists p0, In p0 (people annAndBob) /\ id p0 = id r /\
         forall y, y <> id cyd ->
                   (In y (siblingIds r) <-> In y (siblingIds p0))) /\
    (forall p0, In p0 (people annAndBob) -> id p0 <> id cyd ->
       exists r, In r (people (handleSavePerson cyd (Some siblingOfAnn)
                                 "2026-01-02" annAndBob)) /\
                 id r = id p0).
Proof.
  apply (save_sets_sibling_links cyd (Some siblingOfAnn) "2026-01-02"%string
           annAndBob).
  unfold uniqueIds. simpl. repeat constructor; simpl; intuition discriminate.
Defined.

(* ================================================================== *)
(** * Adding a person and deleting it again *)
(* ================================================================== *)

Lemma without_app_self : forall i l, without i (l ++ [i]) = without i l.
Proof.
  intros i l. unfold without. rewrite filter_app. simpl.
  rewrite String.eqb_refl. simpl. apply app_nil_r.
Qed.

Lemma without_idempotent : forall i l, without i (without i l) = without i l.
Proof.
  intros i l. apply without_absent. rewrite without_In. tauto.
Qed.

Lemma sameStripped_refl : forall pid x, sameStripped pid x x.
Proof. intros pid x. now split. Qed.

Lemma sameStripped_trans : forall pid x y z,
  sameStripped pid x y -> sameStripped pid y z -> sameStripped pid x z.
Proof.
  intros pid x y z [E1 H1] [E2 H2]. split; [congruence | ].
  intros Hne. rewrite H2 by congruence. now apply H1.
Qed.

Lemma sameStripped_addSibling : forall pid x,
  sameStripped pid x (addSibling pid x).
Proof.
  intros pid x. unfold addSibling.
  destruct (negb (JSArray.includes (siblingIds x) pid));
    [ | apply sameStripped_refl].
  split; [reflexivity | ]. intros _. unfold stripped. simpl.
  now rewrite without_app_self.
Qed.

(** The update at the index [findIndex] returns for an id touches a person
    with this id. *)
Lemma updateFoundById_pointwise :
  forall (R : Person -> Person -> Prop) i f l,
  (forall x, R x x) -> (forall x, id x = i -> R x (f x)) ->
  Forall2 R l (match JSArray.findIndex (hasId i) l with
               | Some idx => updateAt idx f l
               | None => l
               end).
Proof.
  intros R i f l Hrefl Hf.
  destruct (JSArray.findIndex (hasId i) l) as [idx | ] eqn:E;
    [ | now apply Forall2_pointwise_refl].
  destruct (findIndex_Some _ _ _ _ E) as [x [Hx Hid]]. apply hasId_true in Hid.
  unfold updateAt. rewrite Hx.
  apply setAt_pointwise with x; auto.
Qed.

Lemma linkParent_sameStripped : forall person ctx l,
  Forall2 (sameStripped (id person)) l (linkParent person ctx l).
Proof.
  intros person ctx l. unfold linkParent.
  destruct (ctxLink linkAsParentOf ctx) as [targetId | ];
    [ | apply Forall2_pointwise_refl, sameStripped_refl].
  apply updateFoundById_pointwise; [apply sameStripped_refl | ].
  intros x _.
  destruct (negb (JSArray.includes (parentIds x) (id person))
            && (length (parentIds x) <? 2)); [ | apply sameStripped_refl].
  split; [reflexivity | ]. intros _. unfold stripped. simpl.
  now rewrite without_app_self.
Qed.

Lemma linkSibling_sameStripped : forall person ctx l,
  Forall2 (sameStripped (id person)) l (linkSibling person ctx l).
Proof.
  intros person ctx l. unfold linkSibling.
  destruct (ctxLink linkAsSiblingOf ctx) as [targetId | ];
    [ | apply Forall2_pointwise_refl, sameStripped_refl].
  eapply Forall2_pointwise_trans; [apply sameStripped_trans | | ].
  - apply updateFoundById_pointwise with (i := targetId)
      (f := addSibling (id person)); [apply sameStripped_refl | ].
    intros x _. apply sameStripped_addSibling.
  - apply updateFoundById_pointwise; [apply sameStripped_refl | ].
    intros x Hx. split; [apply addSibling_id | ]. intros Hne. contradiction.
Qed.

Lemma addReverseLinks_sameStripped : forall person current l,
  Forall2 (sameStripped (id person)) l (addReverseLinks person current l).
Proof.
  intros person current l. unfold addReverseLinks.
  generalize (siblingIds current). intros sibs. revert l.
  induction sibs as [ | sibId sibs IH]; intros l; simpl.
  - apply Forall2_pointwise_refl, sameStripped_refl.
  - eapply Forall2_pointwise_trans; [apply sameStripped_trans | | apply IH].
    apply updateFoundById_pointwise; [apply sameStripped_refl | ].
    intros x _. apply sameStripped_addSibling.
Qed.

Lemma removeStaleLinks_sameStripped : forall person current l,
  Forall2 (sameStripped (id person)) l (removeStaleLinks person current l).
Proof.
  intros person current l. unfold removeStaleLinks.
  generalize (seq 0 (length l)). intros idxs. revert l.
  induction idxs as [ | i idxs IH]; intros l; simpl.
  - apply Forall2_pointwise_refl, sameStripped_refl.
  - eapply Forall2_pointwise_trans; [apply sameStripped_trans | | apply IH].
    unfold removeStaleLinkAt.
    destruct (nth_error l i) as [other | ];
      [ | apply Forall2_pointwise_refl, sameStripped_refl].
    destruct (String.eqb (id other) (id person));
      [apply Forall2_pointwise_refl, sameStripped_refl | ].
    destruct (JSArray.includes (siblingIds other) (id person)
              && negb (JSArray.includes (siblingIds current) (id other)));
      [ | apply Forall2_pointwise_refl, sameStripped_refl].
    apply updateFoundById_pointwise; [apply sameStripped_refl | ].
    intros x _. split; [reflexivity | ]. intros _. unfold stripped. simpl.
    fold (without (id person) (siblingIds x)).
    now rewrite without_idempotent.
Qed.

Lemma syncSiblings_sameStripped : forall person l,
  Forall2 (sameStripped (id person)) l (syncSiblings person l).
Proof.
  intros person l. unfold syncSiblings.
  destruct (JSArray.findIndex (hasId (id person)) l) as [idx | ];
    [ | apply Forall2_pointwise_refl, sameStripped_refl].
  destruct (nth_error l idx) as [current | ];
    [ | apply Forall2_pointwise_refl, sameStripped_refl].
  eapply Forall2_pointwise_trans; [apply sameStripped_trans | | ].
  - apply addReverseLinks_sameStripped.
  - apply removeStaleLinks_sameStripped.
Qed.

Lemma deletePerson_stripped : forall i d,
  people (deletePerson i d)
  = map (stripped i) (filter (fun p => negb (String.eqb (id p) i)) (people d)).
Proof. reflexivity. Qed.

Lemma delete_sameStripped : forall pid l l',
  Forall2 (sameStripped pid) l l' ->
  map (stripped pid) (filter (fun p => negb (String.eqb (id p) pid)) l')
  = map (stripped pid) (filter (fun p => negb (String.eqb (id p) pid)) l).
Proof.
  intros pid l l' H. induction H as [ | p q l l' [E Hs] _ IH]; [reflexivity | ].
  simpl. rewrite E. destruct (String.eqb_spec (id p) pid) as [Heq | Hne]; simpl.
  - exact IH.
  - rewrite IH. f_equal. now apply Hs.
Qed.

Lemma stripped_unreferenced : forall i p,
  ~ In i (parentIds p) -> ~ In i (siblingIds p) -> stripped i p = p.
Proof.
  intros i p H1 H2. unfold stripped.
  rewrite !without_absent by assumption. now destruct p.
Qed.

Lemma add_then_delete : forall person ctx prev,
  ~ In (id person) (map id (people prev)) ->
  (forall q, In q (people prev) ->
     ~ In (id person) (parentIds q) /\ ~ In (id person) (siblingIds q)) ->
  people (deletePerson (id person) (savePerson person ctx prev)) = people prev.
Proof.
  intros person ctx prev Hnew Href.
  rewrite deletePerson_stripped. unfold savePerson. simpl.
  assert (Hids : forall q, In q (people prev) -> id q <> id person).
  { intros q Hq E. apply Hnew. rewrite <- E. now apply in_map. }
  assert (U : upsertPerson person (people prev) = people prev ++ [person]).
  { unfold upsertPerson.
    destruct (JSArray.findIndex (hasId (id person)) (people prev)) as [idx | ] eqn:E;
      [ | reflexivity].
    destruct (findIndex_Some _ _ _ _ E) as [x [Hx Hid]]. apply hasId_true in Hid.
    exfalso. apply (Hids x); [now apply nth_error_In with idx | assumption]. }
  rewrite U.
  rewrite (delete_sameStripped (id person) (people prev ++ [person])).
  - rewrite filter_app. simpl. rewrite String.eqb_refl. simpl. rewrite app_nil_r.
    assert (F : filter (fun p => negb (String.eqb (id p) (id person))) (people prev)
                = people prev).
    { apply forallb_filter_id. apply forallb_forall. intros q Hq.
      apply negb_true_iff, String.eqb_neq. now apply Hids. }
    rewrite F. rewrite <- (map_id (people prev)) at 2. apply map_ext_in.
    intros q Hq. destruct (Href q Hq). now apply stripped_unreferenced.
  - eapply Forall2_pointwise_trans; [apply sameStripped_trans | | ].
    + apply linkParent_sameStripped.
    + eapply Forall2_pointwise_trans; [apply sameStripped_trans | | ].
      * apply linkSibling_sameStripped.
      * apply syncSiblings_sameStripped.
Qed.

(** X17.  Adding a person and deleting it again restores the graph: when
    the id of the saved person is new and no list of the graph mentions it,
    a save through any of the flows (plain, as a new parent, as a new
    sibling) followed by the delete of that person leaves every person of
    the old graph as it was and in the old order, so the hash of the dirty
    flag is the old one. *)
Theorem add_then_delete_restores :
  forall (JSON_stringify : list Person -> string)
         (person : Person) (ctx : option ModalContext) (now now' : string)
         (prev : FamilyData),
  ~ In (id person) (map id (people prev)) ->
  (forall q, In q (people prev) ->
     ~ In (id person) (parentIds q) /\ ~ In (id person) (siblingIds q)) ->
  people (handleDeletePerson (id person) now'
            (handleSavePerson person ctx now prev)) = people prev /\
  computeHash JSON_stringify
    (handleDeletePerson (id person) now' (handleSavePerson person ctx now prev))
  = computeHash JSON_stringify prev.
Proof.
  intros JSON_stringify person ctx now now' prev Hnew Href.
  assert (E : people (handleDeletePerson (id person) now'
                        (handleSavePerson person ctx now prev)) = people prev).
  { unfold handleDeletePerson, handleSavePerson, mutate.
    rewrite <- (add_then_delete person ctx prev Hnew Href). reflexivity. }
  split; [exact E | ]. unfold computeHash. now rewrite E.
Qed.

Lemma add_then_delete_witness :
  people (handleDeletePerson (id cyd) "2026-01-03"
            (handleSavePerson cyd (Some siblingOfAnn) "2026-01-02" annAndBob))
  = people annAndBob.
Proof.
  apply (add_then_delete_restores (fun _ => EmptyString) cyd (Some siblingOfAnn)
           "2026-01-02"%string "2026-01-03"%string annAndBob).
  - simpl. intuition discriminate.
  - intros q [<- | [<- | []]]; simpl; intuition discriminate.
Defined.

(* ================================================================== *)
(** * The shape check and its migration *)
(* ================================================================== *)

Lemma JSObject_get_set_same : forall k v o,
  JSObject.get k (JSObject.set k v o) = Some v.
Proof.
  intros k v. induction o as [ | [k' v'] o IH]; simpl.
  - now rewrite String.eqb_refl.
  - destruct (String.eqb k' k) eqn:E; simpl; now rewrite E.
Qed.

Lemma JSObject_get_set_other : forall k k' v o,
  k' <> k -> JSObject.get k' (JSObject.set k v o) = JSObject.get k' o.
Proof.
  intros k k' v o Hne. induction o as [ | [k0 v0] o IH]; simpl.
  - destruct (String.eqb_spec k k'); [congruence | reflexivity].
  - destruct (String.eqb_spec k0 k) as [-> | Hk]; simpl.
    + destruct (String.eqb_spec k k'); [congruence | reflexivity].
    + destruct (String.eqb k0 k'); [reflexivity | exact IH].
Qed.

Lemma JSObject_set_same : forall k v o,
  JSObject.get k o = Some v -> JSObject.set k v o = o.
Proof.
  intros k v. induction o as [ | [k' v'] o IH]; simpl; intros H; [discriminate | ].
  destruct (String.eqb k' k); [now inversion H | ]. f_equal. now apply IH.
Qed.

Lemma JSObject_set_set : forall k v o,
  JSObject.set k v (JSObject.set k v o) = JSObject.set k v o.
Proof. intros k v o. apply JSObject_set_same, JSObject_get_set_same. Qed.

Lemma validatePersonShape_spec : forall p p',
  validatePersonShape p = Some p' ->
  migrated p p' /\ validatePersonShape p' = Some p'.
Proof.
  intros p p' H. unfold validatePersonShape in H.
  destruct p as [ | | | | | o]; try discriminate.
  destruct (JSObject.get "id" o) as [[ | | | i | | ] | ] eqn:Hid; try discriminate.
  destruct (JSObject.get "firstName" o) as [[ | | | fn | | ] | ] eqn:Hfn;
    try discriminate.
  destruct (JSObject.get "parentIds" o) as [[ | | | | ps | ] | ] eqn:Hps;
    try discriminate.
  assert (M : forall o', (forall k, k <> "siblingIds"%string ->
                            JSObject.get k o' = JSObject.get k o) ->
              (exists l, JSObject.get "siblingIds" o' = Some (JArray l)) ->
              validatePersonShape (JObject o') = Some (JObject o')).
  { intros o' Hk [l Hl]. unfold validatePersonShape.
    rewrite !Hk by discriminate. now rewrite Hid, Hfn, Hps, Hl. }
  destruct (JSObject.get "siblingIds" o) as [v | ] eqn:Hs.
  - destruct v as [ | | | | l | ];
      try (inversion H; subst p'; split;
           [ exists o, (JSObject.set "siblingIds" (JArray []) o);
             split; [reflexivity | ]; split; [reflexivity | ];
             split; [intros k Hk; now apply JSObject_get_set_other | ];
             rewrite Hs; apply JSObject_get_set_same
           | apply M;
             [intros k Hk; now apply JSObject_get_set_other
             | exists []; apply JSObject_get_set_same] ]).
    inversion H; subst p'. split.
    + exists o, o. repeat split. now rewrite Hs.
    + apply M; [reflexivity | now exists l].
  - inversion H; subst p'. split.
    + exists o, (JSObject.set "siblingIds" (JArray []) o).
      split; [reflexivity | ]. split; [reflexivity | ].
      split; [intros k Hk; now apply JSObject_get_set_other | ].
      rewrite Hs. apply JSObject_get_set_same.
    + apply M; [intros k Hk; now apply JSObject_get_set_other
               | exists []; apply JSObject_get_set_same].
Qed.

Lemma validatePeopleShape_spec : forall ps ps',
  validatePeopleShape ps = Some ps' ->
  Forall2 migrated ps ps' /\ validatePeopleShape ps' = Some ps'.
Proof.
  induction ps as [ | p ps IH]; intros ps' H; simpl in H.
  - inversion H. split; [constructor | reflexivity].
  - destruct (validatePersonShape p) as [p' | ] eqn:Hp; [ | discriminate].
    destruct (validatePeopleShape ps) as [qs | ] eqn:Hq; [ | discriminate].
    simpl in H. inversion H; subst ps'.
    destruct (validatePersonShape_spec p p' Hp) as [M V].
    destruct (IH qs eq_refl) as [Ms Vs].
    split; [now constructor | ]. simpl. now rewrite V, Vs.
Qed.

(** X18.  When [validateFamilyData] accepts a document: the document is an
    object with [version] 1, a string [updatedAt] and an array [people];
    what the migration leaves differs from it in [people] only, where each
    entry is the old entry, with [siblingIds: []] added or put in the place
    of a [siblingIds] that was not an array, and untouched otherwise; and
    the result is accepted again and not changed any more. *)
Theorem validateFamilyData_migration : forall (obj obj' : JSON),
  validateFamilyData obj = Some obj' ->
  validateFamilyData obj' = Some obj' /\
  exists d d' u ps ps',
    obj = JObject d /\ obj' = JObject d' /\
    JSObject.get "version" d = Some (JNumber 1%Z) /\
    JSObject.get "updatedAt" d = Some (JString u) /\
    JSObject.get "people" d = Some (JArray ps) /\
    JSObject.get "people" d' = Some (JArray ps') /\
    (forall k, k <> "people"%string -> JSObject.get k d' = JSObject.get k d) /\
    Forall2 migrated ps ps'.
Proof.
  intros obj obj' H. unfold validateFamilyData in H.
  destruct obj as [ | | | | | d]; try discriminate.
  destruct (JSObject.get "version" d) as [[ | | n | | | ] | ] eqn:Hv;
    try discriminate.
  destruct n as [ | [ | | ] | ]; try discriminate.
  destruct (JSObject.get "updatedAt" d) as [[ | | | u | | ] | ] eqn:Hu;
    try discriminate.
  destruct (JSObject.get "people" d) as [[ | | | | ps | ] | ] eqn:Hp;
    try discriminate.
  destruct (validatePeopleShape ps) as [ps' | ] eqn:Hps; [ | discriminate].
  inversion H; subst obj'.
  destruct (validatePeopleShape_spec ps ps' Hps) as [M V].
  split.
  - unfold validateFamilyData.
    rewrite !JSObject_get_set_other by discriminate.
    rewrite Hv, Hu, JSObject_get_set_same, V.
    now rewrite JSObject_set_set.
  - exists d, (JSObject.set "people" (JArray ps') d), u, ps, ps'.
    repeat split; try assumption.
    + apply JSObject_get_set_same.
    + intros k Hk. now apply JSObject_get_set_other.
Qed.

(** A document of the older format: the migration adds [siblingIds] to the
    first person, puts an array in the place of the string of the second,
    leaves the third, and accepts its own result unchanged. *)
Lemma validateFamilyData_migration_witness :
  validateFamilyData legacyDocument = Some migratedDocument /\
  legacyDocument <> migratedDocument /\
  validateFamilyData migratedDocument = Some migratedDocument.
Proof.
  split; [reflexivity | ]. split; [discriminate | ].
  apply (validateFamilyData_migration legacyDocument migratedDocument).
  reflexivity.
Defined.

(* ================================================================== *)
(** * The lists the modal offers *)
(* ================================================================== *)

Lemma availableParents_In : forall people x p,
  In p (availableParents people x) <->
  In p people /\ id p <> x /\ ~ descendantOf people (id p) x.
Proof.
  intros people x p. unfold availableParents. rewrite filter_In.
  destruct (String.eqb_spec (id p) x) as [E | Hne].
  - split; [intros [_ H]; discriminate | intros [_ [H _]]; contradiction].
  - rewrite negb_true_iff, wouldCreateCycle_false_iff. tauto.
Qed.

(** X19.  The parents the modal offers for the person [x] are the persons
    of the graph other than [x] that are not descendants of [x]; so no
    child of [x] is offered, and [x] itself is not. *)
Theorem availableParents_excludes_descendants :
  forall (people : list Person) (x : string),
  (forall p, In p (availableParents people x) <->
     In p people /\ id p <> x /\ ~ descendantOf people (id p) x) /\
  (forall p, In p (children people x) -> ~ In p (availableParents people x)) /\
  (forall p, In p (availableParents people x) -> id p <> x).
Proof.
  intros people x. split; [apply availableParents_In | ]. split.
  - intros p Hc Ha. apply availableParents_In in Ha as [_ [_ Hd]].
    apply Hd. unfold children in Hc. apply filter_In in Hc as [Hin Hc].
    apply includes_In in Hc. apply desc_child. now exists p.
  - intros p Ha. now apply availableParents_In in Ha.
Qed.

Lemma allSiblingIds_fold : forall (g : Person -> bool) people ids i,
  In i (fold_left (fun ids p => if g p then JSSet.add ids (id p) else ids)
                  people ids) <->
  In i ids \/ exists p, In p people /\ g p = true /\ id p = i.
Proof.
  intros g people. induction people as [ | q people IH]; intros ids i; simpl.
  - split; [auto | intros [H | [p [[] _]]]; exact H].
  - rewrite IH. destruct (g q) eqn:G.
    + rewrite add_In. split.
      * intros [[H | ->] | [p [Hp [Gp E]]]]; [now left | | ].
        -- right. exists q. auto.
        -- right. exists p. auto.
      * intros [H | [p [[<- | Hp] [Gp E]]]]; [now do 2 left | | ].
        -- left. right. now symmetry.
        -- right. exists p. auto.
    + split.
      * intros [H | [p [Hp [Gp E]]]]; [now left | ]. right. exists p. auto.
      * intros [H | [p [[<- | Hp] [Gp E]]]]; [now left | congruence | ].
        right. exists p. auto.
Qed.

Lemma explicit_fold : forall l s i,
  In i (fold_left JSSet.add l s) <-> In i s \/ In i l.
Proof.
  induction l as [ | x l IH]; intros s i; simpl; [tauto | ].
  rewrite IH, add_In. intuition congruence.
Qed.

Lemma allSiblingIds_In : forall people x parentIds' siblingIds' i,
  In i (allSiblingIds people x parentIds' siblingIds') <->
  In i siblingIds' \/ (i <> x /\ sharesParent people parentIds' i).
Proof.
  intros people x parentIds' siblingIds' i. unfold allSiblingIds.
  destruct (Nat.ltb_spec 0 (length parentIds')) as [L | L].
  - rewrite allSiblingIds_fold, explicit_fold. simpl. split.
    + intros [[[] | H] | [p [Hp [G E]]]]; [now left | right].
      apply andb_prop in G as [G1 G2].
      apply negb_true_iff, String.eqb_neq in G1.
      apply existsb_exists in G2 as [pid [Hpid G2]]. apply includes_In in G2.
      split; [congruence | ]. now exists p, pid.
    + intros [H | [Hne [p [pid [Hp [E [H1 H2]]]]]]]; [left; now right | right].
      exists p. split; [assumption | ]. split; [ | assumption].
      apply andb_true_intro. split.
      * apply negb_true_iff, String.eqb_neq. congruence.
      * apply existsb_exists. exists pid. split; [assumption | ].
        now apply includes_In.
  - rewrite explicit_fold. simpl. split.
    + intros [[] | H]. now left.
    + intros [H | [_ [p [pid [_ [_ [_ H]]]]]]]; [now right | ].
      destruct parentIds'; [destruct H | simpl in L; lia].
Qed.

(** X20.  The sibling lists of the modal.  A person is shown as a sibling
    exactly when its id is in the [siblingIds] cell, or it is another
    person that shares a parent with the [parentIds] cell.  Every other
    person of the graph but the edited one is offered as a new sibling, and
    nobody is both shown and offered; the edited person is never offered. *)
Theorem modal_sibling_lists :
  forall (people : list Person) (x : string)
         (parentIds' siblingIds' : list string),
  (forall p, In p (siblings people x parentIds' siblingIds') <->
     In p people /\
     (In (id p) siblingIds' \/
      (id p <> x /\ sharesParent people parentIds' (id p)))) /\
  (forall p, In p (availableSiblings people x parentIds' siblingIds') <->
     In p people /\ id p <> x /\
     ~ In p (siblings people x parentIds' siblingIds')) /\
  (forall p, In p (availableSiblings people x parentIds' siblingIds') ->
     ~ In (id p) siblingIds').
Proof.
  intros people x parentIds' siblingIds'.
  assert (S : forall p, In p (siblings people x parentIds' siblingIds') <->
     In p people /\
     (In (id p) siblingIds' \/
      (id p <> x /\ sharesParent people parentIds' (id p)))).
  { intros p. unfold siblings. now rewrite filter_In, has_In, allSiblingIds_In. }
  assert (A : forall p, In p (availableSiblings people x parentIds' siblingIds') <->
     In p people /\ id p <> x /\
     ~ In p (siblings people x parentIds' siblingIds')).
  { intros p. unfold availableSiblings, siblings.
    rewrite !filter_In, andb_true_iff, !negb_true_iff, String.eqb_neq, has_false,
            has_In.
    tauto. }
  split; [exact S | ]. split; [exact A | ].
  intros p Hp Hs. apply A in Hp as [Hin [_ Hn]]. apply Hn, S. auto.
Qed.

(* ================================================================== *)
(** * No id is linked twice *)
(* ================================================================== *)

Lemma NoDup_snoc : forall (i : string) l,
  NoDup l -> ~ In i l -> NoDup (l ++ [i]).
Proof.
  intros i l Hl Hi. apply NoDup_app; [assumption | repeat constructor; auto | ].
  intros x Hx [<- | []]. contradiction.
Qed.

Lemma NoDup_without : forall i l, NoDup l -> NoDup (without i l).
Proof. intros i l H. unfold without. now apply NoDup_filter. Qed.

Lemma keepsDistinct_refl : forall x, keepsDistinct x x.
Proof. intros x H. exact H. Qed.

Lemma keepsDistinct_trans : forall x y z,
  keepsDistinct x y -> keepsDistinct y z -> keepsDistinct x z.
Proof. intros x y z H1 H2 H. auto. Qed.

Lemma keepsDistinct_addSibling : forall i x, keepsDistinct x (addSibling i x).
Proof.
  intros i x [H1 H2]. unfold addSibling.
  destruct (JSArray.includes (siblingIds x) i) eqn:E; simpl; [now split | ].
  split; [exact H1 | ]. simpl. apply NoDup_snoc; [exact H2 | ].
  intros Hin. apply includes_In in Hin. congruence.
Qed.

Lemma keepsDistinct_Forall : forall l l',
  Forall2 keepsDistinct l l' -> Forall linksDistinct l -> Forall linksDistinct l'.
Proof.
  intros l l' H. induction H as [ | p q l l' Hpq _ IH]; intros F; [constructor | ].
  inversion F; subst. constructor; auto.
Qed.

Lemma Forall_setAt : forall (P : Person -> Prop) i x l,
  Forall P l -> P x -> Forall P (JSArray.setAt i x l).
Proof.
  intros P. induction i as [ | i IH]; intros x [ | y l] F Hx; simpl;
    try constructor; inversion F; subst; auto.
Qed.

Lemma upsertPerson_distinct : forall person l,
  Forall linksDistinct l -> linksDistinct person ->
  Forall linksDistinct (upsertPerson person l).
Proof.
  intros person l F Hp. unfold upsertPerson.
  destruct (JSArray.findIndex (hasId (id person)) l).
  - now apply Forall_setAt.
  - unfold JSArray.push. apply Forall_app. split; [assumption | now constructor].
Qed.

Lemma linkParent_distinct : forall person ctx l,
  Forall2 keepsDistinct l (linkParent person ctx l).
Proof.
  intros person ctx l. unfold linkParent.
  destruct (ctxLink linkAsParentOf ctx) as [targetId | ];
    [ | apply Forall2_pointwise_refl, keepsDistinct_refl].
  apply updateFound_pointwise; [exact keepsDistinct_refl | ].
  intros x [H1 H2].
  destruct (JSArray.includes (parentIds x) (id person)) eqn:E; simpl;
    [now split | ].
  destruct (length (parentIds x) <? 2); [ | now split].
  split; [ | exact H2]. simpl. apply NoDup_snoc; [exact H1 | ].
  intros Hin. apply includes_In in Hin. congruence.
Qed.

Lemma linkSibling_distinct : forall person ctx l,
  Forall2 keepsDistinct l (linkSibling person ctx l).
Proof.
  intros person ctx l. unfold linkSibling.
  destruct (ctxLink linkAsSiblingOf ctx) as [targetId | ];
    [ | apply Forall2_pointwise_refl, keepsDistinct_refl].
  eapply Forall2_pointwise_trans; [exact keepsDistinct_trans | | ].
  - apply updateFound_pointwise with (g := hasId targetId)
      (f := addSibling (id person));
      [exact keepsDistinct_refl | apply keepsDistinct_addSibling].
  - apply updateFound_pointwise;
      [exact keepsDistinct_refl | apply keepsDistinct_addSibling].
Qed.

Lemma addReverseLinks_distinct : forall person current l,
  Forall2 keepsDistinct l (addReverseLinks person current l).
Proof.
  intros person current l. unfold addReverseLinks.
  generalize (siblingIds current). intros sibs. revert l.
  induction sibs as [ | sibId sibs IH]; intros l; simpl.
  - apply Forall2_pointwise_refl, keepsDistinct_refl.
  - eapply Forall2_pointwise_trans; [exact keepsDistinct_trans | | apply IH].
    apply updateFound_pointwise;
      [exact keepsDistinct_refl | apply keepsDistinct_addSibling].
Qed.

Lemma removeStaleLinks_distinct : forall person current l,
  Forall2 keepsDistinct l (removeStaleLinks person current l).
Proof.
  intros person current l. unfold removeStaleLinks.
  generalize (seq 0 (length l)). intros idxs. revert l.
  induction idxs as [ | i idxs IH]; intros l; simpl.
  - apply Forall2_pointwise_refl, keepsDistinct_refl.
  - eapply Forall2_pointwise_trans; [exact keepsDistinct_trans | | apply IH].
    unfold removeStaleLinkAt.
    destruct (nth_error l i) as [other | ];
      [ | apply Forall2_pointwise_refl, keepsDistinct_refl].
    destruct (String.eqb (id other) (id person));
      [apply Forall2_pointwise_refl, keepsDistinct_refl | ].
    destruct (JSArray.includes (siblingIds other) (id person)
              && negb (JSArray.includes (siblingIds current) (id other)));
      [ | apply Forall2_pointwise_refl, keepsDistinct_refl].
    apply updateFound_pointwise with (g := hasId (id other));
      [exact keepsDistinct_refl | ].
    intros x [H1 H2]. split; [exact H1 | ]. simpl. now apply NoDup_filter.
Qed.

Lemma savePerson_distinct : forall person ctx prev,
  Forall linksDistinct (people prev) -> linksDistinct person ->
  Forall linksDistinct (people (savePerson person ctx prev)).
Proof.
  intros person ctx prev F Hp. unfold savePerson. simpl.
  apply keepsDistinct_Forall
    with (l := upsertPerson person (people prev));
    [ | now apply upsertPerson_distinct].
  eapply Forall2_pointwise_trans; [exact keepsDistinct_trans | | ].
  - apply linkParent_distinct.
  - eapply Forall2_pointwise_trans; [exact keepsDistinct_trans | | ].
    + apply linkSibling_distinct.
    + unfold syncSiblings.
      destruct (JSArray.findIndex _ _) as [idx | ];
        [ | apply Forall2_pointwise_refl, keepsDistinct_refl].
      destruct (nth_error _ idx) as [current | ];
        [ | apply Forall2_pointwise_refl, keepsDistinct_refl].
      eapply Forall2_pointwise_trans; [exact keepsDistinct_trans | | ].
      * apply addReverseLinks_distinct.
      * apply removeStaleLinks_distinct.
Qed.

Lemma deletePerson_distinct : forall i prev,
  Forall linksDistinct (people prev) ->
  Forall linksDistinct (people (deletePerson i prev)).
Proof.
  intros i prev F. unfold deletePerson. simpl.
  rewrite Forall_forall in F |- *. intros q Hq.
  apply in_map_iff in Hq as [p [<- Hp]]. apply filter_In in Hp as [Hp _].
  destruct (F p Hp) as [H1 H2]. split; simpl; now apply NoDup_filter.
Qed.

Lemma toggles_distinct : forall i l,
  NoDup l ->
  NoDup (handleParentToggle i l) /\ NoDup (handleSiblingToggle i l) /\
  NoDup (handleRemoveExplicitSibling i l).
Proof.
  intros i l H. unfold handleParentToggle, handleSiblingToggle,
    handleRemoveExplicitSibling.
  assert (F : NoDup (filter (fun x => negb (String.eqb x i)) l))
    by now apply NoDup_filter.
  destruct (JSArray.includes l i) eqn:E; [now repeat split | ].
  assert (S : NoDup (l ++ [i])).
  { apply NoDup_snoc; [exact H | ]. intros Hin. apply includes_In in Hin.
    congruence. }
  destruct (2 <=? length l); now repeat split.
Qed.

(** X21.  No id is ever linked twice.  In a graph where no person lists an
    id twice among its parents or among its siblings, saving a person with
    that property (through any flow) and deleting any person leave a graph
    with that property; and the three toggle handlers of the modal keep a
    duplicate-free list duplicate-free. *)
Theorem no_duplicate_links :
  forall (prev : FamilyData) (person : Person),
  Forall linksDistinct (people prev) -> linksDistinct person ->
  (forall ctx now,
     Forall linksDistinct (people (handleSavePerson person ctx now prev))) /\
  (forall i now,
     Forall linksDistinct (people (handleDeletePerson i now prev))) /\
  (forall i,
     NoDup (handleParentToggle i (parentIds person)) /\
     NoDup (handleSiblingToggle i (siblingIds person)) /\
     NoDup (handleRemoveExplicitSibling i (siblingIds person))).
Proof.
  intros prev person F Hp. split; [ | split].
  - intros ctx now. unfold handleSavePerson, mutate. simpl.
    now apply savePerson_distinct.
  - intros i now. unfold handleDeletePerson, mutate. simpl.
    now apply deletePerson_distinct.
  - intros i. destruct Hp as [H1 H2].
    destruct (toggles_distinct i (parentIds person) H1) as [T1 _].
    destruct (toggles_distinct i (siblingIds person) H2) as [_ [T2 T3]].
    now repeat split.
Qed.

Lemma no_duplicate_links_witness :
  Forall linksDistinct
    (people (handleSavePerson cyd (Some siblingOfAnn) "2026-01-02" annAndBob)).
Proof.
  apply (no_duplicate_links annAndBob cyd).
  - repeat constructor; simpl; intuition discriminate.
  - repeat constructor.
Defined.

(* ================================================================== *)
(** * A new person and cycles *)
(* ================================================================== *)

Lemma descendantOf_listed : forall people d a,
  descendantOf people d a -> exists p, In p people /\ In a (parentIds p).
Proof.
  intros people d a H. induction H as [d a [p [Hp [_ Ha]]] | d m a _ _ IH].
  - now exists p.
  - exact IH.
Qed.

(** X22.  A person whose id is new, that no person of the graph lists as a
    parent and that does not list itself, never closes a cycle, whatever
    parents it is saved with: the save (plain, with preset parents, or
    through the add-sibling flow) of such a person into a graph with
    distinct ids and no cycle leaves no cycle. *)
Theorem new_person_keeps_acyclic :
  forall (person : Person) (ctx : option ModalContext) (now : string)
         (prev : FamilyData),
  uniqueIds (people prev) -> acyclic (people prev) ->
  ~ In (id person) (map id (people prev)) ->
  (forall q, In q (people prev) -> ~ In (id person) (parentIds q)) ->
  ~ In (id person) (parentIds person) ->
  ctxLink linkAsParentOf ctx = None ->
  acyclic (people (handleSavePerson person ctx now prev)).
Proof.
  intros person ctx now prev U A Hnew Href Hself Hctx.
  unfold handleSavePerson, mutate. simpl.
  apply savePerson_acyclic; try assumption.
  intros y Hy. apply wouldCreateCycle_false_iff. split.
  - intros ->. contradiction.
  - intros D. apply descendantOf_listed in D as [p [Hp Hin]].
    now apply (Href p Hp).
Qed.

Lemma new_person_witness :
  acyclic
    (people
       (handleSavePerson (scenarioPerson "D" "Dan" None ["C"%string])
          (Some (mkModalContext None (Some ["C"%string]) None))
          "2026-01-02" (mkFamilyData 1 "2026-01-01" family))).
Proof.
  apply new_person_keeps_acyclic.
  - exact family_unique.
  - exact family_acyclic.
  - simpl. intuition discriminate.
  - intros q [<- | [<- | [<- | []]]]; simpl; intuition discriminate.
  - simpl. intuition discriminate.
  - reflexivity.
Defined.

(* ================================================================== *)
(** * The add-sibling flow *)
(* ================================================================== *)

Lemma find_hasId : forall i l p,
  find (hasId i) l = Some p -> In p l /\ id p = i.
Proof.
  intros i l p H. apply find_some in H as [H1 H2].
  split; [assumption | now apply hasId_true].
Qed.

Lemma sameParents_ids : forall l l',
  Forall2 sameParents l l' -> map id l' = map id l.
Proof.
  intros l l' H. induction H as [ | p q l l' [E _] _ IH]; simpl; congruence.
Qed.

(** What a save without a parent link leaves: distinct ids, the ids of
    before and the id of the saved person, and the saved parents. *)
Lemma savePerson_parents : forall person ctx prev,
  uniqueIds (people prev) -> ctxLink linkAsParentOf ctx = None ->
  uniqueIds (people (savePerson person ctx prev)) /\
  (forall i, In i (map id (people (savePerson person ctx prev))) <->
             i = id person \/ In i (map id (people prev))) /\
  (forall r, In r (people (savePerson person ctx prev)) ->
     (id r = id person -> parentIds r = parentIds person) /\
     (id r <> id person ->
      exists p0, In p0 (people prev) /\ id p0 = id r /\
                 parentIds r = parentIds p0)).
Proof.
  intros person ctx prev U Hctx.
  pose proof (savePerson_sameParents person ctx prev Hctx) as SP.
  destruct (upsertPerson_spec person (people prev) U) as [U0 [Hin0 Hold]].
  pose proof (sameParents_ids _ _ SP) as Ids.
  split; [unfold uniqueIds; now rewrite Ids | ]. split.
  - intros i. rewrite Ids. split.
    + intros H. apply in_map_iff in H as [q [<- Hq]].
      destruct (String.eqb_spec (id q) (id person)) as [E | Hne]; [now left | ].
      right. apply in_map. now apply Hold.
    + intros [-> | H]; [now apply in_map | ].
      apply in_map_iff in H as [q [<- Hq]].
      destruct (String.eqb_spec (id q) (id person)) as [E | Hne].
      * rewrite E. now apply in_map.
      * apply in_map. now apply Hold.
  - intros r Hr. destruct (Forall2_In_r _ _ _ _ SP Hr) as [q [Hq [E P]]]. split.
    + intros Er. assert (q = person)
        by (apply (uniqueIds_eq _ _ _ U0); auto; congruence).
      subst q. exact P.
    + intros Hne. exists q. split; [apply Hold; [congruence | assumption] | ].
      split; [congruence | exact P].
Qed.

Lemma add_sibling_saves :
  forall (d0 : FamilyData) (t personId now : string) (f : FormState)
         (savedT savedNew : Person) (ctx : option ModalContext),
  uniqueIds (people d0) -> In t (map id (people d0)) ->
  ~ In personId (map id (people d0)) ->
  builtBy t f savedT -> builtBy personId f savedNew ->
  ctxLink linkAsParentOf ctx = None -> ctxLink linkAsSiblingOf ctx = Some t ->
  exists cur target',
    In cur (people (savePerson savedNew ctx (handleSavePerson savedT None now d0))) /\
    In target' (people (savePerson savedNew ctx
                          (handleSavePerson savedT None now d0))) /\
    id cur = personId /\ id target' = t /\
    parentIds cur = formParentIds f /\ parentIds target' = formParentIds f /\
    (forall y, In y (siblingIds cur) <-> In y (formSiblingIds f) \/ y = t) /\
    (forall y, In y (siblingIds target') <->
               In y (formSiblingIds f) \/ y = personId) /\
    (forall r, In r (people (savePerson savedNew ctx
                               (handleSavePerson savedT None now d0))) ->
       id r <> personId ->
       (In personId (siblingIds r) <-> id r = t \/ In (id r) (formSiblingIds f))).
Proof.
  intros d0 t personId now f savedT savedNew ctx U Ht Hnew
    [ET [PT ST]] [EN [PN SN]] CP CS.
  assert (Hne : t <> personId) by (intros ->; contradiction).
  set (d1 := handleSavePerson savedT None now d0).
  assert (P1 : people d1 = people (savePerson savedT None d0)) by reflexivity.
  (* the first save *)
  destruct (savePerson_parents savedT None d0 U eq_refl) as [U1 [I1 Q1]].
  destruct (savePerson_sibling_links savedT None d0 U)
    as [tg1 [Htg1 [Etg1 [Stg1 _]]]].
  rewrite <- P1 in U1, I1, Q1, Htg1.
  assert (Hnew1 : ~ In personId (map id (people d1))).
  { rewrite I1. intros [E | H]; [congruence | contradiction]. }
  (* the second save *)
  destruct (savePerson_parents savedNew ctx d1 U1 CP) as [U2 [I2 Q2]].
  destruct (savePerson_sibling_links savedNew ctx d1 U1)
    as [cur [Hcur [Ecur [Scur [Hothers Hkept]]]]].
  assert (HneT : id tg1 <> id savedNew) by congruence.
  destruct (Hkept tg1 Htg1 HneT) as [target' [Ht' Et']].
  assert (Hne' : id target' <> id savedNew) by congruence.
  destruct (Hothers target' Ht' Hne') as [Hback [p0 [Hp0 [E0 Hrest]]]].
  assert (p0 = tg1) by (apply (uniqueIds_eq _ _ _ U1); auto; congruence).
  subst p0.
  assert (Scur' : forall y, In y (siblingIds cur) <->
                            In y (formSiblingIds f) \/ y = t).
  { intros y. rewrite Scur, SN, CS. intuition congruence. }
  exists cur, target'.
  split; [exact Hcur | ]. split; [exact Ht' | ].
  split; [congruence | ]. split; [congruence | ].
  split; [ | split; [ | split; [exact Scur' | split]]].
  - destruct (Q2 cur Hcur) as [Q _]. rewrite Q by assumption. exact PN.
  - destruct (Q2 target' Ht') as [_ Q].
    destruct (Q Hne') as [p0 [Hp0' [E0' P0]]].
    assert (p0 = tg1) by (apply (uniqueIds_eq _ _ _ U1); auto; congruence).
    subst p0. rewrite P0.
    destruct (Q1 tg1 Htg1) as [Q' _]. rewrite Q' by assumption. exact PT.
  - intros y. destruct (String.eqb_spec y personId) as [-> | Hy].
    + rewrite <- EN at 1. rewrite Hback, Scur', Et', Etg1, ET.
      intuition congruence.
    + rewrite Hrest by congruence. rewrite Stg1, ST. cbn [ctxLink].
      intuition congruence.
  - intros r Hr Hr'.
    assert (Hr'' : id r <> id savedNew) by congruence.
    destruct (Hothers r Hr Hr'') as [Hb _].
    rewrite <- EN at 1. rewrite Hb, Scur'. tauto.
Qed.

(** X23.  The add-sibling flow as a whole.  The button [+ Add Sibling] of
    the edit modal of a person [target] saves [target] from the cells and
    calls [handleAddSibling]; the modal is not mounted anew, so its cells
    stay and only its [personId] is a new one.  When it is saved again, the
    cells untouched, the graph (distinct ids before the flow) holds the new
    person with the [parentIds] cell as its parents and with the entries of
    the [siblingIds] cell and [target] as its siblings; [target] has the
    same parents and lists the entries of the cell and the new person; and
    any other person lists the new person exactly when it is [target] or
    its id is in the cell. *)
Theorem add_sibling_flow :
  forall (s : AppState) (t personId now now' : string) (target : Person)
         (f : FormState) (savedT savedNew : Person),
  uniqueIds (people (data s)) ->
  t <> EmptyString ->
  modalContext s = None ->
  find (hasId t) (people (data s)) = Some target ->
  form s = Some f ->
  builtBy t f savedT ->
  ~ In personId (map id (people (data s))) ->
  builtBy personId f savedNew ->
  rendered (form s)
    (handleAddSibling (people (data s)) t (handleModalSave savedT now s))
    (Some f) /\
  exists cur target',
    In cur (people (data (handleModalSave savedNew now'
              (handleAddSibling (people (data s)) t
                 (handleModalSave savedT now s))))) /\
    In target' (people (data (handleModalSave savedNew now'
                  (handleAddSibling (people (data s)) t
                     (handleModalSave savedT now s))))) /\
    id cur = personId /\ id target' = t /\
    parentIds cur = formParentIds f /\ parentIds target' = formParentIds f /\
    (forall y, In y (siblingIds cur) <-> In y (formSiblingIds f) \/ y = t) /\
    (forall y, In y (siblingIds target') <->
               In y (formSiblingIds f) \/ y = personId) /\
    (forall r, In r (people (data (handleModalSave savedNew now'
                  (handleAddSibling (people (data s)) t
                     (handleModalSave savedT now s))))) ->
       id r <> personId ->
       (In personId (siblingIds r) <-> id r = t \/ In (id r) (formSiblingIds f))).
Proof.
  intros s t personId now now' target f savedT savedNew U Ht Hctx Hfind Hform
    BT Hnew BN.
  destruct (find_hasId _ _ _ Hfind) as [Hin Hid].
  unfold handleAddSibling. rewrite Hfind.
  split; [right; exists f; now split | ].
  set (ctx := mkModalContext None
                (if 0 <? length (parentIds target)
                 then Some (parentIds target) else None) (Some t)).
  assert (CS : ctxLink linkAsSiblingOf (Some ctx) = Some t).
  { simpl. destruct (String.eqb_spec t EmptyString); [contradiction | reflexivity]. }
  assert (Hmem : In t (map id (people (data s)))).
  { rewrite <- Hid. now apply in_map. }
  unfold handleModalSave, closeModal, setCells. simpl. rewrite Hctx.
  exact (add_sibling_saves (data s) t personId now f savedT savedNew (Some ctx)
           U Hmem Hnew BT BN eq_refl CS).
Qed.

Lemma add_sibling_flow_witness :
  exists cur target',
    In cur (people (data (handleModalSave newSibling "2026-01-03"
              (handleAddSibling (people annAndBob) "ann"
                 (handleModalSave ann "2026-01-02" editingAnn))))) /\
    In target' (people (data (handleModalSave newSibling "2026-01-03"
                  (handleAddSibling (people annAndBob) "ann"
                     (handleModalSave ann "2026-01-02" editingAnn))))) /\
    id cur = "new-1"%string /\ id target' = "ann"%string /\
    parentIds cur = [] /\ parentIds target' = [] /\
    (forall y, In y (siblingIds cur) <-> In y ["bob"%string] \/ y = "ann"%string) /\
    (forall y, In y (siblingIds target') <->
               In y ["bob"%string] \/ y = "new-1"%string) /\
    (forall r, In r (people (data (handleModalSave newSibling "2026-01-03"
                  (handleAddSibling (people annAndBob) "ann"
                     (handleModalSave ann "2026-01-02" editingAnn))))) ->
       id r <> "new-1"%string ->
       (In "new-1"%string (siblingIds r) <->
        id r = "ann"%string \/ In (id r) ["bob"%string])).
Proof.
  apply (add_sibling_flow editingAnn "ann"%string "new-1"%string
           "2026-01-02"%string "2026-01-03"%string ann
           (mkFormState [] ["bob"%string]) ann newSibling).
  - unfold uniqueIds. simpl. repeat constructor; simpl; intuition discriminate.
  - discriminate.
  - reflexivity.
  - reflexivity.
  - reflexivity.
  - repeat split.
  - simpl. intuition discriminate.
  - repeat split.
Defined.

(* ================================================================== *)
(** * The sidebar *)
(* ================================================================== *)

Lemma weakOrderOn_incl : forall (A : Type) (cmp : A -> A -> float) l l',
  incl l' l -> weakOrderOn cmp l -> weakOrderOn cmp l'.
Proof.
  intros A cmp l l' Hi [S T]. split.
  - intros a b Ha Hb. apply S; auto.
  - intros a b c Ha Hb Hc. apply T; auto.
Qed.

Lemma insert_sorted_weak : forall (A : Type) (cmp : A -> A -> float) a l,
  weakOrderOn cmp (a :: l) -> sortedBy cmp l ->
  sortedBy cmp (JSSort.insert cmp a l).
Proof.
  intros A cmp a l O. induction l as [ | b l IH]; intros Hs; simpl.
  - constructor; constructor.
  - fold (sortsAfter cmp a b).
    inversion Hs as [ | ? ? Hs' Hb]; subst.
    destruct O as [S T].
    destruct (sortsAfter cmp a b) eqn:Hab.
    + constructor.
      * apply IH; [ | assumption].
        apply weakOrderOn_incl with (a :: b :: l); [ | now split].
        intros z [<- | Hz]; [now left | now do 2 right].
      * rewrite Forall_forall in Hb |- *. intros z Hz.
        apply (Permutation_in _ (insert_permutation A cmp a l)) in Hz.
        destruct Hz as [<- | Hz]; [ | now apply Hb].
        apply S; [now left | right; now left | assumption].
    + constructor; [assumption | ].
      constructor; [assumption | ].
      rewrite Forall_forall in Hb |- *. intros z Hz.
      apply T with b; [now left | right; now left | now do 2 right
                      | assumption | now apply Hb].
Qed.

Lemma sort_sorted_weak : forall (A : Type) (cmp : A -> A -> float) l,
  weakOrderOn cmp l -> sortedBy cmp (JSSort.sort cmp l).
Proof.
  intros A cmp l. induction l as [ | a l IH]; intros O; simpl.
  - constructor.
  - apply insert_sorted_weak.
    + apply weakOrderOn_incl with (a :: l); [ | assumption].
      intros z [<- | Hz]; [now left | right].
      now apply Permutation_in with (1 := sort_permutation A cmp l).
    + apply IH. apply weakOrderOn_incl with (a :: l); [ | assumption].
      intros z Hz. now right.
Qed.

(** X24.  The sidebar lists every person of the graph exactly once, and
    shows its empty message exactly when there is no person, both for every
    comparison of the host; and when the host's comparison of the
    lower-cased names is consistent on these persons, no person of the list
    sorts after a later one. *)
Theorem sidebar_lists_everyone :
  forall (toLowerCase : string -> string)
         (localeCompare : string -> string -> float) (people : list Person),
  Permutation people (Sidebar.sorted toLowerCase localeCompare people) /\
  (Sidebar.emptyMessage toLowerCase localeCompare people = true <-> people = []) /\
  (weakOrderOn (Sidebar.compare toLowerCase localeCompare) people ->
   sortedBy (Sidebar.compare toLowerCase localeCompare)
            (Sidebar.sorted toLowerCase localeCompare people)).
Proof.
  intros toLowerCase localeCompare people.
  assert (P : Permutation people (Sidebar.sorted toLowerCase localeCompare people)).
  { unfold Sidebar.sorted. symmetry. apply sort_permutation. }
  split; [exact P | ]. split.
  - unfold Sidebar.emptyMessage. rewrite Nat.eqb_eq.
    rewrite <- (Permutation_length P).
    destruct people; simpl; split; congruence.
  - apply sort_sorted_weak.
Qed.

Lemma sidebar_witness :
  Sidebar.sorted (fun s => s) codeUnitCompare sidebarPeople
  = [scenarioPerson "2" "Ann" (Some "Lee"%string) [];
     scenarioPerson "1" "Sam" None []; scenarioPerson "3" "Sam" None []] /\
  sortedBy (Sidebar.compare (fun s => s) codeUnitCompare)
           (Sidebar.sorted (fun s => s) codeUnitCompare sidebarPeople).
Proof.
  split; [vm_compute; reflexivity | ].
  apply (sidebar_lists_everyone (fun s => s) codeUnitCompare sidebarPeople).
  split.
  - intros a b [<- | [<- | [<- | []]]] [<- | [<- | [<- | []]]];
      vm_compute; congruence.
  - intros a b c [<- | [<- | [<- | []]]] [<- | [<- | [<- | []]]]
      [<- | [<- | [<- | []]]]; vm_compute; congruence.
Defined.

(* ================================================================== *)
(** * The comparison of two dates *)
(* ================================================================== *)

Lemma ltb_antisym : forall a b,
  String.ltb a b = true -> String.ltb b a = false.
Proof.
  intros a b H. unfold String.ltb in *. rewrite String.compare_antisym.
  destruct (String.compare a b); try discriminate. reflexivity.
Qed.

Lemma ltb_irrefl : forall a, String.ltb a a = false.
Proof.
  intros a. destruct (String.ltb a a) eqn:E; [ | reflexivity].
  pose proof (ltb_antisym a a E). congruence.
Qed.

Lemma comparePartialDates_opp : forall a b,
  comparePartialDates a b = option_map Z.opp (comparePartialDates b a).
Proof.
  intros [a | ] [b | ]; try reflexivity. unfold comparePartialDates.
  destruct (truthyString (date a)) as [da | ], (truthyString (date b)) as [db | ].
  - destruct (String.ltb da db) eqn:E1, (String.ltb db da) eqn:E2; try reflexivity.
    apply ltb_antisym in E1. congruence.
  - destruct (year a) as [ya | ], (year b) as [yb | ]; try reflexivity.
    destruct (Z.ltb_spec ya yb), (Z.ltb_spec yb ya); try reflexivity; lia.
  - destruct (year a) as [ya | ], (year b) as [yb | ]; try reflexivity.
    destruct (Z.ltb_spec ya yb), (Z.ltb_spec yb ya); try reflexivity; lia.
  - destruct (year a) as [ya | ], (year b) as [yb | ]; try reflexivity.
    destruct (Z.ltb_spec ya yb), (Z.ltb_spec yb ya); try reflexivity; lia.
Qed.

(** X25.  [comparePartialDates] is antisymmetric: with the arguments swapped
    it answers the opposite number, or [null] both ways.  So of two dates
    [validateBirthDeath] accepts at least one order, and it accepts a date
    as the birth and the death of the same person; it rejects only where
    the comparison is 1. *)
Theorem validateBirthDeath_one_order :
  forall (a b : option PartialDate),
  comparePartialDates a b = option_map Z.opp (comparePartialDates b a) /\
  (validateBirthDeath a b = None \/ validateBirthDeath b a = None) /\
  validateBirthDeath a a = None /\
  (validateBirthDeath a b <> None <-> comparePartialDates a b = Some 1%Z).
Proof.
  intros a b. pose proof (comparePartialDates_opp a b) as O.
  split; [exact O | ]. split; [ | split].
  - unfold validateBirthDeath. rewrite O.
    destruct (comparePartialDates b a) as [c | ]; simpl; [ | now left].
    destruct (Z.ltb_spec 0 c), (Z.ltb_spec 0 (- c)); auto; lia.
  - unfold validateBirthDeath.
    pose proof (comparePartialDates_opp a a) as Oa.
    destruct (comparePartialDates a a) as [c | ]; [ | reflexivity].
    simpl in Oa. assert (Ec : c = 0%Z) by (injection Oa; lia).
    subst c. reflexivity.
  - unfold validateBirthDeath.
    assert (V : forall c, comparePartialDates a b = Some c ->
                (c = -1 \/ c = 0 \/ c = 1)%Z).
    { intros c. destruct a as [a | ], b as [b | ]; try discriminate.
      unfold comparePartialDates.
      destruct (truthyString (date a)), (truthyString (date b)),
               (year a), (year b);
        repeat match goal with
               | |- context [if ?x then _ else _] => destruct x
               end; intros H; inversion H; auto; discriminate. }
    destruct (comparePartialDates a b) as [c | ];
      [ | split; [intros H; now contradiction H | discriminate]].
    destruct (V c eq_refl) as [-> | [-> | ->]]; simpl;
      split; intros H; try discriminate; try reflexivity; try congruence;
      now contradiction H.
Qed.

(* ================================================================== *)
(** * Snapshot files *)
(* ================================================================== *)

Lemma pad_spec : forall n,
  (0 <= n <= 99)%Z ->
  String.length (Snapshot.pad n) = 2 /\ JSString.parseInt (Snapshot.pad n) = n.
Proof.
  intros n Hn.
  assert (T : padTable = true) by (vm_compute; reflexivity).
  unfold padTable in T. rewrite forallb_forall in T.
  specialize (T (Z.to_nat n)). rewrite Z2Nat.id in T by lia.
  assert (I : In (Z.to_nat n) (seq 0 100)) by (apply in_seq; lia).
  apply T, andb_prop in I as [I1 I2].
  apply Nat.eqb_eq in I1. apply Z.eqb_eq in I2. now split.
Qed.

Lemma append_fixed2 : forall p p' r r',
  String.length p = 2 -> String.length p' = 2 ->
  (p ++ r)%string = (p' ++ r')%string -> p = p' /\ r = r'.
Proof.
  intros [ | a [ | b [ | c p]]] [ | a' [ | b' [ | c' p']]] r r' L L' H;
    simpl in L, L'; try discriminate.
  simpl in H. inversion H. now split.
Qed.

Lemma append_digits_hyphen : forall a a' r r',
  JSString.allDigits a = true -> JSString.allDigits a' = true ->
  (a ++ "-" ++ r)%string = (a' ++ "-" ++ r')%string -> a = a' /\ r = r'.
Proof.
  induction a as [ | c a IH]; intros [ | c' a'] r r' D D' H; simpl in *.
  - inversion H. now split.
  - inversion H; subst c'. discriminate.
  - inversion H; subst c. discriminate.
  - apply andb_prop in D as [_ D]. apply andb_prop in D' as [_ D'].
    inversion H; subst c'. destruct (IH a' r r' D D') as [-> ->]; [assumption | ].
    now split.
Qed.

Lemma append_assoc : forall a b c : string,
  ((a ++ b) ++ c)%string = (a ++ (b ++ c))%string.
Proof.
  induction a as [ | x a IH]; intros b c; simpl; [reflexivity | now rewrite IH].
Qed.

Lemma pad_injective : forall n m,
  (0 <= n <= 99)%Z -> (0 <= m <= 99)%Z -> Snapshot.pad n = Snapshot.pad m -> n = m.
Proof.
  intros n m Hn Hm E.
  destruct (pad_spec n Hn) as [_ <-]. destruct (pad_spec m Hm) as [_ <-].
  now rewrite E.
Qed.

Lemma ts_injective : forall (d1 d2 : Snapshot.LocalTime),
  localTimeFields d1 -> localTimeFields d2 ->
  (Snapshot.ts d1 ++ ".json")%string = (Snapshot.ts d2 ++ ".json")%string ->
  d1 = d2.
Proof.
  intros [y1 mo1 da1 h1 mi1 s1] [y2 mo2 da2 h2 mi2 s2].
  unfold localTimeFields, Snapshot.ts. simpl.
  intros [Y1 [M1 [D1 [H1 [N1 S1]]]]] [Y2 [M2 [D2 [H2 [N2 S2]]]]] E'.
  repeat (rewrite append_assoc in E'; simpl in E').
  destruct (ofNumber_digits y1 Y1) as [G1 P1].
  destruct (ofNumber_digits y2 Y2) as [G2 P2].
  unfold JSString.isDigits in G1, G2.
  apply andb_prop in G1 as [_ G1]. apply andb_prop in G2 as [_ G2].
  apply append_digits_hyphen in E' as [Ey E']; try assumption.
  assert (y1 = y2) by congruence. subst y2.
  apply append_fixed2 in E' as [Em E']; try (apply pad_spec; lia).
  apply pad_injective in Em; try lia.
  inversion E' as [E'']. clear E'.
  apply append_fixed2 in E'' as [Ed E'']; try (apply pad_spec; lia).
  apply pad_injective in Ed; try lia.
  inversion E'' as [E3]. clear E''.
  apply append_fixed2 in E3 as [Eh E3]; try (apply pad_spec; lia).
  apply pad_injective in Eh; try lia.
  inversion E3 as [E4]. clear E3.
  apply append_fixed2 in E4 as [En E4]; try (apply pad_spec; lia).
  apply pad_injective in En; try lia.
  inversion E4 as [E5]. clear E4.
  apply append_fixed2 in E5 as [Es _]; try (apply pad_spec; lia).
  apply pad_injective in Es; try lia.
  f_equal; lia.
Qed.

(** X26.  The files named after the local time.  Two snapshot files, and
    two exported files, of local times whose fields are in the ranges of
    the [Date] getters (year not negative) have the same name only if the
    two times agree in every field, down to the second: files written at
    local times that differ in a field have different names and do not
    overwrite each other. *)
Theorem snapshot_names_distinct :
  forall (d1 d2 : Snapshot.LocalTime),
  localTimeFields d1 -> localTimeFields d2 ->
  (Snapshot.filename d1 = Snapshot.filename d2 -> d1 = d2) /\
  (exportFilename d1 = exportFilename d2 -> d1 = d2) /\
  (d1 <> d2 ->
   Snapshot.filename d1 <> Snapshot.filename d2 /\
   exportFilename d1 <> exportFilename d2).
Proof.
  intros d1 d2 F1 F2.
  assert (S : Snapshot.filename d1 = Snapshot.filename d2 -> d1 = d2).
  { intros E. unfold Snapshot.filename in E. inversion E as [E'].
    now apply ts_injective. }
  assert (X : exportFilename d1 = exportFilename d2 -> d1 = d2).
  { intros E. unfold exportFilename, timestamp in E. inversion E as [E'].
    now apply ts_injective. }
  split; [exact S | ]. split; [exact X | ].
  intros Hne. split; intros E; apply Hne; auto.
Qed.

(** Two snapshots, and two exports, one second apart. *)
Lemma snapshot_names_witness :
  Snapshot.filename (Snapshot.mkLocalTime 2026 0 5 9 3 7)
  = "family.snapshot.2026-01-05_09-03-07.json"%string /\
  exportFilename (Snapshot.mkLocalTime 2026 0 5 9 3 8)
  = "family-tree.2026-01-05_09-03-08.json"%string /\
  Snapshot.filename (Snapshot.mkLocalTime 2026 0 5 9 3 7)
  <> Snapshot.filename (Snapshot.mkLocalTime 2026 0 5 9 3 8) /\
  exportFilename (Snapshot.mkLocalTime 2026 0 5 9 3 7)
  <> exportFilename (Snapshot.mkLocalTime 2026 0 5 9 3 8).
Proof.
  split; [vm_compute; reflexivity | ]. split; [vm_compute; reflexivity | ].
  apply (snapshot_names_distinct (Snapshot.mkLocalTime 2026 0 5 9 3 7)
           (Snapshot.mkLocalTime 2026 0 5 9 3 8)).
  - unfold localTimeFields; simpl; lia.
  - unfold localTimeFields; simpl; lia.
  - discriminate.
Defined.

(* ================================================================== *)
(** * The ids of the edges *)
(* ================================================================== *)

Lemma append_same_length : forall a a' r r' : string,
  String.length a = String.length a' ->
  (a ++ r)%string = (a' ++ r')%string -> a = a' /\ r = r'.
Proof.
  induction a as [ | c a IH]; intros [ | c' a'] r r' L H; simpl in *;
    try discriminate.
  - now split.
  - inversion H; subst c'. destruct (IH a' r r') as [-> ->]; auto.
Qed.

Lemma NoDup_map_on : forall (A B : Type) (f : A -> B) l,
  (forall x y, In x l -> In y l -> f x = f y -> x = y) ->
  NoDup l -> NoDup (map f l).
Proof.
  intros A B f. induction l as [ | a l IH]; intros Hinj Hnd; simpl;
    [constructor | ].
  inversion Hnd as [ | ? ? Hnot Hnd']; subst. constructor.
  - intros Hin. apply in_map_iff in Hin as [x [E Hx]].
    assert (x = a) by (apply Hinj; [now right | now left | assumption]).
    subst x. contradiction.
  - apply IH; [ | assumption]. intros x y Hx Hy. apply Hinj; now right.
Qed.

Lemma NoDup_flat_map : forall (A B : Type) (f : A -> list B) l,
  NoDup l ->
  (forall x, In x l -> NoDup (f x)) ->
  (forall x y z, In x l -> In y l -> In z (f x) -> In z (f y) -> x = y) ->
  NoDup (flat_map f l).
Proof.
  intros A B f. induction l as [ | a l IH]; intros Hnd Hin Hdis; simpl;
    [constructor | ].
  inversion Hnd as [ | ? ? Hnot Hnd']; subst.
  apply NoDup_app.
  - apply Hin. now left.
  - apply IH; [assumption | | ].
    + intros x Hx. apply Hin. now right.
    + intros x y z Hx Hy. apply Hdis; now right.
  - intros z Hz Hz'. apply in_flat_map in Hz' as [y [Hy Hzy]].
    assert (a = y) by (apply (Hdis a y z); [now left | now right | assumption ..]).
    subst y. contradiction.
Qed.

Lemma edge_ids_flat_map : forall people,
  map Edge.id (layoutEdges people)
  = flat_map
      (fun p => map (fun pid => ("e-" ++ pid ++ "-" ++ id p)%string)
                    (filter (JSSet.has (makeIdSet people)) (parentIds p)))
      people.
Proof.
  intros people. unfold layoutEdges.
  generalize (makeIdSet people). intros idSet.
  induction people as [ | p people IH]; [reflexivity | ].
  cbn [flat_map]. rewrite map_app, map_map. f_equal. exact IH.
Qed.

Lemma layoutEdges_ids_distinct : forall people n,
  uniqueIds people ->
  (forall p, In p people -> NoDup (parentIds p)) ->
  (forall p, In p people -> String.length (id p) = n) ->
  NoDup (map Edge.id (layoutEdges people)).
Proof.
  intros people n U Hp Hn. rewrite edge_ids_flat_map.
  assert (Hlen : forall p pid, In p people ->
            In pid (filter (JSSet.has (makeIdSet people)) (parentIds p)) ->
            String.length pid = n).
  { intros p pid _ H. apply filter_In in H as [_ H].
    apply makeIdSet_In, in_map_iff in H as [q [<- Hq]]. now apply Hn. }
  apply NoDup_flat_map.
  - unfold uniqueIds in U. now apply NoDup_map_inv in U.
  - intros p Hin. apply NoDup_map_on.
    + intros x y Hx Hy E. simpl in E. inversion E as [E'].
      apply append_same_length in E' as [E' _]; [assumption | ].
      rewrite (Hlen p x), (Hlen p y); auto.
    + apply NoDup_filter. now apply Hp.
  - intros p q z Hpin Hqin Hz Hz'.
    apply in_map_iff in Hz as [x [<- Hx]].
    apply in_map_iff in Hz' as [y [E Hy]].
    simpl in E. inversion E as [E'].
    apply append_same_length in E' as [_ E'];
      [ | rewrite (Hlen p x), (Hlen q y); auto].
    inversion E' as [E'']. apply (uniqueIds_eq people); auto.
Qed.

(** Without ids of one length two edges can share an id: [e-a-b-c] joins
    [a-b] to [c], and [a] to [b-c]. *)
Lemma edge_ids_collide_with_hyphens :
  uniqueIds hyphenPeople /\
  ~ NoDup (map Edge.id (layoutEdges hyphenPeople)).
Proof.
  split.
  - unfold uniqueIds. simpl. repeat constructor; simpl; intuition discriminate.
  - vm_compute. intros H. inversion H as [ | ? ? Hnot _]; subst.
    apply Hnot. now left.
Qed.

(** X27.  No two edges of the layout share an id, when the ids of the
    persons are distinct and all of one length (as the uuids of the app
    are) and no person lists a parent twice. *)
Theorem layout_edge_ids_distinct :
  forall (localeCompare : string -> string -> float) (people : list Person)
         (n : nat),
  uniqueIds people ->
  (forall p, In p people -> NoDup (parentIds p)) ->
  (forall p, In p people -> String.length (id p) = n) ->
  NoDup (map Edge.id (edges (computeLayout localeCompare people))).
Proof.
  intros localeCompare people n U Hp Hn. unfold computeLayout.
  destruct (length people =? 0); simpl; [constructor | ].
  now apply layoutEdges_ids_distinct with n.
Qed.

Lemma layout_edge_ids_witness :
  NoDup (map Edge.id (edges (computeLayout codeUnitCompare family))).
Proof.
  apply (layout_edge_ids_distinct codeUnitCompare family 1).
  - exact family_unique.
  - intros p [<- | [<- | [<- | []]]]; simpl; repeat constructor;
      simpl; intuition discriminate.
  - intros p [<- | [<- | [<- | []]]]; reflexivity.
Defined.

(* ================================================================== *)
(** * The create-parent flow *)
(* ================================================================== *)

Lemma create_parent_save : forall prev t saved,
  uniqueIds (people prev) -> t <> EmptyString ->
  ~ In (id saved) (map id (people prev)) ->
  Forall2
    (fun p q => id q = id p /\
                parentIds q = if hasId t p
                              then parentsAfterLink (id saved) (parentIds p)
                              else parentIds p)
    (people prev ++ [saved])
    (people (savePerson saved (Some (mkModalContext (Some t) None None)) prev)).
Proof.
  intros prev t saved U Ht Hnew. unfold savePerson. simpl.
  assert (U0 : upsertPerson saved (people prev) = people prev ++ [saved]).
  { unfold upsertPerson.
    destruct (JSArray.findIndex (hasId (id saved)) (people prev)) as [idx | ] eqn:E;
      [ | reflexivity].
    destruct (findIndex_Some _ _ _ _ E) as [x [Hx Hid]]. apply hasId_true in Hid.
    exfalso. apply Hnew. rewrite <- Hid. apply in_map.
    now apply nth_error_In with idx. }
  rewrite U0.
  assert (UN : uniqueIds (people prev ++ [saved])).
  { rewrite <- U0. now apply upsertPerson_spec. }
  unfold linkParent, linkSibling. simpl.
  destruct (String.eqb_spec t EmptyString) as [ | _]; [contradiction | ].
  rewrite update_found_by_id by assumption.
  set (N1 := modifyById t _ (people prev ++ [saved])).
  pose proof (syncSiblings_sameParents saved N1) as SP.
  assert (M : Forall2
    (fun p q => id q = id p /\
                parentIds q = if hasId t p
                              then parentsAfterLink (id saved) (parentIds p)
                              else parentIds p)
    (people prev ++ [saved]) N1).
  { unfold N1, modifyById. apply Forall2_map_r. intros p _.
    destruct (hasId t p); [ | now split].
    unfold parentsAfterLink.
    destruct (negb (JSArray.includes (parentIds p) (id saved))
              && (length (parentIds p) <? 2)); now split. }
  clear - M SP. revert SP. generalize (syncSiblings saved N1). intros N3 SP.
  revert N3 SP. induction M as [ | p q l l' [E P] _ IH]; intros N3 SP;
    inversion SP as [ | ? r ? l3 [E3 P3] SP']; subst; constructor.
  - split; congruence.
  - now apply IH.
Qed.

(** X28.  The create-parent flow as a whole.  After [handleCreateParent]
    for a person [target] of the graph, the save of a new person adds it to
    the graph with the parents it was built with, and appends it to the
    parents of [target] when [target] has fewer than two parents; when
    [target] has two parents already the new person is added all the same,
    linked to nobody.  The parents of every other person stay as they were. *)
Theorem create_parent_flow :
  forall (s : AppState) (t now : string) (target saved : Person),
  uniqueIds (people (data s)) ->
  t <> EmptyString ->
  find (hasId t) (people (data s)) = Some target ->
  ~ In (id saved) (map id (people (data s))) ->
  exists cur target',
    In cur (people (data (handleModalSave saved now (handleCreateParent t s)))) /\
    In target' (people (data (handleModalSave saved now (handleCreateParent t s)))) /\
    id cur = id saved /\ parentIds cur = parentIds saved /\
    id target' = t /\
    parentIds target' = parentsAfterLink (id saved) (parentIds target) /\
    (forall q, In q (people (data s)) -> id q <> t ->
       exists q', In q' (people (data (handleModalSave saved now
                                         (handleCreateParent t s)))) /\
                  id q' = id q /\ parentIds q' = parentIds q).
Proof.
  intros s t now target saved U Ht Hfind Hnew.
  destruct (find_hasId _ _ _ Hfind) as [Hin Hid].
  unfold handleModalSave, handleCreateParent, closeModal, setCells,
    handleSavePerson, mutate. simpl.
  pose proof (create_parent_save (data s) t saved U Ht Hnew) as F.
  assert (Hs : hasId t saved = false).
  { apply hasId_false. intros E. apply Hnew. rewrite E, <- Hid. now apply in_map. }
  destruct (Forall2_In_l _ _ _ _ F
              (in_or_app _ _ _ (or_intror (in_eq saved []))))
    as [cur [Hcur [Ec Pc]]].
  destruct (Forall2_In_l _ _ _ _ F (in_or_app _ _ _ (or_introl Hin)))
    as [target' [Ht' [Et Pt]]].
  exists cur, target'. rewrite Hs in Pc.
  assert (Htt : hasId t target = true) by now apply hasId_true.
  rewrite Htt in Pt.
  repeat split; try assumption; try congruence.
  intros q Hq Hne.
  destruct (Forall2_In_l _ _ _ _ F (in_or_app _ _ _ (or_introl Hq)))
    as [q' [Hq' [Eq Pq]]].
  exists q'. apply hasId_false in Hne. rewrite Hne in Pq. now repeat split.
Qed.

Lemma create_parent_flow_witness :
  exists cur target',
    In cur (people (data (handleModalSave dan "2026-01-02"
                            (handleCreateParent "C" familyLoaded)))) /\
    In target' (people (data (handleModalSave dan "2026-01-02"
                                (handleCreateParent "C" familyLoaded)))) /\
    id cur = "D"%string /\ parentIds cur = [] /\
    id target' = "C"%string /\
    parentIds target' = ["A"; "B"]%string /\
    (forall q, In q family -> id q <> "C"%string ->
       exists q', In q' (people (data (handleModalSave dan "2026-01-02"
                                         (handleCreateParent "C" familyLoaded)))) /\
                  id q' = id q /\ parentIds q' = parentIds q).
Proof.
  apply (create_parent_flow familyLoaded "C"%string "2026-01-02"%string
           (scenarioPerson "C" "Cyd" None ["A"; "B"]%string) dan).
  - exact family_unique.
  - discriminate.
  - reflexivity.
  - simpl. intuition discriminate.
Defined.

(* ================================================================== *)
(** * The checkboxes of the modal *)
(* ================================================================== *)

Lemma includes_snoc : forall l i, JSArray.includes (l ++ [i]) i = true.
Proof. intros l i. apply includes_In, in_or_app. right. now left. Qed.

(** X29.  The checkboxes of the modal.  Checking a box and unchecking it
    again gives back the very list: for an id that is not in the list, two
    clicks on the sibling box, and two clicks on the parent box (where the
    first click is ignored when two parents are there), restore the list.
    A click on the box of a listed id removes every entry of it; with two
    parents listed, a click on a third id changes nothing. *)
Theorem toggle_twice_restores :
  forall (i : string) (l : list string),
  ~ In i l ->
  handleSiblingToggle i (handleSiblingToggle i l) = l /\
  handleParentToggle i (handleParentToggle i l) = l /\
  (2 <= length l -> handleParentToggle i l = l) /\
  (forall j, In j l ->
     ~ In j (handleParentToggle j l) /\ ~ In j (handleSiblingToggle j l) /\
     ~ In j (handleRemoveExplicitSibling j l)).
Proof.
  intros i l Hi.
  assert (E : JSArray.includes l i = false).
  { destruct (JSArray.includes l i) eqn:E; [ | reflexivity].
    apply includes_In in E. contradiction. }
  assert (R : filter (fun x => negb (String.eqb x i)) (l ++ [i]) = l).
  { fold (without i (l ++ [i])). rewrite without_app_self.
    now apply without_absent. }
  split; [ | split; [ | split]].
  - unfold handleSiblingToggle. rewrite E, includes_snoc. exact R.
  - unfold handleParentToggle. rewrite E.
    destruct (2 <=? length l) eqn:L.
    + now rewrite E, L.
    + rewrite includes_snoc. exact R.
  - intros L. unfold handleParentToggle. rewrite E.
    apply Nat.leb_le in L. now rewrite L.
  - intros j Hj. apply includes_In in Hj.
    unfold handleParentToggle, handleSiblingToggle, handleRemoveExplicitSibling.
    rewrite Hj. fold (without j l). rewrite without_In. tauto.
Qed.

Lemma toggle_twice_witness :
  handleParentToggle "m" (handleParentToggle "m" ["f"%string]) = ["f"%string].
Proof.
  apply (toggle_twice_restores "m"%string ["f"%string]).
  simpl. intuition discriminate.
Defined.

(* ================================================================== *)
(** * A deleted person on the canvas *)
(* ================================================================== *)

Lemma deletePerson_ids : forall i prev,
  ~ In i (map id (people (deletePerson i prev))).
Proof.
  intros i prev H. apply in_map_iff in H as [q [E Hq]].
  rewrite deletePerson_stripped in Hq. apply in_map_iff in Hq as [p [<- Hp]].
  apply filter_In in Hp as [_ Hp]. apply negb_true_iff, String.eqb_neq in Hp.
  simpl in E. contradiction.
Qed.

(** X30.  A deleted person leaves the canvas: in the layout of the graph
    after the delete of [X], no position is kept for [X] and no edge starts
    or ends at [X]; every person that stays keeps a position. *)
Theorem deleted_person_leaves_canvas :
  forall (localeCompare : string -> string -> float) (X now : string)
         (prev : FamilyData),
  JSMap.get String.eqb
    (positions (computeLayout localeCompare
                  (people (handleDeletePerson X now prev)))) X = None /\
  (forall e, In e (edges (computeLayout localeCompare
                            (people (handleDeletePerson X now prev)))) ->
     Edge.source e <> X /\ Edge.target e <> X) /\
  (forall p, In p (people prev) -> id p <> X ->
     JSMap.get String.eqb
       (positions (computeLayout localeCompare
                     (people (handleDeletePerson X now prev)))) (id p) <> None).
Proof.
  intros localeCompare X now prev.
  unfold handleDeletePerson, mutate. cbn [people].
  pose proof (deletePerson_ids X prev) as Hx.
  set (next := people (deletePerson X prev)) in *.
  split; [ | split].
  - destruct (JSMap.get String.eqb (positions (computeLayout localeCompare next)) X)
      as [pos | ] eqn:G; [ | reflexivity].
    exfalso. apply Hx. apply (computeLayout_position_keys localeCompare).
    rewrite G. discriminate.
  - intros e He.
    assert (He' : In e (layoutEdges next)).
    { unfold computeLayout in He. destruct (length next =? 0); [destruct He | exact He]. }
    apply layoutEdges_In in He' as [p [pid [Hp [_ [Hpid ->]]]]]. simpl. split.
    + intros ->. contradiction.
    + intros E. apply Hx. rewrite <- E. now apply in_map.
  - intros p Hp Hne. apply computeLayout_position_keys.
    unfold next. rewrite deletePerson_stripped, map_map. simpl.
    apply in_map_iff. exists p. split; [reflexivity | ].
    apply filter_In. split; [assumption | ].
    now apply negb_true_iff, String.eqb_neq.
Qed.
